(** * TSaCt2 Boolean-network engine: a shallow embedding and its properties

    The development follows the C++ sources [gate.cpp], [booleannet.cpp]
    and [aagloader.cpp].  Gates live in a store addressed by naturals; a
    [Gate *] is an optional address, [None] being [NULL].  Code that
    dereferences pointers runs in a state-and-failure monad over the store:
    a null or dangling dereference, or a recursion that exhausts its fuel,
    yields [None]. *)

From Stdlib Require Import ZArith Lia Ascii String.
From stdpp Require Import prelude strings pretty.

Local Open Scope Z_scope.

(** ** Machine integers ([int] and [unsigned int] are 32 bits wide) *)

Definition INT_MAX : Z := 2147483647.

(** Conversion to [unsigned int]: reduction modulo 2^32. *)
Definition to_unsigned (z : Z) : Z := z mod 4294967296.

(** Conversion to [int]: the two's-complement representative. *)
Definition to_int (z : Z) : Z := (z + 2147483648) mod 4294967296 - 2147483648.

(** ** [types.h] *)

Inductive gateFunction_t := BUFFER | AND | OR | XOR.

Inductive gatePlacement_t := INPUT | INNER | OUTPUT.

Record scoap_t := { cc0 : Z; cc1 : Z; co : Z }.

Definition COLORS_EMPTY : Z := 0.

Global Instance gateFunction_eq_dec : EqDecision gateFunction_t.
Proof. solve_decision. Defined.

Global Instance gatePlacement_eq_dec : EqDecision gatePlacement_t.
Proof. solve_decision. Defined.

(** ** [gate.h]: the [Gate] class *)

(** A [Gate *]: [None] is [NULL], [Some a] points at slot [a] of the store. *)
Abbreviation ptr := (option nat).

Abbreviation NULL := (@None nat).

(** The data members of [Gate].  [delay], [gateModel], [inTreeSize] and
    [outTreeSize] are left out: nothing modelled here reads them. *)
Record Gate := {
  inputs : list ptr;
  inputInverters : list bool;
  followingGates : list ptr;
  outputInverter : bool;
  placed : bool;
  placeX : Z;
  placeY : Z;
  outputValue : bool;
  complementaryGate : ptr;
  gateFunction : gateFunction_t;
  gatePlacement : gatePlacement_t;
  gateName : string;
  depth : Z;
  scoapParams : scoap_t;
  color : Z
}.

Definition set_inputs (v : list ptr) (g : Gate) : Gate :=
  {| inputs := v; inputInverters := inputInverters g;
     followingGates := followingGates g; outputInverter := outputInverter g;
     placed := placed g; placeX := placeX g; placeY := placeY g;
     outputValue := outputValue g; complementaryGate := complementaryGate g;
     gateFunction := gateFunction g; gatePlacement := gatePlacement g;
     gateName := gateName g; depth := depth g; scoapParams := scoapParams g;
     color := color g |}.

Definition set_inputInverters (v : list bool) (g : Gate) : Gate :=
  {| inputs := inputs g; inputInverters := v;
     followingGates := followingGates g; outputInverter := outputInverter g;
     placed := placed g; placeX := placeX g; placeY := placeY g;
     outputValue := outputValue g; complementaryGate := complementaryGate g;
     gateFunction := gateFunction g; gatePlacement := gatePlacement g;
     gateName := gateName g; depth := depth g; scoapParams := scoapParams g;
     color := color g |}.

Definition set_followingGates (v : list ptr) (g : Gate) : Gate :=
  {| inputs := inputs g; inputInverters := inputInverters g;
     followingGates := v; outputInverter := outputInverter g;
     placed := placed g; placeX := placeX g; placeY := placeY g;
     outputValue := outputValue g; complementaryGate := complementaryGate g;
     gateFunction := gateFunction g; gatePlacement := gatePlacement g;
     gateName := gateName g; depth := depth g; scoapParams := scoapParams g;
     color := color g |}.

Definition set_outputInverter (b : bool) (g : Gate) : Gate :=
  {| inputs := inputs g; inputInverters := inputInverters g;
     followingGates := followingGates g; outputInverter := b;
     placed := placed g; placeX := placeX g; placeY := placeY g;
     outputValue := outputValue g; complementaryGate := complementaryGate g;
     gateFunction := gateFunction g; gatePlacement := gatePlacement g;
     gateName := gateName g; depth := depth g; scoapParams := scoapParams g;
     color := color g |}.

Definition set_place (p : bool) (x y : Z) (g : Gate) : Gate :=
  {| inputs := inputs g; inputInverters := inputInverters g;
     followingGates := followingGates g; outputInverter := outputInverter g;
     placed := p; placeX := x; placeY := y;
     outputValue := outputValue g; complementaryGate := complementaryGate g;
     gateFunction := gateFunction g; gatePlacement := gatePlacement g;
     gateName := gateName g; depth := depth g; scoapParams := scoapParams g;
     color := color g |}.

Definition set_outputValue (b : bool) (g : Gate) : Gate :=
  {| inputs := inputs g; inputInverters := inputInverters g;
     followingGates := followingGates g; outputInverter := outputInverter g;
     placed := placed g; placeX := placeX g; placeY := placeY g;
     outputValue := b; complementaryGate := complementaryGate g;
     gateFunction := gateFunction g; gatePlacement := gatePlacement g;
     gateName := gateName g; depth := depth g; scoapParams := scoapParams g;
     color := color g |}.

Definition set_complementaryGate (p : ptr) (g : Gate) : Gate :=
  {| inputs := inputs g; inputInverters := inputInverters g;
     followingGates := followingGates g; outputInverter := outputInverter g;
     placed := placed g; placeX := placeX g; placeY := placeY g;
     outputValue := outputValue g; complementaryGate := p;
     gateFunction := gateFunction g; gatePlacement := gatePlacement g;
     gateName := gateName g; depth := depth g; scoapParams := scoapParams g;
     color := color g |}.

Definition set_gateFunction (fn : gateFunction_t) (g : Gate) : Gate :=
  {| inputs := inputs g; inputInverters := inputInverters g;
     followingGates := followingGates g; outputInverter := outputInverter g;
     placed := placed g; placeX := placeX g; placeY := placeY g;
     outputValue := outputValue g; complementaryGate := complementaryGate g;
     gateFunction := fn; gatePlacement := gatePlacement g;
     gateName := gateName g; depth := depth g; scoapParams := scoapParams g;
     color := color g |}.

Definition set_gatePlacement (pl : gatePlacement_t) (g : Gate) : Gate :=
  {| inputs := inputs g; inputInverters := inputInverters g;
     followingGates := followingGates g; outputInverter := outputInverter g;
     placed := placed g; placeX := placeX g; placeY := placeY g;
     outputValue := outputValue g; complementaryGate := complementaryGate g;
     gateFunction := gateFunction g; gatePlacement := pl;
     gateName := gateName g; depth := depth g; scoapParams := scoapParams g;
     color := color g |}.

Definition set_depth (d : Z) (g : Gate) : Gate :=
  {| inputs := inputs g; inputInverters := inputInverters g;
     followingGates := followingGates g; outputInverter := outputInverter g;
     placed := placed g; placeX := placeX g; placeY := placeY g;
     outputValue := outputValue g; complementaryGate := complementaryGate g;
     gateFunction := gateFunction g; gatePlacement := gatePlacement g;
     gateName := gateName g; depth := d; scoapParams := scoapParams g;
     color := color g |}.

(** [Gate::Gate(string gateName)] *)
Definition Gate_new (name : string) : Gate :=
  {| inputs := []; inputInverters := []; followingGates := [];
     outputInverter := false;
     placed := false; placeX := 0; placeY := 0;
     outputValue := false; complementaryGate := NULL;
     gateFunction := BUFFER; gatePlacement := INNER;
     gateName := name; depth := 0;
     scoapParams := {| cc0 := INT_MAX; cc1 := INT_MAX; co := INT_MAX |};
     color := COLORS_EMPTY |}.

(** *** Members that touch only the receiving object *)

Definition isPlaced (g : Gate) : bool := placed g.

Definition getPlaceXCoord (g : Gate) : Z :=
  if placed g then placeX g else -1.

Definition getPlaceYCoord (g : Gate) : Z :=
  if placed g then placeY g else -1.

Definition placeGate (x y : Z) (g : Gate) : Gate := set_place true x y g.

Definition setPlacement (pl : gatePlacement_t) (g : Gate) : Gate :=
  set_gatePlacement pl g.

Definition getPlacement (g : Gate) : gatePlacement_t := gatePlacement g.

Definition setFunction (fn : gateFunction_t) (g : Gate) : Gate :=
  set_gateFunction fn g.

Definition getFunction (g : Gate) : gateFunction_t := gateFunction g.

Definition getName (g : Gate) : string := gateName g.

Definition getOutputValue (g : Gate) : bool := outputValue g.

Definition setOutputValue (newOutput : bool) (g : Gate) : Gate :=
  set_outputValue newOutput g.

Definition resetDepth (g : Gate) : Gate := set_depth 0 g.

Definition getDepth (g : Gate) : Z := depth g.

Definition getFanOut (g : Gate) : nat := length (followingGates g).

Definition getFanIn (g : Gate) : nat := length (inputs g).

(** [Gate::newFollow]: a null follower is ignored, any other one is
    inserted at [begin()]. *)
Definition newFollow (follow : ptr) (g : Gate) : Gate :=
  match follow with
  | None => g
  | Some _ => set_followingGates (follow :: followingGates g) g
  end.

(** The scan of [Gate::remFollow]: [i] runs over the current size of the
    vector and is incremented after every step, also after an [erase].  The
    vector never grows, so [length v] steps of fuel reach the loop exit. *)
Fixpoint remFollow_loop (fuel : nat) (follow : ptr) (i : nat) (v : list ptr)
  : list ptr :=
  match fuel with
  | O => v
  | S fuel' =>
      if (i <? length v)%nat then
        if decide (v !! i = Some follow)
        then remFollow_loop fuel' follow (S i) (delete i v)
        else remFollow_loop fuel' follow (S i) v
      else v
  end.

Definition remFollow (follow : ptr) (g : Gate) : Gate :=
  match follow with
  | None => g
  | Some _ =>
      set_followingGates
        (remFollow_loop (length (followingGates g)) follow 0 (followingGates g)) g
  end.

(** [Gate::getFollow]: [NULL] for an index out of range. *)
Definition getFollow (i : nat) (g : Gate) : ptr :=
  default NULL (followingGates g !! i).

Definition setOutputInverting (g : Gate) : Gate := set_outputInverter true g.

Definition setOutputNonInverting (g : Gate) : Gate := set_outputInverter false g.

Definition isOutputInverting (g : Gate) : bool := outputInverter g.

(** The scan of [Gate::remInput]: as [remFollow_loop], erasing position [i]
    of both [inputs] and [inputInverters]. *)
Fixpoint remInput_loop (fuel : nat) (pred : ptr) (i : nat)
    (v : list ptr) (w : list bool) : list ptr * list bool :=
  match fuel with
  | O => (v, w)
  | S fuel' =>
      if (i <? length v)%nat then
        if decide (v !! i = Some pred)
        then remInput_loop fuel' pred (S i) (delete i v) (delete i w)
        else remInput_loop fuel' pred (S i) v w
      else (v, w)
  end.

Definition remInput (pred : ptr) (g : Gate) : Gate :=
  match pred with
  | None => g
  | Some _ =>
      let r := remInput_loop (length (inputs g)) pred 0
                 (inputs g) (inputInverters g) in
      set_inputInverters r.2 (set_inputs r.1 g)
  end.

(** [Gate::getDriver]: [NULL] for an index out of range. *)
Definition getDriver (i : nat) (g : Gate) : ptr :=
  default NULL (inputs g !! i).

(** [Gate::isInputInverting]: [false] for an index out of range. *)
Definition isInputInverting (i : nat) (g : Gate) : bool :=
  default false (inputInverters g !! i).

(** [Gate::setInputInverting] / [setInputNonInverting]: nothing happens for an
    index out of range, which is what the list update does. *)
Definition setInputInverting (i : nat) (g : Gate) : Gate :=
  set_inputInverters (<[i := true]> (inputInverters g)) g.

Definition setInputNonInverting (i : nat) (g : Gate) : Gate :=
  set_inputInverters (<[i := false]> (inputInverters g)) g.

Definition getComplement (g : Gate) : ptr := complementaryGate g.

Definition setComplement (gate : ptr) (g : Gate) : Gate :=
  set_complementaryGate gate g.

(** ** The gate store and the monad of pointer-manipulating code *)

Abbreviation heap := (list Gate).

Definition M (A : Type) : Type := heap → option (A * heap).

Definition ret {A} (x : A) : M A := λ h, Some (x, h).

Definition bind {A B} (m : M A) (f : A → M B) : M B :=
  λ h, match m h with
       | Some (x, h') => f x h'
       | None => None
       end.

(** Undefined behaviour (null or dangling dereference, [vector::at] out of
    range) and exhausted fuel. *)
Definition fail {A} : M A := λ _, None.

Declare Scope M_scope.
Delimit Scope M_scope with M.
Notation "x <- m ;; k" := (bind m (λ x, k))
  (at level 100, m at next level, right associativity) : M_scope.
Notation "m ;;; k" := (bind m (λ _, k))
  (at level 100, right associativity) : M_scope.
Local Open Scope M_scope.

(** [p->getter()] *)
Definition query {A} (p : ptr) (getter : Gate → A) : M A :=
  λ h, match p with
       | None => None
       | Some a => match h !! a with
                   | Some g => Some (getter g, h)
                   | None => None
                   end
       end.

(** [p->method(...)], for a method that updates the receiving object only *)
Definition call (p : ptr) (method : Gate → Gate) : M unit :=
  λ h, match p with
       | None => None
       | Some a => match h !! a with
                   | Some g => Some (tt, <[a := method g]> h)
                   | None => None
                   end
       end.

(** [new Gate(name)]: the fresh object takes the next free slot. *)
Definition new_Gate (name : string) : M ptr :=
  λ h, Some (Some (length h), h ++ [Gate_new name]).

(** [v.at(i)] *)
Definition at_ {A} (v : list A) (i : nat) : M A :=
  match v !! i with
  | Some x => ret x
  | None => fail
  end.

(** [for (int i = 0; i < bound(); i++) body(i)].  The bound is read again
    before every iteration, as in the source.  The number of iterations the
    model is prepared to run is the bound found on entry; should the bound
    still admit [i] after that many iterations (it grew), the model gives no
    result. *)
Section for_loop.
Context (bound : M nat) (body : nat → M unit).

Fixpoint for_go (k : nat) (i : nat) : M unit :=
  n <- bound ;;
  if (i <? n)%nat then
    match k with
    | O => fail
    | S k' => body i ;;; for_go k' (S i)
    end
  else ret tt.

Definition for_loop : M unit := n <- bound ;; for_go n 0.

End for_loop.

(** Iteration over a vector that the body cannot reach (a member of the
    network object, or a local): [for (i = 0; i < v.size(); i++) body(i, v.at(i))]. *)
Fixpoint for_each {A} (body : nat → A → M unit) (i : nat) (v : list A) : M unit :=
  match v with
  | [] => ret tt
  | x :: v' => body i x ;;; for_each body (S i) v'
  end.

(** Signed addition and subtraction with wrap-around. *)
Definition int_add (a b : Z) : Z := to_int (a + b).

Definition int_sub (a b : Z) : Z := to_int (a - b).

(** *** Members that reach other gates *)

(** [Gate::setDepth].  [depth] is an [int] and [d] an [unsigned int]: the
    comparison is unsigned and the assignment converts back.  The recursion
    follows the follower lists and is bounded by [fuel]. *)
Fixpoint setDepth (fuel : nat) (this : ptr) (d : Z) : M bool :=
  match fuel with
  | O => fail
  | S fuel' =>
      cur <- query this depth ;;
      if to_unsigned cur <? d then
        call this (set_depth (to_int d)) ;;;
        for_loop (query this (λ g, length (followingGates g)))
          (λ i, v <- query this followingGates ;;
                f <- at_ v i ;;
                dd <- query this depth ;;
                setDepth fuel' f (to_unsigned (int_add dd 1)) ;;; ret tt) ;;;
        ret true
      else ret false
  end.

(** [Gate::newInput] *)
Definition newInput (fuel : nat) (this pred : ptr) (isInverting : bool) : M unit :=
  query this id ;;;
  match pred with
  | None => ret tt
  | Some _ =>
      call this (λ g, set_inputs (pred :: inputs g) g) ;;;
      call this (λ g, set_inputInverters (isInverting :: inputInverters g) g) ;;;
      d <- query pred getDepth ;;
      setDepth fuel this (to_unsigned (int_add d 1)) ;;; ret tt
  end.

(** [Gate::swapDriver]: the loop leaves at the first slot holding
    [oldDriver] ([break]); [list_find] yields that slot. *)
Definition swapDriver (fuel : nat) (this oldDriver newDriver : ptr) : M unit :=
  v <- query this inputs ;;
  match list_find (λ x, x = oldDriver) v with
  | None => ret tt
  | Some (i, _) =>
      call this (λ g, set_inputs (<[i := newDriver]> (inputs g)) g) ;;;
      match newDriver with
      | None => ret tt
      | Some _ =>
          d <- query newDriver getDepth ;;
          setDepth fuel this (to_unsigned (int_add d 1)) ;;; ret tt
      end
  end.

(** [getDriver(i)->getOutputValue() ^ isInputInverting(i)] *)
Definition drivenValue (this : ptr) (i : nat) : M bool :=
  d <- query this (getDriver i) ;;
  v <- query d getOutputValue ;;
  inv <- query this (isInputInverting i) ;;
  ret (xorb v inv).

(** One [for] loop of [computeOutputValue], folding [op] over the inputs. *)
Fixpoint fold_inputs (op : bool → bool → bool) (this : ptr)
    (k i : nat) (result : bool) : M bool :=
  n <- query this getFanIn ;;
  if (i <? n)%nat then
    match k with
    | O => fail
    | S k' => v <- drivenValue this i ;; fold_inputs op this k' (S i) (op result v)
    end
  else ret result.

Definition case_AND (this : ptr) : M bool :=
  n <- query this getFanIn ;; fold_inputs andb this n 0 true.

Definition case_OR (this : ptr) : M bool :=
  n <- query this getFanIn ;; fold_inputs orb this n 0 false.

Definition case_XOR (this : ptr) : M bool :=
  n <- query this getFanIn ;; fold_inputs xorb this n 0 false.

Definition case_BUFFER (this : ptr) (result : bool) : M bool :=
  v <- drivenValue this 0 ;; ret (xorb result v).

(** [Gate::computeOutputValue].  The [switch] has no [break]: control enters
    at the label of the gate's function and runs through every later label.
    [result] is declared without an initial value; [uninit] stands for
    whatever it holds when the [BUFFER] label is entered directly. *)
Definition computeOutputValue (uninit : bool) (this : ptr) : M unit :=
  fn <- query this getFunction ;;
  result <-
    match fn with
    | AND => case_AND this ;;; case_OR this ;;; r <- case_XOR this ;; case_BUFFER this r
    | OR => case_OR this ;;; r <- case_XOR this ;; case_BUFFER this r
    | XOR => r <- case_XOR this ;; case_BUFFER this r
    | BUFFER => case_BUFFER this uninit
    end ;;
  inv <- query this isOutputInverting ;;
  if inv then call this (set_outputValue (negb result))
  else call this (set_outputValue result).

(** ** [booleannet.h]: the [BooleanNet] class *)

(** The data members of [BooleanNet] ([netAvgFanOut], a [float], is left
    out).  The network object is passed explicitly; its gates live in the
    store. *)
Module Net.

Record BooleanNet := {
  gates : list ptr;
  inputs : list ptr;
  outputs : list ptr;
  buffers : list ptr;
  netDepth : Z;
  netSumScoap : Z;
  netPlaced : bool
}.

Definition set_gates (v : list ptr) (n : BooleanNet) : BooleanNet :=
  {| gates := v; inputs := inputs n; outputs := outputs n;
     buffers := buffers n; netDepth := netDepth n;
     netSumScoap := netSumScoap n; netPlaced := netPlaced n |}.

Definition set_inputs (v : list ptr) (n : BooleanNet) : BooleanNet :=
  {| gates := gates n; inputs := v; outputs := outputs n;
     buffers := buffers n; netDepth := netDepth n;
     netSumScoap := netSumScoap n; netPlaced := netPlaced n |}.

Definition set_outputs (v : list ptr) (n : BooleanNet) : BooleanNet :=
  {| gates := gates n; inputs := inputs n; outputs := v;
     buffers := buffers n; netDepth := netDepth n;
     netSumScoap := netSumScoap n; netPlaced := netPlaced n |}.

Definition set_buffers (v : list ptr) (n : BooleanNet) : BooleanNet :=
  {| gates := gates n; inputs := inputs n; outputs := outputs n;
     buffers := v; netDepth := netDepth n;
     netSumScoap := netSumScoap n; netPlaced := netPlaced n |}.

Definition set_netDepth (d : Z) (n : BooleanNet) : BooleanNet :=
  {| gates := gates n; inputs := inputs n; outputs := outputs n;
     buffers := buffers n; netDepth := d;
     netSumScoap := netSumScoap n; netPlaced := netPlaced n |}.

End Net.

(** [sprintf(tmp_buff, "<prefix>%d", i)] followed by [new Gate(tmp_buff)] and
    the set-up [init] of the new object, for [i] in [[i, i + k)]. *)
Fixpoint new_gates (prefix : string) (init : ptr → M unit) (k i : nat)
  : M (list ptr) :=
  match k with
  | O => ret []
  | S k' =>
      p <- new_Gate (prefix +:+ pretty i) ;;
      init p ;;;
      rest <- new_gates prefix init k' (S i) ;;
      ret (p :: rest)
  end.

(** [BooleanNet::BooleanNet(in, out, gates)] *)
Definition BooleanNet_new (fuel : nat) (in_ out gates_ : nat) : M Net.BooleanNet :=
  ins <- new_gates "INPUT_"
           (λ p, call p (setFunction BUFFER) ;;;
                 call p (setPlacement INPUT) ;;;
                 setDepth fuel p 0 ;;; ret tt) in_ 0 ;;
  gs <- new_gates "GATE_" (λ p, call p (setPlacement INNER)) gates_ 0 ;;
  outs <- new_gates "OUT_"
            (λ p, call p (setFunction BUFFER) ;;;
                  call p (setPlacement OUTPUT)) out 0 ;;
  ret {| Net.gates := gs; Net.inputs := ins; Net.outputs := outs; Net.buffers := [];
         Net.netDepth := 0; Net.netSumScoap := 0; Net.netPlaced := false |}.

(** [BooleanNet::getGate] / [getInput] / [getOutput]: the index is an
    [unsigned int]; [NULL] out of range. *)
Definition getGate (net : Net.BooleanNet) (gateNr : Z) : ptr :=
  if gateNr <? Z.of_nat (length (Net.gates net))
  then default NULL (Net.gates net !! Z.to_nat gateNr)
  else NULL.

Definition getInput (net : Net.BooleanNet) (inpNr : Z) : ptr :=
  if inpNr <? Z.of_nat (length (Net.inputs net))
  then default NULL (Net.inputs net !! Z.to_nat inpNr)
  else NULL.

Definition getOutput (net : Net.BooleanNet) (outNr : Z) : ptr :=
  if outNr <? Z.of_nat (length (Net.outputs net))
  then default NULL (Net.outputs net !! Z.to_nat outNr)
  else NULL.

(** [BooleanNet::remOutput] *)
Definition remOutput (outNr : Z) (net : Net.BooleanNet) : Net.BooleanNet :=
  if outNr <? Z.of_nat (length (Net.outputs net))
  then Net.set_outputs (delete (Z.to_nat outNr) (Net.outputs net)) net
  else net.

(** The loop of [BooleanNet::computeNetDepth]: [getDepth()] is an [int]
    compared with, and assigned to, the [unsigned int] member [netDepth]. *)
Fixpoint computeNetDepth_loop (outs : list ptr) (nd : Z) : M Z :=
  match outs with
  | [] => ret nd
  | o :: outs' =>
      d <- query o getDepth ;;
      computeNetDepth_loop outs'
        (if to_unsigned d >? nd then to_unsigned d else nd)
  end.

Definition computeNetDepth (net : Net.BooleanNet) : M Net.BooleanNet :=
  nd <- computeNetDepth_loop (Net.outputs net) (Net.netDepth net) ;;
  ret (Net.set_netDepth nd net).

Definition getNetDepth (net : Net.BooleanNet) : Z := to_int (Net.netDepth net).

(** [BooleanNet::convdual_getComplementaryGateFn] *)
Definition convdual_getComplementaryGateFn (fn : gateFunction_t) : gateFunction_t :=
  match fn with
  | AND => OR
  | OR => AND
  | _ => BUFFER
  end.

(** [for (i = 0; i < v.size(); i++) { ...; out.push_back(f(v.at(i))); }]
    for a vector [v] the body cannot reach. *)
Fixpoint map_M {A B} (f : A → M B) (v : list A) : M (list B) :=
  match v with
  | [] => ret []
  | x :: v' => y <- f x ;; ys <- map_M f v' ;; ret (y :: ys)
  end.

(** *** [BooleanNet::convDualRail] *)

(** Body of the loop "duplicate gates". *)
Definition dup_gate (fuel : nat) (g : ptr) : M ptr :=
  name <- query g getName ;;
  gate <- new_Gate ("D_" +:+ name) ;;
  fn <- query g getFunction ;;
  call gate (setFunction (convdual_getComplementaryGateFn fn)) ;;;
  pl <- query g getPlacement ;;
  call gate (setPlacement pl) ;;;
  call gate (setComplement g) ;;;
  call g (setComplement gate) ;;;
  oi <- query g isOutputInverting ;;
  (if oi then call gate setOutputInverting else ret tt) ;;;
  for_loop (query g getFanIn)
    (λ j, d <- query g (getDriver j) ;;
          inv <- query g (isInputInverting j) ;;
          newInput fuel gate d (negb inv) ;;;
          d' <- query g (getDriver j) ;;
          call d' (newFollow gate)) ;;;
  ret gate.

(** Body of the loop "duplicate inputs". *)
Definition dup_input (fuel : nat) (inp : ptr) : M ptr :=
  name <- query inp getName ;;
  in_ <- new_Gate ("D_" +:+ name) ;;
  call in_ (setFunction BUFFER) ;;;
  call in_ (setPlacement INPUT) ;;;
  newInput fuel in_ inp false ;;;
  call inp (newFollow in_) ;;;
  call in_ setOutputInverting ;;;
  call in_ resetDepth ;;;
  call in_ (setComplement inp) ;;;
  call inp (setComplement in_) ;;;
  ret in_.

(** The block of "duplicate outputs" guarded by
    [outputs.at(i)->isInputInverting(0)]. *)
Definition swap_output_rails (fuel : nat) (o : ptr) : M unit :=
  call o (setInputNonInverting 0) ;;;
  old <- query o (getDriver 0) ;;
  oc <- query o getComplement ;;
  new <- query oc (getDriver 0) ;;
  swapDriver fuel o old new ;;;
  oc <- query o getComplement ;;
  old <- query oc (getDriver 0) ;;
  d <- query o (getDriver 0) ;;
  new <- query d getComplement ;;
  swapDriver fuel oc old new ;;;
  d <- query o (getDriver 0) ;;
  oc <- query o getComplement ;;
  call d (remFollow oc) ;;;
  d <- query o (getDriver 0) ;;
  call d (newFollow o) ;;;
  oc <- query o getComplement ;;
  d <- query oc (getDriver 0) ;;
  call d (remFollow o) ;;;
  oc <- query o getComplement ;;
  d <- query oc (getDriver 0) ;;
  oc' <- query o getComplement ;;
  call d (newFollow oc').

(** Body of the loop "duplicate outputs". *)
Definition dup_output (fuel : nat) (o : ptr) : M ptr :=
  name <- query o getName ;;
  out <- new_Gate ("D_" +:+ name) ;;
  fn <- query o getFunction ;;
  call out (setFunction fn) ;;;
  pl <- query o getPlacement ;;
  call out (setPlacement pl) ;;;
  call out (setComplement o) ;;;
  call o (setComplement out) ;;;
  d <- query o (getDriver 0) ;;
  c <- query d getComplement ;;
  newInput fuel out c false ;;;
  d <- query o (getDriver 0) ;;
  c <- query d getComplement ;;
  call c (newFollow out) ;;;
  inv <- query o (isInputInverting 0) ;;
  (if inv then swap_output_rails fuel o else ret tt) ;;;
  ret out.

(** Body of the first "remove inverters" loop: an inverting output is moved
    onto the input slots of the followers that are driven by [g]. *)
Definition move_inverter (g : ptr) : M unit :=
  oi <- query g isOutputInverting ;;
  (if oi then
     for_loop (query g getFanOut)
       (λ j, for_loop (f <- query g (getFollow j) ;; query f getFanIn)
               (λ k, f <- query g (getFollow j) ;;
                     d <- query f (getDriver k) ;;
                     if decide (d = g) then
                       inv <- query f (isInputInverting k) ;;
                       if inv then call f (setInputNonInverting k)
                       else call f (setInputInverting k)
                     else ret tt))
   else ret tt) ;;;
  call g setOutputNonInverting.

(** Body of the "change Inputs" loops: an inverting input slot is cleared
    and rewired to the complement of its driver. *)
Definition change_inputs (fuel : nat) (g : ptr) : M unit :=
  for_loop (query g getFanIn)
    (λ j, inv <- query g (isInputInverting j) ;;
          if inv then
            call g (setInputNonInverting j) ;;;
            d <- query g (getDriver j) ;;
            call d (remFollow g) ;;;
            old <- query g (getDriver j) ;;
            d <- query g (getDriver j) ;;
            new <- query d getComplement ;;
            swapDriver fuel g old new ;;;
            d <- query g (getDriver j) ;;
            call d (newFollow g)
          else ret tt).

Definition convDualRail (fuel : nat) (net : Net.BooleanNet) : M Net.BooleanNet :=
  newGates <- map_M (dup_gate fuel) (Net.gates net) ;;
  let net := Net.set_gates (Net.gates net ++ newGates) net in
  newInputs <- map_M (dup_input fuel) (Net.inputs net) ;;
  let net := Net.set_inputs (Net.inputs net ++ newInputs) net in
  newOutputs <- map_M (dup_output fuel) (Net.outputs net) ;;
  let net := Net.set_outputs (Net.outputs net ++ newOutputs) net in
  for_each (λ _ g, move_inverter g) 0 (Net.gates net) ;;;
  for_each (λ _ g, change_inputs fuel g) 0 (Net.gates net) ;;;
  for_each (λ _ g, change_inputs fuel g) 0 (Net.outputs net) ;;;
  ret net.

(** *** [BooleanNet::InsertBuffsByScoap] *)

(** Conversion of an [int] to [size_t] (64 bits). *)
Definition to_size_t (z : Z) : Z := z mod 18446744073709551616.

(** The product compared by [gateScoapComparator], in [unsigned int]. *)
Definition scoap_product (g : Gate) : Z :=
  to_unsigned (to_unsigned (co (scoapParams g) * cc0 (scoapParams g))
               * cc1 (scoapParams g)).

(** [std::priority_queue<Gate *, vector<Gate *>, gateScoapComparator>],
    kept as the list of its elements in the order they were pushed.  The
    comparator says that [g0] comes before [g1] when its product is the
    greater one, so [top()] is an element of least product; among several
    such the model takes the one pushed first. *)
Fixpoint pq_top_index (keys : list Z) (i best : nat) (bestKey : Z) : nat :=
  match keys with
  | [] => best
  | k :: keys' =>
      if k <? bestKey then pq_top_index keys' (S i) i k
      else pq_top_index keys' (S i) best bestKey
  end.

Definition pq_top (q : list ptr) : M nat :=
  keys <- map_M (λ p, query p scoap_product) q ;;
  match keys with
  | [] => fail
  | k :: keys' => ret (pq_top_index keys' 1 0 k)
  end.

(** The first loop: which gates are pushed. *)
Fixpoint scoap_candidates (gs : list ptr) (maxHeap : list ptr) : M (list ptr) :=
  match gs with
  | [] => ret maxHeap
  | g :: gs' =>
      fn <- query g getFunction ;;
      if decide (fn = BUFFER) then scoap_candidates gs' maxHeap
      else
        fo <- query g getFanOut ;;
        if decide (fo = 1%nat) then
          f0 <- query g (getFollow 0) ;;
          match f0 with
          | None => scoap_candidates gs' maxHeap
          | Some _ =>
              fn0 <- query f0 getFunction ;;
              if decide (fn0 = BUFFER) then scoap_candidates gs' maxHeap
              else scoap_candidates gs' (maxHeap ++ [g])
          end
        else scoap_candidates gs' (maxHeap ++ [g])
  end.

(** [while (top->getFanOut()) top->remFollow(top->getFollow(0));] with one
    unit of fuel per follower present on entry. *)
Fixpoint drop_followers (k : nat) (top : ptr) : M unit :=
  n <- query top getFanOut ;;
  if decide (n = O) then ret tt
  else match k with
       | O => fail
       | S k' =>
           f0 <- query top (getFollow 0) ;;
           call top (remFollow f0) ;;;
           drop_followers k' top
       end.

(** One pass of the body of the second loop, for the gate [top]. *)
Definition insert_buffer (fuel : nat) (top : ptr) : M ptr :=
  name <- query top getName ;;
  buff <- new_Gate (name +:+ "_SCOAPBUFF") ;;
  call buff (setFunction BUFFER) ;;;
  call buff setOutputNonInverting ;;;
  call buff (setPlacement INNER) ;;;
  for_loop (query top getFanOut)
    (λ j, f <- query top (getFollow j) ;;
          call buff (newFollow f) ;;;
          f <- query top (getFollow j) ;;
          swapDriver fuel f top buff) ;;;
  n <- query top getFanOut ;;
  drop_followers n top ;;;
  call top (newFollow buff) ;;;
  newInput fuel buff top false ;;;
  ret buff.

(** The second loop:
    [for (int i = 0; (i < maxHeap.size()) && (i < places); i++) { ...; maxHeap.pop(); i--; }].
    [i] is an [int], compared with a [size_t] and with the [unsigned int]
    [places].  Every pass pops one element, so the size of the heap on entry
    bounds the number of passes. *)
Fixpoint insert_loop (fuel k : nat) (places : Z) (i : Z)
    (maxHeap newBuffers : list ptr) : M (list ptr) :=
  if (to_size_t i <? Z.of_nat (length maxHeap)) && (to_unsigned i <? places) then
    match k with
    | O => fail
    | S k' =>
        t <- pq_top maxHeap ;;
        top <- at_ maxHeap t ;;
        buff <- insert_buffer fuel top ;;
        let maxHeap := delete t maxHeap in
        let i := int_sub i 1 in
        insert_loop fuel k' places (int_add i 1) maxHeap (newBuffers ++ [buff])
    end
  else ret newBuffers.

Definition InsertBuffsByScoap (fuel : nat) (places : Z) (net : Net.BooleanNet)
  : M Net.BooleanNet :=
  maxHeap <- scoap_candidates (Net.gates net) [] ;;
  newBuffers <- insert_loop fuel (length maxHeap) places 0 maxHeap [] ;;
  ret (Net.set_buffers (Net.buffers net ++ newBuffers)
         (Net.set_gates (Net.gates net ++ newBuffers) net)).

(** ** [aagloader.h]: the [AagLoader] class *)

(** The state of the [ifstream] after a successful [open]: the characters
    not yet read and the two state bits the loader can observe. *)
Record ifstream := {
  unread : list ascii;
  eofbit : bool;
  failbit : bool
}.

Definition eof (s : ifstream) : bool := eofbit s.

(** Characters up to the delimiter, and what follows the delimiter; [None]
    when the end of the file comes first. *)
Fixpoint split_at_delim (delim : ascii) (l : list ascii)
  : list ascii * option (list ascii) :=
  match l with
  | [] => ([], None)
  | c :: l' =>
      if decide (c = delim) then ([], Some l')
      else let r := split_at_delim delim l' in (c :: r.1, r.2)
  end.

(** [std::getline(stream, line, delim)]: a stream that is not [good()] only
    gets [failbit] and leaves [line] alone; otherwise [line] is replaced,
    the delimiter is consumed, reaching the end sets [eofbit], and
    extracting nothing at all sets [failbit]. *)
Definition getline (s : ifstream) (line : list ascii) (delim : ascii)
  : ifstream * list ascii :=
  if eofbit s || failbit s then
    ({| unread := unread s; eofbit := eofbit s; failbit := true |}, line)
  else
    match split_at_delim delim (unread s) with
    | (w, Some rest) =>
        ({| unread := rest; eofbit := false; failbit := false |}, w)
    | (w, None) =>
        ({| unread := []; eofbit := true;
            failbit := match w with [] => true | _ => false end |}, w)
    end.

Definition isspace (c : ascii) : bool :=
  let n := nat_of_ascii c in
  ((n =? 32) || ((9 <=? n) && (n <=? 13)))%nat.

Definition digit_value (c : ascii) : option Z :=
  let n := nat_of_ascii c in
  if ((48 <=? n) && (n <=? 57))%nat then Some (Z.of_nat n - 48) else None.

Fixpoint skip_spaces (l : list ascii) : list ascii :=
  match l with
  | c :: l' => if isspace c then skip_spaces l' else l
  | [] => []
  end.

Fixpoint read_digits (acc : Z) (l : list ascii) : Z :=
  match l with
  | c :: l' =>
      match digit_value c with
      | Some d => read_digits (10 * acc + d) l'
      | None => acc
      end
  | [] => acc
  end.

Definition LONG_MAX : Z := 9223372036854775807.

(** [strtol(line.c_str(), 0, 10)], a [long] of 64 bits: leading white space,
    an optional sign, decimal digits; [0] without digits; saturation at the
    ends of the range. *)
Definition strtol (line : list ascii) : Z :=
  let l := skip_spaces line in
  let '(neg, l) :=
    match l with
    | "-"%char :: r => (true, r)
    | "+"%char :: r => (false, r)
    | _ => (false, l)
    end in
  let v := read_digits 0 l in
  let v := if neg then - v else v in
  Z.max (- LONG_MAX - 1) (Z.min LONG_MAX v).

(** [line.compare(0, 3, "aag") != 0] *)
Definition not_aag (line : list ascii) : bool :=
  match line with
  | "a"%char :: "a"%char :: "g"%char :: _ => false
  | _ => true
  end.

(** What the constructor leaves behind: the member [isLoaded], the
    out-parameter [*net] ([None] while it has not been assigned) and the
    lines written to [Output::error]. *)
Record AagLoader := {
  isLoaded : bool;
  net_out : option Net.BooleanNet;
  errors : list string
}.

Definition isFileLoaded (l : AagLoader) : bool := isLoaded l.

Definition not_loaded (net : option Net.BooleanNet) (err : list string) : AagLoader :=
  {| isLoaded := false; net_out := net; errors := err |}.

(** Wiring of one output line: [newInput] on the output gate, [newFollow] on
    its driver.  Integer division and remainder truncate towards zero; the
    index handed to [getInput] / [getGate] is converted to [unsigned int]. *)
Definition wire (fuel : nat) (sink source : ptr) (inverting : bool) : M unit :=
  newInput fuel sink source inverting ;;;
  call source (newFollow sink).

(** The loop "load outputs":
    [for (int i = 0; i < O; i++)], where a constant output removes slot [i]
    and decrements both [i] and [O].  [O - i] drops by one in every pass. *)
Fixpoint load_outputs (fuel k : nat) (I_ : Z) (s : ifstream) (line : list ascii)
    (net : Net.BooleanNet) (i O_ : Z)
  : M (option (ifstream * list ascii * Net.BooleanNet * Z)) :=
  if i <? O_ then
    match k with
    | O%nat => fail
    | S k' =>
        if eof s then ret None
        else
          let '(s, line) := getline s line "010"%char in
          let gateNr := to_int (strtol line) in
          if (gateNr =? 1) || (gateNr =? 0) then
            let net := remOutput (to_unsigned i) net in
            load_outputs fuel k' I_ s line net (int_add (int_sub i 1) 1)
              (int_sub O_ 1)
          else if (gateNr ÷ 2 <=? I_) && (Z.rem gateNr 2 =? 1) then
            wire fuel (getOutput net (to_unsigned i))
              (getInput net (to_unsigned (int_sub (gateNr ÷ 2) 1))) true ;;;
            load_outputs fuel k' I_ s line net (int_add i 1) O_
          else if gateNr ÷ 2 <=? I_ then
            wire fuel (getOutput net (to_unsigned i))
              (getInput net (to_unsigned (int_sub (gateNr ÷ 2) 1))) false ;;;
            load_outputs fuel k' I_ s line net (int_add i 1) O_
          else
            wire fuel (getOutput net (to_unsigned i))
              (getGate net (to_unsigned (int_sub (int_sub (gateNr ÷ 2) I_) 1)))
              (Z.rem gateNr 2 =? 1) ;;;
            load_outputs fuel k' I_ s line net (int_add i 1) O_
    end
  else ret (Some (s, line, net, O_)).

(** One operand of an AND line. *)
Definition wire_operand (fuel : nat) (net : Net.BooleanNet) (I_ : Z) (gate : ptr)
    (in_ : Z) : M unit :=
  let inverted := Z.rem in_ 2 =? 1 in
  if in_ <=? int_add (to_int (2 * I_)) 1 then
    wire fuel gate (getInput net (to_unsigned (int_sub (in_ ÷ 2) 1))) inverted
  else
    wire fuel gate
      (getGate net (to_unsigned (int_sub (int_sub (in_ ÷ 2) I_) 1))) inverted.

(** The loop "load AND nodes"; [true] when all [A] lines were read. *)
Fixpoint load_ands (fuel k : nat) (I_ : Z) (s : ifstream) (line : list ascii)
    (net : Net.BooleanNet) : M bool :=
  match k with
  | O => ret true
  | S k' =>
      if eof s then ret false
      else
        let '(s, line) := getline s line " "%char in
        let gateNr := to_int (strtol line) in
        let '(s, line) := getline s line " "%char in
        let in1 := to_int (strtol line) in
        let '(s, line) := getline s line "010"%char in
        let in2 := to_int (strtol line) in
        let gateNr := int_sub (int_sub (gateNr ÷ 2) I_) 1 in
        let gate := getGate net (to_unsigned gateNr) in
        call gate (setFunction AND) ;;;
        wire_operand fuel net I_ gate in1 ;;;
        wire_operand fuel net I_ gate in2 ;;;
        load_ands fuel k' I_ s line net
  end.

(** The loop "load input lines": the lines are read and only logged. *)
Fixpoint load_inputs (k : nat) (s : ifstream) (line : list ascii)
  : option (ifstream * list ascii) :=
  match k with
  | O => Some (s, line)
  | S k' =>
      if eof s then None
      else let '(s, line) := getline s line "010"%char in load_inputs k' s line
  end.

(** The part of the constructor after the header has been accepted. *)
Definition load_body (fuel : nat) (s : ifstream) (line : list ascii)
    (I_ O_ A_ : Z) : M AagLoader :=
  net <- BooleanNet_new fuel (Z.to_nat (to_unsigned I_)) (Z.to_nat (to_unsigned O_))
           (Z.to_nat (to_unsigned A_)) ;;
  match load_inputs (Z.to_nat I_) s line with
  | None => ret (not_loaded (Some net) [])
  | Some (s, line) =>
      r <- load_outputs fuel (Z.to_nat O_) I_ s line net 0 O_ ;;
      match r with
      | None => ret (not_loaded (Some net) [])
      | Some (s, line, net, O_) =>
          ok <- load_ands fuel (Z.to_nat A_) I_ s line net ;;
          if ok then ret {| isLoaded := true; net_out := Some net; errors := [] |}
          else ret (not_loaded (Some net) [])
      end
  end.

(** The first part of the constructor, up to and including the field [A]:
    either the message written to [Output::error] before the early
    [return], or the five [int] members with the stream and the line buffer
    as they stand.  Every [strtol] result is stored in an [int]. *)
Inductive header :=
  | HeaderError (msg : string)
  | Header (M_ I_ L_ O_ A_ : Z) (s : ifstream) (line : list ascii).

Definition read_header (s : ifstream) : header :=
  let line := [] in
  let '(s, line) := getline s line " "%char in
  if not_aag line then HeaderError "Incorrect format."
  else if eof s then HeaderError "Unexpected EOF (0)."
  else
    let '(s, line) := getline s line " "%char in
    let M_ := to_int (strtol line) in
    if eof s then HeaderError "Unexpected EOF (1)."
    else
      let '(s, line) := getline s line " "%char in
      let I_ := to_int (strtol line) in
      if eof s then HeaderError "Unexpected EOF (2)."
      else
        let '(s, line) := getline s line " "%char in
        let L_ := to_int (strtol line) in
        if eof s then HeaderError "Unexpected EOF (3)."
        else
          let '(s, line) := getline s line " "%char in
          let O_ := to_int (strtol line) in
          if eof s then HeaderError "Unexpected EOF (4)."
          else
            let '(s, line) := getline s line "010"%char in
            let A_ := to_int (strtol line) in
            Header M_ I_ L_ O_ A_ s line.

Definition open (text : string) : ifstream :=
  {| unread := list_ascii_of_string text; eofbit := false; failbit := false |}.

(** [AagLoader::AagLoader(filename, net)].  [file] is the content of the
    named file, [None] when it cannot be opened.  The sum [I + L + A] is
    formed in [int]. *)
Definition AagLoader_new (fuel : nat) (file : option string) : M AagLoader :=
  match file with
  | None => ret (not_loaded None ["Cannot open file."%string])
  | Some text =>
      match read_header (open text) with
      | HeaderError msg => ret (not_loaded None [msg])
      | Header M_ I_ L_ O_ A_ s line =>
          if negb (M_ =? int_add (int_add I_ L_) A_) then
            ret (not_loaded None ["Incorrect magic numbers."%string])
          else if negb (L_ =? 0) then
            ret (not_loaded None
                   ["Latches present! This tool is not able to work with latches in AAG. Remove Latches from design!"%string])
          else load_body fuel s line I_ O_ A_
      end
  end.

(** ** [main.cpp] and the command handlers *)

(** The start of [main]: load the file, give up unless [isFileLoaded()],
    then [net->computeNetDepth()]. *)
Definition main_load (fuel : nat) (text : string) : M (option Net.BooleanNet) :=
  loader <- AagLoader_new fuel (Some text) ;;
  if isFileLoaded loader then
    match net_out loader with
    | Some net => net <- computeNetDepth net ;; ret (Some net)
    | None => fail
    end
  else ret None.

(** ** Specification vocabulary *)

(** The greatest depth found on the listed output gates, as the
    [unsigned int] it is compared in ([0] for none). *)
Definition max_output_depth (h : heap) (outs : list ptr) : Z :=
  foldr (λ o m, Z.max (default 0 (o ≫= λ a, (to_unsigned ∘ depth) <$> h !! a)) m)
        0 outs.

(** The pointer designates a gate of the store. *)
Definition valid (h : heap) (p : ptr) : Prop :=
  ∃ a g, p = Some a ∧ h !! a = Some g.

(** ** Sample circuits *)

Definition nl : string := String "010"%char EmptyString.

(** One AND gate over two inputs, one output. *)
Definition and2_aag : string :=
  "aag 3 2 0 1 1" +:+ nl +:+ "2" +:+ nl +:+ "4" +:+ nl +:+ "6" +:+ nl
  +:+ "6 2 4" +:+ nl.

(** The same gate with a second output tapping the first input. *)
Definition and2_two_outputs_aag : string :=
  "aag 3 2 0 2 1" +:+ nl +:+ "2" +:+ nl +:+ "4" +:+ nl +:+ "6" +:+ nl
  +:+ "2" +:+ nl +:+ "6 2 4" +:+ nl.

(** A chain of three AND gates. *)
Definition chain3_aag : string :=
  "aag 5 2 0 1 3" +:+ nl +:+ "2" +:+ nl +:+ "4" +:+ nl +:+ "10" +:+ nl
  +:+ "6 2 4" +:+ nl +:+ "8 6 2" +:+ nl +:+ "10 8 4" +:+ nl.


(** Three fresh gates; the third one is given the first as a driver twice,
    with the second in between. *)
Definition three_inputs : M unit :=
  a <- new_Gate "A" ;;
  b <- new_Gate "B" ;;
  g <- new_Gate "G" ;;
  newInput 2 g a false ;;;
  newInput 2 g b false ;;;
  newInput 2 g a true.

(** The two-input AND circuit with its primary inputs set as [simInVect]
    sets them, after one [computeOutputValue] on the AND gate: the gate's
    function, input polarities, output polarity and stored output. *)
Definition and2_simulated (in0 in1 uninit : bool)
  : M (gateFunction_t * list bool * bool * bool) :=
  net <- main_load 4 and2_aag ;;
  match net with
  | None => fail
  | Some net =>
      call (getInput net 0) (setOutputValue in0) ;;;
      call (getInput net 1) (setOutputValue in1) ;;;
      computeOutputValue uninit (getGate net 0) ;;;
      query (getGate net 0)
        (λ g, (getFunction g, inputInverters g, isOutputInverting g,
               getOutputValue g))
  end.

(** The chain of three AND gates after [InsertBuffsByScoap(places)], as
    [cmd_InsertBuffsByScoap] runs it: the gates that were pushed on the heap
    and the names of the buffers of the network. *)
Definition chain3_buffered (places : Z) : M (nat * list string) :=
  net <- main_load 8 chain3_aag ;;
  match net with
  | None => fail
  | Some net =>
      candidates <- scoap_candidates (Net.gates net) [] ;;
      net <- InsertBuffsByScoap 8 places net ;;
      net <- computeNetDepth net ;;
      names <- map_M (λ p, query p getName) (Net.buffers net) ;;
      ret (length candidates, names)
  end.

(** The circuit with two outputs, loaded as [main] loads it, after the
    deeper output has been removed with [remOutput(0)]. *)
Definition and2_one_output_left : M Net.BooleanNet :=
  net <- main_load 4 and2_two_outputs_aag ;;
  match net with
  | None => fail
  | Some net => ret (remOutput 0 net)
  end.

(** The reading of [computeNetDepth] under which the cached value plays no
    part: whenever the call returns, [netDepth] is the greatest depth of
    the output gates. *)
Definition netDepth_is_output_maximum : Prop :=
  ∀ net h net' h',
    computeNetDepth net h = Some (net', h') →
    Net.netDepth net' = max_output_depth h' (Net.outputs net').

(** ** Vocabulary for the dual-rail conversion *)

(** A second sample: an OR gate in its AIGER form, an AND whose two operands
    and whose output are inverted. *)
Definition or2_aag : string :=
  "aag 3 2 0 1 1" +:+ nl +:+ "2" +:+ nl +:+ "4" +:+ nl +:+ "7" +:+ nl
  +:+ "6 3 5" +:+ nl.

(** The network [main] works on once the loader has accepted [text]. *)
Definition loaded (fuel : nat) (text : string) : option (Net.BooleanNet * heap) :=
  match main_load fuel text [] with
  | Some (Some net, h) => Some (net, h)
  | _ => None
  end.

(** [gates], [inputs] and [outputs] hold pairwise distinct, non-null pointers
    to allocated gates. *)
Definition wf_net (h : heap) (net : Net.BooleanNet) : Prop :=
  NoDup (Net.gates net ++ Net.inputs net ++ Net.outputs net) ∧
  Forall (λ p, ∃ a, p = Some a ∧ (a < length h)%nat)
         (Net.gates net ++ Net.inputs net ++ Net.outputs net).

(** None of the gates in [l] is an XOR. *)
Definition no_XOR (h : heap) (l : list ptr) : Prop :=
  ∀ a g, Some a ∈ l → h !! a = Some g → gateFunction g ≠ XOR.

(** The addresses [n], [n+1], ..., [n+k-1]: what [k] successive [new Gate]
    return on a store of [n] gates. *)
Definition fresh_from (n k : nat) : list ptr := (λ i, Some (n + i)%nat) <$> seq 0 k.




(** [a] and [D] are each other's complement. *)
Definition linked (h : heap) (a D : nat) : Prop :=
  ∃ g gD, h !! a = Some g ∧ h !! D = Some gD ∧
          complementaryGate g = Some D ∧ complementaryGate gD = Some a.

(** [D] is the dual of the inner gate [a]: linked both ways, of the dual
    function and of the same fan-in. *)
Definition gate_twin (h : heap) (a D : nat) : Prop :=
  ∃ g gD, h !! a = Some g ∧ h !! D = Some gD ∧
          complementaryGate g = Some D ∧ complementaryGate gD = Some a ∧
          gateFunction gD = convdual_getComplementaryGateFn (gateFunction g) ∧
          getFanIn gD = getFanIn g.


(** [D] is the complementary buffer of the primary input [a]: a BUFFER placed
    as INPUT whose only driver is [a], over a non-inverting edge, and whose
    output is inverting. *)
Definition input_twin (h : heap) (a D : nat) : Prop :=
  ∃ gI gD, h !! a = Some gI ∧ complementaryGate gI = Some D ∧
           h !! D = Some gD ∧
           gateFunction gD = BUFFER ∧ gatePlacement gD = INPUT ∧
           inputs gD = [Some a] ∧ inputInverters gD = [false] ∧
           outputInverter gD = true ∧ complementaryGate gD = Some a.


Definition complementary_input_edge_inverts : Prop :=
  ∀ fuel net h net' h',
    wf_net h net →
    convDualRail fuel net h = Some (net', h') →
    ∀ i a, Net.inputs net !! i = Some (Some a) →
      ∃ D gI gD, h' !! a = Some gI ∧ complementaryGate gI = Some D ∧
                 h' !! D = Some gD ∧ gateFunction gD = BUFFER ∧
                 inputs gD = [Some a] ∧ inputInverters gD = [true].

(** ** Reasoning about runs: invariants and frames *)

(** [m], started in a store satisfying [I], ends (when it ends) in a store
    satisfying [I] with a result satisfying [Q]. *)
Definition inv_step {A} (I : heap → Prop) (m : M A) (Q : A → Prop) : Prop :=
  ∀ h x h', I h → m h = Some (x, h') → I h' ∧ Q x.

(** [h] extends [h0], and every gate of [h0] below address [n] is related by
    [r] to the gate now at its address. *)
Definition keeps (n : nat) (r : nat → Gate → Gate → Prop) (h0 h : heap) : Prop :=
  (n ≤ length h0)%nat ∧ (length h0 ≤ length h)%nat ∧
  ∀ a g0, (a < n)%nat → h0 !! a = Some g0 → ∃ g, h !! a = Some g ∧ r a g0 g.

(** Only [depth] fields differ. *)
Definition depth_only (h h' : heap) : Prop :=
  length h' = length h ∧
  ∀ c g, h !! c = Some g → ∃ d, h' !! c = Some (set_depth d g).

(** The two [insert]s of [newInput]. *)
Definition add_input (p : ptr) (b : bool) (g : Gate) : Gate :=
  set_inputInverters (b :: inputInverters g) (set_inputs (p :: inputs g) g).

(** The relations a step keeps between the old and the new state of the gate
    at address [b]. *)

(** A cleared output inverter stays cleared; the fan-in is kept. *)
Definition r_stay (a : nat) (g g' : Gate) : Prop :=
  (outputInverter g = false → outputInverter g' = false) ∧
  length (inputs g') = length (inputs g).

(** Moreover, a non-inverting slot stays non-inverting. *)
Definition r_clear (a : nat) (g g' : Gate) : Prop :=
  (outputInverter g = false → outputInverter g' = false) ∧
  length (inputs g') = length (inputs g) ∧
  ∀ j, isInputInverting j g = false → isInputInverting j g' = false.

(** The complement of the input [a] and all that [input_twin] says of its
    buffer [D] are kept. *)
Definition r_twin (a D : nat) (b : nat) (g g' : Gate) : Prop :=
  (b = a → complementaryGate g' = complementaryGate g) ∧
  (b = D → gateFunction g' = gateFunction g ∧
           gatePlacement g' = gatePlacement g ∧
           inputs g' = inputs g ∧
           inputInverters g' = inputInverters g ∧
           outputInverter g' = outputInverter g ∧
           complementaryGate g' = complementaryGate g).

Definition r_out (a D o : nat) (b : nat) (g g' : Gate) : Prop :=
  r_twin a D b g g' ∧ (b = o → complementaryGate g' = complementaryGate g).

(** Function and fan-in are kept everywhere, the complement at [a] and [D]. *)
Definition r_pair (a D : nat) (b : nat) (g g' : Gate) : Prop :=
  gateFunction g' = gateFunction g ∧
  length (inputs g') = length (inputs g) ∧
  (b = a ∨ b = D → complementaryGate g' = complementaryGate g).

(** Inside the copy loop of "duplicate gates": only the new gate [n] gets
    inputs. *)
Definition r_loop (n : nat) (b : nat) (g g' : Gate) : Prop :=
  gateFunction g' = gateFunction g ∧
  complementaryGate g' = complementaryGate g ∧
  (b ≠ n → inputs g' = inputs g).

Definition r_compl (b : nat) (g g' : Gate) : Prop :=
  complementaryGate g' = complementaryGate g.

Definition r_fn (b : nat) (g g' : Gate) : Prop :=
  gateFunction g' = gateFunction g.

(** ** Vocabulary for termination *)

(** What the [unsigned] depth of a gate can still be raised by. *)
Definition slack (g : Gate) : Z := 4294967295 - to_unsigned (depth g).

(** The sum of the slacks: it drops with every call of [setDepth] that
    assigns. *)
Definition measure (h : heap) : Z := foldr (λ g s, slack g + s) 0 h.

(** Fuel that outlasts the measure of any store of [n] gates. *)
Definition fuel_covers (fuel n : nat) : Prop :=
  Z.of_nat n * 4294967296 ≤ Z.of_nat fuel.

Definition followers_ok (h : heap) : Prop :=
  ∀ a g, h !! a = Some g → Forall (valid h) (followingGates g).

(** The gate at [a] has a complement. *)
Definition complemented (h : heap) (a : nat) : Prop :=
  ∃ g c, h !! a = Some g ∧ complementaryGate g = Some c.

(** The complement of the gate at [a] is [c]. *)
Definition complement_is (h : heap) (a c : nat) : Prop :=
  ∃ g, h !! a = Some g ∧ complementaryGate g = Some c.

(** The gate at [a] has an input slot [k]. *)
Definition has_slot (h : heap) (a k : nat) : Prop :=
  ∃ g, h !! a = Some g ∧ (k < length (inputs g))%nat.

(** A driver that the conversion can handle: an allocated gate which is
    listed in [L] (and will be given a complement) or has one already. *)
Definition driver_ok (L : list ptr) (h : heap) (p : ptr) : Prop :=
  ∃ d, p = Some d ∧ (d < length h)%nat ∧ (p ∈ L ∨ complemented h d).

(** No gate of the store holds a null or dangling driver or follower, every
    driver is [driver_ok], and a complement has a complement itself. *)
Definition sound (L : list ptr) (h : heap) : Prop :=
  ∀ a g, h !! a = Some g →
    Forall (driver_ok L h) (inputs g) ∧
    Forall (valid h) (followingGates g) ∧
    ∀ c, complementaryGate g = Some c → complemented h c.

Definition sound_at (L : list ptr) (n : nat) (h : heap) : Prop :=
  sound L h ∧ length h = n.

(** From [h] to [h'] nothing is freed, no complement is reset to null and no
    input list shrinks. *)
Definition grows (h h' : heap) : Prop :=
  (length h ≤ length h')%nat ∧
  (∀ a, complemented h a → complemented h' a) ∧
  (∀ a k, has_slot h a k → has_slot h' a k).

(** Moreover, no complement has changed. *)
Definition extends (h h' : heap) : Prop :=
  grows h h' ∧ ∀ a c, complement_is h a c → complement_is h' a c.

(** An update of the gate at [a] that keeps the store sound. *)
Definition upd_ok (L : list ptr) (h : heap) (a : nat) (g g' : Gate) : Prop :=
  Forall (driver_ok L h) (inputs g') ∧
  Forall (valid h) (followingGates g') ∧
  complementaryGate g' = complementaryGate g ∧
  (length (inputs g) ≤ length (inputs g'))%nat.

(** [m], started in [h], returns a result and a store that satisfy [P]. *)
Definition runs {A} (m : M A) (h : heap) (P : A → heap → Prop) : Prop :=
  ∃ x h', m h = Some (x, h') ∧ P x h'.

(** Drivers and followers are kept. *)
Definition r_shape (b : nat) (g g' : Gate) : Prop :=
  inputs g' = inputs g ∧ followingGates g' = followingGates g.

(** A network that [convDualRail] can convert: well formed, the drivers of
    every gate of the store are inner gates or primary inputs of the network,
    no follower is null or dangling, a gate that has a complement has one
    that has a complement too, and every output gate has a driver. *)
Definition circuit (h : heap) (net : Net.BooleanNet) : Prop :=
  wf_net h net ∧
  sound (Net.gates net ++ Net.inputs net) h ∧
  Forall (λ p, ∃ a, p = Some a ∧ has_slot h a 0) (Net.outputs net).

(** * Further parts of the program *)
(** ** Further members of [Gate] and [BooleanNet] *)

Definition set_color (c : Z) (g : Gate) : Gate :=
  {| inputs := inputs g; inputInverters := inputInverters g;
     followingGates := followingGates g; outputInverter := outputInverter g;
     placed := placed g; placeX := placeX g; placeY := placeY g;
     outputValue := outputValue g; complementaryGate := complementaryGate g;
     gateFunction := gateFunction g; gatePlacement := gatePlacement g;
     gateName := gateName g; depth := depth g; scoapParams := scoapParams g;
     color := c |}.

(** [Gate::hasColor]: [color] and the member are [int]s; [&] acts on their
    two's-complement bits, as [Z.land] does. *)
Definition hasColor (color_ : Z) (g : Gate) : bool :=
  if color_ =? 0 then true
  else if Z.land (color g) color_ =? 0 then false else true.

(** [Gate::addColor] *)
Definition addColor (color_ : Z) (g : Gate) : Gate :=
  set_color (Z.lor (color g) color_) g.

(** [BooleanNet::colorBaseGates] *)
Definition colorBaseGates (net : Net.BooleanNet) (color_ : Z) : M unit :=
  for_each (λ _ g,
              c <- query g getComplement ;;
              match c with
              | None => call g (addColor color_)
              | Some _ =>
                  has <- query c (hasColor color_) ;;
                  if negb has then call g (addColor color_) else ret tt
              end) 0 (Net.gates net) ;;;
  for_loop (ret (length (Net.inputs net)))
    (λ i, call (getInput net (Z.of_nat i)) (addColor color_)) ;;;
  for_loop (ret (length (Net.outputs net)))
    (λ i, call (getOutput net (Z.of_nat i)) (addColor color_)).

(** The [switch] of [changeToEqGate] and of the two [..._changeToEqGates]:
    only [AND] and [OR] have a case. *)
Definition swap_and_or (gate : ptr) : M unit :=
  fn <- query gate getFunction ;;
  match fn with
  | AND => call gate (setFunction OR)
  | OR => call gate (setFunction AND)
  | _ => ret tt
  end.

(** The loop that toggles every input slot. *)
Definition toggle_inputs (gate : ptr) : M unit :=
  for_loop (query gate getFanIn)
    (λ j, inv <- query gate (isInputInverting j) ;;
          if inv then call gate (setInputNonInverting j)
          else call gate (setInputInverting j)).

(** [BooleanNet::changeToEqGate] *)
Definition changeToEqGate (gate : ptr) : M unit :=
  swap_and_or gate ;;;
  oi <- query gate isOutputInverting ;;
  (if oi then call gate setOutputNonInverting
   else call gate setOutputInverting) ;;;
  toggle_inputs gate.

(** [bool retval = false; for (i = 0; i < v.size(); i++) { ... retval = true
    ... } return retval;] for a vector the body cannot reach: the body
    tells whether it has set [retval]. *)
Fixpoint for_each_flag {A} (body : A → M bool) (v : list A) (retval : bool)
  : M bool :=
  match v with
  | [] => ret retval
  | x :: v' =>
      b <- body x ;;
      for_each_flag body v' (if b then true else retval)
  end.

(** [BooleanNet::move_changeToEqGates] *)
Definition move_changeToEqGates (net : Net.BooleanNet) : M bool :=
  for_each_flag
    (λ g, oi <- query g isOutputInverting ;;
          if oi then
            swap_and_or g ;;;
            call g setOutputNonInverting ;;;
            toggle_inputs g ;;;
            ret true
          else ret false)
    (Net.gates net) false.

(** [BooleanNet::move_shiftInvertersInOutputBuffers] *)
Definition move_shiftInvertersInOutputBuffers (net : Net.BooleanNet) : M unit :=
  for_each (λ _ o,
              inv <- query o (isInputInverting 0) ;;
              if inv then
                call o (setInputNonInverting 0) ;;;
                call o setOutputInverting
              else ret tt) 0 (Net.outputs net).

(** The counting loop of [moveout_changeToEqGates]:
    [for (j = 0; j < getFanIn(); j++) if (isInputInverting(j)) cnt++;].
    The counter stays below [j], hence below the fan-in, and does not wrap. *)
Fixpoint count_inverting (gate : ptr) (k j cnt : nat) : M nat :=
  n <- query gate getFanIn ;;
  if (j <? n)%nat then
    match k with
    | O => fail
    | S k' =>
        inv <- query gate (isInputInverting j) ;;
        count_inverting gate k' (S j) (if inv then S cnt else cnt)
    end
  else ret cnt.

(** [BooleanNet::moveout_changeToEqGates].  The assignment [retval = true]
    stands after the inner [if], inside the outer one. *)
Definition moveout_changeToEqGates (net : Net.BooleanNet) : M bool :=
  for_each_flag
    (λ g, oi <- query g isOutputInverting ;;
          if negb oi then
            n <- query g getFanIn ;;
            cnt <- count_inverting g n 0 0 ;;
            n' <- query g getFanIn ;;
            (if (cnt =? n')%nat then
               swap_and_or g ;;;
               call g setOutputInverting ;;;
               for_loop (query g getFanIn)
                 (λ j, call g (setInputNonInverting j))
             else ret tt) ;;;
            ret true
          else ret false)
    (Net.gates net) false.

(** ** What the De Morgan rewrites do to one gate *)

(** The polarities of the slots [i .. n-1] toggled. *)
Definition flip_range (i n : nat) (l : list bool) : list bool :=
  imap (λ j b, if (i <=? j)%nat && (j <? n)%nat then negb b else b) l.

Definition deMorgan (fn : gateFunction_t) : gateFunction_t :=
  match fn with
  | AND => OR
  | OR => AND
  | fn => fn
  end.

(** The De Morgan equivalent of a gate: the dual function, the opposite
    output polarity, the opposite polarity on every input slot. *)
Definition eqGate (g : Gate) : Gate :=
  set_inputInverters (flip_range 0 (getFanIn g) (inputInverters g))
    (set_outputInverter (negb (outputInverter g))
       (setFunction (deMorgan (gateFunction g)) g)).

(** The store after every gate of [l] went through [upd]. *)
Definition pointwise (l : list ptr) (upd : Gate → Gate) (h : heap) : heap :=
  imap (λ a g, if bool_decide (Some a ∈ l) then upd g else g) h.

Definition all_inverting (g : Gate) : bool :=
  forallb (λ j, isInputInverting j g) (seq 0 (getFanIn g)).

(** A gate that carries the colour, or whose complement does. *)
Definition based (h : heap) (color_ : Z) (p : ptr) : Prop :=
  ∃ a g, p = Some a ∧ h !! a = Some g ∧
         (hasColor color_ g = true ∨
          ∃ k gk, getComplement g = Some k ∧ h !! k = Some gk ∧
                  hasColor color_ gk = true).

(** Every gate of [h'] is the gate of [h] in its place, possibly with the
    colour added. *)
Definition recolour (color_ : Z) (h h' : heap) : Prop :=
  length h' = length h ∧
  ∀ a g, h !! a = Some g →
         ∃ g', h' !! a = Some g' ∧ (g' = g ∨ g' = addColor color_ g).

(** From [h] to [h'] nothing but depths has changed, and no depth, read as
    the [unsigned] that [setDepth] compares, has dropped. *)
Definition raised (h h' : heap) : Prop :=
  length h' = length h ∧
  ∀ c g, h !! c = Some g →
         ∃ d, h' !! c = Some (set_depth d g) ∧
              to_unsigned (depth g) ≤ to_unsigned d.

(** The [n] gates that a loop of the constructor allocates. *)
Definition fresh_gates (prefix : string) (pl : gatePlacement_t) (n : nat)
  : list Gate :=
  (λ i, setPlacement pl (Gate_new (prefix +:+ pretty i))) <$> seq 0 n.

(** What the scan of [remFollow] leaves of a list: an entry equal to [f]
    goes, and the entry behind it is passed over unexamined. *)
Fixpoint erase_skipping (f : ptr) (l : list ptr) : list ptr :=
  match l with
  | [] => []
  | x :: l' =>
      if decide (x = f) then
        match l' with
        | [] => []
        | y :: l'' => y :: erase_skipping f l''
        end
      else x :: erase_skipping f l'
  end.

(** [BooleanNet::dualRailReduction]: [getOutput(i)] is evaluated and its
    value dropped. *)
Definition dualRailReduction (heuristicLevel : Z) (net : Net.BooleanNet) : M unit :=
  if heuristicLevel =? 0 then
    for_loop (ret (length (Net.outputs net)))
      (λ i, let _ := getOutput net (Z.of_nat i) in ret tt)
  else ret tt.

(** ** SCOAP *)

Definition set_scoapParams (s : scoap_t) (g : Gate) : Gate :=
  {| inputs := inputs g; inputInverters := inputInverters g;
     followingGates := followingGates g; outputInverter := outputInverter g;
     placed := placed g; placeX := placeX g; placeY := placeY g;
     outputValue := outputValue g; complementaryGate := complementaryGate g;
     gateFunction := gateFunction g; gatePlacement := gatePlacement g;
     gateName := gateName g; depth := depth g; scoapParams := s;
     color := color g |}.

(** [this->scoapParams.cc0 = v] and the like *)
Definition set_cc0 (v : Z) (g : Gate) : Gate :=
  set_scoapParams {| cc0 := v; cc1 := cc1 (scoapParams g);
                     co := co (scoapParams g) |} g.

Definition set_cc1 (v : Z) (g : Gate) : Gate :=
  set_scoapParams {| cc0 := cc0 (scoapParams g); cc1 := v;
                     co := co (scoapParams g) |} g.

Definition set_co (v : Z) (g : Gate) : Gate :=
  set_scoapParams {| cc0 := cc0 (scoapParams g); cc1 := cc1 (scoapParams g);
                     co := v |} g.

Definition get0Controlability (g : Gate) : Z := cc0 (scoapParams g).

Definition get1Controlability (g : Gate) : Z := cc1 (scoapParams g).

Definition getObservability (g : Gate) : Z := co (scoapParams g).

(** Addition of [unsigned int]s. *)
Definition uint_add (a b : Z) : Z := to_unsigned (a + b).

(** The first [switch] of [computeControlability]: [XOR] takes the
    [default] label, which is the one of [BUFFER]. *)
Definition cc_start (fn : gateFunction_t) : Z * Z :=
  match fn with
  | AND => (INT_MAX, 0)
  | OR => (0, INT_MAX)
  | _ => (0, 0)
  end.

(** The loop of [computeControlability] over the input slots, with the
    locals [cc0] and [cc1]. *)
Fixpoint cc_loop (this : ptr) (k i : nat) (cc0_ cc1_ : Z) : M (Z * Z) :=
  n <- query this getFanIn ;;
  if (i <? n)%nat then
    match k with
    | O => fail
    | S k' =>
        fn <- query this getFunction ;;
        inv <- query this (isInputInverting i) ;;
        d <- query this (getDriver i) ;;
        d0 <- query d get0Controlability ;;
        d1 <- query d get1Controlability ;;
        match fn with
        | AND =>
            if inv
            then cc_loop this k' (S i) (if d1 <? cc0_ then d1 else cc0_)
                   (uint_add cc1_ d0)
            else cc_loop this k' (S i) (if d0 <? cc0_ then d0 else cc0_)
                   (uint_add cc1_ d1)
        | OR =>
            if inv
            then cc_loop this k' (S i) (uint_add cc0_ d1)
                   (if d0 <? cc1_ then d0 else cc1_)
            else cc_loop this k' (S i) (uint_add cc0_ d0)
                   (if d1 <? cc1_ then d1 else cc1_)
        | _ =>
            if inv
            then cc_loop this k' (S i) (uint_add cc0_ d1) (uint_add cc1_ d0)
            else cc_loop this k' (S i) (uint_add cc0_ d0) (uint_add cc1_ d1)
        end
    end
  else ret (cc0_, cc1_).

(** [Gate::computeControlability].  The recursion into the followers is
    bounded by [fuel]. *)
Fixpoint computeControlability (fuel : nat) (this : ptr) : M unit :=
  match fuel with
  | O => fail
  | S fuel' =>
      fn <- query this getFunction ;;
      n <- query this getFanIn ;;
      c <- cc_loop this n 0 (cc_start fn).1 (cc_start fn).2 ;;
      oi <- query this isOutputInverting ;;
      let new0 := if oi then uint_add c.2 1 else uint_add c.1 1 in
      let new1 := if oi then uint_add c.1 1 else uint_add c.2 1 in
      s0 <- query this get0Controlability ;;
      ch0 <- (if new0 <? s0 then call this (set_cc0 new0) ;;; ret true
              else ret false) ;;
      s1 <- query this get1Controlability ;;
      ch1 <- (if new1 <? s1 then call this (set_cc1 new1) ;;; ret true
              else ret false) ;;
      if ch0 || ch1 then
        for_loop (query this getFanOut)
          (λ i, f <- query this (getFollow i) ;;
                computeControlability fuel' f)
      else ret tt
  end.

(** [Gate::setControlability] *)
Definition setControlability (fuel : nat) (this : ptr) (cc0_ cc1_ : Z) : M unit :=
  call this (set_cc0 cc0_) ;;;
  call this (set_cc1 cc1_) ;;;
  for_loop (query this getFanOut)
    (λ i, f <- query this (getFollow i) ;;
          computeControlability fuel f).

(** The inner loop of [computeObservability] over the slots of one
    follower: the slots fed by [this] are skipped ([continue]). *)
Fixpoint ccSum_loop (this f : ptr) (and_ : bool) (k j : nat) (ccSum : Z) : M Z :=
  n <- query f getFanIn ;;
  if (j <? n)%nat then
    match k with
    | O => fail
    | S k' =>
        d <- query f (getDriver j) ;;
        if decide (d = this) then ccSum_loop this f and_ k' (S j) ccSum
        else
          inv <- query f (isInputInverting j) ;;
          c <- query d (if eqb and_ inv then get1Controlability
                        else get0Controlability) ;;
          ccSum_loop this f and_ k' (S j) (uint_add ccSum c)
    end
  else ret ccSum.

(** The loop of [computeObservability] over the followers, with the local
    [change]. *)
Fixpoint co_loop (this : ptr) (k i : nat) (change : bool) : M bool :=
  n <- query this getFanOut ;;
  if (i <? n)%nat then
    match k with
    | O => fail
    | S k' =>
        f <- query this (getFollow i) ;;
        fn <- query f getFunction ;;
        coNext <-
          match fn with
          | AND =>
              m <- query f getFanIn ;;
              ccSum <- ccSum_loop this f true m 0 0 ;;
              cof <- query f getObservability ;;
              ret (uint_add (uint_add cof ccSum) 1)
          | OR =>
              m <- query f getFanIn ;;
              ccSum <- ccSum_loop this f false m 0 0 ;;
              cof <- query f getObservability ;;
              ret (uint_add (uint_add cof ccSum) 1)
          | _ =>
              cof <- query f getObservability ;;
              ret (uint_add cof 1)
          end ;;
        cur <- query this getObservability ;;
        if coNext <? cur then
          call this (set_co coNext) ;;; co_loop this k' (S i) true
        else co_loop this k' (S i) change
    end
  else ret change.

(** [Gate::computeObservability] *)
Fixpoint computeObservability (fuel : nat) (this : ptr) : M unit :=
  match fuel with
  | O => fail
  | S fuel' =>
      n <- query this getFanOut ;;
      change <- co_loop this n 0 false ;;
      if change then
        for_loop (query this getFanIn)
          (λ i, d <- query this (getDriver i) ;;
                computeObservability fuel' d)
      else ret tt
  end.

(** [Gate::setObservability] *)
Definition setObservability (fuel : nat) (this : ptr) (co_ : Z) : M unit :=
  call this (set_co co_) ;;;
  for_loop (query this getFanIn)
    (λ i, d <- query this (getDriver i) ;;
          computeObservability fuel d).

(** Every driver and every follower of every gate is in the store. *)
Definition wired (h : heap) : Prop :=
  ∀ a g, h !! a = Some g →
         Forall (valid h) (inputs g) ∧ Forall (valid h) (followingGates g).

(** The SCOAP numbers are [unsigned]. *)
Definition scoap_ok (h : heap) : Prop :=
  ∀ a g, h !! a = Some g →
         0 ≤ cc0 (scoapParams g) ∧ 0 ≤ cc1 (scoapParams g) ∧
         0 ≤ co (scoapParams g).

(** From [h] to [h'] nothing but controllabilities has changed, and none
    of them has grown. *)
Definition cc_lowered (h h' : heap) : Prop :=
  length h' = length h ∧
  ∀ c g, h !! c = Some g →
         ∃ x y, h' !! c = Some (set_cc1 y (set_cc0 x g)) ∧
                x ≤ get0Controlability g ∧ y ≤ get1Controlability g.

(** The same for observabilities. *)
Definition co_lowered (h h' : heap) : Prop :=
  length h' = length h ∧
  ∀ c g, h !! c = Some g →
         ∃ z, h' !! c = Some (set_co z g) ∧ z ≤ getObservability g.

(** The sum of all SCOAP numbers of the store. *)
Definition scoap_sum (h : heap) : Z :=
  foldr (λ g s, cc0 (scoapParams g) + cc1 (scoapParams g)
                + co (scoapParams g) + s) 0 h.

Definition set_netSumScoap (s : Z) (n : Net.BooleanNet) : Net.BooleanNet :=
  {| Net.gates := Net.gates n; Net.inputs := Net.inputs n;
     Net.outputs := Net.outputs n; Net.buffers := Net.buffers n;
     Net.netDepth := Net.netDepth n; Net.netSumScoap := s;
     Net.netPlaced := Net.netPlaced n |}.

(** The last loop of [computeSumScoap]; [netSumScoap] is an [unsigned int]. *)
Fixpoint sum_scoap_loop (gs : list ptr) (sum : Z) : M Z :=
  match gs with
  | [] => ret sum
  | g :: gs' =>
      c0 <- query g get0Controlability ;;
      c1 <- query g get1Controlability ;;
      o <- query g getObservability ;;
      sum_scoap_loop gs' (uint_add (uint_add sum (uint_add c0 c1)) o)
  end.

(** [BooleanNet::computeSumScoap]: the network with its new [netSumScoap],
    which is also the value returned. *)
Definition computeSumScoap (fuel : nat) (net : Net.BooleanNet) : M Net.BooleanNet :=
  for_each (λ _ p, setControlability fuel p 1 1) 0 (Net.inputs net) ;;;
  for_each (λ _ p, setControlability fuel p 1 1) 0 (Net.buffers net) ;;;
  for_each (λ _ p, setObservability fuel p 0) 0 (Net.outputs net) ;;;
  for_each (λ _ p, setObservability fuel p 0) 0 (Net.buffers net) ;;;
  s <- sum_scoap_loop (Net.gates net) 0 ;;
  ret (set_netSumScoap s net).

Definition getSumScoap (net : Net.BooleanNet) : Z := Net.netSumScoap net.

(** Controllabilities at most 1; observability 0. *)
Definition controllable (h : heap) (p : ptr) : Prop :=
  ∃ a g, p = Some a ∧ h !! a = Some g ∧
         get0Controlability g ≤ 1 ∧ get1Controlability g ≤ 1.

Definition observable (h : heap) (p : ptr) : Prop :=
  ∃ a g, p = Some a ∧ h !! a = Some g ∧ getObservability g = 0.

(** The contribution of one gate to [scoap_sum]. *)
Definition scoap_weight (g : Gate) : Z :=
  cc0 (scoapParams g) + cc1 (scoapParams g) + co (scoapParams g).

(** From [h] to [h'] nothing but SCOAP numbers has changed. *)
Definition scoap_only (h h' : heap) : Prop :=
  length h' = length h ∧
  ∀ c g, h !! c = Some g → ∃ s, h' !! c = Some (set_scoapParams s g).


(** What the passes of [computeSumScoap] keep: a wired store with unsigned
    SCOAP numbers whose sum stays below [B], and which differs from [h0] in
    SCOAP numbers only. *)
Definition scoap_state (h0 : heap) (B : Z) (h : heap) : Prop :=
  scoap_only h0 h ∧ wired h ∧ scoap_ok h ∧ scoap_sum h ≤ B.

(** ** Colouring a cone *)

(** [for (i = 0; i < tmp->getFanIn(); i++) gates.push(tmp->getDriver(i));]
    for a [std::stack] whose top is the head of the list. *)
Fixpoint push_drivers (tmp : ptr) (k i : nat) (gates : list ptr) : M (list ptr) :=
  n <- query tmp getFanIn ;;
  if (i <? n)%nat then
    match k with
    | O => fail
    | S k' =>
        d <- query tmp (getDriver i) ;;
        push_drivers tmp k' (S i) (d :: gates)
    end
  else ret gates.

(** The [while] loop of [colorInTree]; [fuel] bounds the number of gates
    popped. *)
Fixpoint colorInTree_loop (fuel : nat) (color_ : Z) (gates : list ptr)
  {struct fuel} : M unit :=
  match gates with
  | [] => ret tt
  | tmp :: rest =>
      match fuel with
      | O => fail
      | S fuel' =>
          call tmp (addColor color_) ;;;
          n <- query tmp getFanIn ;;
          gates' <- push_drivers tmp n 0 rest ;;
          colorInTree_loop fuel' color_ gates'
      end
  end.

(** [BooleanNet::colorInTree] *)
Definition colorInTree (fuel : nat) (gate : ptr) (color_ : Z) : M unit :=
  colorInTree_loop fuel color_ [gate].

Fixpoint push_followers (tmp : ptr) (k i : nat) (gates : list ptr) : M (list ptr) :=
  n <- query tmp getFanOut ;;
  if (i <? n)%nat then
    match k with
    | O => fail
    | S k' =>
        f <- query tmp (getFollow i) ;;
        push_followers tmp k' (S i) (f :: gates)
    end
  else ret gates.

Fixpoint colorOutTree_loop (fuel : nat) (color_ : Z) (gates : list ptr)
  {struct fuel} : M unit :=
  match gates with
  | [] => ret tt
  | tmp :: rest =>
      match fuel with
      | O => fail
      | S fuel' =>
          call tmp (addColor color_) ;;;
          n <- query tmp getFanOut ;;
          gates' <- push_followers tmp n 0 rest ;;
          colorOutTree_loop fuel' color_ gates'
      end
  end.

(** [BooleanNet::colorOutTree] *)
Definition colorOutTree (fuel : nat) (gate : ptr) (color_ : Z) : M unit :=
  colorOutTree_loop fuel color_ [gate].

(** [b] is [a], or is reached from [a] along the pointers that [next]
    selects (the drivers, or the followers). *)
Inductive reach (next : Gate → list ptr) (h : heap) : nat → nat → Prop :=
  | reach_here a : reach next h a a
  | reach_step a g d b :
      h !! a = Some g → Some d ∈ next g → reach next h d b →
      reach next h a b.

(** These pointers form no cycle: they lead to gates of lower rank. *)
Definition graded (next : Gate → list ptr) (h : heap) : Prop :=
  ∃ rank : nat → nat,
    ∀ a g d, h !! a = Some g → Some d ∈ next g → (rank d < rank a)%nat.

(** One whole run of the stack loop, and the number of gates it pops. *)
Inductive walks (next : Gate → list ptr) (c : Z)
  : list ptr → heap → heap → nat → Prop :=
  | walks_nil h : walks next c [] h h 0
  | walks_cons a g rest h h' n :
      h !! a = Some g →
      walks next c (rev (next g) ++ rest) (<[a := addColor c g]> h) h' n →
      walks next c (Some a :: rest) h h' (S n).

(** What a run from the stack [S] does to the store: the gates reached from
    [S] carry the colour, every gate is as it was or is one of these. *)
Definition cone_coloured (next : Gate → list ptr) (c : Z) (h0 : heap)
    (S : list ptr) (h h' : heap) : Prop :=
  length h' = length h ∧
  ∀ b gb, h !! b = Some gb →
    let reached := ∃ a, Some a ∈ S ∧ reach next h0 a b in
    (reached → h' !! b = Some (addColor c gb)) ∧
    (h' !! b = Some gb ∨ (reached ∧ h' !! b = Some (addColor c gb))).

(** * Properties *)

(** ** The monad *)

Lemma bind_Some {A B} (m : M A) (f : A → M B) h r :
  bind m f h = Some r ↔ ∃ x h1, m h = Some (x, h1) ∧ f x h1 = Some r.
Proof.
  unfold bind. split.
  - destruct (m h) as [[x h1]|]; [eauto | discriminate].
  - intros (x & h1 & -> & ?). done.
Qed.

Lemma ret_Some {A} (x : A) h r : ret x h = Some r ↔ r = (x, h).
Proof. unfold ret. split; congruence. Qed.

Lemma query_Some {A} (p : ptr) (f : Gate → A) h r :
  query p f h = Some r ↔ ∃ a g, p = Some a ∧ h !! a = Some g ∧ r = (f g, h).
Proof.
  unfold query. split.
  - destruct p as [a|]; [|discriminate].
    destruct (h !! a) as [g|] eqn:E; [|discriminate].
    intros [= <-]. eauto 6.
  - intros (a & g & -> & -> & ->). done.
Qed.

Lemma call_Some (p : ptr) (f : Gate → Gate) h r :
  call p f h = Some r ↔
  ∃ a g, p = Some a ∧ h !! a = Some g ∧ r = (tt, <[a := f g]> h).
Proof.
  unfold call. split.
  - destruct p as [a|]; [|discriminate].
    destruct (h !! a) as [g|] eqn:E; [|discriminate].
    intros [= <-]. eauto 6.
  - intros (a & g & -> & -> & ->). done.
Qed.

Lemma call_id (p : ptr) (f : Gate → Gate) h a g :
  p = Some a → h !! a = Some g → f g = g → call p f h = Some (tt, h).
Proof.
  intros -> Hg Hf. unfold call. rewrite Hg, Hf.
  by rewrite list_insert_id.
Qed.

(** ** Placement of a gate *)

Lemma Gate_new_not_placed name : placed (Gate_new name) = false.
Proof. reflexivity. Qed.

(** C10.  A gate whose [placed] flag is clear (the constructor clears it and
    [placeGate] is the only member that sets it) reports the coordinates
    [-1] and [isPlaced() = false]; after [placeGate(x, y)] it reports
    [isPlaced() = true] and the coordinates [x] and [y]. *)
Theorem unplaced_sentinel_then_placeGate (g : Gate) (x y : Z) :
  placed g = false →
  (isPlaced g = false ∧ getPlaceXCoord g = -1 ∧ getPlaceYCoord g = -1) ∧
  (isPlaced (placeGate x y g) = true ∧
   getPlaceXCoord (placeGate x y g) = x ∧
   getPlaceYCoord (placeGate x y g) = y).
Proof.
  intros Hp. unfold isPlaced, getPlaceXCoord, getPlaceYCoord.
  rewrite Hp. simpl. done.
Qed.

Lemma unplaced_sentinel_then_placeGate_witness :
  placed (Gate_new "GATE_0") = false ∧
  ((isPlaced (Gate_new "GATE_0") = false ∧
    getPlaceXCoord (Gate_new "GATE_0") = -1 ∧
    getPlaceYCoord (Gate_new "GATE_0") = -1) ∧
   (isPlaced (placeGate 3 4 (Gate_new "GATE_0")) = true ∧
    getPlaceXCoord (placeGate 3 4 (Gate_new "GATE_0")) = 3 ∧
    getPlaceYCoord (placeGate 3 4 (Gate_new "GATE_0")) = 4)).
Proof.
  split; [reflexivity |].
  apply (unplaced_sentinel_then_placeGate (Gate_new "GATE_0") 3 4).
  reflexivity.
Defined.

(** ** Null arguments *)

(** C9.  On any gate of the store, [newInput(NULL, b)], [newFollow(NULL)],
    [remInput(NULL)] and [remFollow(NULL)] return with the whole store, and
    so the gate's input list, inverter list, follower list and depth,
    unchanged. *)
Theorem null_argument_is_ignored (fuel : nat) (h : heap) (a : nat) (g : Gate)
    (b : bool) :
  h !! a = Some g →
  newInput fuel (Some a) NULL b h = Some (tt, h) ∧
  call (Some a) (newFollow NULL) h = Some (tt, h) ∧
  call (Some a) (remInput NULL) h = Some (tt, h) ∧
  call (Some a) (remFollow NULL) h = Some (tt, h).
Proof.
  intros Hg. split.
  - unfold newInput, bind, query. rewrite Hg. done.
  - repeat split; apply call_id with a g; done.
Qed.

Lemma null_argument_is_ignored_witness :
  [Gate_new "GATE_0"] !! 0%nat = Some (Gate_new "GATE_0") ∧
  (newInput 0 (Some 0%nat) NULL true [Gate_new "GATE_0"]
     = Some (tt, [Gate_new "GATE_0"]) ∧
   call (Some 0%nat) (newFollow NULL) [Gate_new "GATE_0"]
     = Some (tt, [Gate_new "GATE_0"]) ∧
   call (Some 0%nat) (remInput NULL) [Gate_new "GATE_0"]
     = Some (tt, [Gate_new "GATE_0"]) ∧
   call (Some 0%nat) (remFollow NULL) [Gate_new "GATE_0"]
     = Some (tt, [Gate_new "GATE_0"])).
Proof.
  split; [reflexivity |].
  apply (null_argument_is_ignored 0 [Gate_new "GATE_0"] 0 (Gate_new "GATE_0") true).
  reflexivity.
Defined.

(** ** Removal of drivers and followers *)

(** Nothing is erased when the argument does not occur. *)
Lemma remFollow_loop_absent fuel follow i v :
  follow ∉ v → remFollow_loop fuel follow i v = v.
Proof.
  revert i. induction fuel as [|fuel IH]; intros i Hv; simpl; [done|].
  destruct (i <? length v)%nat; [|done].
  destruct (decide (v !! i = Some follow)) as [E|E].
  - exfalso. apply Hv. by eapply list_elem_of_lookup_2.
  - by apply IH.
Qed.

Lemma remFollow_absent follow g :
  follow ∉ followingGates g → remFollow follow g = g.
Proof.
  intros Hv. unfold remFollow. destruct follow as [a|]; [|done].
  rewrite remFollow_loop_absent by done. by destruct g.
Qed.

(** C4.  With the follower list [[f; x; f]], [remFollow(f)] leaves [[x]]:
    the scan goes on after the first [erase] and removes the second
    occurrence as well.  [remInput] does the same to a driver list of that
    shape, together with the paired inverting bits. *)
Theorem remFollow_remInput_erase_twice :
  let g := newFollow (Some 1%nat)
             (newFollow (Some 2%nat) (newFollow (Some 1%nat) (Gate_new "G"))) in
  followingGates g = [Some 1%nat; Some 2%nat; Some 1%nat] ∧
  followingGates (remFollow (Some 1%nat) g) = [Some 2%nat] ∧
  (three_inputs ;;; query (Some 2%nat) (λ g, (inputs g, inputInverters g))) []
    = (three_inputs ;;; ret ([Some 0%nat; Some 1%nat; Some 0%nat],
                             [true; false; false])) [] ∧
  (three_inputs ;;; call (Some 2%nat) (remInput (Some 0%nat)) ;;;
   query (Some 2%nat) (λ g, (inputs g, inputInverters g))) []
    = (three_inputs ;;; call (Some 2%nat) (remInput (Some 0%nat)) ;;;
       ret ([Some 1%nat], [false])) [].
Proof. vm_compute. done. Qed.

(** ** Simulation of one gate *)

(** C1.  The AND gate of the two-input circuit has two non-inverting inputs
    and a non-inverting output.  With [INPUT_0 = 1] and [INPUT_1 = 0] the
    conjunction of its drivers is [0], yet [computeOutputValue] stores [1]:
    control falls through the OR and XOR labels into the BUFFER label, and
    what is stored is the parity of the drivers combined with the first
    one. *)
Theorem computeOutputValue_falls_through (uninit : bool) :
  fst <$> and2_simulated true false uninit []
    = Some (AND, [false; false], false, true) ∧
  true && false = false.
Proof. destruct uninit; vm_compute; done. Qed.

(** ** Depth of the network *)

Lemma to_unsigned_nonneg z : 0 ≤ to_unsigned z.
Proof. unfold to_unsigned. apply Z.mod_pos_bound. lia. Qed.

Lemma max_output_depth_nonneg h outs : 0 ≤ max_output_depth h outs.
Proof. induction outs; simpl; lia. Qed.

Lemma computeNetDepth_loop_spec h outs nd :
  Forall (valid h) outs → 0 ≤ nd →
  computeNetDepth_loop outs nd h
    = Some (Z.max nd (max_output_depth h outs), h).
Proof.
  intros Hv. revert nd. induction Hv as [|o outs (a & g & -> & Hg) _ IH];
    intros nd Hnd; simpl.
  - unfold ret. f_equal. f_equal. lia.
  - unfold bind, query. rewrite Hg. simpl.
    pose proof (to_unsigned_nonneg (depth g)).
    pose proof (max_output_depth_nonneg h outs).
    unfold getDepth.
    destruct (Z.gtb_spec (to_unsigned (depth g)) nd);
      rewrite IH by lia; f_equal; f_equal; lia.
Qed.

(** C3, as the code has it.  On a network whose output pointers are valid,
    [computeNetDepth] returns, leaves the store alone, and sets [netDepth]
    to the greater of its previous value and the greatest depth of the
    output gates; a second call changes nothing. *)
Theorem computeNetDepth_raises_to_output_maximum (net : Net.BooleanNet) (h : heap) :
  Forall (valid h) (Net.outputs net) → 0 ≤ Net.netDepth net →
  ∃ net',
    computeNetDepth net h = Some (net', h) ∧
    Net.netDepth net'
      = Z.max (Net.netDepth net) (max_output_depth h (Net.outputs net)) ∧
    Net.outputs net' = Net.outputs net ∧
    computeNetDepth net' h = Some (net', h).
Proof.
  intros Hv Hnd.
  exists (Net.set_netDepth
            (Z.max (Net.netDepth net) (max_output_depth h (Net.outputs net))) net).
  split; [|split; [done|split; [done|]]].
  - unfold computeNetDepth, bind. by rewrite computeNetDepth_loop_spec.
  - unfold computeNetDepth, bind. simpl.
    rewrite computeNetDepth_loop_spec by (done || lia).
    unfold ret, Net.set_netDepth. simpl. do 3 f_equal. lia.
Qed.

Lemma computeNetDepth_raises_to_output_maximum_witness :
  ∃ net h net',
    and2_one_output_left [] = Some (net, h) ∧
    computeNetDepth net h = Some (net', h) ∧
    Net.netDepth net' = Z.max 2 1.
Proof.
  destruct (and2_one_output_left []) as [[net h]|] eqn:E; [|by vm_compute in E].
  exists net, h.
  destruct (computeNetDepth_raises_to_output_maximum net h) as (net' & H1 & H2 & _).
  - vm_compute in E. injection E as <- <-.
    repeat constructor; eexists _, _; split; reflexivity.
  - vm_compute in E. injection E as <- <-. done.
  - exists net'. split; [reflexivity|]. split; [exact H1|]. rewrite H2.
    vm_compute in E. injection E as <- <-. reflexivity.
Defined.

(** C3 as an equality after any call fails: after [remOutput(0)] on the loaded
    two-output circuit the remaining output has depth 1, and
    [computeNetDepth] leaves the cached value 2 in [netDepth]. *)
Lemma computeNetDepth_keeps_greater_cached_value : ¬ netDepth_is_output_maximum.
Proof.
  intros H.
  destruct (and2_one_output_left []) as [[net h]|] eqn:E; [|by vm_compute in E].
  destruct (computeNetDepth net h) as [[net' h']|] eqn:E'.
  - specialize (H _ _ _ _ E'). revert E'. vm_compute in E. injection E as <- <-.
    vm_compute. intros [= <- <-]. vm_compute in H. discriminate.
  - vm_compute in E. injection E as <- <-. vm_compute in E'. discriminate.
Qed.

(** ** The AIGER header *)





(** ** Buffers at SCOAP hot spots *)

(** The loop counter is decremented in the body and incremented by the
    [for]: it is [0] at every test, and any positive [places] lets the loop
    run until the heap is empty. *)
Lemma insert_loop_positive_places fuel k places q nb h :
  1 ≤ places →
  insert_loop fuel k places 0 q nb h = insert_loop fuel k 1 0 q nb h.
Proof.
  intros Hp. revert q nb h. induction k as [|k IH]; intros q nb h.
  - simpl. change (to_unsigned 0) with 0.
    destruct (Z.ltb_spec 0 places); [|lia]. done.
  - simpl. change (to_unsigned 0) with 0.
    destruct (Z.ltb_spec 0 places); [|lia].
    change (0 <? 1) with true.
    destruct (to_size_t 0 <? Z.of_nat (length q)); simpl; [|done].
    unfold bind.
    destruct (pq_top q h) as [[t h1]|]; [|done].
    destruct (at_ q t h1) as [[top h2]|]; [|done].
    destruct (insert_buffer fuel top h2) as [[buff h3]|]; [|done].
    change (int_add (int_sub 0 1) 1) with 0. apply IH.
Qed.

(** C2.  On the chain of three AND gates two gates are eligible, and
    [InsertBuffsByScoap(1)] inserts a buffer behind both of them, not behind
    [min(1, 2) = 1] of them. *)
Theorem InsertBuffsByScoap_ignores_places :
  fst <$> chain3_buffered 1 []
    = Some (2%nat, ["GATE_0_SCOAPBUFF"; "GATE_1_SCOAPBUFF"]%string) ∧
  Z.min 1 2 = 1.
Proof. vm_compute. done. Qed.

(** ** The dual-rail conversion *)

Lemma inv_ret {A} (I : heap → Prop) (x : A) (Q : A → Prop) :
  Q x → inv_step I (ret x) Q.
Proof. intros HQ h y h' HI [= <- <-]. done. Qed.

Lemma inv_fail {A} (I : heap → Prop) (Q : A → Prop) : inv_step I fail Q.
Proof. intros h y h' HI. discriminate. Qed.

Lemma inv_bind {A B} (I : heap → Prop) (m : M A) (k : A → M B) Q1 Q :
  inv_step I m Q1 → (∀ x, Q1 x → inv_step I (k x) Q) → inv_step I (bind m k) Q.
Proof.
  intros Hm Hk h y h' HI E. apply bind_Some in E as (x & h1 & E1 & E2).
  destruct (Hm _ _ _ HI E1) as [HI1 HQ1]. exact (Hk x HQ1 _ _ _ HI1 E2).
Qed.

Lemma inv_weaken {A} (I : heap → Prop) (m : M A) (Q1 Q : A → Prop) :
  inv_step I m Q1 → (∀ x, Q1 x → Q x) → inv_step I m Q.
Proof. intros Hm HQ h y h' HI E. destruct (Hm _ _ _ HI E). auto. Qed.

Lemma inv_query {A} (I : heap → Prop) (p : ptr) (f : Gate → A) :
  inv_step I (query p f) (λ x, ∃ h a g, I h ∧ p = Some a ∧ h !! a = Some g ∧ x = f g).
Proof.
  intros h y h' HI E. apply query_Some in E as (a & g & -> & Hg & [= -> ->]).
  split; [done|]. eauto 8.
Qed.

Lemma inv_call (I : heap → Prop) (p : ptr) (f : Gate → Gate) :
  (∀ h a g, I h → p = Some a → h !! a = Some g → I (<[a := f g]> h)) →
  inv_step I (call p f) (λ _, True).
Proof.
  intros HI' h y h' HI E. apply call_Some in E as (a & g & -> & Hg & [= -> ->]).
  split; [|done]. eauto.
Qed.

Lemma inv_new (I : heap → Prop) (name : string) :
  (∀ h, I h → I (h ++ [Gate_new name])) →
  inv_step I (new_Gate name) (λ p, ∃ h, I h ∧ p = Some (length h)).
Proof.
  intros HI' h y h' HI [= <- <-]. split; [auto|]. eauto.
Qed.

Lemma inv_at {A} (I : heap → Prop) (v : list A) (i : nat) :
  inv_step I (at_ v i) (λ x, v !! i = Some x).
Proof.
  intros h y h' HI E. unfold at_ in E. destruct (v !! i); [|done].
  injection E as <- <-. done.
Qed.

Lemma inv_for_go (I : heap → Prop) (bound : M nat) (body : nat → M unit) k i :
  inv_step I bound (λ _, True) →
  (∀ j, inv_step I (body j) (λ _, True)) →
  inv_step I (for_go bound body k i) (λ _, True).
Proof.
  intros Hb Hbody. revert i. induction k as [|k IH]; intros i; simpl.
  - eapply inv_bind; [exact Hb|]. intros n _.
    destruct (i <? n)%nat; [apply inv_fail | by apply inv_ret].
  - eapply inv_bind; [exact Hb|]. intros n _.
    destruct (i <? n)%nat; [|by apply inv_ret].
    eapply inv_bind; [apply Hbody|]. intros _ _. apply IH.
Qed.

Lemma inv_for_loop (I : heap → Prop) (bound : M nat) (body : nat → M unit) :
  inv_step I bound (λ _, True) →
  (∀ j, inv_step I (body j) (λ _, True)) →
  inv_step I (for_loop bound body) (λ _, True).
Proof.
  intros Hb Hbody. unfold for_loop. eapply inv_bind; [exact Hb|].
  intros n _. by apply inv_for_go.
Qed.

Lemma inv_for_each {A} (I : heap → Prop) (body : nat → A → M unit) i (v : list A) :
  (∀ j x, x ∈ v → inv_step I (body j x) (λ _, True)) →
  inv_step I (for_each body i v) (λ _, True).
Proof.
  revert i. induction v as [|x v IH]; intros i Hbody; simpl.
  - by apply inv_ret.
  - eapply inv_bind; [apply Hbody; left|]. intros _ _. apply IH.
    intros j y Hy. apply Hbody. by right.
Qed.

Lemma inv_map_M {A B} (I : heap → Prop) (f : A → M B) (v : list A) :
  (∀ x, x ∈ v → inv_step I (f x) (λ _, True)) →
  inv_step I (map_M f v) (λ _, True).
Proof.
  induction v as [|x v IH]; intros Hf; simpl.
  - by apply inv_ret.
  - eapply inv_bind; [apply Hf; left|]. intros y _.
    eapply inv_bind; [apply IH; intros z Hz; apply Hf; by right|].
    intros ys _. by apply inv_ret.
Qed.

Lemma inv_query_any {A} (I : heap → Prop) (p : ptr) (f : Gate → A) :
  inv_step I (query p f) (λ _, True).
Proof. eapply inv_weaken; [apply inv_query|done]. Qed.

Lemma inv_setDepth (I : heap → Prop) fuel p d :
  (∀ h a g d', I h → h !! a = Some g → I (<[a := set_depth d' g]> h)) →
  inv_step I (setDepth fuel p d) (λ _, True).
Proof.
  intros HI. revert p d. induction fuel as [|fuel IH]; intros p d; simpl.
  - apply inv_fail.
  - eapply inv_bind; [apply inv_query_any|]. intros cur _.
    destruct (to_unsigned cur <? d); [|by apply inv_ret].
    eapply inv_bind; [apply inv_call; eauto|]. intros _ _.
    eapply inv_bind; [|intros _ _; by apply inv_ret].
    apply inv_for_loop; [apply inv_query_any|]. intros j.
    eapply inv_bind; [apply inv_query_any|]. intros v _.
    eapply inv_bind; [apply inv_at|]. intros f _.
    eapply inv_bind; [apply inv_query_any|]. intros dd _.
    eapply inv_bind; [apply IH|]. intros _ _. by apply inv_ret.
Qed.

Lemma keeps_refl n r h : (n ≤ length h)%nat → (∀ a g, r a g g) → keeps n r h h.
Proof. intros Hn Hr. split; [done|]. split; [done|]. eauto. Qed.

Lemma keeps_insert n r h0 h a g g' :
  keeps n r h0 h → h !! a = Some g →
  ((a < n)%nat → ∀ g0, h0 !! a = Some g0 → r a g0 g → r a g0 g') →
  keeps n r h0 (<[a := g']> h).
Proof.
  intros (Hn & Hl & Hk) Hg Hr. split; [done|]. split.
  { by rewrite length_insert. }
  intros b g0 Hb Hg0. destruct (Hk b g0 Hb Hg0) as (gb & Hgb & Hrb).
  destruct (decide (a = b)) as [->|Hne].
  - exists g'. split.
    + apply list_lookup_insert_eq. by eapply lookup_lt_Some.
    + apply Hr; [done..|]. congruence.
  - exists gb. split; [|done]. by rewrite list_lookup_insert_ne.
Qed.

Lemma keeps_app n r h0 h l : keeps n r h0 h → keeps n r h0 (h ++ l).
Proof.
  intros (Hn & Hl & Hk). split; [done|]. split.
  { rewrite length_app. lia. }
  intros b g0 Hb Hg0. destruct (Hk b g0 Hb Hg0) as (gb & Hgb & Hrb).
  exists gb. split; [|done]. by apply lookup_app_l_Some.
Qed.

Ltac inv_post_true :=
  try match goal with
      | |- inv_step _ _ ?Q => is_evar Q; unify Q (λ _ : unit, True)
      end.

Ltac inv_post_true_list :=
  try match goal with
      | |- inv_step _ _ ?Q => is_evar Q; unify Q (λ _ : list ptr, True)
      end.

Ltac inv_go :=
  lazymatch goal with
  | |- inv_step _ (ret _) ?Q =>
      first [is_evar Q; apply (inv_ret _ _ (λ _, True)); exact Logic.I
            | apply inv_ret; try exact Logic.I]
  | |- inv_step _ fail _ => apply inv_fail
  | |- inv_step _ (bind _ _) _ =>
      eapply inv_bind; [inv_go | intros ? ?; inv_go]
  | |- inv_step _ (query _ _) ?Q =>
      first [is_evar Q; apply inv_query | apply inv_query_any]
  | |- inv_step _ (call _ _) _ => apply inv_call
  | |- inv_step _ (new_Gate _) _ => apply inv_new
  | |- inv_step _ (at_ _ _) ?Q =>
      first [is_evar Q; apply inv_at
            | eapply inv_weaken; [apply inv_at | done]]
  | |- inv_step _ (for_loop _ _) _ =>
      apply inv_for_loop; [inv_go | intros ?; inv_go]
  | |- inv_step _ (for_each _ _ _) _ =>
      apply inv_for_each; intros ? ? ?; inv_go
  | |- inv_step _ (map_M _ _) _ =>
      inv_post_true_list; apply inv_map_M; intros ? ?; inv_go
  | |- inv_step _ (dup_gate _ _) _ => unfold dup_gate; inv_go
  | |- inv_step _ (dup_input _ _) _ => unfold dup_input; inv_go
  | |- inv_step _ (dup_output _ _) _ => unfold dup_output; inv_go
  | |- inv_step _ (move_inverter _) _ => unfold move_inverter; inv_go
  | |- inv_step _ (change_inputs _ _) _ => unfold change_inputs; inv_go
  | |- inv_step _ (setDepth _ _ _) _ => apply inv_setDepth
  | |- inv_step _ (newInput _ _ _ _) _ => unfold newInput; inv_go
  | |- inv_step _ (swapDriver _ _ _ _) _ => unfold swapDriver; inv_go
  | |- inv_step _ (swap_output_rails _ _) _ => unfold swap_output_rails; inv_go
  | |- inv_step _ (if ?b then _ else _) _ =>
      inv_post_true; destruct b eqn:?; inv_go
  | |- inv_step _ (match ?x with _ => _ end) _ =>
      inv_post_true; destruct x eqn:?; inv_go
  | |- _ => idtac
  end.

(** *** Clearing the inverters: the loops after the duplication *)



Lemma isInputInverting_clear_other j k g :
  isInputInverting j g = false → isInputInverting j (setInputNonInverting k g) = false.
Proof.
  unfold isInputInverting, setInputNonInverting. simpl. intros H.
  destruct (decide (k = j)) as [->|Hne].
  - destruct (decide (j < length (inputInverters g))%nat).
    + by rewrite list_lookup_insert_eq.
    + by rewrite list_insert_ge by lia.
  - by rewrite list_lookup_insert_ne.
Qed.


Lemma remFollow_frame p g :
  remFollow p g = set_followingGates (followingGates (remFollow p g)) g.
Proof. destruct p, g; reflexivity. Qed.

Lemma newFollow_frame p g :
  newFollow p g = set_followingGates (followingGates (newFollow p g)) g.
Proof. destruct p, g; reflexivity. Qed.

Lemma remFollow_inputs p g : inputs (remFollow p g) = inputs g.
Proof. by rewrite remFollow_frame. Qed.
Lemma remFollow_inputInverters p g :
  inputInverters (remFollow p g) = inputInverters g.
Proof. by rewrite remFollow_frame. Qed.
Lemma remFollow_outputInverter p g :
  outputInverter (remFollow p g) = outputInverter g.
Proof. by rewrite remFollow_frame. Qed.
Lemma remFollow_complementaryGate p g :
  complementaryGate (remFollow p g) = complementaryGate g.
Proof. by rewrite remFollow_frame. Qed.
Lemma remFollow_gateFunction p g :
  gateFunction (remFollow p g) = gateFunction g.
Proof. by rewrite remFollow_frame. Qed.
Lemma remFollow_gatePlacement p g :
  gatePlacement (remFollow p g) = gatePlacement g.
Proof. by rewrite remFollow_frame. Qed.
Lemma remFollow_isInputInverting j p g :
  isInputInverting j (remFollow p g) = isInputInverting j g.
Proof. unfold isInputInverting. by rewrite remFollow_inputInverters. Qed.

Lemma newFollow_inputs p g : inputs (newFollow p g) = inputs g.
Proof. by rewrite newFollow_frame. Qed.
Lemma newFollow_inputInverters p g :
  inputInverters (newFollow p g) = inputInverters g.
Proof. by rewrite newFollow_frame. Qed.
Lemma newFollow_outputInverter p g :
  outputInverter (newFollow p g) = outputInverter g.
Proof. by rewrite newFollow_frame. Qed.
Lemma newFollow_complementaryGate p g :
  complementaryGate (newFollow p g) = complementaryGate g.
Proof. by rewrite newFollow_frame. Qed.
Lemma newFollow_gateFunction p g :
  gateFunction (newFollow p g) = gateFunction g.
Proof. by rewrite newFollow_frame. Qed.
Lemma newFollow_gatePlacement p g :
  gatePlacement (newFollow p g) = gatePlacement g.
Proof. by rewrite newFollow_frame. Qed.
Lemma newFollow_isInputInverting j p g :
  isInputInverting j (newFollow p g) = isInputInverting j g.
Proof. unfold isInputInverting. by rewrite newFollow_inputInverters. Qed.

Lemma isInputInverting_set_inputs j v g :
  isInputInverting j (set_inputs v g) = isInputInverting j g.
Proof. reflexivity. Qed.
Lemma isInputInverting_set_depth j d g :
  isInputInverting j (set_depth d g) = isInputInverting j g.
Proof. reflexivity. Qed.
Lemma isInputInverting_set_followingGates j v g :
  isInputInverting j (set_followingGates v g) = isInputInverting j g.
Proof. reflexivity. Qed.
Lemma isInputInverting_set_outputInverter j b g :
  isInputInverting j (set_outputInverter b g) = isInputInverting j g.
Proof. reflexivity. Qed.
Lemma isInputInverting_set_complementaryGate j p g :
  isInputInverting j (set_complementaryGate p g) = isInputInverting j g.
Proof. reflexivity. Qed.

Create Rewrite HintDb gatefld.
Hint Rewrite isInputInverting_set_inputs isInputInverting_set_depth
  isInputInverting_set_followingGates isInputInverting_set_outputInverter
  isInputInverting_set_complementaryGate : gatefld.
Hint Rewrite remFollow_inputs remFollow_inputInverters remFollow_outputInverter
  remFollow_complementaryGate remFollow_gateFunction remFollow_gatePlacement
  remFollow_isInputInverting
  newFollow_inputs newFollow_inputInverters newFollow_outputInverter
  newFollow_complementaryGate newFollow_gateFunction newFollow_gatePlacement
  newFollow_isInputInverting : gatefld.

Ltac r_fin :=
  intros; autorewrite with gatefld; simpl;
  try done; try congruence;
  try (rewrite length_insert; congruence);
  try (apply isInputInverting_clear_other; auto);
  auto.

Ltac r_solve2 :=
  intros; eapply keeps_insert; [eassumption..|];
  unfold r_stay, r_clear; intros ? ? ? ?; destruct_and?;
  repeat split; r_fin.


Lemma for_go_inv (I : nat → heap → Prop) (bound : M nat) (body : nat → M unit) :
  (∀ h n h1, bound h = Some (n, h1) → h1 = h) →
  (∀ i h n x h', I i h → bound h = Some (n, h) → (i < n)%nat →
                 body i h = Some (x, h') → I (S i) h') →
  ∀ k i h x h', I i h → for_go bound body k i h = Some (x, h') →
    ∃ i' n, I i' h' ∧ bound h' = Some (n, h') ∧ (n ≤ i')%nat.
Proof.
  intros Hro Hbody. induction k as [|k IH]; intros i h x h' HI E; simpl in E.
  - apply bind_Some in E as (n & h1 & E1 & E2).
    pose proof (Hro _ _ _ E1) as ->.
    destruct (Nat.ltb_spec i n); [done|]. injection E2 as <- <-. eauto.
  - apply bind_Some in E as (n & h1 & E1 & E2).
    pose proof (Hro _ _ _ E1) as ->.
    destruct (Nat.ltb_spec i n).
    + apply bind_Some in E2 as (y & h2 & E2 & E3). eapply IH; [|exact E3].
      eapply Hbody; eauto.
    + injection E2 as <- <-. eauto.
Qed.

Lemma keeps_length n r h0 h : keeps n r h0 h → (n ≤ length h)%nat.
Proof. intros (? & ? & _). lia. Qed.





Lemma r_stay_refl a g : r_stay a g g.
Proof. done. Qed.

Lemma query_inv {A} (p : ptr) (f : Gate → A) h x h1 :
  query p f h = Some (x, h1) →
  h1 = h ∧ ∃ a g, p = Some a ∧ h !! a = Some g ∧ x = f g.
Proof.
  intros E. apply query_Some in E as (a & g & -> & Hg & [= -> ->]). eauto 6.
Qed.

Lemma call_inv (p : ptr) (f : Gate → Gate) h x h1 :
  call p f h = Some (x, h1) →
  ∃ a g, p = Some a ∧ h !! a = Some g ∧ h1 = <[a := f g]> h.
Proof.
  intros E. apply call_Some in E as (a & g & -> & Hg & [= -> ->]). eauto 6.
Qed.








(** *** The complementary buffers of the primary inputs *)

Lemma input_twin_keeps n a D h h' :
  keeps n (r_twin a D) h h' → (a < n)%nat → (D < n)%nat →
  input_twin h a D → input_twin h' a D.
Proof.
  intros (_ & _ & Hk) Ha HD (gI & gD & HgI & Hc & HgD & H1 & H2 & H3 & H4 & H5 & H6).
  destruct (Hk a gI Ha HgI) as (gI' & HgI' & HcI & _).
  destruct (Hk D gD HD HgD) as (gD' & HgD' & _ & HdD).
  destruct (HdD eq_refl) as (? & ? & ? & ? & ? & ?).
  exists gI', gD'. rewrite HcI by done. repeat split; congruence.
Qed.

Ltac fresh_addr :=
  repeat match goal with
         | H : ∃ h, _ ∧ _ = Some (length h) |- _ =>
             let h := fresh "hf" in
             let HI := fresh "HIf" in
             let E := fresh "Ef" in
             destruct H as (h & HI & E);
             apply keeps_length in HI
         end.

Ltac q_facts :=
  repeat match goal with
         | H : ∃ h a g, _ ∧ _ = Some a ∧ h !! a = Some g ∧ _ = _ |- _ =>
             let h := fresh "hq" in
             let a := fresh "aq" in
             let g := fresh "gq" in
             let HI := fresh "HIq" in
             let Ep := fresh "Epq" in
             let Hg := fresh "Hgq" in
             let Ex := fresh "Exq" in
             destruct H as (h & a & g & HI & Ep & Hg & Ex)
         | H : (λ _, _) _ |- _ => simpl in H
         end.

Ltac twin_solve :=
  intros; q_facts; fresh_addr;
  first
    [ by apply keeps_app
    | eapply keeps_insert; [eassumption..|];
      unfold r_twin; intros ? ? ? [? ?]; simplify_eq;
      split; intros; simplify_eq; try lia; try congruence;
      autorewrite with gatefld; simpl; auto ].

Lemma dup_input_twin_frame n a D h0 fuel p :
  p ≠ Some a → p ≠ Some D →
  inv_step (keeps n (r_twin a D) h0) (dup_input fuel p) (λ _, True).
Proof.
  intros Ha HD. unfold dup_input. inv_go; twin_solve.
Qed.

Lemma depth_only_refl h : depth_only h h.
Proof.
  split; [done|]. intros c g Hg. exists (depth g). rewrite Hg. by destruct g.
Qed.

Lemma setDepth_depth_only fuel p d h x h' :
  setDepth fuel p d h = Some (x, h') → depth_only h h'.
Proof.
  intros E. eapply (inv_setDepth (depth_only h)); [|apply depth_only_refl|exact E].
  intros h1 a g1 d' [Hl Hk] Hg1. split.
  { by rewrite length_insert. }
  intros c g Hg. destruct (Hk c g Hg) as (d0 & Hc).
  destruct (decide (a = c)) as [->|Hne].
  - exists d'. rewrite list_lookup_insert_eq by (by eapply lookup_lt_Some).
    assert (g1 = set_depth d0 g) as -> by congruence. done.
  - exists d0. by rewrite list_lookup_insert_ne.
Qed.

Lemma call_track (t : nat) (f : Gate → Gate) h x h' :
  call (Some t) f h = Some (x, h') →
  ∃ g, h !! t = Some g ∧ h' !! t = Some (f g) ∧ length h' = length h ∧
       ∀ c, c ≠ t → h' !! c = h !! c.
Proof.
  intros E. apply call_inv in E as (a & g & [= <-] & Hg & ->).
  exists g. split; [done|]. split.
  { apply list_lookup_insert_eq. by eapply lookup_lt_Some. }
  split; [by rewrite length_insert|].
  intros c Hc. by rewrite list_lookup_insert_ne.
Qed.

Lemma newInput_track fuel (t p : nat) b h x h' :
  newInput fuel (Some t) (Some p) b h = Some (x, h') →
  length h' = length h ∧
  (∃ g d, h !! t = Some g ∧ h' !! t = Some (set_depth d (add_input (Some p) b g))) ∧
  ∀ c g, c ≠ t → h !! c = Some g → ∃ d, h' !! c = Some (set_depth d g).
Proof.
  unfold newInput. intros E.
  apply bind_Some in E as (? & h1 & E1 & E).
  apply query_inv in E1 as (-> & _).
  apply bind_Some in E as (? & h1 & E1 & E).
  apply call_track in E1 as (g & Hg & Hg1 & Hl1 & Ho1).
  apply bind_Some in E as (? & h2 & E2 & E).
  apply call_track in E2 as (g1 & Hg1' & Hg2 & Hl2 & Ho2).
  assert (g1 = set_inputs (Some p :: inputs g) g) as -> by congruence.
  apply bind_Some in E as (dp & h3 & E3 & E).
  apply query_inv in E3 as (-> & _).
  apply bind_Some in E as (? & h3 & E3 & E). injection E as <- <-.
  apply setDepth_depth_only in E3 as [Hl3 Hk3].
  split; [congruence|]. split.
  - destruct (Hk3 _ _ Hg2) as (d & Hd). exists g, d. done.
  - intros c gc Hc Hgc. apply Hk3. rewrite Ho2, Ho1 by done. done.
Qed.

Lemma call_track2 (t o : nat) (f : Gate → Gate) gt go h x h' :
  call (Some t) f h = Some (x, h') → o ≠ t →
  h !! t = Some gt → h !! o = Some go →
  h' !! t = Some (f gt) ∧ h' !! o = Some go ∧ length h' = length h.
Proof.
  intros E Hne Ht Ho. apply call_track in E as (g & Hg & Hg' & Hl & Hoth).
  assert (g = gt) as -> by congruence.
  split; [done|]. split; [|done]. by rewrite Hoth.
Qed.

Lemma newInput_track2 fuel (t p o : nat) b gt go h x h' :
  newInput fuel (Some t) (Some p) b h = Some (x, h') → o ≠ t →
  h !! t = Some gt → h !! o = Some go →
  ∃ d d', h' !! t = Some (set_depth d (add_input (Some p) b gt)) ∧
          h' !! o = Some (set_depth d' go) ∧ length h' = length h.
Proof.
  intros E Hne Ht Ho.
  apply newInput_track in E as (Hl & (g & d & Hg & Hg') & Hoth).
  assert (g = gt) as -> by congruence.
  destruct (Hoth o go Hne Ho) as (d' & Hd'). eauto 6.
Qed.

Lemma dup_input_spec fuel a h p h' :
  dup_input fuel (Some a) h = Some (p, h') →
  p = Some (length h) ∧ length h' = S (length h) ∧ (a < length h)%nat ∧
  input_twin h' a (length h).
Proof.
  unfold dup_input. intros E.
  apply bind_Some in E as (name & h1 & E1 & E).
  apply query_inv in E1 as (-> & ? & gI & [= <-] & HgI & ->).
  assert (Ha : (a < length h)%nat) by (by eapply lookup_lt_Some).
  apply bind_Some in E as (? & h1 & E1 & E). injection E1 as <- <-.
  set (n := length h) in *.
  assert (Hn1 : (h ++ [Gate_new ("D_" +:+ getName gI)]) !! n
                = Some (Gate_new ("D_" +:+ getName gI))).
  { by rewrite lookup_app_r, Nat.sub_diag by done. }
  assert (Ha1 : (h ++ [Gate_new ("D_" +:+ getName gI)]) !! a = Some gI).
  { by rewrite lookup_app_l. }
  assert (Hl1 : length (h ++ [Gate_new ("D_" +:+ getName gI)]) = S n).
  { rewrite length_app. simpl. lia. }
  assert (Hne : a ≠ n) by lia.
  assert (Hne' : n ≠ a) by lia.
  revert Hn1 Ha1 Hl1 E. generalize (h ++ [Gate_new ("D_" +:+ getName gI)]).
  intros h1 Hn1 Ha1 Hl1 E.
  apply bind_Some in E as (? & h2 & E2 & E).
  eapply call_track2 in E2 as (Hn2 & Ha2 & Hl2); [|exact Hne|exact Hn1|exact Ha1].
  apply bind_Some in E as (? & h3 & E3 & E).
  eapply call_track2 in E3 as (Hn3 & Ha3 & Hl3); [|exact Hne|exact Hn2|exact Ha2].
  apply bind_Some in E as (? & h4 & E4 & E).
  eapply newInput_track2 in E4 as (d4 & d4' & Hn4 & Ha4 & Hl4);
    [|exact Hne|exact Hn3|exact Ha3].
  apply bind_Some in E as (? & h5 & E5 & E).
  eapply call_track2 in E5 as (Ha5 & Hn5 & Hl5); [|exact Hne'|exact Ha4|exact Hn4].
  apply bind_Some in E as (? & h6 & E6 & E).
  eapply call_track2 in E6 as (Hn6 & Ha6 & Hl6); [|exact Hne|exact Hn5|exact Ha5].
  apply bind_Some in E as (? & h7 & E7 & E).
  eapply call_track2 in E7 as (Hn7 & Ha7 & Hl7); [|exact Hne|exact Hn6|exact Ha6].
  apply bind_Some in E as (? & h8 & E8 & E).
  eapply call_track2 in E8 as (Hn8 & Ha8 & Hl8); [|exact Hne|exact Hn7|exact Ha7].
  apply bind_Some in E as (? & h9 & E9 & E).
  eapply call_track2 in E9 as (Ha9 & Hn9 & Hl9); [|exact Hne'|exact Ha8|exact Hn8].
  injection E as <- <-.
  split; [done|]. split; [congruence|]. split; [done|].
  eexists _, _. split; [exact Ha9|]. split; [done|]. split; [exact Hn9|].
  done.
Qed.

Lemma keeps_trans n r h0 h1 h2 :
  (∀ a g0 g1 g2, r a g0 g1 → r a g1 g2 → r a g0 g2) →
  keeps n r h0 h1 → keeps n r h1 h2 → keeps n r h0 h2.
Proof.
  intros Hr (Hn & Hl & Hk) (Hn' & Hl' & Hk'). split; [done|]. split; [lia|].
  intros a g0 Ha Hg0. destruct (Hk a g0 Ha Hg0) as (g1 & Hg1 & Hr1).
  destruct (Hk' a g1 Ha Hg1) as (g2 & Hg2 & Hr2). eauto.
Qed.

Lemma keeps_weaken n n' (r r' : nat → Gate → Gate → Prop) h0 h :
  (n' ≤ n)%nat → (∀ a g g', (a < n')%nat → r a g g' → r' a g g') →
  keeps n r h0 h → keeps n' r' h0 h.
Proof.
  intros Hn Hr (Hn0 & Hl & Hk). split; [lia|]. split; [done|].
  intros a g0 Ha Hg0. destruct (Hk a g0) as (g & Hg & Hrg); [lia|done|]. eauto.
Qed.

Lemma r_twin_trans a D b g0 g1 g2 :
  r_twin a D b g0 g1 → r_twin a D b g1 g2 → r_twin a D b g0 g2.
Proof.
  intros [H1 H2] [H1' H2']. split.
  - intros Hb. rewrite H1', H1 by done. done.
  - intros Hb. destruct (H2 Hb) as (? & ? & ? & ? & ? & ?).
    destruct (H2' Hb) as (? & ? & ? & ? & ? & ?). repeat split; congruence.
Qed.

Lemma r_twin_refl a D b g : r_twin a D b g g.
Proof. done. Qed.

Lemma r_out_refl a D o b g : r_out a D o b g g.
Proof. done. Qed.

Lemma keeps_complement n a D o hp hq gp gq :
  keeps n (r_out a D o) hp hq → (o < n)%nat →
  hp !! o = Some gp → hq !! o = Some gq →
  complementaryGate gq = complementaryGate gp.
Proof.
  intros (_ & _ & Hk) Ho Hp Hq. destruct (Hk o gp Ho Hp) as (g & Hg & _ & Hc).
  assert (g = gq) as -> by congruence. by apply Hc.
Qed.

Lemma dup_output_twin_exec a D fuel po h p h' :
  po ≠ Some a → po ≠ Some D →
  dup_output fuel po h = Some (p, h') →
  keeps (length h) (r_twin a D) h h'.
Proof.
  intros Hoa HoD. unfold dup_output. intros E.
  apply bind_Some in E as (name & h1 & E1 & E).
  apply query_inv in E1 as (-> & o & gO & -> & HgO & ->).
  assert (o ≠ a) by congruence. assert (o ≠ D) by congruence.
  assert (Ho : (o < length h)%nat) by (by eapply lookup_lt_Some).
  apply bind_Some in E as (? & h1 & E1 & E). injection E1 as <- <-.
  set (n := length h) in *.
  assert (K : keeps n (r_twin a D) h (h ++ [Gate_new ("D_" +:+ getName gO)])).
  { apply keeps_app, keeps_refl; [done | apply r_twin_refl]. }
  assert (Hn1 : (h ++ [Gate_new ("D_" +:+ getName gO)]) !! n
                = Some (Gate_new ("D_" +:+ getName gO))).
  { by rewrite lookup_app_r, Nat.sub_diag by done. }
  assert (Ho1 : (h ++ [Gate_new ("D_" +:+ getName gO)]) !! o = Some gO).
  { by rewrite lookup_app_l. }
  assert (Hne : o ≠ n) by lia.
  assert (Hne' : n ≠ o) by lia.
  revert K Hn1 Ho1 E. generalize (h ++ [Gate_new ("D_" +:+ getName gO)]).
  intros h1 K Hn1 Ho1 E.
  assert (Kstep : ∀ hx t (f : Gate → Gate) x hy,
             keeps n (r_twin a D) h hx → call (Some t) f hx = Some (x, hy) →
             (t = n ∨ (t = o ∧ ∀ g, r_twin a D o g (f g))) →
             keeps n (r_twin a D) h hy).
  { intros hx t f x hy Kx Ex Ht.
    apply call_inv in Ex as (? & gx & [= <-] & Hgx & ->).
    eapply keeps_insert; [done..|]. intros Hlt g0 Hg0 Hr.
    destruct Ht as [->|[-> Hf]]; [lia|].
    eapply r_twin_trans; [exact Hr | apply Hf]. }
  apply bind_Some in E as (fn & h2 & E2 & E).
  apply query_inv in E2 as (-> & _).
  apply bind_Some in E as (? & h2 & E2 & E).
  pose proof (Kstep _ _ _ _ _ K E2 (or_introl eq_refl)) as K2.
  eapply call_track2 in E2 as (Hn2 & Ho2 & _); [|exact Hne|exact Hn1|exact Ho1].
  apply bind_Some in E as (pl & h3 & E3 & E).
  apply query_inv in E3 as (-> & _).
  apply bind_Some in E as (? & h3 & E3 & E).
  pose proof (Kstep _ _ _ _ _ K2 E3 (or_introl eq_refl)) as K3.
  eapply call_track2 in E3 as (Hn3 & Ho3 & _); [|exact Hne|exact Hn2|exact Ho2].
  apply bind_Some in E as (? & h4 & E4 & E).
  pose proof (Kstep _ _ _ _ _ K3 E4 (or_introl eq_refl)) as K4.
  eapply call_track2 in E4 as (Hn4 & Ho4 & _); [|exact Hne|exact Hn3|exact Ho3].
  apply bind_Some in E as (? & h5 & E5 & E).
  assert (K5 : keeps n (r_twin a D) h h5).
  { eapply Kstep; [exact K4|exact E5|]. right. split; [done|].
    intros g. split; intros; by simplify_eq. }
  eapply call_track2 in E5 as (Ho5 & Hn5 & Hl5); [|exact Hne'|exact Ho4|exact Hn4].
  match type of E with ?m _ = _ =>
    assert (Hs : inv_step (keeps n (r_out a D o) h5) m (λ _, True))
  end.
  { inv_go; intros; q_facts; fresh_addr; simplify_eq;
      repeat match goal with
        | HI : keeps n (r_out a D ?o') h5 ?hq, Hg : ?hq !! ?o' = Some ?gq |- _ =>
            lazymatch goal with
            | _ : complementaryGate gq = _ |- _ => fail
            | _ => pose proof (keeps_complement _ _ _ _ _ _ _ _ HI Ho Ho5 Hg)
            end
        end;
      simpl in *; unfold getComplement in *; simplify_eq;
      (eapply keeps_insert; [eassumption..|]);
      unfold r_out, r_twin; intros ? ? ? [[? ?] ?]; simplify_eq;
      (split; [split|]); intros; simplify_eq; try lia;
      autorewrite with gatefld; simpl; auto. }
  destruct (Hs h5 p h') as [K' _]; [|exact E|].
  { apply keeps_refl; [|apply r_out_refl]. apply lookup_lt_Some in Hn5. lia. }
  eapply keeps_trans; [apply r_twin_trans|exact K5|].
  eapply (keeps_weaken n n (r_out a D o)); [done| |exact K'].
  intros ? ? ? _ [Hr _]. exact Hr.
Qed.

Lemma change_inputs_twin_frame n a D h0 fuel p :
  p ≠ Some D →
  inv_step (keeps n (r_twin a D) h0) (change_inputs fuel p) (λ _, True).
Proof.
  intros HD. unfold change_inputs. inv_go; twin_solve.
Qed.

Lemma twin_driver_other n a D h0 hq g0D gq j ag :
  keeps n (r_twin a D) h0 hq → (D < n)%nat →
  h0 !! D = Some g0D → inputs g0D = [Some a] →
  hq !! D = Some gq → getDriver j gq = Some ag → ag = a.
Proof.
  intros (_ & _ & Hk) HDn Hg0D Hin Hgq e.
  destruct (Hk D g0D HDn Hg0D) as (g1 & Hg1 & _ & Hd).
  destruct (Hd eq_refl) as (_ & _ & Hi & _).
  assert (g1 = gq) as -> by congruence.
  unfold getDriver in e. rewrite Hi, Hin in e.
  destruct j as [|[|?]]; simpl in e; congruence.
Qed.

Lemma move_inverter_twin_frame n a D h0 g0D p :
  p ≠ Some a → p ≠ Some D → (D < n)%nat →
  h0 !! D = Some g0D → inputs g0D = [Some a] →
  inv_step (keeps n (r_twin a D) h0) (move_inverter p) (λ _, True).
Proof.
  intros Ha HD HDn Hg0D Hin. unfold move_inverter. inv_go; twin_solve.
  - exfalso. apply Ha. f_equal. eauto using twin_driver_other.
  - exfalso. apply Ha. f_equal. eauto using twin_driver_other.
Qed.

Lemma exec_to_inv {A} n r h0 (m : M A) :
  (∀ a g0 g1 g2, r a g0 g1 → r a g1 g2 → r a g0 g2) →
  (∀ h x h', m h = Some (x, h') → keeps (length h) r h h') →
  inv_step (keeps n r h0) m (λ _, True).
Proof.
  intros Hr Hm h x h' HI E. split; [|done].
  eapply keeps_trans; [exact Hr|exact HI|].
  eapply keeps_weaken; [| |exact (Hm _ _ _ E)]; [|done].
  destruct HI as (? & ? & _). lia.
Qed.

Lemma dup_output_twin_frame n a D h0 fuel p :
  p ≠ Some a → p ≠ Some D →
  inv_step (keeps n (r_twin a D) h0) (dup_output fuel p) (λ _, True).
Proof.
  intros Ha HD. apply exec_to_inv; [apply r_twin_trans|].
  intros h x h'. by apply dup_output_twin_exec.
Qed.

(** *** Lengths and fresh addresses *)

Lemma length_snoc {A} (l : list A) (x : A) : length (l ++ [x]) = S (length l).
Proof. rewrite length_app. simpl. lia. Qed.

Ltac len_solve :=
  intros; subst; try done; try (rewrite length_insert; congruence); auto.

Lemma setDepth_length fuel p d n :
  inv_step (λ h, length h = n) (setDepth fuel p d) (λ _, True).
Proof. apply inv_setDepth. len_solve. Qed.

Lemma dup_gate_fresh fuel g h p h' :
  dup_gate fuel g h = Some (p, h') →
  p = Some (length h) ∧ length h' = S (length h) ∧
  ∃ a, g = Some a ∧ (a < length h)%nat.
Proof.
  unfold dup_gate. intros E.
  apply bind_Some in E as (name & h1 & E1 & E).
  apply query_inv in E1 as (-> & a & ga & -> & Hga & ->).
  apply bind_Some in E as (? & h1 & E1 & E). injection E1 as <- <-.
  match type of E with ?m _ = _ =>
    assert (Hs : inv_step (λ h', length h' = S (length h)) m
                   (λ x, x = Some (length h)))
  end.
  { inv_go; len_solve. }
  destruct (Hs _ _ _ (length_snoc h _) E) as [Hl ->].
  split; [done|]. split; [done|]. exists a. split; [done|].
  by eapply lookup_lt_Some.
Qed.

Lemma dup_output_fresh fuel g h p h' :
  dup_output fuel g h = Some (p, h') →
  p = Some (length h) ∧ length h' = S (length h) ∧
  ∃ a, g = Some a ∧ (a < length h)%nat.
Proof.
  unfold dup_output. intros E.
  apply bind_Some in E as (name & h1 & E1 & E).
  apply query_inv in E1 as (-> & a & ga & -> & Hga & ->).
  apply bind_Some in E as (? & h1 & E1 & E). injection E1 as <- <-.
  match type of E with ?m _ = _ =>
    assert (Hs : inv_step (λ h', length h' = S (length h)) m
                   (λ x, x = Some (length h)))
  end.
  { inv_go; len_solve. }
  destruct (Hs _ _ _ (length_snoc h _) E) as [Hl ->].
  split; [done|]. split; [done|]. exists a. split; [done|].
  by eapply lookup_lt_Some.
Qed.

Lemma dup_input_fresh fuel g h p h' :
  dup_input fuel g h = Some (p, h') →
  p = Some (length h) ∧ length h' = S (length h) ∧
  ∃ a, g = Some a ∧ (a < length h)%nat.
Proof.
  intros E. destruct g as [a|].
  - apply dup_input_spec in E as (? & ? & ? & _). eauto.
  - unfold dup_input in E. apply bind_Some in E as (? & ? & E & _). done.
Qed.

Lemma map_M_fresh (f : ptr → M ptr) (l : list ptr) h news h' :
  (∀ x h p h', f x h = Some (p, h') →
               p = Some (length h) ∧ length h' = S (length h) ∧
               ∃ a, x = Some a ∧ (a < length h)%nat) →
  map_M f l h = Some (news, h') →
  length h' = (length h + length l)%nat ∧ news = fresh_from (length h) (length l).
Proof.
  intros Hf. revert h news. induction l as [|x l IH]; intros h news E; simpl in E.
  - injection E as <- <-. split; [simpl; lia | done].
  - apply bind_Some in E as (y & h1 & E1 & E).
    apply bind_Some in E as (ys & h2 & E2 & E). injection E as <- <-.
    destruct (Hf _ _ _ _ E1) as (-> & Hl1 & _).
    destruct (IH _ _ E2) as (Hl2 & ->). split; [simpl; lia|].
    unfold fresh_from. simpl. rewrite Nat.add_0_r. f_equal.
    rewrite <- fmap_S_seq, <- list_fmap_compose. apply list_fmap_ext.
    intros _ i _. simpl. f_equal. lia.
Qed.

Lemma fresh_from_lookup n k i p :
  fresh_from n k !! i = Some p → p = Some (n + i)%nat ∧ (i < k)%nat.
Proof.
  unfold fresh_from. rewrite list_lookup_fmap. intros E.
  destruct (seq 0 k !! i) as [j|] eqn:Ej; [|done].
  apply lookup_seq in Ej as [-> ?]. injection E as <-. done.
Qed.

Lemma fresh_from_elem n k p :
  p ∈ fresh_from n k → ∃ i, p = Some (n + i)%nat ∧ (i < k)%nat.
Proof.
  intros Hp. apply list_elem_of_lookup in Hp as (i & Hi).
  apply fresh_from_lookup in Hi. eauto.
Qed.

Lemma dup_inputs_twins fuel l h news h' :
  map_M (dup_input fuel) l h = Some (news, h') →
  NoDup l → Forall (λ p, ∃ a, p = Some a ∧ (a < length h)%nat) l →
  ∀ i a, l !! i = Some (Some a) → input_twin h' a (length h + i).
Proof.
  revert h news. induction l as [|x l IH]; intros h news E Hnd Hv i a Hi.
  { done. }
  simpl in E. apply bind_Some in E as (y & h1 & E1 & E).
  apply bind_Some in E as (ys & h2 & E2 & E). injection E as <- <-.
  apply NoDup_cons in Hnd as [Hx Hnd]. apply Forall_cons in Hv as [Hvx Hv].
  destruct i as [|i]; simpl in Hi.
  - injection Hi as ->.
    apply dup_input_spec in E1 as (-> & Hl1 & Ha & Ht).
    rewrite Nat.add_0_r.
    assert (Hs : inv_step (keeps (length h1) (r_twin a (length h)) h1)
                   (map_M (dup_input fuel) l) (λ _, True)).
    { apply inv_map_M. intros p Hp. apply dup_input_twin_frame.
      - intros ->. done.
      - intros ->. rewrite Forall_forall in Hv.
        destruct (Hv _ Hp) as (? & [= <-] & ?). lia. }
    destruct (Hs h1 ys h2) as [K _]; [|exact E2|].
    { apply keeps_refl; [done|apply r_twin_refl]. }
    eapply input_twin_keeps; [exact K| | |exact Ht]; lia.
  - destruct (dup_input_fresh _ _ _ _ _ E1) as (_ & Hl1 & _).
    replace (length h + S i)%nat with (length h1 + i)%nat by lia.
    eapply IH; [exact E2|done| |done].
    eapply Forall_impl; [exact Hv|]. intros p (b & -> & ?). exists b.
    split; [done|lia].
Qed.

Lemma keeps_run {A} n r h0 (m : M A) h x h' :
  inv_step (keeps n r h0) m (λ _, True) →
  keeps n r h0 h → m h = Some (x, h') → keeps n r h0 h'.
Proof. intros Hs HI E. by destruct (Hs _ _ _ HI E). Qed.

(** *** Complementary pairs *)

Lemma r_pair_refl a D b g : r_pair a D b g g.
Proof. done. Qed.

Lemma r_pair_trans a D b g0 g1 g2 :
  r_pair a D b g0 g1 → r_pair a D b g1 g2 → r_pair a D b g0 g2.
Proof.
  intros (? & ? & H1) (? & ? & H2). repeat split; try congruence.
  intros Hb. rewrite H2, H1 by done. done.
Qed.

Lemma linked_keeps n a D h h' :
  keeps n (r_pair a D) h h' → (a < n)%nat → (D < n)%nat →
  linked h a D → linked h' a D.
Proof.
  intros (_ & _ & Hk) Ha HD (g & gD & Hg & HgD & Hc & HcD).
  destruct (Hk a g Ha Hg) as (g' & Hg' & _ & _ & Hc').
  destruct (Hk D gD HD HgD) as (gD' & HgD' & _ & _ & HcD').
  exists g', gD'. rewrite Hc', HcD' by auto. done.
Qed.

Lemma gate_twin_keeps n a D h h' :
  keeps n (r_pair a D) h h' → (a < n)%nat → (D < n)%nat →
  gate_twin h a D → gate_twin h' a D.
Proof.
  intros (_ & _ & Hk) Ha HD (g & gD & Hg & HgD & Hc & HcD & Hf & Hn).
  destruct (Hk a g Ha Hg) as (g' & Hg' & Hf' & Hl' & Hc').
  destruct (Hk D gD HD HgD) as (gD' & HgD' & HfD' & HlD' & HcD').
  exists g', gD'. rewrite Hc', HcD' by auto. unfold getFanIn in *.
  repeat split; try done; congruence.
Qed.

Ltac pair_solve :=
  intros; q_facts; fresh_addr;
  first
    [ by apply keeps_app
    | eapply keeps_insert; [eassumption..|];
      unfold r_pair; intros ? ? ? (? & ? & ?); simplify_eq;
      repeat split; intros; simplify_eq; try lia;
      autorewrite with gatefld; simpl; try (rewrite length_insert);
      destruct_or?; simplify_eq; try lia; try congruence; auto ].

Lemma dup_gate_pair_frame n a D h0 fuel p :
  p ≠ Some a → p ≠ Some D →
  inv_step (keeps n (r_pair a D) h0) (dup_gate fuel p) (λ _, True).
Proof. intros Ha HD. unfold dup_gate. inv_go; pair_solve. Qed.

Lemma dup_input_pair_frame n a D h0 fuel p :
  p ≠ Some a → p ≠ Some D →
  inv_step (keeps n (r_pair a D) h0) (dup_input fuel p) (λ _, True).
Proof. intros Ha HD. unfold dup_input. inv_go; pair_solve. Qed.

Lemma dup_output_pair_frame n a D h0 fuel p :
  p ≠ Some a → p ≠ Some D →
  inv_step (keeps n (r_pair a D) h0) (dup_output fuel p) (λ _, True).
Proof. intros Ha HD. unfold dup_output. inv_go; pair_solve. Qed.

Lemma move_inverter_pair_frame n a D h0 p :
  inv_step (keeps n (r_pair a D) h0) (move_inverter p) (λ _, True).
Proof. unfold move_inverter. inv_go; pair_solve. Qed.

Lemma change_inputs_pair_frame n a D h0 fuel p :
  inv_step (keeps n (r_pair a D) h0) (change_inputs fuel p) (λ _, True).
Proof. unfold change_inputs. inv_go; pair_solve. Qed.

Lemma call_inputs_track (p : ptr) (f : Gate → Gate) h u h' :
  call p f h = Some (u, h') → (∀ g, inputs (f g) = inputs g) →
  ∀ c gc, h !! c = Some gc → ∃ gc', h' !! c = Some gc' ∧ inputs gc' = inputs gc.
Proof.
  intros E Hf c gc Hc. apply call_inv in E as (t & gt & -> & Hgt & ->).
  destruct (decide (t = c)) as [->|Hne].
  - exists (f gc). rewrite list_lookup_insert_eq by (by eapply lookup_lt_Some).
    assert (gt = gc) as -> by congruence. done.
  - exists gc. by rewrite list_lookup_insert_ne.
Qed.

Lemma copy_input_count fuel (a n : nat) ins j h u h' :
  a ≠ n →
  (d <- query (Some a) (getDriver j) ;;
   inv <- query (Some a) (isInputInverting j) ;;
   newInput fuel (Some n) d (negb inv) ;;;
   d' <- query (Some a) (getDriver j) ;;
   call d' (newFollow (Some n))) h = Some (u, h') →
  (∃ g gD, h !! a = Some g ∧ inputs g = ins ∧
           h !! n = Some gD ∧ length (inputs gD) = j) →
  (∃ g gD, h' !! a = Some g ∧ inputs g = ins ∧
           h' !! n = Some gD ∧ length (inputs gD) = S j).
Proof.
  intros Hne E (g & gD & Hg & Hin & HgD & Hlen).
  apply bind_Some in E as (d & h1 & E1 & E).
  apply query_inv in E1 as (-> & ? & g1 & [= <-] & Hg1 & ->).
  assert (g1 = g) as -> by congruence.
  apply bind_Some in E as (inv & h1 & E1 & E).
  apply query_inv in E1 as (-> & _).
  apply bind_Some in E as (? & h1 & E1 & E).
  apply bind_Some in E as (d' & h2 & E2 & E).
  apply query_inv in E2 as (-> & ? & g2 & [= <-] & Hg2 & ->).
  destruct (getDriver j g) as [p|] eqn:Hd.
  - eapply newInput_track2 in E1 as (d1 & d2 & HgD1 & Hg1' & Hl1);
      [|exact Hne|exact HgD|exact Hg].
    assert (g2 = set_depth d2 g) as -> by congruence.
    destruct (call_inputs_track _ _ _ _ _ E (newFollow_inputs _) _ _ Hg1')
      as (g' & Hg' & Hin').
    destruct (call_inputs_track _ _ _ _ _ E (newFollow_inputs _) _ _ HgD1)
      as (gD' & HgD' & HinD').
    exists g', gD'. split; [done|]. split; [by rewrite Hin'|]. split; [done|].
    rewrite HinD'. simpl. by rewrite Hlen.
  - unfold newInput in E1.
    apply bind_Some in E1 as (? & h3 & E3 & E1). apply query_inv in E3 as (-> & _).
    injection E1 as _ <-. assert (g2 = g) as -> by congruence.
    rewrite Hd in E. done.
Qed.

Lemma r_loop_refl n b g : r_loop n b g g.
Proof. done. Qed.

Ltac loop_solve :=
  intros; q_facts; fresh_addr;
  first
    [ by apply keeps_app
    | eapply keeps_insert; [eassumption..|];
      unfold r_loop; intros ? ? ? (? & ? & ?); simplify_eq;
      repeat split; intros; simplify_eq; try lia;
      autorewrite with gatefld; simpl; try congruence; auto ].

Lemma dup_gate_twin fuel a h p h' :
  dup_gate fuel (Some a) h = Some (p, h') → gate_twin h' a (length h).
Proof.
  unfold dup_gate. intros E.
  apply bind_Some in E as (name & h1 & E1 & E).
  apply query_inv in E1 as (-> & ? & ga & [= <-] & Hga & ->).
  assert (Ha : (a < length h)%nat) by (by eapply lookup_lt_Some).
  apply bind_Some in E as (? & h1 & E1 & E). injection E1 as <- <-.
  set (n := length h) in *.
  assert (Hn1 : (h ++ [Gate_new ("D_" +:+ getName ga)]) !! n
                = Some (Gate_new ("D_" +:+ getName ga))).
  { by rewrite lookup_app_r, Nat.sub_diag by done. }
  assert (Ha1 : (h ++ [Gate_new ("D_" +:+ getName ga)]) !! a = Some ga).
  { by rewrite lookup_app_l. }
  assert (Hl1 : length (h ++ [Gate_new ("D_" +:+ getName ga)]) = S n).
  { apply length_snoc. }
  assert (Hne : a ≠ n) by lia.
  assert (Hne' : n ≠ a) by lia.
  revert Hn1 Ha1 Hl1 E. generalize (h ++ [Gate_new ("D_" +:+ getName ga)]).
  intros h1 Hn1 Ha1 Hl1 E.
  apply bind_Some in E as (fn & h2 & E2 & E).
  apply query_inv in E2 as (-> & ? & g2 & [= <-] & Hg2 & ->).
  assert (g2 = ga) as -> by congruence. clear Hg2.
  apply bind_Some in E as (? & h2 & E2 & E).
  eapply call_track2 in E2 as (Hn2 & Ha2 & Hl2); [|exact Hne|exact Hn1|exact Ha1].
  apply bind_Some in E as (pl & h3 & E3 & E).
  apply query_inv in E3 as (-> & _).
  apply bind_Some in E as (? & h3 & E3 & E).
  eapply call_track2 in E3 as (Hn3 & Ha3 & Hl3); [|exact Hne|exact Hn2|exact Ha2].
  apply bind_Some in E as (? & h4 & E4 & E).
  eapply call_track2 in E4 as (Hn4 & Ha4 & Hl4); [|exact Hne|exact Hn3|exact Ha3].
  apply bind_Some in E as (? & h5 & E5 & E).
  eapply call_track2 in E5 as (Ha5 & Hn5 & Hl5); [|exact Hne'|exact Ha4|exact Hn4].
  apply bind_Some in E as (oi & h6 & E6 & E).
  apply query_inv in E6 as (-> & _).
  apply bind_Some in E as (? & h6 & E6 & E).
  assert (∃ gD, h6 !! a = Some (setComplement (Some n) ga) ∧ h6 !! n = Some gD ∧
                length h6 = S n ∧
                gateFunction gD = convdual_getComplementaryGateFn (gateFunction ga) ∧
                complementaryGate gD = Some a ∧ inputs gD = [])
    as (gD & Ha6 & Hn6 & Hl6 & Hf6 & Hc6 & Hi6).
  { destruct oi.
    - eapply call_track2 in E6 as (Hn6 & Ha6 & Hl6); [|exact Hne|exact Hn5|exact Ha5].
      eexists. split; [exact Ha6|]. split; [exact Hn6|].
      split; [congruence|]. done.
    - injection E6 as _ <-.
      eexists. split; [exact Ha5|]. split; [exact Hn5|].
      split; [congruence|]. done. }
  clear E6 Hn1 Ha1 Hn2 Ha2 Hn3 Ha3 Hn4 Ha4 Hn5 Ha5.
  apply bind_Some in E as (? & h7 & E7 & E). injection E as _ <-.
  assert (K : keeps (S n) (r_loop n) h6 h7).
  { match type of E7 with ?m _ = _ =>
      assert (Hs : inv_step (keeps (S n) (r_loop n) h6) m (λ _, True))
        by (inv_go; loop_solve)
    end.
    eapply keeps_run; [exact Hs| |exact E7].
    apply keeps_refl; [lia|apply r_loop_refl]. }
  destruct K as (_ & _ & K).
  destruct (K a _ ltac:(lia) Ha6) as (g7 & Ha7 & Hf7 & Hc7 & Hi7).
  destruct (K n _ ltac:(lia) Hn6) as (gD7 & Hn7 & HfD7 & HcD7 & _).
  unfold for_loop in E7. apply bind_Some in E7 as (k & h8 & E8 & E7).
  apply query_inv in E8 as (-> & _).
  eapply (for_go_inv (λ j h, (j ≤ length (inputs ga))%nat ∧
            ∃ g gD, h !! a = Some g ∧ inputs g = inputs ga ∧
                    h !! n = Some gD ∧ length (inputs gD) = j)) in E7.
  - destruct E7 as (j & m & (Hj & g & gD' & Hg & Hin & HgD' & Hlen) & Em & Hm).
    apply query_inv in Em as (_ & ? & g' & [= <-] & Hg' & ->).
    assert (g' = g) as -> by congruence. assert (g7 = g) as -> by congruence.
    assert (gD7 = gD') as -> by congruence.
    exists g, gD'. unfold getFanIn in *. rewrite Hin in Hm |- *.
    simpl in Hc7, Hf7.
    repeat split; try done; try congruence. lia.
  - intros h0 m h9 Em. by apply query_inv in Em as (-> & _).
  - intros j h0 m y h9 (Hj & Hinv) Em Hlt Eb.
    apply query_inv in Em as (_ & ? & g' & [= <-] & Hg' & ->).
    destruct Hinv as (g & gD' & Hg & Hin & HgD' & Hlen).
    assert (g' = g) as -> by congruence.
    split; [unfold getFanIn in Hlt; rewrite Hin in Hlt; lia|].
    eapply copy_input_count; [exact Hne|exact Eb|]. eauto 8.
  - split; [lia|]. eexists _, gD. split; [exact Ha6|]. split; [done|].
    split; [done|]. by rewrite Hi6.
Qed.

Ltac simple_solve :=
  intros; q_facts; fresh_addr;
  first
    [ by apply keeps_app
    | eapply keeps_insert; [eassumption..|];
      unfold r_compl, r_fn; intros ? ? ? ?; simplify_eq; try lia;
      autorewrite with gatefld; simpl; try congruence; auto ].

Lemma dup_output_linked fuel o h p h' :
  dup_output fuel (Some o) h = Some (p, h') → linked h' o (length h).
Proof.
  unfold dup_output. intros E.
  apply bind_Some in E as (name & h1 & E1 & E).
  apply query_inv in E1 as (-> & ? & gO & [= <-] & HgO & ->).
  assert (Ho : (o < length h)%nat) by (by eapply lookup_lt_Some).
  apply bind_Some in E as (? & h1 & E1 & E). injection E1 as <- <-.
  set (n := length h) in *.
  assert (Hn1 : (h ++ [Gate_new ("D_" +:+ getName gO)]) !! n
                = Some (Gate_new ("D_" +:+ getName gO))).
  { by rewrite lookup_app_r, Nat.sub_diag by done. }
  assert (Ho1 : (h ++ [Gate_new ("D_" +:+ getName gO)]) !! o = Some gO).
  { by rewrite lookup_app_l. }
  assert (Hl1 : length (h ++ [Gate_new ("D_" +:+ getName gO)]) = S n).
  { apply length_snoc. }
  assert (Hne : o ≠ n) by lia.
  assert (Hne' : n ≠ o) by lia.
  revert Hn1 Ho1 Hl1 E. generalize (h ++ [Gate_new ("D_" +:+ getName gO)]).
  intros h1 Hn1 Ho1 Hl1 E.
  apply bind_Some in E as (fn & h2 & E2 & E).
  apply query_inv in E2 as (-> & _).
  apply bind_Some in E as (? & h2 & E2 & E).
  eapply call_track2 in E2 as (Hn2 & Ho2 & Hl2); [|exact Hne|exact Hn1|exact Ho1].
  apply bind_Some in E as (pl & h3 & E3 & E).
  apply query_inv in E3 as (-> & _).
  apply bind_Some in E as (? & h3 & E3 & E).
  eapply call_track2 in E3 as (Hn3 & Ho3 & Hl3); [|exact Hne|exact Hn2|exact Ho2].
  apply bind_Some in E as (? & h4 & E4 & E).
  eapply call_track2 in E4 as (Hn4 & Ho4 & Hl4); [|exact Hne|exact Hn3|exact Ho3].
  apply bind_Some in E as (? & h5 & E5 & E).
  eapply call_track2 in E5 as (Ho5 & Hn5 & Hl5); [|exact Hne'|exact Ho4|exact Hn4].
  assert (K : keeps (S n) r_compl h5 h').
  { match type of E with ?m _ = _ =>
      assert (Hs : inv_step (keeps (S n) r_compl h5) m (λ _, True))
        by (inv_go; simple_solve)
    end.
    eapply keeps_run; [exact Hs| |exact E].
    apply keeps_refl; [lia|done]. }
  destruct K as (_ & _ & K).
  destruct (K o _ ltac:(lia) Ho5) as (g' & Hg' & Hc').
  destruct (K n _ ltac:(lia) Hn5) as (gD' & HgD' & HcD').
  exists g', gD'. unfold r_compl in *. simpl in *. done.
Qed.

Lemma convDualRail_keeps_function fuel net n h0 :
  inv_step (keeps n r_fn h0) (convDualRail fuel net) (λ _, True).
Proof.
  unfold convDualRail. inv_go; simple_solve.
Qed.

Lemma map_M_pairs (f : ptr → M ptr) (P : heap → nat → nat → Prop)
    (r : nat → nat → nat → Gate → Gate → Prop) :
  (∀ x h p h', f x h = Some (p, h') →
               p = Some (length h) ∧ length h' = S (length h) ∧
               ∃ a, x = Some a ∧ (a < length h)%nat) →
  (∀ a h p h', f (Some a) h = Some (p, h') → P h' a (length h)) →
  (∀ n a D h0 p, p ≠ Some a → p ≠ Some D →
                 inv_step (keeps n (r a D) h0) (f p) (λ _, True)) →
  (∀ n a D h h', keeps n (r a D) h h' → (a < n)%nat → (D < n)%nat →
                 P h a D → P h' a D) →
  (∀ a D b g, r a D b g g) →
  ∀ l h news h',
    map_M f l h = Some (news, h') →
    NoDup l → Forall (λ p, ∃ a, p = Some a ∧ (a < length h)%nat) l →
    ∀ i a, l !! i = Some (Some a) → P h' a (length h + i)%nat.
Proof.
  intros Hfresh Hest Hframe Hkeep Hrefl.
  induction l as [|x l IH]; intros h news h' E Hnd Hv i a Hi; [done|].
  simpl in E. apply bind_Some in E as (y & h1 & E1 & E).
  apply bind_Some in E as (ys & h2 & E2 & E). injection E as <- <-.
  apply NoDup_cons in Hnd as [Hx Hnd]. apply Forall_cons in Hv as [Hvx Hv].
  destruct (Hfresh _ _ _ _ E1) as (_ & Hl1 & b & -> & Hb).
  destruct i as [|i]; simpl in Hi.
  - injection Hi as ->. rewrite Nat.add_0_r.
    apply (Hkeep (length h1) _ _ h1); [|lia..|by eapply Hest].
    eapply keeps_run; [|apply keeps_refl; [done|apply Hrefl]|exact E2].
    apply inv_map_M. intros p Hp. apply Hframe.
    + intros ->. done.
    + intros ->. rewrite Forall_forall in Hv.
      destruct (Hv _ Hp) as (? & [= <-] & ?). lia.
  - replace (length h + S i)%nat with (length h1 + i)%nat by lia.
    eapply IH; [exact E2|done| |done].
    eapply Forall_impl; [exact Hv|]. intros p (c & -> & ?). exists c.
    split; [done|lia].
Qed.


Lemma valid_weaken (l : list ptr) n m :
  (n ≤ m)%nat →
  Forall (λ p, ∃ a, p = Some a ∧ (a < n)%nat) l →
  Forall (λ p, ∃ a, p = Some a ∧ (a < m)%nat) l.
Proof.
  intros Hnm H. eapply Forall_impl; [exact H|]. intros p (a & -> & ?).
  exists a. split; [done|lia].
Qed.

Lemma for_each_length {A} (body : nat → A → M unit) (v : list A) i h u h' :
  (∀ j x, inv_step (keeps 0 (λ _ _ _, True) h) (body j x) (λ _, True)) →
  for_each body i v h = Some (u, h') → (length h ≤ length h')%nat.
Proof.
  intros Hb E.
  eapply (keeps_run 0 (λ _ _ _, True) h) in E as (_ & ? & _); [done| |].
  - apply inv_for_each. intros j x _. apply Hb.
  - apply keeps_refl; [lia|done].
Qed.

Lemma move_inverter_length h0 p :
  inv_step (keeps 0 (λ _ _ _, True) h0) (move_inverter p) (λ _, True).
Proof. inv_go; intros; eapply keeps_insert; eauto. Qed.

Lemma change_inputs_length h0 fuel p :
  inv_step (keeps 0 (λ _ _ _, True) h0) (change_inputs fuel p) (λ _, True).
Proof. inv_go; intros; eapply keeps_insert; eauto. Qed.

Lemma convDualRail_structure fuel net h net' h' :
  wf_net h net →
  convDualRail fuel net h = Some (net', h') →
  let n1 := (length h + length (Net.gates net))%nat in
  let n2 := (n1 + length (Net.inputs net))%nat in
  Net.gates net' = Net.gates net ++ fresh_from (length h) (length (Net.gates net)) ∧
  Net.inputs net' = Net.inputs net ++ fresh_from n1 (length (Net.inputs net)) ∧
  Net.outputs net' = Net.outputs net ++ fresh_from n2 (length (Net.outputs net)) ∧
  (∀ i a, Net.gates net !! i = Some (Some a) → gate_twin h' a (length h + i)) ∧
  (∀ i a, Net.inputs net !! i = Some (Some a) → input_twin h' a (n1 + i)) ∧
  (∀ i a, Net.outputs net !! i = Some (Some a) → linked h' a (n2 + i)).
Proof.
  intros [Hnd Hv] E. unfold convDualRail in E.
  apply bind_Some in E as (newGates & h1 & E1 & E).
  apply bind_Some in E as (newInputs & h2 & E2 & E).
  apply bind_Some in E as (newOutputs & h3 & E3 & E).
  apply bind_Some in E as (u1 & h4 & E4 & E).
  apply bind_Some in E as (u2 & h5 & E5 & E).
  apply bind_Some in E as (u3 & h6 & E6 & E).
  injection E as <- <-. simpl in *.
  destruct (map_M_fresh _ _ _ _ _ (dup_gate_fresh fuel) E1) as (Hl1 & ->).
  destruct (map_M_fresh _ _ _ _ _ (dup_input_fresh fuel) E2) as (Hl2 & ->).
  destruct (map_M_fresh _ _ _ _ _ (dup_output_fresh fuel) E3) as (Hl3 & ->).
  split; [done|]. split; [by rewrite Hl1|]. split; [by rewrite Hl2, Hl1|].
  apply NoDup_app in Hnd as (Hnd_g & Hdis_g & Hnd).
  apply NoDup_app in Hnd as (Hnd_i & Hdis_i & Hnd_o).
  apply Forall_app in Hv as (Hv_g & Hv).
  apply Forall_app in Hv as (Hv_i & Hv_o).
  pose proof (for_each_length _ _ _ _ _ _ (λ _, move_inverter_length h3) E4) as Hl4.
  pose proof (for_each_length _ _ _ _ _ _ (λ _, change_inputs_length h4 fuel) E5) as Hl5.
  assert (Hvalid : ∀ l p, Forall (λ p, ∃ a, p = Some a ∧ (a < length h)%nat) l →
                          p ∈ l → ∃ a, p = Some a ∧ (a < length h)%nat).
  { intros l p Hl Hp. rewrite Forall_forall in Hl. by apply Hl. }
  split; [|split].
  - (* inner gates *)
    intros i a Hi.
    assert (Hag : Some a ∈ Net.gates net) by (by eapply list_elem_of_lookup_2).
    destruct (Hvalid _ _ Hv_g Hag) as (? & [= <-] & Ha).
    assert (Hilt : (i < length (Net.gates net))%nat) by (by eapply lookup_lt_Some).
    remember (length h + i)%nat as D eqn:HD.
    assert (Ht1 : gate_twin h1 a D).
    { rewrite HD.
      eapply (map_M_pairs (dup_gate fuel) gate_twin r_pair);
        [apply dup_gate_fresh | apply dup_gate_twin
        | intros; by apply dup_gate_pair_frame | apply gate_twin_keeps
        | apply r_pair_refl | exact E1 | done | done | done]. }
    assert (Ht2 : gate_twin h2 a D).
    { eapply (gate_twin_keeps (length h1)); [| | |exact Ht1]; [|lia..].
      eapply keeps_run; [|apply keeps_refl; [done|apply r_pair_refl]|exact E2].
      apply inv_map_M. intros p Hp. apply dup_input_pair_frame.
      - intros ->. apply (Hdis_g _ Hag). apply elem_of_app. by left.
      - intros ->. destruct (Hvalid _ _ Hv_i Hp) as (? & [= <-] & ?). lia. }
    assert (Ht3 : gate_twin h3 a D).
    { eapply (gate_twin_keeps (length h2)); [| | |exact Ht2]; [|lia..].
      eapply keeps_run; [|apply keeps_refl; [done|apply r_pair_refl]|exact E3].
      apply inv_map_M. intros p Hp. apply dup_output_pair_frame.
      - intros ->. apply (Hdis_g _ Hag). apply elem_of_app. by right.
      - intros ->. destruct (Hvalid _ _ Hv_o Hp) as (? & [= <-] & ?). lia. }
    assert (Ht4 : gate_twin h4 a D).
    { eapply (gate_twin_keeps (length h3)); [| | |exact Ht3]; [|lia..].
      eapply keeps_run; [|apply keeps_refl; [done|apply r_pair_refl]|exact E4].
      apply inv_for_each. intros j p _. apply move_inverter_pair_frame. }
    assert (Ht5 : gate_twin h5 a D).
    { eapply (gate_twin_keeps (length h4)); [| | |exact Ht4]; [|lia..].
      eapply keeps_run; [|apply keeps_refl; [done|apply r_pair_refl]|exact E5].
      apply inv_for_each. intros j p _. apply change_inputs_pair_frame. }
    eapply (gate_twin_keeps (length h5)); [| | |exact Ht5]; [|lia..].
    eapply keeps_run; [|apply keeps_refl; [done|apply r_pair_refl]|exact E6].
    apply inv_for_each. intros j p _. apply change_inputs_pair_frame.
  - (* primary inputs *)
    intros i a Hi.
    assert (Hai : Some a ∈ Net.inputs net) by (by eapply list_elem_of_lookup_2).
    destruct (Hvalid _ _ Hv_i Hai) as (? & [= <-] & Ha).
    assert (Hilt : (i < length (Net.inputs net))%nat) by (by eapply lookup_lt_Some).
    remember (length h + length (Net.gates net) + i)%nat as D eqn:HD.
    assert (Ht2 : input_twin h2 a D).
    { rewrite HD, <- Hl1. eapply dup_inputs_twins; [exact E2|done| |done].
      eapply valid_weaken; [|exact Hv_i]. lia. }
    assert (Ht3 : input_twin h3 a D).
    { eapply (input_twin_keeps (length h2)); [| | |exact Ht2]; [|lia..].
      eapply keeps_run; [|apply keeps_refl; [done|apply r_twin_refl]|exact E3].
      apply inv_map_M. intros p Hp. apply dup_output_twin_frame.
      - intros ->. by apply (Hdis_i _ Hai).
      - intros ->. destruct (Hvalid _ _ Hv_o Hp) as (? & [= <-] & ?). lia. }
    assert (Hgates : ∀ p, p ∈ Net.gates net ++ fresh_from (length h) (length (Net.gates net)) →
                          p ≠ Some a ∧ p ≠ Some D).
    { intros p Hp. apply elem_of_app in Hp as [Hp|Hp].
      - split.
        + intros ->. apply (Hdis_g _ Hp). apply elem_of_app. by left.
        + intros ->. destruct (Hvalid _ _ Hv_g Hp) as (? & [= <-] & ?). lia.
      - apply fresh_from_elem in Hp as (k & -> & Hk). split; intros [= ?]; lia. }
    assert (Houts : ∀ p, p ∈ Net.outputs net ++
                         fresh_from (length h2) (length (Net.outputs net)) →
                         p ≠ Some D).
    { intros p Hp. apply elem_of_app in Hp as [Hp|Hp].
      - intros ->. destruct (Hvalid _ _ Hv_o Hp) as (? & [= <-] & ?). lia.
      - apply fresh_from_elem in Hp as (k & -> & Hk). intros [= ?]. lia. }
    assert (Ht4 : input_twin h4 a D).
    { destruct Ht3 as (gI & gD & HgI & Hc & HgD & Hrest).
      eapply (input_twin_keeps (length h3)); [| | |by exists gI, gD]; [|lia..].
      eapply keeps_run; [|apply keeps_refl; [done|apply r_twin_refl]|exact E4].
      apply inv_for_each. intros j p Hp. destruct (Hgates p Hp).
      eapply move_inverter_twin_frame; [done|done|lia|exact HgD|]. tauto. }
    assert (Ht5 : input_twin h5 a D).
    { eapply (input_twin_keeps (length h4)); [| | |exact Ht4]; [|lia..].
      eapply keeps_run; [|apply keeps_refl; [done|apply r_twin_refl]|exact E5].
      apply inv_for_each. intros j p Hp. destruct (Hgates p Hp).
      by apply change_inputs_twin_frame. }
    eapply (input_twin_keeps (length h5)); [| | |exact Ht5]; [|lia..].
    eapply keeps_run; [|apply keeps_refl; [done|apply r_twin_refl]|exact E6].
    apply inv_for_each. intros j p Hp.
    apply change_inputs_twin_frame. by apply Houts.
  - (* primary outputs *)
    intros i a Hi.
    assert (Hao : Some a ∈ Net.outputs net) by (by eapply list_elem_of_lookup_2).
    destruct (Hvalid _ _ Hv_o Hao) as (? & [= <-] & Ha).
    assert (Hilt : (i < length (Net.outputs net))%nat) by (by eapply lookup_lt_Some).
    remember (length h + length (Net.gates net) + length (Net.inputs net) + i)%nat
      as D eqn:HD.
    assert (Ht3 : linked h3 a D).
    { rewrite HD, <- Hl1, <- Hl2.
      eapply (map_M_pairs (dup_output fuel) linked r_pair);
        [apply dup_output_fresh | apply dup_output_linked
        | intros; by apply dup_output_pair_frame | apply linked_keeps
        | apply r_pair_refl | exact E3 | done | | done].
      eapply valid_weaken; [|exact Hv_o]. lia. }
    assert (Ht4 : linked h4 a D).
    { eapply (linked_keeps (length h3)); [| | |exact Ht3]; [|lia..].
      eapply keeps_run; [|apply keeps_refl; [done|apply r_pair_refl]|exact E4].
      apply inv_for_each. intros j p _. apply move_inverter_pair_frame. }
    assert (Ht5 : linked h5 a D).
    { eapply (linked_keeps (length h4)); [| | |exact Ht4]; [|lia..].
      eapply keeps_run; [|apply keeps_refl; [done|apply r_pair_refl]|exact E5].
      apply inv_for_each. intros j p _. apply change_inputs_pair_frame. }
    eapply (linked_keeps (length h5)); [| | |exact Ht5]; [|lia..].
    eapply keeps_run; [|apply keeps_refl; [done|apply r_pair_refl]|exact E6].
    apply inv_for_each. intros j p _. apply change_inputs_pair_frame.
Qed.

(** Every completed run leaves the complementary buffer of each primary input
    at the matching place of the second half of [inputs]. *)
Lemma convDualRail_input_twins_run (fuel : nat) (net : Net.BooleanNet) (h : heap)
    (net' : Net.BooleanNet) (h' : heap) :
  wf_net h net →
  convDualRail fuel net h = Some (net', h') →
  ∀ i a, Net.inputs net !! i = Some (Some a) →
    ∃ D, Net.inputs net' !! (length (Net.inputs net) + i)%nat = Some (Some D) ∧
         input_twin h' a D.
Proof.
  intros Hwf E i a Hi.
  destruct (convDualRail_structure _ _ _ _ _ Hwf E) as (_ & Hin & _ & _ & Ht & _).
  eexists. split; [|by apply Ht].
  rewrite Hin, lookup_app_r by lia.
  replace (length (Net.inputs net) + i - length (Net.inputs net))%nat with i by lia.
  unfold fresh_from. rewrite list_lookup_fmap, lookup_seq_lt; [done|].
  by eapply lookup_lt_Some.
Qed.


(** ** Termination of the dual-rail conversion *)

(** *** [setDepth] returns: every call that goes on raises a depth *)

Lemma to_unsigned_range z : 0 ≤ to_unsigned z < 4294967296.
Proof. unfold to_unsigned. apply Z.mod_pos_bound. lia. Qed.

Lemma to_unsigned_to_int z : to_unsigned (to_int z) = to_unsigned z.
Proof.
  unfold to_unsigned, to_int.
  rewrite Zminus_mod_idemp_l.
  replace (z + 2147483648 - 2147483648) with z by lia. done.
Qed.

Lemma slack_range g : 0 ≤ slack g ≤ 4294967295.
Proof. unfold slack. pose proof (to_unsigned_range (depth g)). lia. Qed.

Lemma measure_nonneg h : 0 ≤ measure h.
Proof.
  induction h as [|g h IH]; simpl; [done|]. pose proof (slack_range g). lia.
Qed.

Lemma measure_bound h : measure h ≤ Z.of_nat (length h) * 4294967295.
Proof.
  induction h as [|g h IH]; simpl length; simpl measure; [done|].
  pose proof (slack_range g). lia.
Qed.

Lemma measure_insert h a g g' :
  h !! a = Some g → measure (<[a := g']> h) = measure h - slack g + slack g'.
Proof.
  revert a. induction h as [|g0 h IH]; intros [|a] Hg; simpl in *; try done.
  - injection Hg as ->. lia.
  - rewrite (IH a Hg). lia.
Qed.

Lemma bind_run {A B} (m : M A) (k : A → M B) h x h1 :
  m h = Some (x, h1) → bind m k h = k x h1.
Proof. intros E. unfold bind. by rewrite E. Qed.

Lemma for_go_runs (I : heap → Prop) (bound : M nat) (body : nat → M unit) n :
  (∀ h, I h → bound h = Some (n, h)) →
  (∀ i h, (i < n)%nat → I h → ∃ x h', body i h = Some (x, h') ∧ I h') →
  ∀ k i h, (n ≤ k + i)%nat → I h →
    ∃ h', for_go bound body k i h = Some (tt, h') ∧ I h'.
Proof.
  intros Hb Hbody. induction k as [|k IH]; intros i h Hk HI; simpl.
  - unfold bind. rewrite (Hb h HI).
    destruct (Nat.ltb_spec i n); [lia|]. eauto.
  - unfold bind. rewrite (Hb h HI).
    destruct (Nat.ltb_spec i n); [|eauto].
    destruct (Hbody i h) as (x & h1 & -> & HI1); [done..|].
    apply IH; [lia|done].
Qed.

Lemma for_loop_runs (I : heap → Prop) (bound : M nat) (body : nat → M unit) n h :
  (∀ h, I h → bound h = Some (n, h)) →
  (∀ i h, (i < n)%nat → I h → ∃ x h', body i h = Some (x, h') ∧ I h') →
  I h → ∃ h', for_loop bound body h = Some (tt, h') ∧ I h'.
Proof.
  intros Hb Hbody HI. unfold for_loop, bind. rewrite (Hb h HI).
  eapply for_go_runs; eauto. lia.
Qed.

Lemma depth_only_trans h1 h2 h3 :
  depth_only h1 h2 → depth_only h2 h3 → depth_only h1 h3.
Proof.
  intros [L1 K1] [L2 K2]. split; [congruence|].
  intros c g Hg. destruct (K1 c g Hg) as (d1 & H1).
  destruct (K2 c _ H1) as (d2 & H2). exists d2. rewrite H2. by destruct g.
Qed.

Lemma depth_only_valid h h' p : depth_only h h' → valid h p → valid h' p.
Proof.
  intros [_ K] (a & g & -> & Hg). destruct (K a g Hg) as (d & Hd).
  exists a. eauto.
Qed.

Lemma depth_only_followers h h' :
  depth_only h h' → followers_ok h → followers_ok h'.
Proof.
  intros Hd Hf a g' Hg'.
  destruct Hd as [Hl K].
  assert (Ha : (a < length h)%nat).
  { rewrite <- Hl. by eapply lookup_lt_Some. }
  destruct (lookup_lt_is_Some_2 h a Ha) as [g Hg].
  destruct (K a g Hg) as (d & Hd). assert (g' = set_depth d g) as -> by congruence.
  simpl. eapply Forall_impl; [exact (Hf a g Hg)|].
  intros p Hp. eapply depth_only_valid; [|exact Hp]. by split.
Qed.

(** With more fuel than the measure, [setDepth] returns; it changes depths
    only and does not raise the measure. *)
Lemma setDepth_runs_measure fuel : ∀ h p d,
  followers_ok h → valid h p → 0 ≤ d < 4294967296 →
  measure h < Z.of_nat fuel →
  ∃ b h', setDepth fuel p d h = Some (b, h') ∧ depth_only h h' ∧
          measure h' ≤ measure h.
Proof.
  induction fuel as [|fuel IH]; intros h p d Hf (a & g & -> & Hg) Hd Hm.
  { pose proof (measure_nonneg h). lia. }
  simpl. unfold bind at 1. unfold query at 1. rewrite Hg.
  destruct (Z.ltb_spec (to_unsigned (depth g)) d) as [Hlt|Hge].
  2: { eexists _, _. split; [reflexivity|]. split; [apply depth_only_refl|lia]. }
  unfold bind at 1. unfold call at 1. rewrite Hg.
  set (h1 := <[a := set_depth (to_int d) g]> h).
  assert (Hd1 : depth_only h h1).
  { split; [by unfold h1; rewrite length_insert|].
    intros c g0 Hg0. unfold h1. destruct (decide (a = c)) as [->|Hne].
    - exists (to_int d). rewrite list_lookup_insert_eq by (by eapply lookup_lt_Some).
      congruence.
    - exists (depth g0). rewrite list_lookup_insert_ne by done. rewrite Hg0.
      by destruct g0. }
  assert (Hm1 : measure h1 < measure h).
  { unfold h1. rewrite (measure_insert h a g _ Hg). unfold slack. simpl.
    rewrite to_unsigned_to_int. unfold to_unsigned at 2.
    rewrite Z.mod_small by lia. lia. }
  set (n := length (followingGates g)).
  destruct (for_loop_runs (λ h2, depth_only h h2 ∧ measure h2 ≤ measure h1)
              (query (Some a) (λ g, length (followingGates g)))
              (λ i, v <- query (Some a) followingGates ;;
                    f <- at_ v i ;;
                    dd <- query (Some a) depth ;;
                    setDepth fuel f (to_unsigned (int_add dd 1)) ;;; ret tt)
              n h1) as (h2 & E2 & Hd2 & Hm2).
  - intros h2 [[_ K] _]. destruct (K a g Hg) as (d2 & H2).
    unfold query. rewrite H2. done.
  - intros i h2 Hi [Hd2 Hm2]. pose proof Hd2 as [_ K].
    destruct (K a g Hg) as (d2 & H2).
    unfold bind at 1. unfold query at 1. rewrite H2. simpl followingGates.
    destruct (lookup_lt_is_Some_2 (followingGates g) i Hi) as [f Hfi].
    unfold bind at 1. unfold at_. rewrite Hfi. unfold ret at 1.
    unfold bind at 1. unfold query at 1. rewrite H2.
    assert (Hvf : valid h2 f).
    { eapply depth_only_valid; [exact Hd2|].
      eapply Forall_forall; [exact (Hf a g Hg)|]. by eapply list_elem_of_lookup_2. }
    destruct (IH h2 f (to_unsigned (int_add (depth (set_depth d2 g)) 1)))
      as (b & h3 & E3 & Hd3 & Hm3).
    + by eapply depth_only_followers.
    + done.
    + apply to_unsigned_range.
    + lia.
    + rewrite (bind_run _ _ _ _ _ E3). eexists _, _. split; [reflexivity|].
      split; [by eapply depth_only_trans|lia].
  - split; [done|lia].
  - rewrite (bind_run _ _ _ _ _ E2). eexists _, _. split; [reflexivity|].
    split; [done|lia].
Qed.

Lemma setDepth_runs fuel h p z :
  followers_ok h → valid h p → fuel_covers fuel (length h) →
  ∃ b h', setDepth fuel p (to_unsigned z) h = Some (b, h') ∧ depth_only h h'.
Proof.
  intros Hf Hp Hc.
  destruct (setDepth_runs_measure fuel h p (to_unsigned z)) as (b & h' & E & Hd & _);
    [done|done|apply to_unsigned_range| |eauto].
  pose proof (measure_bound h). unfold fuel_covers in Hc.
  destruct Hp as (a & g & _ & Hg). apply lookup_lt_Some in Hg. lia.
Qed.

(** *** The pointer structure: what every step keeps *)

Lemma valid_lt h p : valid h p ↔ ∃ a, p = Some a ∧ (a < length h)%nat.
Proof.
  split.
  - intros (a & g & -> & Hg). exists a. split; [done|]. by eapply lookup_lt_Some.
  - intros (a & -> & Ha). destruct (lookup_lt_is_Some_2 h a Ha) as [g Hg].
    exists a, g. done.
Qed.

Lemma grows_refl h : grows h h.
Proof. by repeat split. Qed.

Lemma grows_trans h1 h2 h3 : grows h1 h2 → grows h2 h3 → grows h1 h3.
Proof.
  intros (L1 & C1 & F1) (L2 & C2 & F2). split; [lia|]. split; auto.
Qed.

Lemma extends_refl h : extends h h.
Proof. split; [apply grows_refl|done]. Qed.

Lemma extends_trans h1 h2 h3 : extends h1 h2 → extends h2 h3 → extends h1 h3.
Proof.
  intros [W1 C1] [W2 C2]. split; [by eapply grows_trans|auto].
Qed.

Lemma extends_grows h h' : extends h h' → grows h h'.
Proof. by intros [? _]. Qed.

Lemma grows_valid h h' p : grows h h' → valid h p → valid h' p.
Proof.
  intros (Hl & _) Hp. apply valid_lt in Hp as (a & -> & Ha).
  apply valid_lt. exists a. split; [done|lia].
Qed.

Lemma grows_driver_ok L h h' p : grows h h' → driver_ok L h p → driver_ok L h' p.
Proof.
  intros (Hl & Hc & _) (d & -> & Hd & Hor). exists d. split; [done|].
  split; [lia|]. destruct Hor; [by left|right; auto].
Qed.

Lemma extends_valid h h' p : extends h h' → valid h p → valid h' p.
Proof. intros [? _]. by apply grows_valid. Qed.

Lemma extends_driver_ok L h h' p : extends h h' → driver_ok L h p → driver_ok L h' p.
Proof. intros [? _]. by apply grows_driver_ok. Qed.

Lemma extends_complemented h h' a : extends h h' → complemented h a → complemented h' a.
Proof. intros [(_ & H & _) _]. apply H. Qed.

Lemma complement_is_complemented h a c : complement_is h a c → complemented h a.
Proof. intros (g & ? & ?). by exists g, c. Qed.

Lemma driver_ok_valid L h p : driver_ok L h p → valid h p.
Proof. intros (d & -> & Hd & _). apply valid_lt. eauto. Qed.

Lemma sound_followers L h : sound L h → followers_ok h.
Proof. intros Hs a g Hg. by destruct (Hs a g Hg) as (_ & ? & _). Qed.

Lemma insert_extends L h a g g' :
  h !! a = Some g → upd_ok L h a g g' → extends h (<[a := g']> h).
Proof.
  intros Hg (_ & _ & Hc & Hi).
  assert (Ha' : <[a := g']> h !! a = Some g').
  { by rewrite list_lookup_insert_eq by (by eapply lookup_lt_Some). }
  split; [split; [by rewrite length_insert|split]|].
  - intros x (gx & c & Hx & Hcx). destruct (decide (a = x)) as [->|Hne].
    + assert (gx = g) as -> by congruence. exists g', c. split; [done|congruence].
    + exists gx, c. by rewrite list_lookup_insert_ne.
  - intros x k (gx & Hx & Hix). destruct (decide (a = x)) as [->|Hne].
    + assert (gx = g) as -> by congruence. exists g'. split; [done|lia].
    + exists gx. by rewrite list_lookup_insert_ne.
  - intros x c (gx & Hx & Hcx). destruct (decide (a = x)) as [->|Hne].
    + assert (gx = g) as -> by congruence. exists g'. split; [done|congruence].
    + exists gx. by rewrite list_lookup_insert_ne.
Qed.

Lemma insert_sound L h a g g' :
  sound L h → h !! a = Some g → upd_ok L h a g g' → sound L (<[a := g']> h).
Proof.
  intros Hs Hg Hu. pose proof (insert_extends L h a g g' Hg Hu) as He.
  destruct Hu as (Hi & Hf & Hc & _).
  intros x gx Hx. destruct (decide (a = x)) as [->|Hne].
  - rewrite list_lookup_insert_eq in Hx by (by eapply lookup_lt_Some).
    injection Hx as <-. destruct (Hs x g Hg) as (_ & _ & Hc').
    split; [|split].
    + eapply Forall_impl; [exact Hi|]. intros p. by apply extends_driver_ok.
    + eapply Forall_impl; [exact Hf|]. intros p. by apply extends_valid.
    + intros c Hcc. eapply extends_complemented; [exact He|]. apply Hc'. congruence.
  - rewrite list_lookup_insert_ne in Hx by done.
    destruct (Hs x gx Hx) as (Hi' & Hf' & Hc'). split; [|split].
    + eapply Forall_impl; [exact Hi'|]. intros p. by apply extends_driver_ok.
    + eapply Forall_impl; [exact Hf'|]. intros p. by apply extends_valid.
    + intros c Hcc. eapply extends_complemented; [exact He|]. eauto.
Qed.

Lemma app_extends h name : extends h (h ++ [Gate_new name]).
Proof.
  split; [split; [rewrite length_app; lia|split]|].
  - intros x (gx & c & Hx & Hcx). exists gx, c.
    by rewrite lookup_app_l by (by eapply lookup_lt_Some).
  - intros x k (gx & Hx & Hix). exists gx.
    by rewrite lookup_app_l by (by eapply lookup_lt_Some).
  - intros x c (gx & Hx & Hix). exists gx.
    by rewrite lookup_app_l by (by eapply lookup_lt_Some).
Qed.

Lemma app_sound L h name : sound L h → sound L (h ++ [Gate_new name]).
Proof.
  intros Hs x gx Hx. pose proof (app_extends h name) as He.
  destruct (decide (x < length h)%nat) as [Hlt|Hge].
  - rewrite lookup_app_l in Hx by done.
    destruct (Hs x gx Hx) as (Hi' & Hf' & Hc'). split; [|split].
    + eapply Forall_impl; [exact Hi'|]. intros p. by apply extends_driver_ok.
    + eapply Forall_impl; [exact Hf'|]. intros p. by apply extends_valid.
    + intros c Hcc. eapply extends_complemented; [exact He|]. eauto.
  - rewrite lookup_app_r in Hx by lia.
    destruct (x - length h)%nat; [|done]. injection Hx as <-.
    split; [constructor|]. split; [constructor|]. done.
Qed.

Lemma depth_only_extends h h' : depth_only h h' → extends h h'.
Proof.
  intros [Hl K]. split; [split; [lia|split]|].
  - intros x (gx & c & Hx & Hcx). destruct (K x gx Hx) as (d & Hd).
    exists (set_depth d gx), c. done.
  - intros x k (gx & Hx & Hix). destruct (K x gx Hx) as (d & Hd).
    exists (set_depth d gx). done.
  - intros x c (gx & Hx & Hix). destruct (K x gx Hx) as (d & Hd).
    exists (set_depth d gx). done.
Qed.

Lemma depth_only_sound L h h' : depth_only h h' → sound L h → sound L h'.
Proof.
  intros Hd Hs x gx' Hx. pose proof (depth_only_extends h h' Hd) as He.
  destruct Hd as [Hl K].
  assert (Ha : (x < length h)%nat).
  { rewrite <- Hl. by eapply lookup_lt_Some. }
  destruct (lookup_lt_is_Some_2 h x Ha) as [gx Hgx].
  destruct (K x gx Hgx) as (d & Hd). assert (gx' = set_depth d gx) as -> by congruence.
  destruct (Hs x gx Hgx) as (Hi' & Hf' & Hc'). simpl. split; [|split].
  - eapply Forall_impl; [exact Hi'|]. intros p. by apply extends_driver_ok.
  - eapply Forall_impl; [exact Hf'|]. intros p. by apply extends_valid.
  - intros c Hcc. eapply extends_complemented; [exact He|]. eauto.
Qed.

(** *** Runs that return *)

Lemma runs_ret {A} (x : A) h (P : A → heap → Prop) : P x h → runs (ret x) h P.
Proof. intros. by exists x, h. Qed.

Lemma runs_bind {A B} (m : M A) (k : A → M B) h (P : B → heap → Prop) :
  runs m h (λ x h1, runs (k x) h1 P) → runs (bind m k) h P.
Proof.
  intros (x & h1 & E & y & h2 & E2 & HP). exists y, h2.
  by rewrite (bind_run _ _ _ _ _ E).
Qed.

Lemma runs_weaken {A} (m : M A) h (P Q : A → heap → Prop) :
  runs m h P → (∀ x h', P x h' → Q x h') → runs m h Q.
Proof. intros (x & h' & E & HP) HQ. exists x, h'. auto. Qed.

Lemma runs_query {A} a (f : Gate → A) g h (P : A → heap → Prop) :
  h !! a = Some g → P (f g) h → runs (query (Some a) f) h P.
Proof. intros Hg HP. exists (f g), h. unfold query. by rewrite Hg. Qed.

Lemma runs_call a (f : Gate → Gate) g h (P : unit → heap → Prop) :
  h !! a = Some g → P tt (<[a := f g]> h) → runs (call (Some a) f) h P.
Proof. intros Hg HP. exists tt, (<[a := f g]> h). unfold call. by rewrite Hg. Qed.

Lemma runs_new name h (P : ptr → heap → Prop) :
  P (Some (length h)) (h ++ [Gate_new name]) → runs (new_Gate name) h P.
Proof. intros HP. by eexists _, _. Qed.

Lemma runs_for_loop (I : heap → Prop) (bound : M nat) (body : nat → M unit) n h
    (P : unit → heap → Prop) :
  (∀ h, I h → bound h = Some (n, h)) →
  (∀ i h, (i < n)%nat → I h → runs (body i) h (λ _, I)) →
  I h → (∀ h', I h' → P tt h') → runs (for_loop bound body) h P.
Proof.
  intros Hb Hbody HI HP.
  destruct (for_loop_runs I bound body n h Hb) as (h' & E & HI'); [|done|].
  - intros i h1 Hi HI1. destruct (Hbody i h1 Hi HI1) as (x & h2 & E & HI2). eauto.
  - exists tt, h'. auto.
Qed.

Lemma runs_for_each {A} (I : heap → Prop) (body : nat → A → M unit) (v : list A)
    i h (P : unit → heap → Prop) :
  (∀ j x h, x ∈ v → I h → runs (body j x) h (λ _, I)) →
  I h → (∀ h', I h' → P tt h') → runs (for_each body i v) h P.
Proof.
  intros Hbody HI HP. revert i h HI.
  induction v as [|x v IH]; intros i h HI; simpl.
  - apply runs_ret. auto.
  - apply runs_bind. eapply runs_weaken.
    + apply (Hbody i x h); [left|done].
    + intros ? h1 HI1. apply IH; [|done].
      intros j y h2 Hy. apply Hbody. by right.
Qed.

Lemma sound_at_insert L n h a g g' :
  sound_at L n h → h !! a = Some g → upd_ok L h a g g' →
  sound_at L n (<[a := g']> h) ∧ extends h (<[a := g']> h).
Proof.
  intros (Hs & Hl) Hg Hu. split; [|by eapply insert_extends].
  split; [by eapply insert_sound|by rewrite length_insert].
Qed.

Lemma sound_at_depth_only L n h h' :
  sound_at L n h → depth_only h h' → sound_at L n h' ∧ extends h h'.
Proof.
  intros (Hs & Hl) Hd. split; [|by apply depth_only_extends].
  split; [by eapply depth_only_sound|destruct Hd; congruence].
Qed.

Ltac carry He :=
  lazymatch type of He with
  | extends ?h ?h' =>
      repeat match goal with
      | H : valid h ?p |- _ => apply (extends_valid h h' p He) in H
      | H : driver_ok ?L h ?p |- _ => apply (extends_driver_ok L h h' p He) in H
      | H : complemented h ?a |- _ => apply (extends_complemented h h' a He) in H
      | H : has_slot h ?a ?k |- _ => apply (proj2 (proj2 (proj1 He))) in H
      | H : complement_is h ?a ?c |- _ => apply (proj2 He) in H
      | H : extends ?h0 h |- _ => apply (λ H0, extends_trans h0 h h' H0 He) in H
      | H : grows ?h0 h |- _ =>
          apply (λ H0, grows_trans h0 h h' H0 (extends_grows h h' He)) in H
      end
  | grows ?h ?h' =>
      repeat match goal with
      | H : valid h ?p |- _ => apply (grows_valid h h' p He) in H
      | H : driver_ok ?L h ?p |- _ => apply (grows_driver_ok L h h' p He) in H
      | H : complemented h ?a |- _ => apply (proj1 (proj2 He)) in H
      | H : has_slot h ?a ?k |- _ => apply (proj2 (proj2 He)) in H
      | H : extends ?h0 h |- _ =>
          apply (λ H0, grows_trans h0 h h' (extends_grows h0 h H0) He) in H
      | H : grows ?h0 h |- _ => apply (λ H0, grows_trans h0 h h' H0 He) in H
      end
  end.

Lemma runs_query_valid {A} a (f : Gate → A) h (P : A → heap → Prop) :
  valid h (Some a) →
  (∀ g, h !! a = Some g → P (f g) h) →
  runs (query (Some a) f) h P.
Proof.
  intros (? & g & [= <-] & Hg) HP. eapply runs_query; [exact Hg|]. auto.
Qed.

Lemma runs_setDepth L n fuel p z h (P : bool → heap → Prop) :
  sound_at L n h → valid h p → fuel_covers fuel n →
  (∀ b h', sound_at L n h' → extends h h' → P b h') →
  runs (setDepth fuel p (to_unsigned z)) h P.
Proof.
  intros Hst Hp Hc HP.
  destruct (setDepth_runs fuel h p z) as (b & h' & E & Hd).
  - eapply sound_followers. apply Hst.
  - done.
  - destruct Hst as [_ ->]. done.
  - exists b, h'. split; [done|].
    destruct (sound_at_depth_only L n h h' Hst Hd). auto.
Qed.

(** *** Updates that keep the structure sound *)

Lemma upd_same L h a g g' :
  sound L h → h !! a = Some g →
  inputs g' = inputs g → followingGates g' = followingGates g →
  complementaryGate g' = complementaryGate g →
  upd_ok L h a g g'.
Proof.
  intros Hs Hg Hi Hf Hc. destruct (Hs a g Hg) as (Hi' & Hf' & Hc').
  unfold upd_ok. rewrite Hi, Hf, Hc. repeat split; auto.
Qed.

Lemma upd_add_input L h a g p :
  sound L h → h !! a = Some g → driver_ok L h p →
  upd_ok L h a g (set_inputs (p :: inputs g) g).
Proof.
  intros Hs Hg Hp. destruct (Hs a g Hg) as (Hi' & Hf' & Hc').
  unfold upd_ok. simpl. repeat split; auto.
Qed.

Lemma upd_set_input L h a g i p :
  sound L h → h !! a = Some g → driver_ok L h p →
  upd_ok L h a g (set_inputs (<[i := p]> (inputs g)) g).
Proof.
  intros Hs Hg Hp. destruct (Hs a g Hg) as (Hi' & Hf' & Hc').
  unfold upd_ok. simpl. repeat split; auto.
  - destruct (decide (i < length (inputs g))%nat).
    + by apply Forall_insert.
    + by rewrite list_insert_ge by lia.
  - by rewrite length_insert.
Qed.

Lemma upd_newFollow L h a g p :
  sound L h → h !! a = Some g → valid h p →
  upd_ok L h a g (newFollow p g).
Proof.
  intros Hs Hg Hp. destruct (Hs a g Hg) as (Hi' & Hf' & Hc').
  destruct Hp as (x & gx & -> & Hx).
  unfold upd_ok. simpl. repeat split; auto.
  constructor; [|done]. exists x, gx. done.
Qed.

Lemma remFollow_loop_Forall (P : ptr → Prop) fuel p i v :
  Forall P v → Forall P (remFollow_loop fuel p i v).
Proof.
  revert i v. induction fuel as [|fuel IH]; intros i v Hv; simpl; [done|].
  destruct (i <? length v)%nat; [|done].
  destruct (decide (v !! i = Some p)); apply IH; [|done].
  by apply Forall_delete.
Qed.

Lemma upd_remFollow L h a g p :
  sound L h → h !! a = Some g →
  upd_ok L h a g (remFollow p g).
Proof.
  intros Hs Hg. destruct (Hs a g Hg) as (Hi' & Hf' & Hc').
  unfold upd_ok, remFollow. destruct p as [x|]; simpl; repeat split; auto.
  by apply remFollow_loop_Forall.
Qed.

(** *** The members, the loop bodies and the loops return *)

Lemma runs_call_at L n a (f : Gate → Gate) h (P : unit → heap → Prop) :
  sound_at L n h → valid h (Some a) →
  (∀ g, h !! a = Some g → upd_ok L h a g (f g)) →
  (∀ g h', h !! a = Some g → h' !! a = Some (f g) → sound_at L n h' → extends h h' → P tt h') →
  runs (call (Some a) f) h P.
Proof.
  intros Hst (? & g & [= <-] & Hg) Hu HP.
  eapply runs_call; [exact Hg|].
  destruct (sound_at_insert L n h a g (f g) Hst Hg (Hu g Hg)).
  eapply HP; eauto.
  rewrite list_lookup_insert_eq; [done|]. by eapply lookup_lt_Some.
Qed.

Lemma runs_newInput L n fuel t p b h (P : unit → heap → Prop) :
  sound_at L n h → valid h (Some t) → driver_ok L h p → fuel_covers fuel n →
  (∀ h', sound_at L n h' → extends h h' → has_slot h' t 0 → P tt h') →
  runs (newInput fuel (Some t) p b) h P.
Proof.
  intros Hst Ht Hp Hc HP. unfold newInput. pose proof (extends_refl h) as He.
  apply runs_bind. eapply runs_query_valid; [done|]. intros _ _.
  pose proof Hp as (d & -> & _).
  apply runs_bind. eapply runs_call_at; [done..| |].
  { intros g Hg. apply upd_add_input; [apply Hst|done..]. }
  intros g h1 Hg Hg1 Hst1 He1.
  assert (Hfed : has_slot h1 t 0) by (eexists; split; [done|simpl; lia]).
  carry He1.
  apply runs_bind. eapply runs_call_at; [done..| |].
  { intros g' Hg'. apply upd_same; [apply Hst1|done..]. }
  intros g' h2 Hg' Hg2 Hst2 He2. carry He2.
  apply runs_bind. eapply runs_query_valid; [by eapply driver_ok_valid|].
  intros gd Hgd.
  apply runs_bind. eapply runs_setDepth; [done..|].
  intros ? h3 Hst3 He3. carry He3. apply runs_ret. apply HP; auto.
Qed.

Lemma runs_swapDriver L n fuel t old new h (P : unit → heap → Prop) :
  sound_at L n h → valid h (Some t) → driver_ok L h new → fuel_covers fuel n →
  (∀ h', sound_at L n h' → extends h h' → P tt h') →
  runs (swapDriver fuel (Some t) old new) h P.
Proof.
  intros Hst Ht Hp Hc HP. unfold swapDriver. pose proof (extends_refl h) as He.
  apply runs_bind. eapply runs_query_valid; [done|]. intros g Hg.
  destruct (list_find _ (inputs g)) as [[i ?]|]; [|apply runs_ret; auto].
  pose proof Hp as (d & -> & _).
  apply runs_bind. eapply runs_call_at; [done..| |].
  { intros g' Hg'. apply upd_set_input; [apply Hst|done..]. }
  intros g' h1 Hg' Hg1 Hst1 He1. carry He1.
  apply runs_bind. eapply runs_query_valid; [by eapply driver_ok_valid|].
  intros gd Hgd.
  apply runs_bind. eapply runs_setDepth; [done..|].
  intros ? h3 Hst3 He3. carry He3. apply runs_ret. apply HP; auto.
Qed.

Lemma runs_and_inv {A} (m : M A) h (P Q : A → heap → Prop) :
  runs m h P → (∀ x h', m h = Some (x, h') → Q x h') →
  runs m h (λ x h', P x h' ∧ Q x h').
Proof. intros (x & h' & E & HP) HQ. exists x, h'. auto. Qed.

Lemma sound_driver L h a g j :
  sound L h → h !! a = Some g → (j < length (inputs g))%nat →
  driver_ok L h (getDriver j g).
Proof.
  intros Hs Hg Hj. destruct (Hs a g Hg) as (Hi & _).
  destruct (lookup_lt_is_Some_2 _ _ Hj) as [p Hp].
  unfold getDriver. rewrite Hp. simpl.
  eapply Forall_forall; [exact Hi|]. by eapply list_elem_of_lookup_2.
Qed.

Lemma sound_complement L h d gd :
  sound L h → h !! d = Some gd → complemented h d →
  ∃ c, getComplement gd = Some c ∧ complemented h c.
Proof.
  intros Hs Hg (g' & c & Hg' & Hc). assert (g' = gd) as -> by congruence.
  destruct (Hs d gd Hg) as (_ & _ & Hcc). exists c. split; [done|]. by apply Hcc.
Qed.

Lemma complemented_valid h a : complemented h a → valid h (Some a).
Proof. intros (g & c & Hg & _). by exists a, g. Qed.

Lemma complemented_driver_ok L h a : complemented h a → driver_ok L h (Some a).
Proof.
  intros H. exists a. split; [done|]. split; [|by right].
  destruct H as (g & c & Hg & _). by eapply lookup_lt_Some.
Qed.

Lemma driver_ok_nil h p : driver_ok [] h p → ∃ d, p = Some d ∧ complemented h d.
Proof.
  intros (d & -> & _ & [Hin|Hc]); [|eauto]. by apply elem_of_nil in Hin.
Qed.

Lemma runs_keeps {A} n0 r h0 (m : M A) h (P : A → heap → Prop) :
  inv_step (keeps n0 r h0) m (λ _, True) → keeps n0 r h0 h →
  runs m h P → runs m h (λ x h', P x h' ∧ keeps n0 r h0 h').
Proof.
  intros Hi Hk (x & h' & E & HP). exists x, h'. split; [done|]. split; [done|].
  by eapply keeps_run.
Qed.

Lemma runs_driver L n a j h (P : ptr → heap → Prop) :
  sound_at L n h → has_slot h a j →
  (∀ d, driver_ok L h (Some d) → P (Some d) h) →
  runs (query (Some a) (getDriver j)) h P.
Proof.
  intros Hst (g & Hg & Hj) HP. eapply runs_query; [exact Hg|].
  destruct (sound_driver L h a g j) as (d & Hd & Hok); [apply Hst|done..|].
  rewrite Hd. apply HP. rewrite <- Hd. eapply sound_driver; [apply Hst|done..].
Qed.

Lemma runs_complement L n d h (P : ptr → heap → Prop) :
  sound_at L n h → complemented h d →
  (∀ c, complemented h c → P (Some c) h) →
  runs (query (Some d) getComplement) h P.
Proof.
  intros Hst Hd HP. pose proof Hd as (g & c & Hg & Hc).
  eapply runs_query; [exact Hg|].
  destruct (sound_complement L h d g) as (c' & -> & Hc'); [apply Hst|done..|].
  by apply HP.
Qed.

Lemma runs_change_inputs n fuel a h (P : unit → heap → Prop) :
  sound_at [] n h → valid h (Some a) → fuel_covers fuel n →
  (∀ h', sound_at [] n h' → extends h h' → P tt h') →
  runs (change_inputs fuel (Some a)) h P.
Proof.
  intros Hst Ha Hc HP. unfold change_inputs.
  pose proof Ha as (? & g0 & [= <-] & Hg0).
  eapply (runs_for_loop
            (λ h1, (sound_at [] n h1 ∧ extends h h1) ∧ keeps (length h) r_stay h h1)
            _ _ (length (inputs g0))).
  - intros h1 (_ & (_ & _ & K)).
    destruct (K a g0) as (g1 & Hg1 & _ & Hl); [by eapply lookup_lt_Some|done|].
    unfold query. rewrite Hg1. unfold getFanIn. by rewrite Hl.
  - intros j h1 Hj ((Hst1 & He1) & K1).
    eapply (runs_keeps (length h) r_stay h); [inv_go; r_solve2|exact K1|].
    pose proof K1 as (_ & _ & K).
    destruct (K a g0) as (g1 & Hg1 & _ & Hl); [by eapply lookup_lt_Some|done|].
    assert (Hs : has_slot h1 a j) by (exists g1; split; [done|lia]).
    carry He1.
    apply runs_bind. eapply runs_query_valid; [done|]. intros ? _.
    destruct (isInputInverting j g); [|by apply runs_ret].
    apply runs_bind. eapply runs_call_at; [done..| |].
    { intros g' Hg'. apply upd_same; [apply Hst1|done..]. }
    intros ? h2 _ _ Hst2 He2. carry He2.
    apply runs_bind. eapply runs_driver; [done..|]. intros d Hd.
    apply runs_bind. eapply runs_call_at; [done|by eapply driver_ok_valid| |].
    { intros g' Hg'. apply upd_remFollow; [apply Hst2|done]. }
    intros ? h3 _ _ Hst3 He3. carry He3.
    apply runs_bind. eapply runs_driver; [done..|]. intros old Hold.
    apply runs_bind. eapply runs_driver; [done..|]. intros d0 Hd0.
    apply driver_ok_nil in Hd0 as (? & [= <-] & Hcd0).
    apply runs_bind. eapply runs_complement; [done..|]. intros c Hcc.
    apply runs_bind. eapply runs_swapDriver; [done|done|by apply complemented_driver_ok|done|].
    intros h4 Hst4 He4. carry He4.
    apply runs_bind. eapply runs_driver; [done..|]. intros d1 Hd1.
    eapply runs_call_at; [done|by eapply driver_ok_valid| |].
    { intros g' Hg'. apply upd_newFollow; [apply Hst4|done..]. }
    intros ? h5 _ _ Hst5 He5. carry He5. done.
  - split; [split; [done|apply extends_refl]|].
    apply keeps_refl; [done|apply r_stay_refl].
  - intros h' ((? & ?) & _). auto.
Qed.

Lemma r_shape_refl b g : r_shape b g g.
Proof. done. Qed.

Ltac shape_solve :=
  intros; eapply keeps_insert; [eassumption..|];
  unfold r_shape; intros ? ? ? [? ?]; split; simpl; congruence.

Lemma runs_follow L n a j h g0 (P : ptr → heap → Prop) :
  sound_at L n h → h !! a = Some g0 → (j < length (followingGates g0))%nat →
  (∀ f, valid h (Some f) → followingGates g0 !! j = Some (Some f) → P (Some f) h) →
  runs (query (Some a) (getFollow j)) h P.
Proof.
  intros Hst Hg Hj HP. eapply runs_query; [exact Hg|].
  destruct (lookup_lt_is_Some_2 _ _ Hj) as [p Hp].
  unfold getFollow. rewrite Hp. simpl.
  destruct Hst as [Hs _]. destruct (Hs a g0 Hg) as (_ & Hf & _).
  assert (Hv : valid h p).
  { eapply Forall_forall; [exact Hf|]. by eapply list_elem_of_lookup_2. }
  pose proof Hv as (f & ? & -> & ?). by apply HP.
Qed.

Lemma runs_move_inverter L n a h (P : unit → heap → Prop) :
  sound_at L n h → valid h (Some a) →
  (∀ h', sound_at L n h' → extends h h' → P tt h') →
  runs (move_inverter (Some a)) h P.
Proof.
  intros Hst Ha HP. unfold move_inverter.
  pose proof Ha as (? & g0 & [= <-] & Hg0).
  set (I := λ h1, (sound_at L n h1 ∧ extends h h1) ∧ keeps (length h) r_shape h h1).
  assert (HI : I h).
  { split; [split; [done|apply extends_refl]|].
    apply keeps_refl; [done|apply r_shape_refl]. }
  assert (Hlook : ∀ h1 x gx, I h1 → h !! x = Some gx →
            ∃ gx', h1 !! x = Some gx' ∧ inputs gx' = inputs gx ∧
                   followingGates gx' = followingGates gx).
  { intros h1 x gx (_ & (_ & _ & K)) Hx.
    destruct (K x gx) as (gx' & ? & ? & ?); [by eapply lookup_lt_Some|done|]. eauto. }
  apply runs_bind. eapply runs_query_valid; [done|]. intros ? _.
  apply runs_bind.
  assert (Hfin : ∀ h', I h' →
            runs (call (Some a) setOutputNonInverting) h' P).
  { intros h' ((Hst' & He') & _). carry He'.
    eapply runs_call_at; [done..| |].
    { intros g' Hg'. apply upd_same; [apply Hst'|done..]. }
    intros ? h2 _ _ Hst2 He2. carry He2. auto. }
  destruct (isOutputInverting g); [|apply runs_ret; auto].
  eapply (runs_for_loop I _ _ (length (followingGates g0))); [| |done|auto].
  - intros h1 HI1. destruct (Hlook h1 a g0 HI1 Hg0) as (g1 & Hg1 & _ & Hf1).
    unfold query. rewrite Hg1. unfold getFanOut. by rewrite Hf1.
  - intros j h1 Hj HI1.
    destruct (lookup_lt_is_Some_2 _ _ Hj) as [pf Hpf].
    assert (Hvf : valid h pf).
    { destruct Hst as [Hs _]. destruct (Hs a g0 Hg0) as (_ & Hf & _).
      eapply Forall_forall; [exact Hf|]. by eapply list_elem_of_lookup_2. }
    destruct Hvf as (f & gf0 & -> & Hgf0).
    eapply (runs_for_loop I _ _ (length (inputs gf0))); [| |done|auto].
    + intros h2 HI2. destruct (Hlook h2 a g0 HI2 Hg0) as (g2 & Hg2 & _ & Hf2).
      destruct (Hlook h2 f gf0 HI2 Hgf0) as (gf2 & Hgf2 & Hi2 & _).
      unfold bind, query. rewrite Hg2. unfold getFollow. rewrite Hf2, Hpf. simpl.
      rewrite Hgf2. unfold getFanIn. by rewrite Hi2.
    + intros k h2 Hk HI2.
      destruct (Hlook h2 a g0 HI2 Hg0) as (g2 & Hg2 & _ & Hf2).
      destruct (Hlook h2 f gf0 HI2 Hgf0) as (gf2 & Hgf2 & Hi2 & _).
      destruct HI2 as ((Hst2 & He2) & K2).
      eapply runs_weaken.
      { eapply (runs_keeps (length h) r_shape h); [inv_go; shape_solve|exact K2|].
        apply runs_bind. eapply runs_query; [exact Hg2|].
        unfold getFollow. rewrite Hf2, Hpf. simpl.
        apply runs_bind. eapply runs_query; [exact Hgf2|].
        assert (Hvf2 : valid h2 (Some f)) by (by eexists _, _).
        instantiate (1 := λ _ h', sound_at L n h' ∧ extends h h').
        destruct (decide (getDriver k gf2 = Some a)); [|by apply runs_ret].
        apply runs_bind. eapply runs_query; [exact Hgf2|].
        destruct (isInputInverting k gf2).
        - eapply runs_call_at; [done..| |].
          { intros g' Hg'. apply upd_same; [apply Hst2|done..]. }
          intros ? h3 _ _ Hst3 He3. carry He3. done.
        - eapply runs_call_at; [done..| |].
          { intros g' Hg'. apply upd_same; [apply Hst2|done..]. }
          intros ? h3 _ _ Hst3 He3. carry He3. done. }
      intros ? h3 [[? ?] ?]. done.
Qed.

(** The two [setComplement] calls that pair a gate with its new twin. *)
Lemma sound_at_link L m h a b ga gb :
  sound_at L m h → h !! a = Some ga → h !! b = Some gb → a ≠ b →
  let h' := <[a := setComplement (Some b) ga]>
              (<[b := setComplement (Some a) gb]> h) in
  sound_at L m h' ∧ grows h h' ∧ complement_is h' a b ∧ complement_is h' b a.
Proof.
  intros (Hs & Hl) Ha Hb Hne h'.
  assert (Hla : (a < length h)%nat) by (by eapply lookup_lt_Some).
  assert (Hlb : (b < length h)%nat) by (by eapply lookup_lt_Some).
  assert (Ha' : h' !! a = Some (setComplement (Some b) ga)).
  { unfold h'. by rewrite list_lookup_insert_eq by (by rewrite length_insert). }
  assert (Hb' : h' !! b = Some (setComplement (Some a) gb)).
  { unfold h'. rewrite list_lookup_insert_ne by done.
    by rewrite list_lookup_insert_eq. }
  assert (Ho : ∀ x, x ≠ a → x ≠ b → h' !! x = h !! x).
  { intros x ? ?. unfold h'. by rewrite !list_lookup_insert_ne by done. }
  assert (Hlen : length h' = length h).
  { unfold h'. by rewrite !length_insert. }
  assert (Hca : complemented h' a) by (by eexists _, _).
  assert (Hcb : complemented h' b) by (by eexists _, _).
  assert (Hsame : ∀ x gx, h !! x = Some gx →
            ∃ gx', h' !! x = Some gx' ∧ inputs gx' = inputs gx ∧
                   followingGates gx' = followingGates gx ∧
                   (x ≠ a → x ≠ b → complementaryGate gx' = complementaryGate gx)).
  { intros x gx Hx. destruct (decide (x = a)) as [->|Hxa].
    { assert (gx = ga) as -> by congruence. eexists. split; [exact Ha'|]. done. }
    destruct (decide (x = b)) as [->|Hxb].
    { assert (gx = gb) as -> by congruence. eexists. split; [exact Hb'|]. done. }
    exists gx. rewrite Ho by done. done. }
  assert (He : grows h h').
  { split; [lia|]. split.
    - intros x (gx & c & Hx & Hc).
      destruct (decide (x = a)) as [->|Hxa]; [done|].
      destruct (decide (x = b)) as [->|Hxb]; [done|].
      exists gx, c. by rewrite Ho.
    - intros x k (gx & Hx & Hk).
      destruct (Hsame x gx Hx) as (gx' & Hx' & Hi & _).
      exists gx'. by rewrite Hi. }
  split; [|split; [done|split; by eexists]]. split; [|lia].
  intros x gx' Hx'.
  assert (Hlx : (x < length h)%nat).
  { rewrite <- Hlen. by eapply lookup_lt_Some. }
  destruct (lookup_lt_is_Some_2 h x Hlx) as [gx Hx].
  destruct (Hsame x gx Hx) as (gx2 & Hx2 & Hi & Hf & Hc).
  assert (gx2 = gx') as -> by congruence.
  destruct (Hs x gx Hx) as (Hi0 & Hf0 & Hc0).
  rewrite Hi, Hf. split; [|split].
  - eapply Forall_impl; [exact Hi0|]. intros p. by apply grows_driver_ok.
  - eapply Forall_impl; [exact Hf0|]. intros p. by apply grows_valid.
  - intros c Hcc.
    destruct (decide (x = a)) as [->|Hxa].
    { rewrite Ha' in Hx'. injection Hx' as <-. simpl in Hcc. by injection Hcc as <-. }
    destruct (decide (x = b)) as [->|Hxb].
    { rewrite Hb' in Hx'. injection Hx' as <-. simpl in Hcc. by injection Hcc as <-. }
    rewrite Hc in Hcc by done. apply He. eauto.
Qed.

Lemma runs_link {B} L m a b h (k : M B) (P : B → heap → Prop) :
  sound_at L m h → valid h (Some a) → valid h (Some b) → a ≠ b →
  (∀ h', sound_at L m h' → grows h h' → complement_is h' a b → complement_is h' b a → runs k h' P) →
  runs (call (Some b) (setComplement (Some a)) ;;;
        call (Some a) (setComplement (Some b)) ;;; k) h P.
Proof.
  intros Hst (? & ga & [= <-] & Ha) (? & gb & [= <-] & Hb) Hne HP.
  apply runs_bind. eapply runs_call; [exact Hb|].
  apply runs_bind. eapply runs_call; [by rewrite list_lookup_insert_ne|].
  destruct (sound_at_link L m h a b ga gb Hst Ha Hb Hne) as (? & ? & ? & ?).
  by apply HP.
Qed.

Lemma runs_dup_gate L n fuel a h (P : ptr → heap → Prop) :
  sound_at L n h → valid h (Some a) → fuel_covers fuel (S n) →
  (∀ h', sound_at L (S n) h' → grows h h' → complemented h' a → complemented h' n → P (Some n) h') →
  runs (dup_gate fuel (Some a)) h P.
Proof.
  intros Hst Ha Hc HP. unfold dup_gate. pose proof (extends_refl h) as He.
  assert (Hlt : (a < n)%nat).
  { destruct Hst as [_ <-]. destruct Ha as (? & ? & [= <-] & ?).
    by eapply lookup_lt_Some. }
  apply runs_bind. eapply runs_query_valid; [done|]. intros g0 Hg0.
  apply runs_bind. apply runs_new.
  assert (Hst1 : sound_at L (S n) (h ++ [Gate_new ("D_" +:+ getName g0)])).
  { destruct Hst as [Hs Hl]. split; [by apply app_sound|].
    rewrite length_snoc. by rewrite Hl. }
  assert (Hn : valid (h ++ [Gate_new ("D_" +:+ getName g0)]) (Some n)).
  { apply valid_lt. exists n. split; [done|]. destruct Hst1 as [_ ->]. lia. }
  pose proof (app_extends h ("D_" +:+ getName g0)) as He1.
  replace (length h) with n by (by destruct Hst).
  carry He1. revert Hst1 Hn He1 Ha He. generalize (h ++ [Gate_new ("D_" +:+ getName g0)]).
  clear Hg0. intros h1 Hst1 Hn He1 Ha He.
  apply runs_bind. eapply runs_query_valid; [done|]. intros ? _.
  apply runs_bind. eapply runs_call_at; [done..| |].
  { intros g' Hg'. apply upd_same; [apply Hst1|done..]. }
  intros ? h2 _ _ Hst2 He2. carry He2.
  apply runs_bind. eapply runs_query_valid; [done|]. intros ? _.
  apply runs_bind. eapply runs_call_at; [done..| |].
  { intros g' Hg'. apply upd_same; [apply Hst2|done..]. }
  intros ? h3 _ _ Hst3 He3. carry He3.
  eapply runs_weaken.
  { eapply (runs_link L (S n) a n); [done|done|done|lia|].
    intros h4 Hst4 He4 Hca%complement_is_complemented Hcn%complement_is_complemented. carry He4.
    instantiate (1 := λ p h', p = Some n ∧ sound_at L (S n) h' ∧ grows h h' ∧
                              complemented h' a ∧ complemented h' n).
    apply runs_bind. eapply runs_query_valid; [done|]. intros g4 _.
    apply runs_bind.
    assert (Hoi : runs (if isOutputInverting g4
                        then call (Some n) setOutputInverting else ret tt) h4
                    (λ _ h', sound_at L (S n) h' ∧ extends h4 h')).
    { destruct (isOutputInverting g4).
      - eapply runs_call_at; [done..| |].
        { intros g' Hg'. apply upd_same; [apply Hst4|done..]. }
        intros ? h5 _ _ Hst5 He5. done.
      - apply runs_ret. split; [done|apply extends_refl]. }
    eapply runs_weaken; [exact Hoi|]. clear Hoi.
    intros _ h5 [Hst5 He5]. carry He5.
    pose proof Ha as (? & g5 & [= <-] & Hg5).
    apply runs_bind.
    eapply (runs_for_loop
              (λ h6, (sound_at L (S n) h6 ∧ extends h5 h6) ∧ keeps (S n) (r_loop n) h5 h6)
              _ _ (length (inputs g5))).
    - intros h6 (_ & (_ & _ & K)).
      destruct (K a g5) as (g6 & Hg6 & _ & _ & Hi6); [lia|done|].
      unfold query. rewrite Hg6. unfold getFanIn. by rewrite Hi6 by lia.
    - intros j h6 Hj ((Hst6 & He6) & K6).
      eapply (runs_keeps (S n) (r_loop n) h5); [inv_go; loop_solve|exact K6|].
      pose proof K6 as (_ & _ & K).
      destruct (K a g5) as (g6 & Hg6 & _ & _ & Hi6); [lia|done|].
      assert (Hs : has_slot h6 a j).
      { exists g6. split; [done|]. rewrite Hi6 by lia. done. }
      carry He6.
      apply runs_bind. eapply runs_driver; [done..|]. intros d Hd.
      apply runs_bind. eapply runs_query; [exact Hg6|].
      apply runs_bind. eapply runs_newInput; [done..|].
      intros h7 Hst7 He7 _. carry He7.
      apply runs_bind. eapply runs_driver; [done..|]. intros d' Hd'.
      eapply runs_call_at; [done|by eapply driver_ok_valid| |].
      { intros g' Hg'. by apply upd_newFollow; [apply Hst7|..]. }
      intros ? h8 _ _ Hst8 He8. carry He8. done.
    - split; [split; [done|apply extends_refl]|].
      apply keeps_refl; [destruct Hst5 as [_ ->]; lia|apply r_loop_refl].
    - intros h6 ((Hst6 & He6) & _). carry He6. apply runs_ret. done. }
  intros p h' (-> & ? & ? & ? & ?). by apply HP.
Qed.

Lemma runs_complement_is a c h (P : ptr → heap → Prop) :
  complement_is h a c → P (Some c) h → runs (query (Some a) getComplement) h P.
Proof.
  intros (g & Hg & Hc) HP. eapply runs_query; [exact Hg|].
  unfold getComplement. by rewrite Hc.
Qed.

Lemma runs_dup_input L n fuel a h (P : ptr → heap → Prop) :
  sound_at L n h → driver_ok L h (Some a) → fuel_covers fuel (S n) →
  (∀ h', sound_at L (S n) h' → grows h h' → complemented h' a → complemented h' n → P (Some n) h') →
  runs (dup_input fuel (Some a)) h P.
Proof.
  intros Hst Hd Hc HP. unfold dup_input. pose proof (extends_refl h) as He.
  pose proof (driver_ok_valid _ _ _ Hd) as Ha.
  assert (Hlt : (a < n)%nat).
  { destruct Hst as [_ <-]. destruct Ha as (? & ? & [= <-] & ?).
    by eapply lookup_lt_Some. }
  apply runs_bind. eapply runs_query_valid; [done|]. intros g0 Hg0.
  apply runs_bind. apply runs_new.
  assert (Hst1 : sound_at L (S n) (h ++ [Gate_new ("D_" +:+ getName g0)])).
  { destruct Hst as [Hs Hl]. split; [by apply app_sound|].
    rewrite length_snoc. by rewrite Hl. }
  assert (Hn : valid (h ++ [Gate_new ("D_" +:+ getName g0)]) (Some n)).
  { apply valid_lt. exists n. split; [done|]. destruct Hst1 as [_ ->]. lia. }
  pose proof (app_extends h ("D_" +:+ getName g0)) as He1.
  replace (length h) with n by (by destruct Hst).
  carry He1. revert Hst1 Hn He1 Ha Hd He. generalize (h ++ [Gate_new ("D_" +:+ getName g0)]).
  clear Hg0. intros h1 Hst1 Hn He1 Ha Hd He.
  apply runs_bind. eapply runs_call_at; [done..| |].
  { intros g' Hg'. apply upd_same; [apply Hst1|done..]. }
  intros ? h2 _ _ Hst2 He2. carry He2.
  apply runs_bind. eapply runs_call_at; [done..| |].
  { intros g' Hg'. apply upd_same; [apply Hst2|done..]. }
  intros ? h3 _ _ Hst3 He3. carry He3.
  apply runs_bind. eapply runs_newInput; [done..|].
  intros h4 Hst4 He4 _. carry He4.
  apply runs_bind. eapply runs_call_at; [done..| |].
  { intros g' Hg'. by apply upd_newFollow; [apply Hst4|..]. }
  intros ? h5 _ _ Hst5 He5. carry He5.
  apply runs_bind. eapply runs_call_at; [done..| |].
  { intros g' Hg'. apply upd_same; [apply Hst5|done..]. }
  intros ? h6 _ _ Hst6 He6. carry He6.
  apply runs_bind. eapply runs_call_at; [done..| |].
  { intros g' Hg'. apply upd_same; [apply Hst6|done..]. }
  intros ? h7 _ _ Hst7 He7. carry He7.
  eapply (runs_link L (S n) a n); [done|done|done|lia|].
  intros h8 Hst8 He8 Hca%complement_is_complemented Hcn%complement_is_complemented. carry He8.
  apply runs_ret. by apply HP.
Qed.

Lemma runs_swap_output_rails n fuel o oc h (P : unit → heap → Prop) :
  sound_at [] n h → valid h (Some o) → complement_is h o oc → has_slot h o 0 → has_slot h oc 0 →
  fuel_covers fuel n →
  (∀ h', sound_at [] n h' → extends h h' → P tt h') →
  runs (swap_output_rails fuel (Some o)) h P.
Proof.
  intros Hst Ho Hco Hso Hsc Hc HP. unfold swap_output_rails.
  pose proof (extends_refl h) as He.
  assert (Hoc : valid h (Some oc)).
  { destruct Hsc as (g & ? & _). by exists oc, g. }
  apply runs_bind. eapply runs_call_at; [done..| |].
  { intros g' Hg'. apply upd_same; [apply Hst|done..]. }
  intros ? h1 _ _ Hst1 He1. carry He1.
  apply runs_bind. eapply runs_driver; [done..|]. intros old Hold.
  apply runs_bind. eapply runs_complement_is; [done..|].
  apply runs_bind. eapply runs_driver; [done..|]. intros new Hnew.
  apply runs_bind. eapply runs_swapDriver; [done..|].
  intros h2 Hst2 He2. carry He2.
  apply runs_bind. eapply runs_complement_is; [done..|].
  apply runs_bind. eapply runs_driver; [done..|]. intros old2 Hold2.
  apply runs_bind. eapply runs_driver; [done..|]. intros d Hd.
  pose proof Hd as Hd'. apply driver_ok_nil in Hd' as (? & [= <-] & Hcd).
  apply runs_bind. eapply runs_complement; [done..|]. intros c Hcc.
  apply runs_bind. eapply runs_swapDriver; [done|done|by apply complemented_driver_ok|done|].
  intros h3 Hst3 He3. carry He3.
  apply runs_bind. eapply runs_driver; [done..|]. intros d3 Hd3.
  apply runs_bind. eapply runs_complement_is; [done..|].
  apply runs_bind. eapply runs_call_at; [done|by eapply driver_ok_valid| |].
  { intros g' Hg'. apply upd_remFollow; [apply Hst3|done]. }
  intros ? h4 _ _ Hst4 He4. carry He4.
  apply runs_bind. eapply runs_driver; [done..|]. intros d4 Hd4.
  apply runs_bind. eapply runs_call_at; [done|by eapply driver_ok_valid| |].
  { intros g' Hg'. by apply upd_newFollow; [apply Hst4|..]. }
  intros ? h5 _ _ Hst5 He5. carry He5.
  apply runs_bind. eapply runs_complement_is; [done..|].
  apply runs_bind. eapply runs_driver; [done..|]. intros d5 Hd5.
  apply runs_bind. eapply runs_call_at; [done|by eapply driver_ok_valid| |].
  { intros g' Hg'. apply upd_remFollow; [apply Hst5|done]. }
  intros ? h6 _ _ Hst6 He6. carry He6.
  apply runs_bind. eapply runs_complement_is; [done..|].
  apply runs_bind. eapply runs_driver; [done..|]. intros d6 Hd6.
  apply runs_bind. eapply runs_complement_is; [done..|].
  eapply runs_call_at; [done|by eapply driver_ok_valid| |].
  { intros g' Hg'. by apply upd_newFollow; [apply Hst6|..]. }
  intros ? h7 _ _ Hst7 He7. carry He7. by apply HP.
Qed.

Lemma runs_dup_output n fuel o h (P : ptr → heap → Prop) :
  sound_at [] n h → valid h (Some o) → has_slot h o 0 → fuel_covers fuel (S n) →
  (∀ h', sound_at [] (S n) h' → grows h h' → P (Some n) h') →
  runs (dup_output fuel (Some o)) h P.
Proof.
  intros Hst Ho Hso Hc HP. unfold dup_output. pose proof (extends_refl h) as He.
  assert (Hlt : (o < n)%nat).
  { destruct Hst as [_ <-]. destruct Ho as (? & ? & [= <-] & ?).
    by eapply lookup_lt_Some. }
  apply runs_bind. eapply runs_query_valid; [done|]. intros g0 Hg0.
  apply runs_bind. apply runs_new.
  assert (Hst1 : sound_at [] (S n) (h ++ [Gate_new ("D_" +:+ getName g0)])).
  { destruct Hst as [Hs Hl]. split; [by apply app_sound|].
    rewrite length_snoc. by rewrite Hl. }
  assert (Hn : valid (h ++ [Gate_new ("D_" +:+ getName g0)]) (Some n)).
  { apply valid_lt. exists n. split; [done|]. destruct Hst1 as [_ ->]. lia. }
  pose proof (app_extends h ("D_" +:+ getName g0)) as He1.
  replace (length h) with n by (by destruct Hst).
  carry He1. revert Hst1 Hn He1 Ho Hso He. generalize (h ++ [Gate_new ("D_" +:+ getName g0)]).
  clear Hg0. intros h1 Hst1 Hn He1 Ho Hso He.
  apply runs_bind. eapply runs_query_valid; [done|]. intros ? _.
  apply runs_bind. eapply runs_call_at; [done..| |].
  { intros g' Hg'. apply upd_same; [apply Hst1|done..]. }
  intros ? h2 _ _ Hst2 He2. carry He2.
  apply runs_bind. eapply runs_query_valid; [done|]. intros ? _.
  apply runs_bind. eapply runs_call_at; [done..| |].
  { intros g' Hg'. apply upd_same; [apply Hst2|done..]. }
  intros ? h3 _ _ Hst3 He3. carry He3.
  eapply (runs_link [] (S n) o n); [done|done|done|lia|].
  intros h4 Hst4 He4 Hco Hcn. carry He4.
  apply runs_bind. eapply runs_driver; [done..|]. intros d Hd.
  pose proof Hd as Hd'. apply driver_ok_nil in Hd' as (? & [= <-] & Hcd).
  apply runs_bind. eapply runs_complement; [done..|]. intros c Hcc.
  apply runs_bind. eapply runs_newInput; [done|done|by apply complemented_driver_ok|done|].
  intros h5 Hst5 He5 Hsn. carry He5.
  apply runs_bind. eapply runs_driver; [done..|]. intros d5 Hd5.
  pose proof Hd5 as Hd'. apply driver_ok_nil in Hd' as (? & [= <-] & Hcd5).
  apply runs_bind. eapply runs_complement; [done..|]. intros c5 Hcc5.
  apply runs_bind. eapply runs_call_at; [done|by apply complemented_valid| |].
  { intros g' Hg'. by apply upd_newFollow; [apply Hst5|..]. }
  intros ? h6 _ _ Hst6 He6. carry He6.
  apply runs_bind. eapply runs_query_valid; [done|]. intros g6 _.
  apply runs_bind.
  destruct (isInputInverting 0 g6).
  - eapply runs_swap_output_rails; [done..|].
    intros h7 Hst7 He7. carry He7. apply runs_ret. by apply HP.
  - apply runs_ret. apply runs_ret. by apply HP.
Qed.

(** *** The conversion returns *)

Lemma runs_map_M {A B} (J : nat → heap → Prop) (f : A → M B) (l : list A) h :
  (∀ i x h, l !! i = Some x → J i h → runs (f x) h (λ _ h', J (S i) h')) →
  J 0%nat h → runs (map_M f l) h (λ _ h', J (length l) h').
Proof.
  revert J h. induction l as [|x l IH]; intros J h Hf HJ; simpl.
  - by apply runs_ret.
  - apply runs_bind. eapply runs_weaken; [apply (Hf 0%nat x h); done|].
    intros y h1 HJ1. apply runs_bind.
    eapply runs_weaken; [apply (IH (λ i, J (S i)))|].
    + intros i x' h2 Hx'. by apply (Hf (S i)).
    + done.
    + intros ys h2 HJ2. by apply runs_ret.
Qed.

Lemma sound_nil L h :
  sound L h → (∀ p, p ∈ L → ∃ a, p = Some a ∧ complemented h a) → sound [] h.
Proof.
  intros Hs HL a g Hg. destruct (Hs a g Hg) as (Hi & Hf & Hc).
  split; [|done]. eapply Forall_impl; [exact Hi|].
  intros p (d & -> & Hd & [Hin|Hh]); exists d; (split; [done|split; [done|right]]).
  - by destruct (HL _ Hin) as (? & [= <-] & ?).
  - done.
Qed.

Lemma fuel_covers_mono fuel n m : (n ≤ m)%nat → fuel_covers fuel m → fuel_covers fuel n.
Proof. unfold fuel_covers. nia. Qed.

Lemma fresh_from_valid n k h p :
  p ∈ fresh_from n k → (n + k ≤ length h)%nat → valid h p.
Proof.
  intros Hp Hl. apply list_elem_of_lookup in Hp as (i & Hp).
  apply fresh_from_lookup in Hp as (-> & Hi).
  apply valid_lt. exists (n + i)%nat. split; [done|lia].
Qed.

(** On a circuit, with fuel that covers the store the conversion ends with,
    [convDualRail] returns. *)
Lemma convDualRail_returns fuel net h :
  circuit h net →
  fuel_covers fuel (length h + length (Net.gates net) + length (Net.inputs net)
            + length (Net.outputs net)) →
  ∃ net' h', convDualRail fuel net h = Some (net', h').
Proof.
  intros ((_ & Hv) & Hs & Hso) Hc.
  assert (Hv' : Forall (valid h)
                  (Net.gates net ++ Net.inputs net ++ Net.outputs net)).
  { eapply Forall_impl; [exact Hv|]. intros p Hp. by apply valid_lt. }
  clear Hv. rename Hv' into Hv.
  apply Forall_app in Hv as (Hv_g & Hv). apply Forall_app in Hv as (Hv_i & Hv_o).
  rewrite Forall_forall in Hv_g, Hv_i, Hv_o, Hso.
  set (L := Net.gates net ++ Net.inputs net) in *.
  set (N := length h) in *.
  set (ng := length (Net.gates net)) in *.
  set (ni := length (Net.inputs net)) in *.
  set (no := length (Net.outputs net)) in *.
  enough (runs (convDualRail fuel net) h (λ _ _, True)) as (net' & h' & E & _)
    by eauto.
  unfold convDualRail.
  apply runs_bind. eapply runs_weaken.
  { eapply runs_and_inv.
    - apply (runs_map_M (λ i h1, sound_at L (N + i) h1 ∧ grows h h1 ∧
               ∀ i' x, (i' < i)%nat → Net.gates net !! i' = Some (Some x) →
                       complemented h1 x)).
      + intros i p h1 Hp (Hst1 & He1 & Hdone).
        assert (Hvp : valid h p) by (eapply Hv_g, list_elem_of_lookup_2, Hp).
        destruct Hvp as (a & ga & -> & Hga).
        assert (Hva : valid h (Some a)) by (by eexists _, _).
        assert (i < ng)%nat by (by eapply lookup_lt_Some).
        carry He1.
        eapply runs_dup_gate; [done|done|eapply fuel_covers_mono; [|exact Hc]; lia|].
        intros h2 Hst2 He2 Hca _.
        split; [by rewrite Nat.add_succ_r|]. split; [by eapply grows_trans|].
        intros i' x Hi' Hx. destruct (decide (i' = i)) as [->|Hne].
        * rewrite Hp in Hx. by injection Hx as <-.
        * apply He2. eapply Hdone; [|exact Hx]. lia.
      + split; [split; [exact Hs|unfold N; lia]|].
        split; [apply grows_refl|]. intros; lia.
    - intros news h1 E. eapply map_M_fresh; [|exact E].
      intros x h0 p h0' Ex. by apply dup_gate_fresh in Ex. }
  intros newGates h1 ((Hst1 & He1 & Hg1) & (Hl1 & ->)). fold N ng in Hl1.
  cbn [Net.inputs Net.set_gates].
  apply runs_bind. eapply runs_weaken.
  { eapply runs_and_inv.
    - apply (runs_map_M (λ i h2, sound_at L (N + ng + i) h2 ∧ grows h1 h2 ∧
               ∀ i' x, (i' < i)%nat → Net.inputs net !! i' = Some (Some x) →
                       complemented h2 x)).
      + intros i p h2 Hp (Hst2 & He2 & Hdone).
        assert (Hin : p ∈ Net.inputs net) by (eapply list_elem_of_lookup_2, Hp).
        assert (Hvp : valid h p) by (by apply Hv_i).
        destruct Hvp as (a & ga & -> & Hga).
        assert (Hda : driver_ok L h (Some a)).
        { exists a. split; [done|]. split; [by eapply lookup_lt_Some|].
          left. apply elem_of_app. by right. }
        assert (i < ni)%nat by (by eapply lookup_lt_Some).
        carry He1. carry He2.
        eapply runs_dup_input; [done|done|eapply fuel_covers_mono; [|exact Hc]; lia|].
        intros h3 Hst3 He3 Hca _.
        split; [by rewrite Nat.add_succ_r|]. split; [by eapply grows_trans|].
        intros i' x Hi' Hx. destruct (decide (i' = i)) as [->|Hne].
        * rewrite Hp in Hx. by injection Hx as <-.
        * apply He3. eapply Hdone; [|exact Hx]. lia.
      + split; [split; [apply Hst1|rewrite Nat.add_0_r; apply Hst1]|].
        split; [apply grows_refl|]. intros; lia.
    - intros news h2 E. eapply map_M_fresh; [|exact E].
      intros x h0 p h0' Ex. by apply dup_input_fresh in Ex. }
  intros newInputs h2 ((Hst2 & He2 & Hi2) & (Hl2 & ->)). fold ni in Hl2.
  cbn [Net.outputs Net.set_inputs Net.gates].
  assert (Hst2' : sound_at [] (N + ng + ni) h2).
  { split; [|apply Hst2]. eapply sound_nil; [apply Hst2|].
    intros p Hp. apply elem_of_app in Hp as [Hp|Hp].
    - assert (Hvp : valid h p) by (by apply Hv_g).
      destruct Hvp as (a & ga & -> & Hga). exists a. split; [done|].
      apply list_elem_of_lookup in Hp as (i & Hp).
      apply He2. eapply Hg1; [|exact Hp]. by eapply lookup_lt_Some.
    - assert (Hvp : valid h p) by (by apply Hv_i).
      destruct Hvp as (a & ga & -> & Hga). exists a. split; [done|].
      apply list_elem_of_lookup in Hp as (i & Hp).
      eapply Hi2; [|exact Hp]. by eapply lookup_lt_Some. }
  assert (He02 : grows h h2) by (by eapply grows_trans).
  apply runs_bind. eapply runs_weaken.
  { eapply runs_and_inv.
    - apply (runs_map_M (λ i h3, sound_at [] (N + ng + ni + i) h3 ∧ grows h2 h3)).
      + intros i p h3 Hp (Hst3 & He3).
        assert (Hin : p ∈ Net.outputs net) by (eapply list_elem_of_lookup_2, Hp).
        assert (Hvp : valid h p) by (by apply Hv_o).
        destruct (Hso p Hin) as (a & -> & Hslot).
        assert (i < no)%nat by (by eapply lookup_lt_Some).
        carry He02. carry He3.
        eapply runs_dup_output; [done|done|done|eapply fuel_covers_mono; [|exact Hc]; lia|].
        intros h4 Hst4 He4.
        split; [by rewrite Nat.add_succ_r|]. by eapply grows_trans.
      + split; [by rewrite Nat.add_0_r|apply grows_refl].
    - intros news h3 E. eapply map_M_fresh; [|exact E].
      intros x h0 p h0' Ex. by apply dup_output_fresh in Ex. }
  intros newOutputs h3 ((Hst3 & He3) & (Hl3 & ->)). fold no in Hl3.
  cbn [Net.outputs Net.set_outputs Net.gates].
  assert (He03 : grows h h3) by (by eapply grows_trans).
  assert (Hlen3 : length h3 = (N + ng + ni + no)%nat) by apply Hst3.
  set (Nf := (N + ng + ni + no)%nat) in *.
  assert (Hvg : ∀ p, p ∈ Net.gates net ++ fresh_from (length h) (length (Net.gates net)) →
                     valid h3 p).
  { intros p Hp. apply elem_of_app in Hp as [Hp|Hp].
    - eapply grows_valid; [exact He03|]. by apply Hv_g.
    - eapply fresh_from_valid; [exact Hp|]. fold N ng. lia. }
  assert (Hvo : ∀ p, p ∈ Net.outputs net ++ fresh_from (length h2) (length (Net.outputs net)) →
                     valid h3 p).
  { intros p Hp. apply elem_of_app in Hp as [Hp|Hp].
    - eapply grows_valid; [exact He03|]. by apply Hv_o.
    - eapply fresh_from_valid; [exact Hp|]. fold no. lia. }
  apply runs_bind.
  eapply (runs_for_each (λ h4, sound_at [] Nf h4 ∧ grows h3 h4)).
  { intros j p h4 Hp (Hst4 & He4).
    destruct (Hvg p Hp) as (a & ga & -> & Hga).
    assert (Hva : valid h3 (Some a)) by (by eexists _, _). carry He4.
    eapply runs_move_inverter; [done..|].
    intros h5 Hst5 He5. split; [done|].
    eapply grows_trans; [exact He4|]. by apply extends_grows. }
  { split; [done|apply grows_refl]. }
  intros h4 (Hst4 & He4).
  apply runs_bind.
  eapply (runs_for_each (λ h5, sound_at [] Nf h5 ∧ grows h3 h5)).
  { intros j p h5 Hp (Hst5 & He5).
    destruct (Hvg p Hp) as (a & ga & -> & Hga).
    assert (Hva : valid h3 (Some a)) by (by eexists _, _). carry He5.
    eapply runs_change_inputs; [done|done|eapply fuel_covers_mono; [|exact Hc]; lia|].
    intros h6 Hst6 He6. split; [done|].
    eapply grows_trans; [exact He5|]. by apply extends_grows. }
  { done. }
  intros h5 (Hst5 & He5).
  apply runs_bind.
  eapply (runs_for_each (λ h6, sound_at [] Nf h6 ∧ grows h3 h6)).
  { intros j p h6 Hp (Hst6 & He6).
    destruct (Hvo p Hp) as (a & ga & -> & Hga).
    assert (Hva : valid h3 (Some a)) by (by eexists _, _). carry He6.
    eapply runs_change_inputs; [done|done|eapply fuel_covers_mono; [|exact Hc]; lia|].
    intros h7 Hst7 He7. split; [done|].
    eapply grows_trans; [exact He6|]. by apply extends_grows. }
  { done. }
  intros h6 _. by apply runs_ret.
Qed.

Lemma fuel_covers_enough n : ∃ fuel0, ∀ fuel, (fuel0 ≤ fuel)%nat → fuel_covers fuel n.
Proof.
  exists (Z.to_nat (Z.of_nat n * 4294967296)). intros fuel Hf. unfold fuel_covers. lia.
Qed.

Lemma convDualRail_terminates net h :
  circuit h net →
  ∃ fuel0, ∀ fuel, (fuel0 ≤ fuel)%nat →
    ∃ net' h', convDualRail fuel net h = Some (net', h').
Proof.
  intros Hc.
  destruct (fuel_covers_enough (length h + length (Net.gates net)
                        + length (Net.inputs net) + length (Net.outputs net)))
    as (fuel0 & H0).
  exists fuel0. intros fuel Hf. apply convDualRail_returns; auto.
Qed.

(** ** The three properties of the conversion *)


(** C8.  On a circuit [convDualRail] returns, and it has given every primary
    input [I] a complementary gate [D_I], found at the matching place of the
    second half of [inputs]: a BUFFER whose input list is exactly [I].  The
    edge from [I] is not inverting; the inversion is on the output of [D_I],
    whose [outputInverter] is set.  [I] and [D_I] are each other's
    complement. *)
Theorem convDualRail_input_twins (net : Net.BooleanNet) (h : heap) :
  circuit h net →
  ∃ fuel0, ∀ fuel, (fuel0 ≤ fuel)%nat →
    ∃ net' h', convDualRail fuel net h = Some (net', h') ∧
      ∀ i a, Net.inputs net !! i = Some (Some a) →
        ∃ D, Net.inputs net' !! (length (Net.inputs net) + i)%nat = Some (Some D) ∧
             input_twin h' a D.
Proof.
  intros Hc. destruct (convDualRail_terminates net h Hc) as (fuel0 & H0).
  exists fuel0. intros fuel Hf. destruct (H0 fuel Hf) as (net' & h' & E).
  exists net', h'. split; [done|].
  apply (convDualRail_input_twins_run fuel net h net' h'); [apply Hc|done].
Qed.


(** *** The sample circuits *)

Lemma loaded_or2_wf net h :
  loaded 4 or2_aag = Some (net, h) → wf_net h net ∧ no_XOR h (Net.gates net).
Proof.
  intros E. vm_compute in E. injection E as <- <-. split; [split|].
  - simpl. apply NoDup_ListNoDup. repeat constructor; simpl; intuition congruence.
  - simpl. repeat constructor; eexists; (split; [reflexivity|simpl; lia]).
  - intros a g Ha Hg. simpl in Ha. apply list_elem_of_singleton in Ha as [= ->].
    injection Hg as <-. done.
Qed.

Lemma loaded_and2_wf net h :
  loaded 4 and2_aag = Some (net, h) → wf_net h net ∧ no_XOR h (Net.gates net).
Proof.
  intros E. vm_compute in E. injection E as <- <-. split; [split|].
  - simpl. apply NoDup_ListNoDup. repeat constructor; simpl; intuition congruence.
  - simpl. repeat constructor; eexists; (split; [reflexivity|simpl; lia]).
  - intros a g Ha Hg. simpl in Ha. apply list_elem_of_singleton in Ha as [= ->].
    injection Hg as <-. done.
Qed.

Lemma loaded_or2_circuit net h :
  loaded 4 or2_aag = Some (net, h) → circuit h net.
Proof.
  intros E. split; [by apply loaded_or2_wf|].
  vm_compute in E. injection E as <- <-. split.
  - intros a g Hg.
    destruct a as [|[|[|[|a]]]]; simpl in Hg; [injection Hg as <-..|done];
      (split; [|split; [|done]]); simpl;
      repeat constructor;
      try (eexists; split; [reflexivity|]; split; [simpl; lia|left; set_solver]);
      try (eexists _, _; split; reflexivity).
  - repeat constructor. eexists. split; [reflexivity|].
    eexists. split; [reflexivity|]. simpl. lia.
Qed.


(** C8 on the OR sample. *)
Lemma convDualRail_input_twins_witness :
  ∃ net h,
    loaded 4 or2_aag = Some (net, h) ∧ circuit h net ∧
    ∃ fuel0, ∀ fuel, (fuel0 ≤ fuel)%nat →
      ∃ net' h', convDualRail fuel net h = Some (net', h') ∧
        ∀ i a, Net.inputs net !! i = Some (Some a) →
          ∃ D, Net.inputs net' !! (length (Net.inputs net) + i)%nat
               = Some (Some D) ∧
               input_twin h' a D.
Proof.
  destruct (loaded 4 or2_aag) as [[net h]|] eqn:E; [|by vm_compute in E].
  exists net, h. split; [done|].
  pose proof (loaded_or2_circuit net h E) as Hc. split; [exact Hc|].
  exact (convDualRail_input_twins net h Hc).
Defined.



(** C8 with an inverting edge does not hold: in the converted AND sample the
    slot of D_INPUT_0 is non-inverting. *)
Lemma convDualRail_input_twin_edge_not_inverting :
  ¬ complementary_input_edge_inverts.
Proof.
  intros H.
  destruct (loaded 4 and2_aag) as [[net h]|] eqn:E; [|by vm_compute in E].
  destruct (loaded_and2_wf net h E) as [Hwf _].
  destruct (convDualRail 4 net h) as [[net' h']|] eqn:E'.
  - specialize (H 4%nat net h net' h' Hwf E' 0%nat 0%nat).
    vm_compute in E. injection E as <- <-.
    vm_compute in E'. injection E' as <- <-.
    destruct H as (D & gI & gD & HgI & Hc & HgD & _ & _ & Hinv); [done|].
    injection HgI as <-. injection Hc as <-. injection HgD as <-.
    done.
  - vm_compute in E. injection E as <- <-. by vm_compute in E'.
Qed.

(** * Further properties *)
Lemma land_lor_same x c : Z.land (Z.lor x c) c = c.
Proof.
  apply Z.bits_inj'. intros n Hn.
  rewrite Z.land_spec, Z.lor_spec. destruct (Z.testbit x n), (Z.testbit c n); done.
Qed.

Lemma land_lor_nonzero x c c' : Z.land x c' ≠ 0 → Z.land (Z.lor x c) c' ≠ 0.
Proof.
  intros Hx H0. apply Hx. apply Z.bits_inj'. intros n Hn.
  rewrite Z.bits_0. apply (f_equal (λ z, Z.testbit z n)) in H0.
  rewrite Z.bits_0, Z.land_spec, Z.lor_spec in H0. rewrite Z.land_spec.
  destruct (Z.testbit x n), (Z.testbit c' n); try done.
Qed.

Lemma hasColor_addColor_keeps c c' g :
  hasColor c' g = true → hasColor c' (addColor c g) = true.
Proof.
  unfold hasColor, addColor. simpl.
  destruct (Z.eqb_spec c' 0); [done|].
  destruct (Z.eqb_spec (Z.land (color g) c') 0) as [|Hx]; [done|]. intros _.
  destruct (Z.eqb_spec (Z.land (Z.lor (color g) c) c') 0) as [H0|]; [|done].
  by apply land_lor_nonzero in H0.
Qed.

Lemma hasColor_addColor c g : hasColor c (addColor c g) = true.
Proof.
  unfold hasColor, addColor. simpl.
  destruct (Z.eqb_spec c 0); [done|]. rewrite land_lor_same.
  by destruct (Z.eqb_spec c 0).
Qed.

(** X1.  [addColor] and [hasColor]: a colour that was added is found, colours
    already present stay, adding twice is adding once, and a query for
    several colour bits succeeds as soon as one of them is present. *)
Theorem addColor_hasColor (c c1 c2 : Z) (g : Gate) :
  hasColor c (addColor c g) = true ∧
  hasColor 0 g = true ∧
  (hasColor c1 g = true → hasColor c1 (addColor c g) = true) ∧
  addColor c (addColor c g) = addColor c g ∧
  (c1 ≠ 0 → c2 ≠ 0 →
   hasColor (Z.lor c1 c2) g = hasColor c1 g || hasColor c2 g).
Proof.
  split; [apply hasColor_addColor|]. split; [done|].
  split; [apply hasColor_addColor_keeps|]. split.
  - unfold addColor, set_color. simpl. f_equal. by rewrite <- Z.lor_assoc, Z.lor_diag.
  - intros H1 H2. unfold hasColor.
    assert (Z.lor c1 c2 ≠ 0).
    { intros H0. apply Z.lor_eq_0_iff in H0. tauto. }
    destruct (Z.eqb_spec (Z.lor c1 c2) 0); [done|].
    destruct (Z.eqb_spec c1 0); [done|]. destruct (Z.eqb_spec c2 0); [done|].
    rewrite Z.land_lor_distr_r.
    destruct (Z.eqb_spec (Z.land (color g) c1) 0) as [E1|E1],
             (Z.eqb_spec (Z.land (color g) c2) 0) as [E2|E2]; simpl;
      destruct (Z.eqb_spec (Z.lor (Z.land (color g) c1) (Z.land (color g) c2)) 0)
        as [E|E]; try done.
    + exfalso. apply E. rewrite E1, E2. done.
    + apply Z.lor_eq_0_iff in E. tauto.
    + apply Z.lor_eq_0_iff in E. tauto.
    + apply Z.lor_eq_0_iff in E. tauto.
Qed.

Lemma set_inputInverters_id g : set_inputInverters (inputInverters g) g = g.
Proof. by destruct g. Qed.

Lemma flip_range_length i n l : length (flip_range i n l) = length l.
Proof. unfold flip_range. by rewrite length_imap. Qed.

Lemma flip_range_lookup i n l j :
  flip_range i n l !! j =
  (λ b, if (i <=? j)%nat && (j <? n)%nat then negb b else b) <$> l !! j.
Proof. unfold flip_range. by rewrite list_lookup_imap. Qed.

Lemma flip_range_done i n l : (n ≤ i)%nat → flip_range i n l = l.
Proof.
  intros H. apply list_eq. intros j. rewrite flip_range_lookup.
  destruct (l !! j) as [b|]; simpl; [|done].
  destruct (Nat.leb_spec i j), (Nat.ltb_spec j n); simpl; try done. lia.
Qed.

Lemma flip_range_step i n l :
  (i < n)%nat →
  flip_range (S i) n (<[i := negb (default false (l !! i))]> l) = flip_range i n l.
Proof.
  intros H. apply list_eq. intros j. rewrite !flip_range_lookup.
  destruct (decide (j = i)) as [->|Hne].
  - destruct (l !! i) as [b|] eqn:E.
    + rewrite list_lookup_insert_eq by (by eapply lookup_lt_Some).
      cbn -[Nat.leb Nat.ltb].
      destruct (Nat.leb_spec (S i) i); [lia|].
      destruct (Nat.leb_spec i i); [|lia].
      destruct (Nat.ltb_spec i n); [|lia]. done.
    + rewrite list_insert_ge by (by apply lookup_ge_None). by rewrite E.
  - rewrite list_lookup_insert_ne by done.
    destruct (l !! j) as [b|]; cbn -[Nat.leb Nat.ltb]; [|done].
    destruct (Nat.leb_spec (S i) j), (Nat.leb_spec i j), (Nat.ltb_spec j n);
      simpl; try done; lia.
Qed.

Lemma flip_range_involutive n l : flip_range 0 n (flip_range 0 n l) = l.
Proof.
  apply list_eq. intros j. rewrite !flip_range_lookup.
  destruct (l !! j) as [b|]; simpl; [|done].
  destruct (Nat.ltb_spec j n); simpl; [|done]. by rewrite negb_involutive.
Qed.

Lemma toggle_go_run a k : ∀ i g h,
  h !! a = Some g → (getFanIn g ≤ k + i)%nat →
  for_go (query (Some a) getFanIn)
    (λ j, inv <- query (Some a) (isInputInverting j) ;;
          if inv then call (Some a) (setInputNonInverting j)
          else call (Some a) (setInputInverting j)) k i h
  = Some (tt, <[a := set_inputInverters
                       (flip_range i (getFanIn g) (inputInverters g)) g]> h).
Proof.
  induction k as [|k IH]; intros i g h Hg Hk.
  - simpl. unfold bind, query. rewrite Hg.
    destruct (Nat.ltb_spec i (getFanIn g)); [lia|].
    unfold ret. rewrite flip_range_done by lia.
    rewrite set_inputInverters_id. by rewrite list_insert_id.
  - simpl. unfold bind at 1. unfold query at 1. rewrite Hg.
    destruct (Nat.ltb_spec i (getFanIn g)) as [Hlt|Hge].
    + unfold bind at 1. unfold bind at 1. unfold query at 1. rewrite Hg.
      set (b := isInputInverting i g).
      assert (Hstep : (if b then call (Some a) (setInputNonInverting i)
                       else call (Some a) (setInputInverting i)) h
              = Some (tt, <[a := set_inputInverters
                                   (<[i := negb b]> (inputInverters g)) g]> h)).
      { destruct b; unfold call; rewrite Hg; done. }
      rewrite Hstep.
      assert (Ha : (a < length h)%nat) by (by eapply lookup_lt_Some).
      erewrite IH; [| by apply list_lookup_insert_eq | simpl; unfold getFanIn in *; simpl; lia].
      rewrite list_insert_insert_eq. do 3 f_equal.
      unfold getFanIn. simpl.
      unfold b, isInputInverting. rewrite flip_range_step by done.
      by destruct g.
    + unfold ret. rewrite flip_range_done by lia.
      rewrite set_inputInverters_id. by rewrite list_insert_id.
Qed.

Lemma toggle_inputs_run a g h :
  h !! a = Some g →
  toggle_inputs (Some a) h
  = Some (tt, <[a := set_inputInverters
                       (flip_range 0 (getFanIn g) (inputInverters g)) g]> h).
Proof.
  intros Hg. unfold toggle_inputs, for_loop. unfold bind at 1.
  unfold query at 1. rewrite Hg. apply toggle_go_run; [done|lia].
Qed.

Lemma swap_and_or_run a g h :
  h !! a = Some g →
  swap_and_or (Some a) h = Some (tt, <[a := setFunction (deMorgan (gateFunction g)) g]> h).
Proof.
  intros Hg. unfold swap_and_or, bind, query. rewrite Hg.
  unfold getFunction, call.
  destruct (gateFunction g) eqn:E; simpl; rewrite ?Hg; try done;
    unfold ret; rewrite list_insert_id; try done;
    rewrite Hg; f_equal; destruct g; simpl in *; by subst.
Qed.

Lemma changeToEqGate_run a g h :
  h !! a = Some g →
  changeToEqGate (Some a) h = Some (tt, <[a := eqGate g]> h).
Proof.
  intros Hg. unfold changeToEqGate.
  assert (Ha : (a < length h)%nat) by (by eapply lookup_lt_Some).
  rewrite (bind_run _ _ _ _ _ (swap_and_or_run a g h Hg)).
  set (g1 := setFunction (deMorgan (gateFunction g)) g).
  set (h1 := <[a := g1]> h).
  assert (H1 : h1 !! a = Some g1) by (by apply list_lookup_insert_eq).
  unfold bind at 1. unfold query at 1. rewrite H1.
  set (g2 := set_outputInverter (negb (outputInverter g)) g1).
  assert (E : (if isOutputInverting g1 then call (Some a) setOutputNonInverting
               else call (Some a) setOutputInverting) h1
              = Some (tt, <[a := g2]> h1)).
  { unfold isOutputInverting, g2, g1. simpl.
    destruct (outputInverter g); unfold call; rewrite H1; done. }
  rewrite (bind_run _ _ _ _ _ E).
  erewrite toggle_inputs_run
    by (apply list_lookup_insert_eq; unfold h1; by rewrite length_insert).
  unfold h1. rewrite !list_insert_insert_eq. done.
Qed.

Lemma eqGate_involutive g : eqGate (eqGate g) = g.
Proof.
  unfold eqGate, getFanIn, setFunction. destruct g as [? ? ? ? ? ? ? ? ? fn ? ? ? ? ?].
  simpl. rewrite flip_range_involutive, negb_involutive.
  by destruct fn.
Qed.

(** *** Loops that update each listed gate on its own *)

Lemma pointwise_lookup l upd h a :
  pointwise l upd h !! a
  = (λ g, if bool_decide (Some a ∈ l) then upd g else g) <$> h !! a.
Proof. unfold pointwise. by rewrite list_lookup_imap. Qed.

Lemma pointwise_length l upd h : length (pointwise l upd h) = length h.
Proof. unfold pointwise. by rewrite length_imap. Qed.

Lemma pointwise_nil upd h : pointwise [] upd h = h.
Proof.
  apply list_eq. intros a. rewrite pointwise_lookup.
  destruct (h !! a); simpl; [|done]; f_equal;
  try case_bool_decide; done.
Qed.

Lemma pointwise_cons a l upd g h :
  h !! a = Some g → (∀ g, upd (upd g) = upd g) →
  pointwise l upd (<[a := upd g]> h) = pointwise (Some a :: l) upd h.
Proof.
  intros Hg Hidem. apply list_eq. intros b. rewrite !pointwise_lookup.
  assert (Ha : (a < length h)%nat) by (by eapply lookup_lt_Some).
  destruct (decide (b = a)) as [->|Hne].
  - rewrite list_lookup_insert_eq by done. rewrite Hg. simpl.
    rewrite (bool_decide_eq_true_2 (Some a ∈ Some a :: l)) by apply list_elem_of_here.
    f_equal. case_bool_decide; [apply Hidem|done].
  - rewrite list_lookup_insert_ne by done.
    destruct (h !! b); simpl; [|done]. f_equal.
    apply (f_equal (λ c : bool, if c then upd g0 else g0)).
    apply bool_decide_ext. rewrite elem_of_cons.
    split; [by right|]. by intros [[= ?]|?].
Qed.

Lemma valid_insert h p a g : valid h p → valid (<[a := g]> h) p.
Proof.
  intros (b & gb & -> & Hb).
  assert (Hlt : (b < length h)%nat) by (by eapply lookup_lt_Some).
  destruct (decide (b = a)) as [->|Hne].
  - exists a, g. split; [done|]. by apply list_lookup_insert_eq.
  - exists b, gb. split; [done|]. by rewrite list_lookup_insert_ne.
Qed.

Lemma for_each_pointwise (body : nat → ptr → M unit) upd l :
  (∀ g, upd (upd g) = upd g) →
  (∀ i a g h, h !! a = Some g → body i (Some a) h = Some (tt, <[a := upd g]> h)) →
  ∀ i h, Forall (valid h) l → for_each body i l h = Some (tt, pointwise l upd h).
Proof.
  intros Hidem Hbody. induction l as [|p l IH]; intros i h Hv.
  - simpl. unfold ret. by rewrite pointwise_nil.
  - apply Forall_cons in Hv as [(a & g & -> & Hg) Hv]. simpl.
    rewrite (bind_run _ _ _ _ _ (Hbody i a g h Hg)).
    rewrite IH.
    + by rewrite (pointwise_cons a l upd g h).
    + eapply Forall_impl; [exact Hv|]. intros; by apply valid_insert.
Qed.

Lemma for_each_flag_pointwise (body : ptr → M bool) upd (flag : Gate → bool) l :
  (∀ g, upd (upd g) = upd g) →
  (∀ g, flag (upd g) = true → flag g = true) →
  (∀ a g h, h !! a = Some g → body (Some a) h = Some (flag g, <[a := upd g]> h)) →
  ∀ r h, Forall (valid h) l →
    ∃ b, for_each_flag body l r h = Some (b, pointwise l upd h) ∧
         (b = true ↔ r = true ∨
                     ∃ a g, Some a ∈ l ∧ h !! a = Some g ∧ flag g = true).
Proof.
  intros Hidem Hflag Hbody. induction l as [|p l IH]; intros r h Hv.
  - exists r. simpl. unfold ret. rewrite pointwise_nil. split; [done|].
    split; [by left|]. intros [?|(a & g & Hin & _)]; [done|].
    by apply not_elem_of_nil in Hin.
  - apply Forall_cons in Hv as [(a & g & -> & Hg) Hv]. simpl.
    rewrite (bind_run _ _ _ _ _ (Hbody a g h Hg)).
    assert (Ha : (a < length h)%nat) by (by eapply lookup_lt_Some).
    destruct (IH (if flag g then true else r) (<[a := upd g]> h))
      as (b & Hrun & Hb).
    { eapply Forall_impl; [exact Hv|]. intros; by apply valid_insert. }
    exists b. rewrite Hrun. rewrite (pointwise_cons a l upd g h) by done.
    split; [done|]. rewrite Hb. split.
    + intros [Hr|(a' & g' & Hin & Hg' & Hf)].
      * destruct (flag g) eqn:Ef; [|by left].
        right. exists a, g. split; [apply list_elem_of_here|done].
      * right. destruct (decide (a' = a)) as [->|Hne].
        -- rewrite list_lookup_insert_eq in Hg' by done. injection Hg' as <-.
           exists a, g. split; [apply list_elem_of_here|]. split; [done|].
           by apply Hflag.
        -- rewrite list_lookup_insert_ne in Hg' by done.
           exists a', g'. split; [by apply list_elem_of_further|done].
    + intros [Hr|(a' & g' & Hin & Hg' & Hf)].
      * left. rewrite Hr. by destruct (flag g).
      * destruct (decide (a' = a)) as [->|Hne].
        -- left. rewrite Hg in Hg'. injection Hg' as <-. by rewrite Hf.
        -- right. exists a', g'. split.
           ++ apply elem_of_cons in Hin as [[=]|]; done.
           ++ by rewrite list_lookup_insert_ne.
Qed.

(** *** The bodies of the three passes *)

Lemma eqGate_output g : isOutputInverting (eqGate g) = negb (isOutputInverting g).
Proof. done. Qed.

Lemma move_body_run a g h :
  h !! a = Some g →
  (oi <- query (Some a) isOutputInverting ;;
   if oi then
     swap_and_or (Some a) ;;;
     call (Some a) setOutputNonInverting ;;;
     toggle_inputs (Some a) ;;;
     ret true
   else ret false) h
  = Some (isOutputInverting g,
          <[a := if isOutputInverting g then eqGate g else g]> h).
Proof.
  intros Hg. assert (Ha : (a < length h)%nat) by (by eapply lookup_lt_Some).
  unfold bind at 1. unfold query at 1. rewrite Hg.
  destruct (isOutputInverting g) eqn:Eo.
  - rewrite (bind_run _ _ _ _ _ (swap_and_or_run a g h Hg)).
    set (g1 := setFunction (deMorgan (gateFunction g)) g).
    assert (E : call (Some a) setOutputNonInverting (<[a := g1]> h)
                = Some (tt, <[a := setOutputNonInverting g1]> h)).
    { unfold call. rewrite list_lookup_insert_eq by done.
      by rewrite list_insert_insert_eq. }
    rewrite (bind_run _ _ _ _ _ E).
    pose proof (toggle_inputs_run a (setOutputNonInverting g1)
                  (<[a := setOutputNonInverting g1]> h)
                  ltac:(by apply list_lookup_insert_eq)) as E2.
    rewrite (bind_run _ _ _ _ _ E2).
    unfold ret. rewrite list_insert_insert_eq. do 3 f_equal.
    unfold eqGate. unfold isOutputInverting in Eo. rewrite Eo. done.
  - unfold ret. by rewrite list_insert_id.
Qed.

Lemma shift_body_run a g h :
  h !! a = Some g →
  (inv <- query (Some a) (isInputInverting 0) ;;
   if inv then
     call (Some a) (setInputNonInverting 0) ;;;
     call (Some a) setOutputInverting
   else ret tt) h
  = Some (tt, <[a := if isInputInverting 0 g
                     then setOutputInverting (setInputNonInverting 0 g)
                     else g]> h).
Proof.
  intros Hg. assert (Ha : (a < length h)%nat) by (by eapply lookup_lt_Some).
  unfold bind at 1. unfold query at 1. rewrite Hg.
  destruct (isInputInverting 0 g).
  - unfold bind, call. rewrite Hg. rewrite list_lookup_insert_eq by done.
    by rewrite list_insert_insert_eq.
  - unfold ret. by rewrite list_insert_id.
Qed.

Lemma count_inverting_run a g h k : ∀ j cnt,
  h !! a = Some g → (getFanIn g ≤ k + j)%nat →
  count_inverting (Some a) k j cnt h
  = Some ((cnt + length (filter (λ i, isInputInverting i g = true)
                           (seq j (getFanIn g - j))))%nat, h).
Proof.
  induction k as [|k IH]; intros j cnt Hg Hk.
  - simpl. unfold bind, query. rewrite Hg.
    destruct (Nat.ltb_spec j (getFanIn g)); [lia|].
    replace (getFanIn g - j)%nat with 0%nat by lia. simpl.
    unfold ret. by rewrite Nat.add_0_r.
  - simpl. unfold bind at 1. unfold query at 1. rewrite Hg.
    destruct (Nat.ltb_spec j (getFanIn g)) as [Hlt|Hge].
    + unfold bind at 1. unfold query at 1. rewrite Hg.
      rewrite IH by (done || lia).
      replace (getFanIn g - j)%nat with (S (getFanIn g - S j)) by lia.
      simpl seq. rewrite filter_cons.
      destruct (isInputInverting j g) eqn:E.
      * rewrite decide_True by done. simpl. do 2 f_equal. lia.
      * rewrite decide_False by done. done.
    + replace (getFanIn g - j)%nat with 0%nat by lia. simpl.
      unfold ret. by rewrite Nat.add_0_r.
Qed.

Lemma filter_length_all {A} (P : A → Prop) `{∀ x, Decision (P x)} (l : list A) :
  length (filter P l) = length l ↔ Forall P l.
Proof.
  induction l as [|x l IH]; [by split|].
  rewrite filter_cons. pose proof (length_filter P l) as Hle.
  destruct (decide (P x)); simpl.
  - rewrite Forall_cons. split.
    + intros [= E]. split; [done|]. by apply IH.
    + intros [_ Hl]. f_equal. by apply IH.
  - split; [lia|]. intros Hc. by apply Forall_cons in Hc as [? _].
Qed.

Lemma all_inverting_spec g :
  all_inverting g = true ↔
  ∀ j, (j < getFanIn g)%nat → isInputInverting j g = true.
Proof.
  unfold all_inverting. rewrite forallb_forall. split.
  - intros H j Hj. apply H. apply in_seq. lia.
  - intros H j Hj. apply H. apply in_seq in Hj. lia.
Qed.

Lemma count_is_fan_in g :
  (length (filter (λ i, isInputInverting i g = true) (seq 0 (getFanIn g)))
   =? getFanIn g)%nat = all_inverting g.
Proof.
  apply eq_true_iff_eq. rewrite Nat.eqb_eq, all_inverting_spec.
  pose proof (filter_length_all (λ i, isInputInverting i g = true)
                (seq 0 (getFanIn g))) as Hf.
  rewrite length_seq in Hf. rewrite Hf, Forall_forall. split.
  - intros Hx j Hj. apply Hx. apply elem_of_seq. lia.
  - intros Hx j Hj. apply Hx. apply elem_of_seq in Hj. lia.
Qed.

Lemma clear_go_run a k : ∀ i g h,
  h !! a = Some g → (getFanIn g ≤ k + i)%nat →
  (∀ j, (i ≤ j < getFanIn g)%nat → isInputInverting j g = true) →
  for_go (query (Some a) getFanIn)
    (λ j, call (Some a) (setInputNonInverting j)) k i h
  = Some (tt, <[a := set_inputInverters
                       (flip_range i (getFanIn g) (inputInverters g)) g]> h).
Proof.
  induction k as [|k IH]; intros i g h Hg Hk Hall.
  - simpl. unfold bind, query. rewrite Hg.
    destruct (Nat.ltb_spec i (getFanIn g)); [lia|].
    unfold ret. rewrite flip_range_done by lia.
    rewrite set_inputInverters_id. by rewrite list_insert_id.
  - simpl. unfold bind at 1. unfold query at 1. rewrite Hg.
    destruct (Nat.ltb_spec i (getFanIn g)) as [Hlt|Hge].
    + unfold bind at 1. unfold call at 1. rewrite Hg.
      assert (Ha : (a < length h)%nat) by (by eapply lookup_lt_Some).
      erewrite IH; [| by apply list_lookup_insert_eq
                    | simpl; unfold getFanIn in *; simpl; lia |].
      * rewrite list_insert_insert_eq. do 3 f_equal.
        unfold getFanIn. simpl.
        pose proof (Hall i ltac:(lia)) as Hi. unfold isInputInverting in Hi.
        rewrite <- (flip_range_step i (length (inputs g))) by done.
        rewrite Hi. simpl. by destruct g.
      * intros j Hj. unfold getFanIn in Hj. simpl in Hj.
        pose proof (Hall j ltac:(unfold getFanIn; lia)) as Hj'.
        unfold isInputInverting in *. simpl.
        rewrite list_lookup_insert_ne by lia. done.
    + unfold ret. rewrite flip_range_done by lia.
      rewrite set_inputInverters_id. by rewrite list_insert_id.
Qed.

Lemma moveout_body_run a g h :
  h !! a = Some g →
  (oi <- query (Some a) isOutputInverting ;;
   if negb oi then
     n <- query (Some a) getFanIn ;;
     cnt <- count_inverting (Some a) n 0 0 ;;
     n' <- query (Some a) getFanIn ;;
     (if (cnt =? n')%nat then
        swap_and_or (Some a) ;;;
        call (Some a) setOutputInverting ;;;
        for_loop (query (Some a) getFanIn)
          (λ j, call (Some a) (setInputNonInverting j))
      else ret tt) ;;;
     ret true
   else ret false) h
  = Some (negb (isOutputInverting g),
          <[a := if negb (isOutputInverting g) && all_inverting g
                 then eqGate g else g]> h).
Proof.
  intros Hg. assert (Ha : (a < length h)%nat) by (by eapply lookup_lt_Some).
  unfold bind at 1. unfold query at 1. rewrite Hg.
  destruct (isOutputInverting g) eqn:Eo; cbn [negb].
  { unfold ret. simpl. by rewrite list_insert_id. }
  unfold bind at 1. unfold query at 1. rewrite Hg.
  rewrite (bind_run _ _ _ _ _ (count_inverting_run a g h (getFanIn g) 0 0 Hg ltac:(lia))).
  unfold bind at 1. unfold query at 1. rewrite Hg.
  rewrite Nat.sub_0_r, Nat.add_0_l, count_is_fan_in.
  destruct (all_inverting g) eqn:Eall; cbn [negb andb].
  - unfold bind at 1.
    rewrite (bind_run _ _ _ _ _ (swap_and_or_run a g h Hg)).
    set (g1 := setFunction (deMorgan (gateFunction g)) g).
    assert (E : call (Some a) setOutputInverting (<[a := g1]> h)
                = Some (tt, <[a := setOutputInverting g1]> h)).
    { unfold call. rewrite list_lookup_insert_eq by done.
      by rewrite list_insert_insert_eq. }
    rewrite (bind_run _ _ _ _ _ E).
    unfold for_loop. unfold bind at 1. unfold query at 1.
    rewrite list_lookup_insert_eq by done.
    rewrite (clear_go_run a _ 0 (setOutputInverting g1)).
    + unfold ret. rewrite list_insert_insert_eq. do 3 f_equal.
      unfold eqGate. unfold isOutputInverting in Eo. rewrite Eo. done.
    + by apply list_lookup_insert_eq.
    + lia.
    + intros j Hj. apply all_inverting_spec with (j := j) in Eall; [done|].
      apply Hj.
  - unfold bind, ret. by rewrite list_insert_id.
Qed.

Lemma pointwise_idem l upd h :
  (∀ g, upd (upd g) = upd g) →
  pointwise l upd (pointwise l upd h) = pointwise l upd h.
Proof.
  intros Hidem. apply list_eq. intros a. rewrite !pointwise_lookup.
  destruct (h !! a); simpl; [|done]. f_equal.
  case_bool_decide; [apply Hidem|done].
Qed.

Lemma valid_pointwise l upd h p : valid h p → valid (pointwise l upd h) p.
Proof.
  intros (a & g & -> & Hg). eexists a, _. split; [done|].
  rewrite pointwise_lookup, Hg. done.
Qed.

Lemma wf_net_valid h net :
  wf_net h net →
  Forall (valid h) (Net.gates net) ∧ Forall (valid h) (Net.inputs net) ∧
  Forall (valid h) (Net.outputs net).
Proof.
  intros [_ Hv].
  assert (Hall : Forall (valid h)
                   (Net.gates net ++ Net.inputs net ++ Net.outputs net)).
  { eapply Forall_impl; [exact Hv|]. intros p (a & -> & Ha).
    destruct (lookup_lt_is_Some_2 h a Ha) as [g Hg]. by exists a, g. }
  apply Forall_app in Hall as [? Hall]. apply Forall_app in Hall as [? ?].
  done.
Qed.

Lemma eqGate_slot j g :
  (j < getFanIn g)%nat → (j < length (inputInverters g))%nat →
  isInputInverting j (eqGate g) = negb (isInputInverting j g).
Proof.
  intros Hj Hl. unfold isInputInverting, eqGate. simpl.
  rewrite flip_range_lookup.
  destruct (lookup_lt_is_Some_2 _ _ Hl) as [b ->]. simpl.
  destruct (Nat.ltb_spec j (getFanIn g)); [done|lia].
Qed.

(** X5.  [changeToEqGate] turns a gate into its De Morgan equivalent, and a
    second application restores the store. *)
Theorem changeToEqGate_twice_restores (a : nat) (g : Gate) (h : heap) :
  h !! a = Some g →
  changeToEqGate (Some a) h = Some (tt, <[a := eqGate g]> h) ∧
  getFunction (eqGate g) = deMorgan (getFunction g) ∧
  isOutputInverting (eqGate g) = negb (isOutputInverting g) ∧
  (∀ j, (j < getFanIn g)%nat → (j < length (inputInverters g))%nat →
        isInputInverting j (eqGate g) = negb (isInputInverting j g)) ∧
  (changeToEqGate (Some a) ;;; changeToEqGate (Some a)) h = Some (tt, h).
Proof.
  intros Hg. assert (Ha : (a < length h)%nat) by (by eapply lookup_lt_Some).
  split; [by apply changeToEqGate_run|]. split; [done|]. split; [done|].
  split; [intros j; apply eqGate_slot|].
  rewrite (bind_run _ _ _ _ _ (changeToEqGate_run a g h Hg)).
  rewrite (changeToEqGate_run a (eqGate g)) by (by apply list_lookup_insert_eq).
  rewrite list_insert_insert_eq, eqGate_involutive. by rewrite list_insert_id.
Qed.

Lemma changeToEqGate_twice_restores_witness :
  ∃ net h a g,
    loaded 4 or2_aag = Some (net, h) ∧ Net.gates net = [Some a] ∧
    h !! a = Some g ∧
    (changeToEqGate (Some a) ;;; changeToEqGate (Some a)) h = Some (tt, h).
Proof.
  destruct (loaded 4 or2_aag) as [[net h]|] eqn:E; [|by vm_compute in E].
  vm_compute in E. injection E as <- <-.
  eexists _, _, 2%nat, _. split; [reflexivity|]. split; [reflexivity|].
  split; [reflexivity|].
  eapply changeToEqGate_twice_restores. reflexivity.
Defined.

Lemma move_changeToEqGates_spec_aux net h :
  Forall (valid h) (Net.gates net) →
  ∃ b, move_changeToEqGates net h
       = Some (b, pointwise (Net.gates net)
                    (λ g, if isOutputInverting g then eqGate g else g) h).
Proof.
  intros Hv. unfold move_changeToEqGates.
  match goal with
  | |- context [for_each_flag ?body _ _] =>
      destruct (for_each_flag_pointwise body
                  (λ g, if isOutputInverting g then eqGate g else g)
                  isOutputInverting (Net.gates net)) with (r := false) (h := h)
        as (b & Hrun & _)
  end; try done.
  - intros g. destruct (isOutputInverting g) eqn:E.
    + by rewrite eqGate_output, E.
    + by rewrite E.
  - intros g. destruct (isOutputInverting g) eqn:E; [done|]. by rewrite E.
  - apply move_body_run.
  - by exists b.
Qed.

(** X6.  [move_changeToEqGates] replaces exactly the listed gates whose output
    inverts by their De Morgan equivalent; it reports whether there was one;
    afterwards no listed gate has an inverting output and a second pass
    reports no change. *)
Theorem move_changeToEqGates_spec (net : Net.BooleanNet) (h : heap) :
  Forall (valid h) (Net.gates net) →
  ∃ b h', move_changeToEqGates net h = Some (b, h') ∧
    (b = true ↔ ∃ a g, Some a ∈ Net.gates net ∧ h !! a = Some g ∧
                       isOutputInverting g = true) ∧
    length h' = length h ∧
    (∀ a g, h !! a = Some g →
       h' !! a = Some (if bool_decide (Some a ∈ Net.gates net)
                          && isOutputInverting g
                       then eqGate g else g)) ∧
    (∀ a g', Some a ∈ Net.gates net → h' !! a = Some g' →
       isOutputInverting g' = false) ∧
    move_changeToEqGates net h' = Some (false, h').
Proof.
  intros Hv. set (upd := λ g, if isOutputInverting g then eqGate g else g).
  assert (Hidem : ∀ g, upd (upd g) = upd g).
  { intros g. unfold upd. destruct (isOutputInverting g) eqn:E.
    - by rewrite eqGate_output, E.
    - by rewrite E. }
  assert (Hflag : ∀ g, isOutputInverting (upd g) = true →
                       isOutputInverting g = true).
  { intros g. unfold upd. destruct (isOutputInverting g) eqn:E; [done|].
    by rewrite E. }
  assert (Hpost : ∀ g, isOutputInverting (upd g) = false).
  { intros g. unfold upd. destruct (isOutputInverting g) eqn:E.
    - by rewrite eqGate_output, E.
    - done. }
  unfold move_changeToEqGates.
  match goal with
  | |- context [for_each_flag ?body _ _] =>
      pose proof (for_each_flag_pointwise body upd isOutputInverting
                    (Net.gates net) Hidem Hflag move_body_run) as Hloop
  end.
  destruct (Hloop false h Hv) as (b & Hrun & Hb).
  exists b, (pointwise (Net.gates net) upd h).
  split; [exact Hrun|]. split.
  { rewrite Hb. split; [by intros [?|?]|by right]. }
  split; [apply pointwise_length|]. split.
  { intros a g Hg. rewrite pointwise_lookup, Hg. simpl. f_equal.
    unfold upd. by destruct (bool_decide _), (isOutputInverting g). }
  assert (Hafter : ∀ a g', Some a ∈ Net.gates net →
            pointwise (Net.gates net) upd h !! a = Some g' →
            isOutputInverting g' = false).
  { intros a g' Hin. rewrite pointwise_lookup.
    destruct (h !! a) as [g|]; simpl; [|done].
    rewrite bool_decide_eq_true_2 by done. intros [= <-]. apply Hpost. }
  split; [exact Hafter|].
  destruct (Hloop false (pointwise (Net.gates net) upd h)) as (b' & Hrun' & Hb').
  { eapply Forall_impl; [exact Hv|]. intros; by apply valid_pointwise. }
  rewrite Hrun', pointwise_idem by done.
  destruct b'; [|done]. exfalso.
  destruct (proj1 Hb' eq_refl) as [?|(a & g' & Hin & Hg' & Hf)]; [done|].
  by rewrite (Hafter a g' Hin Hg') in Hf.
Qed.

Lemma move_changeToEqGates_spec_witness :
  ∃ net h,
    loaded 4 or2_aag = Some (net, h) ∧
    ∃ b h', move_changeToEqGates net h = Some (b, h') ∧
            move_changeToEqGates net h' = Some (false, h').
Proof.
  destruct (loaded 4 or2_aag) as [[net h]|] eqn:E; [|by vm_compute in E].
  exists net, h. split; [done|].
  destruct (wf_net_valid h net (proj1 (loaded_or2_wf net h E))) as (Hg & _ & _).
  destruct (move_changeToEqGates_spec net h Hg)
    as (b & h' & Hrun & _ & _ & _ & _ & Hagain).
  by exists b, h'.
Defined.

Lemma forallb_false {A} (f : A → bool) l :
  forallb f l = false → ∃ x, In x l ∧ f x = false.
Proof.
  induction l as [|x l IH]; simpl; [done|].
  destruct (f x) eqn:E; simpl.
  - intros H. destruct (IH H) as (y & ? & ?). exists y. auto.
  - intros _. exists x. auto.
Qed.

Lemma all_inverting_false g :
  all_inverting g = false →
  ∃ j, (j < getFanIn g)%nat ∧ isInputInverting j g = false.
Proof.
  intros H. apply forallb_false in H as (j & Hin & Hj).
  exists j. split; [|done]. apply in_seq in Hin. lia.
Qed.

(** X7.  [moveout_changeToEqGates] replaces exactly the listed gates with a
    non-inverting output all of whose input slots invert (none, for a gate
    without inputs) by their De Morgan equivalent.  It reports [true] as
    soon as a listed gate has a non-inverting output, replaced or not.
    Afterwards every listed gate has an inverting output or a non-inverting
    input slot, and [move_changeToEqGates] run next undoes every
    replacement: it leaves the store it would have left without this pass. *)
Theorem moveout_changeToEqGates_spec (net : Net.BooleanNet) (h : heap) :
  Forall (valid h) (Net.gates net) →
  ∃ b h', moveout_changeToEqGates net h = Some (b, h') ∧
    (b = true ↔ ∃ a g, Some a ∈ Net.gates net ∧ h !! a = Some g ∧
                       isOutputInverting g = false) ∧
    length h' = length h ∧
    (∀ a g, h !! a = Some g →
       h' !! a = Some (if bool_decide (Some a ∈ Net.gates net)
                          && negb (isOutputInverting g) && all_inverting g
                       then eqGate g else g)) ∧
    (∀ a g', Some a ∈ Net.gates net → h' !! a = Some g' →
       isOutputInverting g' = true ∨
       ∃ j, (j < getFanIn g')%nat ∧ isInputInverting j g' = false) ∧
    ∃ b1 b2 h'', move_changeToEqGates net h = Some (b1, h'') ∧
                 move_changeToEqGates net h' = Some (b2, h'').
Proof.
  intros Hv.
  set (upd := λ g, if negb (isOutputInverting g) && all_inverting g
                   then eqGate g else g).
  set (flag := λ g, negb (isOutputInverting g)).
  assert (Hidem : ∀ g, upd (upd g) = upd g).
  { intros g. unfold upd.
    destruct (negb (isOutputInverting g) && all_inverting g) eqn:E; [|by rewrite E].
    apply andb_prop in E as [E _]. apply negb_true_iff in E.
    by rewrite eqGate_output, E. }
  assert (Hflag : ∀ g, flag (upd g) = true → flag g = true).
  { intros g. unfold upd, flag.
    destruct (negb (isOutputInverting g) && all_inverting g) eqn:E; [|done].
    by apply andb_prop in E as [E _]. }
  unfold moveout_changeToEqGates.
  match goal with
  | |- context [for_each_flag ?body _ _] =>
      pose proof (for_each_flag_pointwise body upd flag
                    (Net.gates net) Hidem Hflag moveout_body_run) as Hloop
  end.
  destruct (Hloop false h Hv) as (b & Hrun & Hb).
  exists b, (pointwise (Net.gates net) upd h).
  split; [exact Hrun|]. split.
  { rewrite Hb. unfold flag. split.
    - intros [?|(a & g & ? & ? & E)]; [done|].
      apply negb_true_iff in E. eauto.
    - intros (a & g & ? & ? & E). right. exists a, g. by rewrite E. }
  split; [apply pointwise_length|]. split.
  { intros a g Hg. rewrite pointwise_lookup, Hg. simpl. f_equal.
    unfold upd. by destruct (bool_decide _), (isOutputInverting g), (all_inverting g). }
  split.
  { intros a g' Hin. rewrite pointwise_lookup.
    destruct (h !! a) as [g|]; simpl; [|done].
    rewrite bool_decide_eq_true_2 by done. intros [= <-]. unfold upd.
    destruct (isOutputInverting g) eqn:Eo; simpl; [by left|].
    destruct (all_inverting g) eqn:Ea.
    - left. by rewrite eqGate_output, Eo.
    - right. by apply all_inverting_false. }
  destruct (move_changeToEqGates_spec_aux net h Hv) as (b1 & Hrun1).
  destruct (move_changeToEqGates_spec_aux net (pointwise (Net.gates net) upd h))
    as (b2 & Hrun2).
  { eapply Forall_impl; [exact Hv|]. intros; by apply valid_pointwise. }
  exists b1, b2, (pointwise (Net.gates net)
                    (λ g, if isOutputInverting g then eqGate g else g) h).
  split; [exact Hrun1|]. rewrite Hrun2. do 2 f_equal.
  apply list_eq. intros a. rewrite !pointwise_lookup.
  destruct (h !! a) as [g|]; simpl; [|done]. f_equal.
  case_bool_decide; [|done]. unfold upd.
  destruct (isOutputInverting g) eqn:Eo; simpl.
  - by rewrite Eo.
  - destruct (all_inverting g); [|by rewrite Eo].
    by rewrite eqGate_output, Eo, eqGate_involutive.
Qed.

Lemma moveout_changeToEqGates_spec_witness :
  ∃ net h,
    loaded 4 or2_aag = Some (net, h) ∧
    ∃ b h', moveout_changeToEqGates net h = Some (b, h') ∧
      ∃ b1 b2 h'', move_changeToEqGates net h = Some (b1, h'') ∧
                   move_changeToEqGates net h' = Some (b2, h'').
Proof.
  destruct (loaded 4 or2_aag) as [[net h]|] eqn:E; [|by vm_compute in E].
  exists net, h. split; [done|].
  destruct (wf_net_valid h net (proj1 (loaded_or2_wf net h E))) as (Hg & _ & _).
  destruct (moveout_changeToEqGates_spec net h Hg)
    as (b & h' & Hrun & _ & _ & _ & _ & Hundo).
  by exists b, h'.
Defined.

(** X8.  [move_shiftInvertersInOutputBuffers] touches exactly the outputs
    whose slot 0 inverts: it clears that slot and sets (it does not toggle)
    the output inverter.  Afterwards no output has an inverting slot 0, and
    a second run changes nothing. *)
Theorem move_shiftInvertersInOutputBuffers_spec (net : Net.BooleanNet) (h : heap) :
  Forall (valid h) (Net.outputs net) →
  ∃ h', move_shiftInvertersInOutputBuffers net h = Some (tt, h') ∧
    length h' = length h ∧
    (∀ a g, h !! a = Some g →
       h' !! a = Some (if bool_decide (Some a ∈ Net.outputs net)
                          && isInputInverting 0 g
                       then setOutputInverting (setInputNonInverting 0 g)
                       else g)) ∧
    (∀ a g', Some a ∈ Net.outputs net → h' !! a = Some g' →
       isInputInverting 0 g' = false) ∧
    move_shiftInvertersInOutputBuffers net h' = Some (tt, h').
Proof.
  intros Hv.
  set (upd := λ g, if isInputInverting 0 g
                   then setOutputInverting (setInputNonInverting 0 g) else g).
  assert (Hpost : ∀ g, isInputInverting 0 (upd g) = false).
  { intros g. unfold upd. destruct (isInputInverting 0 g) eqn:E; [|done].
    unfold isInputInverting in *. simpl.
    destruct (inputInverters g); done. }
  assert (Hidem : ∀ g, upd (upd g) = upd g).
  { intros g. unfold upd at 1. by rewrite Hpost. }
  unfold move_shiftInvertersInOutputBuffers.
  match goal with
  | |- context [for_each ?body _ _] =>
      pose proof (for_each_pointwise body upd (Net.outputs net) Hidem
                    (λ _, shift_body_run)) as Hloop
  end.
  exists (pointwise (Net.outputs net) upd h).
  split; [by apply Hloop|]. split; [apply pointwise_length|]. split.
  { intros a g Hg. rewrite pointwise_lookup, Hg. simpl. f_equal.
    unfold upd. by destruct (bool_decide _), (isInputInverting 0 g). }
  split.
  { intros a g' Hin. rewrite pointwise_lookup.
    destruct (h !! a) as [g|]; simpl; [|done].
    rewrite bool_decide_eq_true_2 by done. intros [= <-]. apply Hpost. }
  rewrite Hloop, pointwise_idem; [done|done|].
  eapply Forall_impl; [exact Hv|]. intros; by apply valid_pointwise.
Qed.

Lemma move_shiftInvertersInOutputBuffers_spec_witness :
  ∃ net h,
    loaded 4 or2_aag = Some (net, h) ∧
    ∃ h', move_shiftInvertersInOutputBuffers net h = Some (tt, h') ∧
          move_shiftInvertersInOutputBuffers net h' = Some (tt, h').
Proof.
  destruct (loaded 4 or2_aag) as [[net h]|] eqn:E; [|by vm_compute in E].
  exists net, h. split; [done|].
  destruct (wf_net_valid h net (proj1 (loaded_or2_wf net h E))) as (_ & _ & Ho).
  destruct (move_shiftInvertersInOutputBuffers_spec net h Ho)
    as (h' & Hrun & _ & _ & _ & Hagain).
  by exists h'.
Defined.

(** *** Colouring *)

Lemma addColor_idem c g : addColor c (addColor c g) = addColor c g.
Proof.
  unfold addColor, set_color. simpl. f_equal.
  by rewrite <- Z.lor_assoc, Z.lor_diag.
Qed.

Lemma recolour_refl c h : recolour c h h.
Proof. split; [done|]. intros a g Hg. exists g. auto. Qed.

Lemma recolour_trans c h1 h2 h3 :
  recolour c h1 h2 → recolour c h2 h3 → recolour c h1 h3.
Proof.
  intros [L1 H1] [L2 H2]. split; [congruence|]. intros a g Hg.
  destruct (H1 a g Hg) as (g2 & Hg2 & E2).
  destruct (H2 a g2 Hg2) as (g3 & Hg3 & E3).
  exists g3. split; [done|].
  destruct E2 as [->| ->], E3 as [->| ->]; auto.
  right. apply addColor_idem.
Qed.

Lemma recolour_insert c h a g :
  h !! a = Some g → recolour c h (<[a := addColor c g]> h).
Proof.
  intros Hg. assert (Ha : (a < length h)%nat) by (by eapply lookup_lt_Some).
  split; [by rewrite length_insert|]. intros b gb Hb.
  destruct (decide (b = a)) as [->|Hne].
  - rewrite list_lookup_insert_eq by done. eexists. split; [done|].
    right. congruence.
  - rewrite list_lookup_insert_ne by done. eauto.
Qed.

Lemma recolour_pointwise c l h : recolour c h (pointwise l (addColor c) h).
Proof.
  split; [apply pointwise_length|]. intros a g Hg.
  rewrite pointwise_lookup, Hg. simpl. eexists. split; [done|].
  case_bool_decide; auto.
Qed.

Lemma recolour_valid c h h' p : recolour c h h' → valid h p → valid h' p.
Proof.
  intros [_ H] (a & g & -> & Hg). destruct (H a g Hg) as (g' & Hg' & _).
  by exists a, g'.
Qed.

Lemma recolour_hasColor c h h' a g g' :
  recolour c h h' → h !! a = Some g → h' !! a = Some g' →
  getComplement g' = getComplement g ∧
  (∀ c', hasColor c' g = true → hasColor c' g' = true).
Proof.
  intros [_ H] Hg Hg'. destruct (H a g Hg) as (g2 & Hg2 & E).
  rewrite Hg' in Hg2. injection Hg2 as <-.
  destruct E as [->| ->]; [done|]. split; [done|].
  intros c'. apply hasColor_addColor_keeps.
Qed.

Lemma recolour_based c h h' p : recolour c h h' → based h c p → based h' c p.
Proof.
  intros Hr (a & g & -> & Hg & Hc).
  destruct (proj2 Hr a g Hg) as (g' & Hg' & _).
  destruct (recolour_hasColor c h h' a g g' Hr Hg Hg') as [Ecpl Hkeep].
  exists a, g'. split; [done|]. split; [done|].
  destruct Hc as [Hc|(k & gk & Hk & Hgk & Hck)]; [left; by apply Hkeep|].
  right. destruct (proj2 Hr k gk Hgk) as (gk' & Hgk' & _).
  exists k, gk'. split; [congruence|]. split; [done|].
  by apply (recolour_hasColor c h h' k gk gk' Hr Hgk Hgk').
Qed.

(** The gates whose complement, if any, is in the store. *)
Lemma color_body_run c a g h :
  h !! a = Some g →
  getComplement g = NULL ∨ valid h (getComplement g) →
  ∃ h1,
    (cpl <- query (Some a) getComplement ;;
     match cpl with
     | None => call (Some a) (addColor c)
     | Some _ =>
         has <- query cpl (hasColor c) ;;
         if negb has then call (Some a) (addColor c) else ret tt
     end) h = Some (tt, h1) ∧
    recolour c h h1 ∧ based h1 c (Some a).
Proof.
  intros Hg Hc. assert (Ha : (a < length h)%nat) by (by eapply lookup_lt_Some).
  unfold bind at 1. unfold query at 1. rewrite Hg.
  assert (Hadd : call (Some a) (addColor c) h = Some (tt, <[a := addColor c g]> h)).
  { unfold call. by rewrite Hg. }
  assert (Hbased : based (<[a := addColor c g]> h) c (Some a)).
  { exists a, (addColor c g). split; [done|].
    split; [by apply list_lookup_insert_eq|]. left. apply hasColor_addColor. }
  destruct (getComplement g) as [k|] eqn:Ek.
  - destruct Hc as [?|(k' & gk & [= <-] & Hgk)]; [done|].
    unfold bind, query. rewrite Hgk.
    destruct (hasColor c gk) eqn:Ehas; cbn [negb].
    + exists h. split; [done|]. split; [apply recolour_refl|].
      exists a, g. split; [done|]. split; [done|]. right. by exists k, gk.
    + rewrite Hadd. eexists. split; [done|]. split; [|done].
      by apply recolour_insert.
  - rewrite Hadd. eexists. split; [done|]. split; [|done].
    by apply recolour_insert.
Qed.

Lemma color_loop_run c l : ∀ i h,
  (∀ p, p ∈ l → ∃ a g, p = Some a ∧ h !! a = Some g ∧
                       (getComplement g = NULL ∨ valid h (getComplement g))) →
  ∃ h',
    for_each (λ _ g,
                cpl <- query g getComplement ;;
                match cpl with
                | None => call g (addColor c)
                | Some _ =>
                    has <- query cpl (hasColor c) ;;
                    if negb has then call g (addColor c) else ret tt
                end) i l h = Some (tt, h') ∧
    recolour c h h' ∧ ∀ p, p ∈ l → based h' c p.
Proof.
  induction l as [|p l IH]; intros i h Hl.
  - exists h. split; [done|]. split; [apply recolour_refl|].
    intros p Hp. by apply not_elem_of_nil in Hp.
  - destruct (Hl p (list_elem_of_here _ _)) as (a & g & -> & Hg & Hc).
    destruct (color_body_run c a g h Hg Hc) as (h1 & Hrun1 & Hr1 & Hb1).
    destruct (IH (S i) h1) as (h' & Hrun & Hr & Hb).
    { intros p Hp. destruct (Hl p (list_elem_of_further _ _ _ Hp))
        as (b & gb & -> & Hgb & Hcb).
      destruct (proj2 Hr1 b gb Hgb) as (gb' & Hgb' & _).
      destruct (recolour_hasColor c h h1 b gb gb' Hr1 Hgb Hgb') as [Ecpl _].
      exists b, gb'. split; [done|]. split; [done|]. rewrite Ecpl.
      destruct Hcb as [?|Hv]; [by left|right]. by eapply recolour_valid. }
    exists h'. split.
    { simpl. by rewrite (bind_run _ _ _ _ _ Hrun1). }
    split; [by eapply recolour_trans|].
    intros p Hp. apply elem_of_cons in Hp as [->|Hp]; [|by apply Hb].
    by eapply recolour_based.
Qed.

(** A loop over the indices of a vector of the network, reading the
    element with a bounds-checked getter, visits the elements in order. *)
Lemma for_go_index (v : list ptr) (get : Z → ptr) (f : ptr → M unit) :
  (∀ i, (i < length v)%nat → get (Z.of_nat i) = default NULL (v !! i)) →
  ∀ k i h, (length v ≤ k + i)%nat →
    for_go (ret (length v)) (λ i, f (get (Z.of_nat i))) k i h
    = for_each (λ _ p, f p) i (drop i v) h.
Proof.
  intros Hget. induction k as [|k IH]; intros i h Hk.
  - simpl. unfold bind, ret. destruct (Nat.ltb_spec i (length v)); [lia|].
    by rewrite drop_ge by lia.
  - simpl. unfold bind at 1. unfold ret at 1.
    destruct (Nat.ltb_spec i (length v)) as [Hlt|Hge].
    + destruct (lookup_lt_is_Some_2 v i Hlt) as [p Hp].
      rewrite (drop_S _ _ _ Hp). simpl. rewrite Hget, Hp by done. simpl.
      unfold bind. destruct (f p h) as [[[] h1]|]; [|done].
      apply IH. lia.
    + by rewrite drop_ge by lia.
Qed.

Lemma getInput_index net i :
  (i < length (Net.inputs net))%nat →
  getInput net (Z.of_nat i) = default NULL (Net.inputs net !! i).
Proof.
  intros Hi. unfold getInput.
  destruct (Z.ltb_spec (Z.of_nat i) (Z.of_nat (length (Net.inputs net)))); [|lia].
  by rewrite Nat2Z.id.
Qed.

Lemma getOutput_index net i :
  (i < length (Net.outputs net))%nat →
  getOutput net (Z.of_nat i) = default NULL (Net.outputs net !! i).
Proof.
  intros Hi. unfold getOutput.
  destruct (Z.ltb_spec (Z.of_nat i) (Z.of_nat (length (Net.outputs net)))); [|lia].
  by rewrite Nat2Z.id.
Qed.

Lemma call_run a g f h :
  h !! a = Some g → call (Some a) f h = Some (tt, <[a := f g]> h).
Proof. intros Hg. unfold call. by rewrite Hg. Qed.

(** X2.  [colorBaseGates] returns on a network whose gates, inputs and
    outputs are in the store (complements too, where set).  It only adds
    the colour; afterwards every input and output carries it, and so does
    every gate or else its complement. *)
Theorem colorBaseGates_spec (net : Net.BooleanNet) (c : Z) (h : heap) :
  Forall (valid h) (Net.gates net ++ Net.inputs net ++ Net.outputs net) →
  (∀ a g, Some a ∈ Net.gates net → h !! a = Some g →
          getComplement g = NULL ∨ valid h (getComplement g)) →
  ∃ h', colorBaseGates net c h = Some (tt, h') ∧
    recolour c h h' ∧
    (∀ a g', Some a ∈ Net.inputs net ++ Net.outputs net →
             h' !! a = Some g' → hasColor c g' = true) ∧
    (∀ p, p ∈ Net.gates net → based h' c p).
Proof.
  intros Hv Hcpl.
  apply Forall_app in Hv as [Hvg Hv]. apply Forall_app in Hv as [Hvi Hvo].
  destruct (color_loop_run c (Net.gates net) 0 h) as (h1 & Hrun1 & Hr1 & Hb1).
  { intros p Hp. rewrite Forall_forall in Hvg.
    destruct (Hvg p Hp) as (a & g & -> & Hg). exists a, g. eauto. }
  set (h2 := pointwise (Net.inputs net) (addColor c) h1).
  set (h3 := pointwise (Net.outputs net) (addColor c) h2).
  assert (Hr2 : recolour c h1 h2) by apply recolour_pointwise.
  assert (Hr3 : recolour c h2 h3) by apply recolour_pointwise.
  assert (Hrun2 : for_loop (ret (length (Net.inputs net)))
                    (λ i, call (getInput net (Z.of_nat i)) (addColor c)) h1
                  = Some (tt, h2)).
  { unfold for_loop. unfold bind at 1. unfold ret at 1.
    rewrite (for_go_index (Net.inputs net) (getInput net)
               (λ p, call p (addColor c)) (getInput_index net)) by lia.
    rewrite drop_0.
    apply (for_each_pointwise (λ _ p, call p (addColor c))).
    - apply addColor_idem.
    - intros _ a g h0. apply call_run.
    - eapply Forall_impl; [exact Hvi|]. intros; by eapply recolour_valid. }
  assert (Hrun3 : for_loop (ret (length (Net.outputs net)))
                    (λ i, call (getOutput net (Z.of_nat i)) (addColor c)) h2
                  = Some (tt, h3)).
  { unfold for_loop. unfold bind at 1. unfold ret at 1.
    rewrite (for_go_index (Net.outputs net) (getOutput net)
               (λ p, call p (addColor c)) (getOutput_index net)) by lia.
    rewrite drop_0.
    apply (for_each_pointwise (λ _ p, call p (addColor c))).
    - apply addColor_idem.
    - intros _ a g h0. apply call_run.
    - eapply Forall_impl; [exact Hvo|]. intros p Hp.
      eapply recolour_valid; [exact Hr2|]. by eapply recolour_valid. }
  exists h3. split.
  { unfold colorBaseGates.
    rewrite (bind_run _ _ _ _ _ Hrun1), (bind_run _ _ _ _ _ Hrun2). exact Hrun3. }
  split; [eauto using recolour_trans|]. split.
  - intros a g' Hin Hg'. unfold h3 in Hg'. rewrite pointwise_lookup in Hg'.
    destruct (h2 !! a) as [g2|] eqn:Hg2; [|done]. simpl in Hg'.
    injection Hg' as <-. case_bool_decide as Ho; [apply hasColor_addColor|].
    apply elem_of_app in Hin as [Hi|?]; [|done].
    unfold h2 in Hg2. rewrite pointwise_lookup in Hg2.
    destruct (h1 !! a) as [g1|]; [|done]. simpl in Hg2.
    injection Hg2 as <-. rewrite bool_decide_eq_true_2 by done.
    apply hasColor_addColor.
  - intros p Hp. eapply recolour_based; [exact Hr3|].
    eapply recolour_based; [exact Hr2|]. by apply Hb1.
Qed.

Lemma colorBaseGates_spec_witness :
  ∃ net h,
    loaded 4 or2_aag = Some (net, h) ∧
    ∃ h', colorBaseGates net 4 h = Some (tt, h') ∧
          ∀ p, p ∈ Net.gates net → based h' 4 p.
Proof.
  destruct (loaded 4 or2_aag) as [[net h]|] eqn:E; [|by vm_compute in E].
  exists net, h. split; [done|].
  destruct (wf_net_valid h net (proj1 (loaded_or2_wf net h E))) as (Hg & Hi & Ho).
  destruct (colorBaseGates_spec net 4 h) as (h' & Hrun & _ & _ & Hb).
  { rewrite !Forall_app. done. }
  { intros a g Hin Hg0. left. vm_compute in E. injection E as <- <-.
    simpl in Hin. apply list_elem_of_singleton in Hin as [= ->].
    by injection Hg0 as <-. }
  by exists h'.
Defined.

(** *** [setDepth], [newInput] and [swapDriver] *)

Lemma raised_refl h : raised h h.
Proof.
  split; [done|]. intros c g Hg. exists (depth g). split; [|lia].
  rewrite Hg. by destruct g.
Qed.

Lemma raised_trans h1 h2 h3 : raised h1 h2 → raised h2 h3 → raised h1 h3.
Proof.
  intros [L1 K1] [L2 K2]. split; [congruence|].
  intros c g Hg. destruct (K1 c g Hg) as (d1 & H1 & Hle1).
  destruct (K2 c _ H1) as (d2 & H2 & Hle2). exists d2.
  split; [rewrite H2; by destruct g|]. simpl in Hle2. lia.
Qed.

Lemma raised_depth_only h h' : raised h h' → depth_only h h'.
Proof.
  intros [L K]. split; [done|]. intros c g Hg.
  destruct (K c g Hg) as (d & Hd & _). eauto.
Qed.

Lemma raised_insert h a g d :
  h !! a = Some g → to_unsigned (depth g) ≤ to_unsigned d →
  raised h (<[a := set_depth d g]> h).
Proof.
  intros Hg Hle. assert (Ha : (a < length h)%nat) by (by eapply lookup_lt_Some).
  split; [by rewrite length_insert|]. intros c g0 Hg0.
  destruct (decide (a = c)) as [->|Hne].
  - exists d. rewrite list_lookup_insert_eq by done. split; [congruence|].
    congruence.
  - exists (depth g0). rewrite list_lookup_insert_ne by done.
    split; [rewrite Hg0; by destruct g0|lia].
Qed.

Lemma setDepth_raises_measure fuel : ∀ h a g d,
  followers_ok h → h !! a = Some g → 0 ≤ d < 4294967296 →
  measure h < Z.of_nat fuel →
  ∃ h', setDepth fuel (Some a) d h = Some (to_unsigned (depth g) <? d, h') ∧
        raised h h' ∧ measure h' ≤ measure h ∧
        (d ≤ to_unsigned (depth g) → h' = h) ∧
        ∃ g', h' !! a = Some g' ∧ d ≤ to_unsigned (depth g').
Proof.
  induction fuel as [|fuel IH]; intros h a g d Hf Hg Hd Hm.
  { pose proof (measure_nonneg h). lia. }
  simpl. unfold bind at 1. unfold query at 1. rewrite Hg.
  destruct (Z.ltb_spec (to_unsigned (depth g)) d) as [Hlt|Hge].
  2: { exists h. split; [reflexivity|]. split; [apply raised_refl|].
       split; [lia|]. split; [done|]. by exists g. }
  unfold bind at 1. unfold call at 1. rewrite Hg.
  set (h1 := <[a := set_depth (to_int d) g]> h).
  assert (Hu : to_unsigned (to_int d) = d).
  { rewrite to_unsigned_to_int. unfold to_unsigned. apply Z.mod_small. lia. }
  assert (Hd1 : raised h h1).
  { apply raised_insert; [done|]. rewrite Hu. lia. }
  assert (Hm1 : measure h1 < measure h).
  { unfold h1. rewrite (measure_insert h a g _ Hg). unfold slack. simpl.
    rewrite Hu. lia. }
  set (n := length (followingGates g)).
  destruct (for_loop_runs (λ h2, raised h1 h2 ∧ measure h2 ≤ measure h1)
              (query (Some a) (λ g, length (followingGates g)))
              (λ i, v <- query (Some a) followingGates ;;
                    f <- at_ v i ;;
                    dd <- query (Some a) depth ;;
                    setDepth fuel f (to_unsigned (int_add dd 1)) ;;; ret tt)
              n h1) as (h2 & E2 & Hd2 & Hm2).
  - intros h2 [Hr _]. destruct (raised_trans _ _ _ Hd1 Hr) as [_ K].
    destruct (K a g Hg) as (d2 & H2 & _).
    unfold query. rewrite H2. done.
  - intros i h2 Hi [Hr2 Hm2].
    pose proof (raised_trans _ _ _ Hd1 Hr2) as Hd2. pose proof Hd2 as [_ K].
    destruct (K a g Hg) as (d2 & H2 & _).
    unfold bind at 1. unfold query at 1. rewrite H2. simpl followingGates.
    destruct (lookup_lt_is_Some_2 (followingGates g) i Hi) as [f Hfi].
    unfold bind at 1. unfold at_. rewrite Hfi. unfold ret at 1.
    unfold bind at 1. unfold query at 1. rewrite H2.
    assert (Hvf : valid h2 f).
    { eapply depth_only_valid; [by apply raised_depth_only|].
      eapply Forall_forall; [exact (Hf a g Hg)|]. by eapply list_elem_of_lookup_2. }
    destruct Hvf as (b & gb & -> & Hgb).
    destruct (IH h2 b gb (to_unsigned (int_add (depth (set_depth d2 g)) 1)))
      as (h3 & E3 & Hd3 & Hm3 & _).
    + eapply depth_only_followers; [|exact Hf]. by apply raised_depth_only.
    + done.
    + apply to_unsigned_range.
    + lia.
    + rewrite (bind_run _ _ _ _ _ E3). eexists _, _. split; [reflexivity|].
      split; [by eapply raised_trans|lia].
  - split; [apply raised_refl|lia].
  - rewrite (bind_run _ _ _ _ _ E2). exists h2. split; [reflexivity|].
    split; [by eapply raised_trans|]. split; [lia|]. split; [lia|].
    destruct (proj2 Hd2 a (set_depth (to_int d) g)) as (d2 & H2 & Hle).
    { unfold h1. apply list_lookup_insert_eq. by eapply lookup_lt_Some. }
    eexists. split; [exact H2|]. simpl in *. lia.
Qed.


Lemma followers_ok_insert h a g g' :
  followers_ok h → h !! a = Some g → followingGates g' = followingGates g →
  followers_ok (<[a := g']> h).
Proof.
  intros Hf Hg Hsame c gc Hc.
  assert (Ha : (a < length h)%nat) by (by eapply lookup_lt_Some).
  assert (Hfs : Forall (valid h) (followingGates gc)).
  { destruct (decide (c = a)) as [->|Hne].
    - rewrite list_lookup_insert_eq in Hc by done. injection Hc as <-.
      rewrite Hsame. by apply (Hf a g).
    - rewrite list_lookup_insert_ne in Hc by done. by apply (Hf c gc). }
  eapply Forall_impl; [exact Hfs|]. intros; by apply valid_insert.
Qed.

(** X10.  [newInput] with a driver that is in the store returns; the new
    connection takes slot 0 with the polarity given and the former slots
    move up by one; the gate ends deeper than the driver was.  Nothing else
    changes but depths, none of which drops: the driver's own follower list
    is not touched. *)
Theorem newInput_adds_front_slot (h : heap) (t p : nat) (gt gp : Gate) (b : bool) :
  followers_ok h → h !! t = Some gt → h !! p = Some gp →
  ∃ fuel0, ∀ fuel, (fuel0 ≤ fuel)%nat →
    ∃ h' g', newInput fuel (Some t) (Some p) b h = Some (tt, h') ∧
      raised (<[t := add_input (Some p) b gt]> h) h' ∧
      h' !! t = Some g' ∧
      getDriver 0 g' = Some p ∧ isInputInverting 0 g' = b ∧
      getFanIn g' = S (getFanIn gt) ∧
      (∀ j, getDriver (S j) g' = getDriver j gt ∧
            isInputInverting (S j) g' = isInputInverting j gt) ∧
      to_unsigned (int_add (depth gp) 1) ≤ to_unsigned (depth g').
Proof.
  intros Hf Ht Hp. exists (S (Z.to_nat (measure h))). intros fuel Hfuel.
  assert (Hlt : (t < length h)%nat) by (by eapply lookup_lt_Some).
  unfold newInput.
  unfold bind at 1. unfold query at 1. rewrite Ht.
  rewrite (bind_run _ _ _ _ _ (call_run t gt _ h Ht)).
  set (g1 := set_inputs (Some p :: inputs gt) gt).
  assert (H1 : <[t := g1]> h !! t = Some g1) by (by apply list_lookup_insert_eq).
  rewrite (bind_run _ _ _ _ _ (call_run t g1 _ _ H1)).
  rewrite list_insert_insert_eq. simpl.
  change (set_inputInverters (b :: inputInverters gt) g1)
    with (add_input (Some p) b gt).
  set (g2 := add_input (Some p) b gt). set (h2 := <[t := g2]> h).
  assert (H2 : h2 !! t = Some g2) by (by apply list_lookup_insert_eq).
  assert (Hp2 : ∃ gp2, h2 !! p = Some gp2 ∧ depth gp2 = depth gp).
  { unfold h2. destruct (decide (p = t)) as [->|Hne].
    - exists g2. split; [done|]. assert (gp = gt) as -> by congruence. done.
    - exists gp. by rewrite list_lookup_insert_ne. }
  destruct Hp2 as (gp2 & Hgp2 & Edp).
  unfold bind at 1. unfold query at 1. rewrite Hgp2. unfold getDepth. rewrite Edp.
  pose proof (measure_nonneg h) as Hm.
  destruct (setDepth_raises_measure fuel h2 t g2
              (to_unsigned (int_add (depth gp) 1)))
    as (h' & E & Hr & _ & _ & g' & Hg' & Hdeep).
  - by eapply followers_ok_insert.
  - done.
  - apply to_unsigned_range.
  - unfold h2. rewrite (measure_insert h t gt g2 Ht).
    replace (slack g2) with (slack gt) by done. lia.
  - rewrite (bind_run _ _ _ _ _ E). exists h', g'.
    split; [done|]. split; [done|]. split; [done|].
    destruct (proj2 Hr t g2 H2) as (d & Hd & _).
    assert (g' = set_depth d g2) as -> by congruence.
    repeat split; done.
Qed.

Lemma newInput_adds_front_slot_witness :
  ∃ net h,
    loaded 4 or2_aag = Some (net, h) ∧
    ∃ fuel0, ∀ fuel, (fuel0 ≤ fuel)%nat →
      ∃ h' g', newInput fuel (Some 3%nat) (Some 0%nat) true h = Some (tt, h') ∧
               h' !! 3%nat = Some g' ∧ getDriver 0 g' = Some 0%nat.
Proof.
  destruct (loaded 4 or2_aag) as [[net h]|] eqn:E; [|by vm_compute in E].
  exists net, h. split; [done|].
  pose proof (loaded_or2_circuit net h E) as (_ & Hs & _).
  apply sound_followers in Hs.
  assert (∃ gt gp, h !! 3%nat = Some gt ∧ h !! 0%nat = Some gp)
    as (gt & gp & Ht & Hp).
  { vm_compute in E. injection E as <- <-. by eexists _, _. }
  destruct (newInput_adds_front_slot h 3 0 gt gp true Hs Ht Hp) as (fuel0 & H).
  exists fuel0. intros fuel Hfuel.
  destruct (H fuel Hfuel) as (h' & g' & Hrun & _ & Hg' & Hd & _).
  by exists h', g'.
Defined.


(** X11.  [swapDriver] replaces the first slot that holds the old driver and
    no other; without such a slot the store stays as it is.  A null new
    driver is stored and no depth changes; otherwise the gate ends deeper
    than the new driver, and apart from the slot only depths change, none
    of which drops.  Follower lists are not touched. *)
Theorem swapDriver_first_slot (h : heap) (t : nat) (gt : Gate) (old new : ptr) :
  followers_ok h → h !! t = Some gt → new = NULL ∨ valid h new →
  ∃ fuel0, ∀ fuel, (fuel0 ≤ fuel)%nat →
    ∃ h', swapDriver fuel (Some t) old new h = Some (tt, h') ∧
      (old ∉ inputs gt → h' = h) ∧
      ∀ i, inputs gt !! i = Some old →
           (∀ j, (j < i)%nat → inputs gt !! j ≠ Some old) →
           let h1 := <[t := set_inputs (<[i := new]> (inputs gt)) gt]> h in
           raised h1 h' ∧
           (new = NULL → h' = h1) ∧
           ∀ p gp, new = Some p → h !! p = Some gp →
                   ∃ g', h' !! t = Some g' ∧
                         to_unsigned (int_add (depth gp) 1)
                         ≤ to_unsigned (depth g').
Proof.
  intros Hf Ht Hnew. exists (S (Z.to_nat (measure h))). intros fuel Hfuel.
  assert (Hlt : (t < length h)%nat) by (by eapply lookup_lt_Some).
  pose proof (measure_nonneg h) as Hm.
  unfold swapDriver. unfold bind at 1. unfold query at 1. rewrite Ht.
  destruct (list_find (λ x, x = old) (inputs gt)) as [[i x]|] eqn:Efind.
  - apply list_find_Some in Efind as (Hi & -> & Hfirst).
    assert (Hfirst' : ∀ k, inputs gt !! k = Some old →
              (∀ j, (j < k)%nat → inputs gt !! j ≠ Some old) → k = i).
    { intros k Hk Hkfirst. destruct (Nat.lt_trichotomy k i) as [Hlt'|[?|Hgt]];
        [|done|].
      - exfalso. by apply (Hfirst k old Hk Hlt').
      - exfalso. by apply (Hkfirst i Hgt). }
    rewrite (bind_run _ _ _ _ _ (call_run t gt _ h Ht)).
    set (g1 := set_inputs (<[i := new]> (inputs gt)) gt).
    set (h1 := <[t := g1]> h).
    assert (H1 : h1 !! t = Some g1) by (by apply list_lookup_insert_eq).
    destruct new as [p|].
    + destruct Hnew as [?|(p' & gp & [= <-] & Hp)]; [done|].
      assert (Hp1 : ∃ gp1, h1 !! p = Some gp1 ∧ depth gp1 = depth gp).
      { unfold h1. destruct (decide (p = t)) as [->|Hne].
        - exists g1. split; [done|]. assert (gp = gt) as -> by congruence. done.
        - exists gp. by rewrite list_lookup_insert_ne. }
      destruct Hp1 as (gp1 & Hgp1 & Edp).
      unfold bind at 1. unfold query at 1. rewrite Hgp1.
      unfold getDepth. rewrite Edp.
      destruct (setDepth_raises_measure fuel h1 t g1
                  (to_unsigned (int_add (depth gp) 1)))
        as (h' & E & Hr & _ & _ & g' & Hg' & Hdeep).
      * by eapply followers_ok_insert.
      * done.
      * apply to_unsigned_range.
      * unfold h1. rewrite (measure_insert h t gt g1 Ht).
        replace (slack g1) with (slack gt) by done. lia.
      * rewrite (bind_run _ _ _ _ _ E). exists h'. split; [done|]. split.
        { intros Hnot. exfalso. apply Hnot. by eapply list_elem_of_lookup_2. }
        intros k Hk Hkfirst. rewrite (Hfirst' k Hk Hkfirst).
        split; [done|]. split; [done|].
        intros p' gp' [= <-] Hp'. assert (gp' = gp) as -> by congruence.
        by exists g'.
    + exists h1. split; [done|]. split.
      { intros Hnot. exfalso. apply Hnot. by eapply list_elem_of_lookup_2. }
      intros k Hk Hkfirst. rewrite (Hfirst' k Hk Hkfirst).
      split; [apply raised_refl|]. split; [done|]. done.
  - exists h. split; [done|]. split; [done|].
    intros i Hi _. exfalso.
    eapply list_find_None in Efind. rewrite Forall_forall in Efind.
    apply (Efind old); [by eapply list_elem_of_lookup_2|done].
Qed.

Lemma swapDriver_first_slot_witness :
  ∃ net h,
    loaded 4 or2_aag = Some (net, h) ∧
    ∃ fuel0, ∀ fuel, (fuel0 ≤ fuel)%nat →
      ∃ h', swapDriver fuel (Some 2%nat) (Some 0%nat) (Some 1%nat) h
            = Some (tt, h').
Proof.
  destruct (loaded 4 or2_aag) as [[net h]|] eqn:E; [|by vm_compute in E].
  exists net, h. split; [done|].
  pose proof (loaded_or2_circuit net h E) as (_ & Hs & _).
  apply sound_followers in Hs.
  assert (∃ gt gp, h !! 2%nat = Some gt ∧ h !! 1%nat = Some gp)
    as (gt & gp & Ht & Hp).
  { vm_compute in E. injection E as <- <-. by eexists _, _. }
  destruct (swapDriver_first_slot h 2 gt (Some 0%nat) (Some 1%nat) Hs Ht)
    as (fuel0 & H).
  { right. by exists 1%nat, gp. }
  exists fuel0. intros fuel Hfuel.
  destruct (H fuel Hfuel) as (h' & Hrun & _). by exists h'.
Defined.

(** *** The constructor *)

Lemma new_gates_run prefix init (f : Gate → Gate) :
  (∀ h name, init (Some (length h)) (h ++ [Gate_new name])
             = Some (tt, h ++ [f (Gate_new name)])) →
  ∀ k i h,
    new_gates prefix init k i h
    = Some (Some <$> seq (length h) k,
            h ++ ((λ j, f (Gate_new (prefix +:+ pretty j))) <$> seq i k)).
Proof.
  intros Hinit. induction k as [|k IH]; intros i h.
  - simpl. unfold ret. by rewrite app_nil_r.
  - simpl. unfold bind at 1. unfold new_Gate at 1.
    unfold bind at 1. rewrite Hinit.
    unfold bind at 1. rewrite IH. unfold ret.
    rewrite length_app. simpl. rewrite Nat.add_1_r.
    by rewrite <- app_assoc.
Qed.

Lemma call_last (f : Gate → Gate) h g :
  call (Some (length h)) f (h ++ [g]) = Some (tt, h ++ [f g]).
Proof.
  unfold call. rewrite lookup_app_r, Nat.sub_diag by done. simpl.
  rewrite insert_app_r_alt, Nat.sub_diag by done. done.
Qed.

Lemma BooleanNet_new_run fuel in_ out gates_ h :
  BooleanNet_new (S fuel) in_ out gates_ h
  = Some ({| Net.gates := Some <$> seq (length h + in_) gates_;
             Net.inputs := Some <$> seq (length h) in_;
             Net.outputs := Some <$> seq (length h + in_ + gates_) out;
             Net.buffers := []; Net.netDepth := 0; Net.netSumScoap := 0;
             Net.netPlaced := false |},
          h ++ fresh_gates "INPUT_" INPUT in_
            ++ fresh_gates "GATE_" INNER gates_
            ++ fresh_gates "OUT_" OUTPUT out).
Proof.
  unfold BooleanNet_new.
  erewrite bind_run; cycle 1.
  { apply (new_gates_run _ _ (setPlacement INPUT)). intros h0 name.
    rewrite (bind_run _ _ _ _ _ (call_last _ h0 _)).
    rewrite (bind_run _ _ _ _ _ (call_last _ h0 _)).
    simpl. unfold bind, query.
    rewrite lookup_app_r, Nat.sub_diag by done. done. }
  erewrite bind_run; cycle 1.
  { apply (new_gates_run _ _ (setPlacement INNER)). intros h0 name.
    apply call_last. }
  erewrite bind_run; cycle 1.
  { apply (new_gates_run _ _ (setPlacement OUTPUT)). intros h0 name.
    rewrite (bind_run _ _ _ _ _ (call_last _ h0 _)). apply call_last. }
  unfold ret, fresh_gates.
  rewrite !length_app, !length_fmap, !length_seq, <- !app_assoc. done.
Qed.

Lemma fresh_gates_length prefix pl n : length (fresh_gates prefix pl n) = n.
Proof. unfold fresh_gates. by rewrite length_fmap, length_seq. Qed.

Lemma fresh_gates_lookup prefix pl n i :
  (i < n)%nat →
  fresh_gates prefix pl n !! i
  = Some (setPlacement pl (Gate_new (prefix +:+ pretty i))).
Proof.
  intros Hi. unfold fresh_gates. rewrite list_lookup_fmap.
  by rewrite lookup_seq_lt.
Qed.

Lemma lookup_ptr_seq b n i :
  (i < n)%nat → (Some <$> seq b n : list ptr) !! i = Some (Some (b + i)%nat).
Proof. intros Hi. rewrite list_lookup_fmap. by rewrite lookup_seq_lt. Qed.

(** X13.  The constructor returns for any sizes and any store.  It leaves
    the gates of the store alone and appends [in + gates + out] new ones:
    first the inputs, then the inner gates, then the outputs, each named
    after its index, of function [BUFFER], at depth 0 and unconnected.  The
    pointers it hands out are pairwise distinct. *)
Theorem BooleanNet_new_allocates (fuel in_ out gates_ : nat) (h : heap) :
  ∃ net h_new,
    BooleanNet_new (S fuel) in_ out gates_ h = Some (net, h ++ h_new) ∧
    length h_new = (in_ + gates_ + out)%nat ∧
    wf_net (h ++ h_new) net ∧
    Net.buffers net = [] ∧
    (∀ i, (i < in_)%nat →
       getInput net (Z.of_nat i) = Some (length h + i)%nat ∧
       (h ++ h_new) !! (length h + i)%nat
       = Some (setPlacement INPUT (Gate_new ("INPUT_" +:+ pretty i)))) ∧
    (∀ i, (i < gates_)%nat →
       getGate net (Z.of_nat i) = Some (length h + in_ + i)%nat ∧
       (h ++ h_new) !! (length h + in_ + i)%nat
       = Some (setPlacement INNER (Gate_new ("GATE_" +:+ pretty i)))) ∧
    (∀ i, (i < out)%nat →
       getOutput net (Z.of_nat i) = Some (length h + in_ + gates_ + i)%nat ∧
       (h ++ h_new) !! (length h + in_ + gates_ + i)%nat
       = Some (setPlacement OUTPUT (Gate_new ("OUT_" +:+ pretty i)))) ∧
    getInput net (Z.of_nat in_) = NULL ∧
    getGate net (Z.of_nat gates_) = NULL ∧
    getOutput net (Z.of_nat out) = NULL.
Proof.
  eexists _, _. split; [apply BooleanNet_new_run|].
  split; [by rewrite !length_app, !fresh_gates_length; lia|].
  split.
  { split; simpl.
    - rewrite <- !fmap_app. apply (NoDup_fmap_2 _).
      rewrite !NoDup_app. repeat split; try apply NoDup_seq.
      + intros x Hx Hy. apply elem_of_seq in Hx.
        apply elem_of_app in Hy as [Hy|Hy]; apply elem_of_seq in Hy; lia.
      + intros x Hx Hy. apply elem_of_seq in Hx, Hy. lia.
    - rewrite <- !fmap_app. apply Forall_fmap, Forall_forall. intros a Ha.
      exists a. split; [done|].
      rewrite !length_app, !fresh_gates_length.
      rewrite !elem_of_app, !elem_of_seq in Ha. lia. }
  split; [done|].
  split; [|split; [|split]].
  - intros i Hi. split.
    + unfold getInput. simpl. rewrite length_fmap, length_seq.
      destruct (Z.ltb_spec (Z.of_nat i) (Z.of_nat in_)); [|lia].
      by rewrite Nat2Z.id, lookup_ptr_seq.
    + rewrite lookup_app_r by lia.
      replace (length h + i - length h)%nat with i by lia.
      rewrite lookup_app_l by (by rewrite fresh_gates_length).
      by apply fresh_gates_lookup.
  - intros i Hi. split.
    + unfold getGate. simpl. rewrite length_fmap, length_seq.
      destruct (Z.ltb_spec (Z.of_nat i) (Z.of_nat gates_)); [|lia].
      by rewrite Nat2Z.id, lookup_ptr_seq.
    + rewrite lookup_app_r by lia.
      rewrite lookup_app_r by (rewrite fresh_gates_length; lia).
      rewrite fresh_gates_length.
      replace (length h + in_ + i - length h - in_)%nat with i by lia.
      rewrite lookup_app_l by (by rewrite fresh_gates_length).
      by apply fresh_gates_lookup.
  - intros i Hi. split.
    + unfold getOutput. simpl. rewrite length_fmap, length_seq.
      destruct (Z.ltb_spec (Z.of_nat i) (Z.of_nat out)); [|lia].
      by rewrite Nat2Z.id, lookup_ptr_seq.
    + rewrite lookup_app_r by lia.
      rewrite lookup_app_r by (rewrite fresh_gates_length; lia).
      rewrite fresh_gates_length.
      rewrite lookup_app_r by (rewrite fresh_gates_length; lia).
      rewrite fresh_gates_length.
      replace (length h + in_ + gates_ + i - length h - in_ - gates_)%nat
        with i by lia.
      by apply fresh_gates_lookup.
  - unfold getInput, getGate, getOutput. simpl.
    rewrite !length_fmap, !length_seq, !Z.ltb_irrefl. done.
Qed.

(** *** Follower lists *)

Lemma remFollow_loop_spec f fuel : ∀ i v,
  (length v ≤ fuel + i)%nat →
  remFollow_loop fuel f i v = take i v ++ erase_skipping f (drop i v).
Proof.
  induction fuel as [|fuel IH]; intros i v Hlen; simpl.
  - rewrite drop_ge by lia. rewrite take_ge by lia. by rewrite app_nil_r.
  - destruct (Nat.ltb_spec i (length v)) as [Hlt|Hge].
    2: { rewrite drop_ge by lia. rewrite take_ge by lia. by rewrite app_nil_r. }
    destruct (lookup_lt_is_Some_2 v i Hlt) as [x Hx].
    rewrite (drop_S _ _ _ Hx). simpl.
    destruct (decide (v !! i = Some f)) as [E|E].
    + assert (x = f) as -> by congruence. rewrite decide_True by done.
      rewrite IH by (rewrite length_delete by eauto; lia).
      assert (Hdel : delete i v = take i v ++ drop (S i) v).
      { apply delete_take_drop. }
      destruct (drop (S i) v) as [|y r] eqn:Er.
      * rewrite app_nil_r in Hdel. rewrite Hdel.
        rewrite take_ge by (rewrite length_take; lia).
        rewrite drop_ge by (rewrite length_take; lia).
        done.
      * rewrite Hdel.
        assert (Hl : length (take i v) = i) by (rewrite length_take; lia).
        rewrite take_app_ge, drop_app_ge by lia. rewrite Hl.
        replace (S i - i)%nat with 1%nat by lia. simpl.
        rewrite take_0, drop_0. by rewrite <- app_assoc.
    + rewrite decide_False by congruence.
      rewrite IH by lia.
      rewrite (take_S_r _ _ _ Hx). by rewrite <- app_assoc.
Qed.

Lemma erase_skipping_filter f l :
  (∀ i, l !! i = Some f → l !! S i ≠ Some f) →
  erase_skipping f l = filter (λ x, x ≠ f) l.
Proof.
  remember (length l) as n eqn:Hn. revert l Hn.
  induction (lt_wf n) as [n _ IH]. intros l -> Hadj.
  destruct l as [|x l]; [done|]. simpl.
  destruct (decide (x = f)) as [->|Hne].
  - rewrite filter_cons_False by (by intros ?).
    destruct l as [|y l]; [done|].
    assert (y ≠ f).
    { intros ->. by apply (Hadj 0%nat). }
    rewrite filter_cons_True by done. f_equal.
    apply (IH (length l)); [simpl; lia|done|].
    intros i Hi. apply (Hadj (S (S i))). done.
  - rewrite filter_cons_True by done. f_equal.
    apply (IH (length l)); [simpl; lia|done|].
    intros i Hi. apply (Hadj (S i)). done.
Qed.

Lemma erase_skipping_absent f l : f ∉ l → erase_skipping f l = l.
Proof.
  induction l as [|x l IH]; intros Hf; [done|]. simpl.
  apply not_elem_of_cons in Hf as [Hx Hl].
  rewrite decide_False by done. f_equal. by apply IH.
Qed.

(** X12.  [remFollow] scans the follower list once: an entry equal to the
    argument is erased and the entry that moves into its place is passed
    over.  So when no two occurrences are neighbours every occurrence goes,
    and [remFollow] undoes a [newFollow] of a follower that was not listed
    before. *)
Theorem remFollow_scan (f : nat) (g : Gate) :
  remFollow (Some f) g
  = set_followingGates (erase_skipping (Some f) (followingGates g)) g ∧
  ((∀ i, followingGates g !! i = Some (Some f) →
         followingGates g !! S i ≠ Some (Some f)) →
   followingGates (remFollow (Some f) g)
   = filter (λ x, x ≠ Some f) (followingGates g)) ∧
  (Some f ∉ followingGates g →
   remFollow (Some f) (newFollow (Some f) g) = g).
Proof.
  assert (Hscan : ∀ g, remFollow (Some f) g
            = set_followingGates (erase_skipping (Some f) (followingGates g)) g).
  { intros g0. unfold remFollow. rewrite remFollow_loop_spec by lia.
    by rewrite take_0, drop_0. }
  split; [apply Hscan|]. split.
  - intros Hadj. rewrite Hscan. simpl. by apply erase_skipping_filter.
  - intros Hf. rewrite Hscan. simpl. rewrite decide_True by done.
    destruct g as [? ? fs ? ? ? ? ? ? ? ? ? ? ? ?]. simpl in *.
    unfold set_followingGates. simpl. f_equal.
    destruct fs as [|y r]; [done|].
    f_equal. apply erase_skipping_absent.
    intros Hin. apply Hf. by apply list_elem_of_further.
Qed.

Lemma remFollow_scan_witness :
  remFollow (Some 1%nat) (newFollow (Some 1%nat)
                            (newFollow (Some 2%nat) (Gate_new "G")))
  = newFollow (Some 2%nat) (Gate_new "G").
Proof.
  apply (remFollow_scan 1 (newFollow (Some 2%nat) (Gate_new "G"))).
  simpl. intros H. apply list_elem_of_singleton in H. done.
Defined.

(** X15.  [dualRailReduction] changes neither the store nor the network,
    whatever the heuristic level: at level 0 it reads each output pointer
    and drops it. *)
Theorem dualRailReduction_changes_nothing (level : Z) (net : Net.BooleanNet) (h : heap) :
  dualRailReduction level net h = Some (tt, h).
Proof.
  unfold dualRailReduction. destruct (level =? 0); [|done].
  unfold for_loop. unfold bind at 1. unfold ret at 1.
  assert (H : ∀ n k i, for_go (ret n) (λ _, ret tt) k i h = Some (tt, h) ∨
                       ((i < n)%nat ∧ (k + i < n)%nat)).
  { intros n k0. induction k0 as [|k0 IH]; intros i; simpl; unfold bind, ret.
    - destruct (Nat.ltb_spec i n); [right; lia|by left].
    - destruct (Nat.ltb_spec i n); [|by left].
      destruct (IH (S i)) as [?|?]; [by left|right; lia]. }
  destruct (H (length (Net.outputs net)) (length (Net.outputs net)) 0%nat)
    as [E|?]; [|lia].
  exact E.
Qed.

(** *** SCOAP *)

Lemma scoap_sum_insert h a g g' :
  h !! a = Some g →
  scoap_sum (<[a := g']> h) = scoap_sum h - scoap_weight g + scoap_weight g'.
Proof.
  unfold scoap_weight.
  revert a. induction h as [|g0 h IH]; intros [|a] Hg; simpl in *; try done.
  - injection Hg as ->. lia.
  - rewrite (IH a Hg). lia.
Qed.

Lemma scoap_sum_nonneg h : scoap_ok h → 0 ≤ scoap_sum h.
Proof.
  induction h as [|g h IH]; intros Hok; simpl; [done|].
  destruct (Hok 0%nat g eq_refl) as (? & ? & ?).
  assert (0 ≤ scoap_sum h); [|lia].
  apply IH. intros a g' Hg'. by apply (Hok (S a)).
Qed.

Lemma set_scoapParams_id g : set_scoapParams (scoapParams g) g = g.
Proof. by destruct g. Qed.

Lemma scoap_only_refl h : scoap_only h h.
Proof.
  split; [done|]. intros c g Hg. exists (scoapParams g).
  by rewrite set_scoapParams_id.
Qed.

Lemma cc_lowered_only h h' : cc_lowered h h' → scoap_only h h'.
Proof.
  intros [L K]. split; [done|]. intros c g Hg.
  destruct (K c g Hg) as (x & y & Hc & _). rewrite Hc. by eexists.
Qed.

Lemma co_lowered_only h h' : co_lowered h h' → scoap_only h h'.
Proof.
  intros [L K]. split; [done|]. intros c g Hg.
  destruct (K c g Hg) as (z & Hc & _). rewrite Hc. by eexists.
Qed.

Lemma scoap_only_valid h h' p : scoap_only h h' → valid h p → valid h' p.
Proof.
  intros [_ K] (a & g & -> & Hg). destruct (K a g Hg) as (s & Hs).
  exists a. eauto.
Qed.

Lemma scoap_only_wired h h' : scoap_only h h' → wired h → wired h'.
Proof.
  intros Ho Hw a g' Hg'. pose proof Ho as [L K].
  assert (Ha : (a < length h)%nat).
  { rewrite <- L. by eapply lookup_lt_Some. }
  destruct (lookup_lt_is_Some_2 h a Ha) as [g Hg].
  destruct (K a g Hg) as (s & Hs). assert (g' = set_scoapParams s g) as -> by congruence.
  destruct (Hw a g Hg) as [Hi Hf]. simpl.
  split; (eapply Forall_impl; [eassumption|]); intros p Hp;
    by eapply scoap_only_valid.
Qed.

Lemma cc_lowered_refl h : cc_lowered h h.
Proof.
  split; [done|]. intros c g Hg.
  exists (get0Controlability g), (get1Controlability g).
  split; [|split; lia]. rewrite Hg. f_equal.
  destruct g as [? ? ? ? ? ? ? ? ? ? ? ? ? [? ? ?] ?]. done.
Qed.

Lemma cc_lowered_trans h1 h2 h3 :
  cc_lowered h1 h2 → cc_lowered h2 h3 → cc_lowered h1 h3.
Proof.
  intros [L1 K1] [L2 K2]. split; [congruence|].
  intros c g Hg. destruct (K1 c g Hg) as (x1 & y1 & H1 & Hx1 & Hy1).
  destruct (K2 c _ H1) as (x2 & y2 & H2 & Hx2 & Hy2).
  exists x2, y2. split; [rewrite H2; by destruct g|].
  unfold get0Controlability, get1Controlability in *. simpl in *. lia.
Qed.

Lemma cc_lowered_insert h a g x y :
  h !! a = Some g → x ≤ get0Controlability g → y ≤ get1Controlability g →
  cc_lowered h (<[a := set_cc1 y (set_cc0 x g)]> h).
Proof.
  intros Hg Hx Hy. assert (Ha : (a < length h)%nat) by (by eapply lookup_lt_Some).
  split; [by rewrite length_insert|]. intros c g0 Hg0.
  destruct (decide (a = c)) as [->|Hne].
  - exists x, y. rewrite list_lookup_insert_eq by done.
    assert (g0 = g) as -> by congruence. done.
  - rewrite list_lookup_insert_ne by done.
    destruct (cc_lowered_refl h) as [_ K]. apply K. done.
Qed.

Lemma scoap_ok_insert h a g' :
  scoap_ok h →
  0 ≤ cc0 (scoapParams g') → 0 ≤ cc1 (scoapParams g') →
  0 ≤ co (scoapParams g') →
  scoap_ok (<[a := g']> h).
Proof.
  intros Hok H0 H1 H2 c g Hc.
  destruct (decide (c = a)) as [->|Hne].
  - destruct (decide (a < length h)%nat).
    + rewrite list_lookup_insert_eq in Hc by done. injection Hc as <-. done.
    + rewrite list_insert_ge in Hc by lia. by apply (Hok a).
  - rewrite list_lookup_insert_ne in Hc by done. by apply (Hok c).
Qed.

Lemma uint_add_nonneg a b : 0 ≤ uint_add a b.
Proof. unfold uint_add. apply to_unsigned_nonneg. Qed.

Lemma cc_loop_runs a g h :
  wired h → h !! a = Some g →
  ∀ k i x y, (getFanIn g ≤ k + i)%nat →
    ∃ x' y', cc_loop (Some a) k i x y h = Some ((x', y'), h).
Proof.
  intros Hw Hg. induction k as [|k IH]; intros i x y Hk; simpl.
  - unfold bind, query. rewrite Hg.
    destruct (Nat.ltb_spec i (getFanIn g)); [lia|]. by eexists _, _.
  - unfold bind at 1. unfold query at 1. rewrite Hg.
    destruct (Nat.ltb_spec i (getFanIn g)) as [Hlt|Hge]; [|by eexists _, _].
    unfold bind at 1. unfold query at 1. rewrite Hg.
    unfold bind at 1. unfold query at 1. rewrite Hg.
    unfold bind at 1. unfold query at 1. rewrite Hg.
    destruct (lookup_lt_is_Some_2 (inputs g) i Hlt) as [d Hd].
    assert (Hvd : valid h d).
    { eapply Forall_forall; [exact (proj1 (Hw a g Hg))|].
      by eapply list_elem_of_lookup_2. }
    destruct Hvd as (b & gb & -> & Hgb).
    assert (Ed : getDriver i g = Some b) by (unfold getDriver; by rewrite Hd).
    rewrite Ed.
    unfold bind at 1. unfold query at 1. rewrite Hgb.
    unfold bind at 1. unfold query at 1. rewrite Hgb.
    destruct (getFunction g), (isInputInverting i g); apply IH; lia.
Qed.

Lemma lower_step (a : nat) (g : Gate) (h : heap) (new cur : Z) (set : Z → Gate → Gate) :
  h !! a = Some g → set cur g = g →
  (if new <? cur then call (Some a) (set new) ;;; ret true else ret false) h
  = Some (new <? cur, <[a := set (Z.min new cur) g]> h).
Proof.
  intros Hg Hid. destruct (Z.ltb_spec new cur).
  - unfold bind, call. rewrite Hg. unfold ret. by rewrite Z.min_l by lia.
  - unfold ret. rewrite Z.min_r by lia. by rewrite Hid, list_insert_id.
Qed.

Lemma follower_loop_runs (I : heap → Prop) (body : ptr → M unit) a g h :
  h !! a = Some g →
  (∀ h', I h' → ∃ g', h' !! a = Some g' ∧ followingGates g' = followingGates g) →
  (∀ f h', f ∈ followingGates g → I h' → ∃ h'', body f h' = Some (tt, h'') ∧ I h'') →
  I h →
  ∃ h', for_loop (query (Some a) getFanOut)
          (λ i, f <- query (Some a) (getFollow i) ;; body f) h = Some (tt, h') ∧
        I h'.
Proof.
  intros Hg Hkeep Hbody HI.
  apply (for_loop_runs I _ _ (length (followingGates g))); [| |done].
  - intros h' HI'. destruct (Hkeep h' HI') as (g' & Hg' & Ef).
    unfold query. rewrite Hg'. unfold getFanOut. by rewrite Ef.
  - intros i h' Hi HI'. destruct (Hkeep h' HI') as (g' & Hg' & Ef).
    unfold bind, query. rewrite Hg'.
    destruct (lookup_lt_is_Some_2 _ i Hi) as [f Hf].
    unfold getFollow. rewrite Ef, Hf. simpl.
    destruct (Hbody f h') as (h'' & -> & HI''); [|done|by eexists _, _].
    by eapply list_elem_of_lookup_2.
Qed.

Lemma computeControlability_runs_measure fuel : ∀ h a g,
  wired h → scoap_ok h → h !! a = Some g →
  scoap_sum h < Z.of_nat fuel →
  ∃ h', computeControlability fuel (Some a) h = Some (tt, h') ∧
        cc_lowered h h' ∧ scoap_ok h' ∧ scoap_sum h' ≤ scoap_sum h.
Proof.
  induction fuel as [|fuel IH]; intros h a g Hw Hok Hg Hm.
  { pose proof (scoap_sum_nonneg h Hok). lia. }
  assert (Ha : (a < length h)%nat) by (by eapply lookup_lt_Some).
  simpl. unfold bind at 1. unfold query at 1. rewrite Hg.
  unfold bind at 1. unfold query at 1. rewrite Hg.
  destruct (cc_loop_runs a g h Hw Hg (getFanIn g) 0
              (cc_start (getFunction g)).1 (cc_start (getFunction g)).2)
    as (x & y & Eloop); [lia|].
  rewrite (bind_run _ _ _ _ _ Eloop). simpl fst. simpl snd.
  unfold bind at 1. unfold query at 1. rewrite Hg.
  set (new0 := if isOutputInverting g then uint_add y 1 else uint_add x 1).
  set (new1 := if isOutputInverting g then uint_add x 1 else uint_add y 1).
  assert (Hn0 : 0 ≤ new0) by (unfold new0; destruct (isOutputInverting g);
                              apply uint_add_nonneg).
  assert (Hn1 : 0 ≤ new1) by (unfold new1; destruct (isOutputInverting g);
                              apply uint_add_nonneg).
  destruct (Hok a g Hg) as (Hc0 & Hc1 & Hco).
  unfold bind at 1. unfold query at 1. rewrite Hg.
  rewrite (bind_run _ _ _ _ _
             (lower_step a g h new0 (get0Controlability g) set_cc0 Hg
                ltac:(by destruct g as [? ? ? ? ? ? ? ? ? ? ? ? ? [? ? ?] ?]))).
  set (g1 := set_cc0 (Z.min new0 (get0Controlability g)) g).
  assert (H1 : <[a := g1]> h !! a = Some g1) by (by apply list_lookup_insert_eq).
  unfold bind at 1. unfold query at 1. rewrite H1.
  rewrite (bind_run _ _ _ _ _
             (lower_step a g1 _ new1 (get1Controlability g1) set_cc1 H1
                ltac:(by destruct g as [? ? ? ? ? ? ? ? ? ? ? ? ? [? ? ?] ?]))).
  rewrite list_insert_insert_eq.
  set (g2 := set_cc1 (Z.min new1 (get1Controlability g1)) g1).
  set (h2 := <[a := g2]> h).
  assert (H2 : h2 !! a = Some g2) by (by apply list_lookup_insert_eq).
  assert (Hl2 : cc_lowered h h2).
  { apply cc_lowered_insert; [done|lia|].
    change (get1Controlability g1) with (get1Controlability g). lia. }
  assert (Hok2 : scoap_ok h2).
  { apply scoap_ok_insert; [done|simpl..].
    - unfold get0Controlability. lia.
    - change (get1Controlability g1) with (cc1 (scoapParams g)). lia.
    - done. }
  assert (Hm2 : scoap_sum h2 = scoap_sum h
                  - (get0Controlability g - Z.min new0 (get0Controlability g))
                  - (get1Controlability g - Z.min new1 (get1Controlability g))).
  { unfold h2. rewrite (scoap_sum_insert h a g g2 Hg).
    unfold scoap_weight, get0Controlability, get1Controlability. simpl.
    change (get1Controlability g1) with (cc1 (scoapParams g)).
    unfold get0Controlability. lia. }
  change (get1Controlability g1) with (get1Controlability g) in *.
  destruct ((new0 <? get0Controlability g) || (new1 <? get1Controlability g))
    eqn:Ech.
  2: { exists h2. split; [done|]. split; [done|]. split; [done|]. lia. }
  assert (Hdrop : scoap_sum h2 < scoap_sum h).
  { apply orb_true_iff in Ech as [E|E]; apply Z.ltb_lt in E; lia. }
  destruct (follower_loop_runs
              (λ h3, cc_lowered h2 h3 ∧ scoap_ok h3 ∧ scoap_sum h3 ≤ scoap_sum h2)
              (computeControlability fuel) a g2 h2 H2)
    as (h3 & E3 & Hl3 & Hok3 & Hm3).
  - intros h3 (Hl3 & _). destruct (proj2 Hl3 a g2 H2) as (x3 & y3 & H3 & _).
    eexists. split; [exact H3|done].
  - intros f h3 Hf (Hl3 & Hok3 & Hm3).
    pose proof (cc_lowered_trans _ _ _ Hl2 Hl3) as Hl.
    assert (Hw3 : wired h3) by (by eapply scoap_only_wired; [apply cc_lowered_only|]).
    assert (Hvf : valid h3 f).
    { eapply scoap_only_valid; [by apply cc_lowered_only|].
      eapply Forall_forall; [exact (proj2 (Hw a g Hg))|]. exact Hf. }
    destruct Hvf as (b & gb & -> & Hgb).
    destruct (IH h3 b gb Hw3 Hok3 Hgb ltac:(lia)) as (h4 & E4 & Hl4 & Hok4 & Hm4).
    exists h4. split; [done|]. split; [by eapply cc_lowered_trans|].
    split; [done|lia].
  - split; [apply cc_lowered_refl|]. split; [done|lia].
  - exists h3. split; [done|]. split; [by eapply cc_lowered_trans|].
    split; [done|lia].
Qed.

Lemma co_lowered_refl h : co_lowered h h.
Proof.
  split; [done|]. intros c g Hg. exists (getObservability g).
  split; [|lia]. rewrite Hg. f_equal.
  destruct g as [? ? ? ? ? ? ? ? ? ? ? ? ? [? ? ?] ?]. done.
Qed.

Lemma co_lowered_trans h1 h2 h3 :
  co_lowered h1 h2 → co_lowered h2 h3 → co_lowered h1 h3.
Proof.
  intros [L1 K1] [L2 K2]. split; [congruence|].
  intros c g Hg. destruct (K1 c g Hg) as (z1 & H1 & Hz1).
  destruct (K2 c _ H1) as (z2 & H2 & Hz2).
  exists z2. split; [rewrite H2; by destruct g|].
  unfold getObservability in *. simpl in *. lia.
Qed.

Lemma co_lowered_insert h a g z :
  h !! a = Some g → z ≤ getObservability g →
  co_lowered h (<[a := set_co z g]> h).
Proof.
  intros Hg Hz. assert (Ha : (a < length h)%nat) by (by eapply lookup_lt_Some).
  split; [by rewrite length_insert|]. intros c g0 Hg0.
  destruct (decide (a = c)) as [->|Hne].
  - exists z. rewrite list_lookup_insert_eq by done.
    assert (g0 = g) as -> by congruence. done.
  - rewrite list_lookup_insert_ne by done.
    destruct (co_lowered_refl h) as [_ K]. apply K. done.
Qed.

Lemma scoap_only_insert h a g s :
  h !! a = Some g → scoap_only h (<[a := set_scoapParams s g]> h).
Proof.
  intros Hg. assert (Ha : (a < length h)%nat) by (by eapply lookup_lt_Some).
  split; [by rewrite length_insert|]. intros c g0 Hg0.
  destruct (decide (a = c)) as [->|Hne].
  - exists s. rewrite list_lookup_insert_eq by done. congruence.
  - rewrite list_lookup_insert_ne by done. by apply scoap_only_refl.
Qed.

Lemma ccSum_loop_runs this f gf and_ h :
  wired h → h !! f = Some gf →
  ∀ k j s, (getFanIn gf ≤ k + j)%nat →
    ∃ s', ccSum_loop this (Some f) and_ k j s h = Some (s', h).
Proof.
  intros Hw Hg. induction k as [|k IH]; intros j s Hk; simpl.
  - unfold bind, query. rewrite Hg.
    destruct (Nat.ltb_spec j (getFanIn gf)); [lia|]. by eexists.
  - unfold bind at 1. unfold query at 1. rewrite Hg.
    destruct (Nat.ltb_spec j (getFanIn gf)) as [Hlt|Hge]; [|by eexists].
    unfold bind at 1. unfold query at 1. rewrite Hg.
    destruct (decide (getDriver j gf = this)) as [E|E]; [apply IH; lia|].
    unfold bind at 1. unfold query at 1. rewrite Hg.
    destruct (lookup_lt_is_Some_2 (inputs gf) j Hlt) as [d Hd].
    assert (Hvd : valid h d).
    { eapply Forall_forall; [exact (proj1 (Hw f gf Hg))|].
      by eapply list_elem_of_lookup_2. }
    destruct Hvd as (b & gb & -> & Hgb).
    assert (Ed : getDriver j gf = Some b) by (unfold getDriver; by rewrite Hd).
    rewrite Ed. unfold bind at 1. unfold query at 1. rewrite Hgb.
    apply IH. lia.
Qed.

Lemma wired_set_scoap h a g s :
  wired h → h !! a = Some g → wired (<[a := set_scoapParams s g]> h).
Proof.
  intros Hw Hg. eapply scoap_only_wired; [|exact Hw].
  by apply scoap_only_insert.
Qed.

Lemma co_loop_runs a : ∀ k i ch h g,
  wired h → h !! a = Some g → (getFanOut g ≤ k + i)%nat →
  0 ≤ getObservability g →
  ∃ z b, co_loop (Some a) k i ch h = Some (b, <[a := set_co z g]> h) ∧
         0 ≤ z ≤ getObservability g ∧
         (b = ch ∧ z = getObservability g ∨ b = true ∧ z < getObservability g).
Proof.
  induction k as [|k IH]; intros i ch h g Hw Hg Hk Hco; simpl.
  - unfold bind, query. rewrite Hg.
    destruct (Nat.ltb_spec i (getFanOut g)); [lia|].
    exists (getObservability g), ch. split; [|split; [lia|by left]].
    unfold ret. do 2 f_equal. symmetry.
    replace (set_co (getObservability g) g) with g
      by (by destruct g as [? ? ? ? ? ? ? ? ? ? ? ? ? [? ? ?] ?]).
    by apply list_insert_id.
  - unfold bind at 1. unfold query at 1. rewrite Hg.
    assert (Hid : <[a := set_co (getObservability g) g]> h = h).
    { replace (set_co (getObservability g) g) with g
        by (by destruct g as [? ? ? ? ? ? ? ? ? ? ? ? ? [? ? ?] ?]).
      by apply list_insert_id. }
    destruct (Nat.ltb_spec i (getFanOut g)) as [Hlt|Hge].
    2: { exists (getObservability g), ch. split; [|split; [lia|by left]].
         unfold ret. by rewrite Hid. }
    unfold bind at 1. unfold query at 1. rewrite Hg.
    destruct (lookup_lt_is_Some_2 (followingGates g) i Hlt) as [f Hf].
    assert (Hvf : valid h f).
    { eapply Forall_forall; [exact (proj2 (Hw a g Hg))|].
      by eapply list_elem_of_lookup_2. }
    destruct Hvf as (b & gb & -> & Hgb).
    assert (Ef : getFollow i g = Some b) by (unfold getFollow; by rewrite Hf).
    rewrite Ef. unfold bind at 1. unfold query at 1. rewrite Hgb.
    assert (Hnext : ∃ coNext,
              match getFunction gb with
              | AND =>
                  m <- query (Some b) getFanIn ;;
                  ccSum <- ccSum_loop (Some a) (Some b) true m 0 0 ;;
                  cof <- query (Some b) getObservability ;;
                  ret (uint_add (uint_add cof ccSum) 1)
              | OR =>
                  m <- query (Some b) getFanIn ;;
                  ccSum <- ccSum_loop (Some a) (Some b) false m 0 0 ;;
                  cof <- query (Some b) getObservability ;;
                  ret (uint_add (uint_add cof ccSum) 1)
              | _ =>
                  cof <- query (Some b) getObservability ;;
                  ret (uint_add cof 1)
              end h = Some (coNext, h) ∧ 0 ≤ coNext).
    { destruct (getFunction gb).
      - eexists. unfold bind, query. rewrite Hgb. split; [done|].
        apply uint_add_nonneg.
      - destruct (ccSum_loop_runs (Some a) b gb true h Hw Hgb (getFanIn gb) 0 0)
          as (s & Es); [lia|].
        eexists. unfold bind at 1. unfold query at 1. rewrite Hgb.
        rewrite (bind_run _ _ _ _ _ Es). unfold bind, query. rewrite Hgb.
        split; [done|]. apply uint_add_nonneg.
      - destruct (ccSum_loop_runs (Some a) b gb false h Hw Hgb (getFanIn gb) 0 0)
          as (s & Es); [lia|].
        eexists. unfold bind at 1. unfold query at 1. rewrite Hgb.
        rewrite (bind_run _ _ _ _ _ Es). unfold bind, query. rewrite Hgb.
        split; [done|]. apply uint_add_nonneg.
      - eexists. unfold bind, query. rewrite Hgb. split; [done|].
        apply uint_add_nonneg. }
    destruct Hnext as (coNext & Enext & Hnn).
    rewrite (bind_run _ _ _ _ _ Enext).
    unfold bind at 1. unfold query at 1. rewrite Hg.
    destruct (Z.ltb_spec coNext (getObservability g)) as [Hless|Hnot].
    + rewrite (bind_run _ _ _ _ _ (call_run a g _ h Hg)).
      destruct (IH (S i) true (<[a := set_co coNext g]> h) (set_co coNext g))
        as (z & b' & E & Hz & Hb).
      * by apply wired_set_scoap.
      * apply list_lookup_insert_eq. by eapply lookup_lt_Some.
      * unfold getFanOut in *. simpl. lia.
      * done.
      * exists z, b'. rewrite E, list_insert_insert_eq.
        split; [done|]. unfold getObservability in *. simpl in *.
        split; [lia|]. right. destruct Hb as [[-> ->]|[-> ?]]; split; (done || lia).
    + destruct (IH (S i) ch h g Hw Hg ltac:(lia) Hco) as (z & b' & E & Hz & Hb).
      by exists z, b'.
Qed.

Lemma driver_loop_runs (I : heap → Prop) (body : ptr → M unit) a g h :
  h !! a = Some g →
  (∀ h', I h' → ∃ g', h' !! a = Some g' ∧ inputs g' = inputs g) →
  (∀ d h', d ∈ inputs g → I h' → ∃ h'', body d h' = Some (tt, h'') ∧ I h'') →
  I h →
  ∃ h', for_loop (query (Some a) getFanIn)
          (λ i, d <- query (Some a) (getDriver i) ;; body d) h = Some (tt, h') ∧
        I h'.
Proof.
  intros Hg Hkeep Hbody HI.
  apply (for_loop_runs I _ _ (length (inputs g))); [| |done].
  - intros h' HI'. destruct (Hkeep h' HI') as (g' & Hg' & Ef).
    unfold query. rewrite Hg'. unfold getFanIn. by rewrite Ef.
  - intros i h' Hi HI'. destruct (Hkeep h' HI') as (g' & Hg' & Ef).
    unfold bind, query. rewrite Hg'.
    destruct (lookup_lt_is_Some_2 _ i Hi) as [d Hd].
    unfold getDriver. rewrite Ef, Hd. simpl.
    destruct (Hbody d h') as (h'' & -> & HI''); [|done|by eexists _, _].
    by eapply list_elem_of_lookup_2.
Qed.

Lemma computeObservability_runs_measure fuel : ∀ h a g,
  wired h → scoap_ok h → h !! a = Some g →
  scoap_sum h < Z.of_nat fuel →
  ∃ h', computeObservability fuel (Some a) h = Some (tt, h') ∧
        co_lowered h h' ∧ scoap_ok h' ∧ scoap_sum h' ≤ scoap_sum h.
Proof.
  induction fuel as [|fuel IH]; intros h a g Hw Hok Hg Hm.
  { pose proof (scoap_sum_nonneg h Hok). lia. }
  assert (Ha : (a < length h)%nat) by (by eapply lookup_lt_Some).
  destruct (Hok a g Hg) as (Hc0 & Hc1 & Hco).
  simpl. unfold bind at 1. unfold query at 1. rewrite Hg.
  destruct (co_loop_runs a (getFanOut g) 0 false h g Hw Hg ltac:(lia) Hco)
    as (z & b & Eloop & Hz & Hb).
  rewrite (bind_run _ _ _ _ _ Eloop).
  set (g1 := set_co z g). set (h1 := <[a := g1]> h).
  assert (H1 : h1 !! a = Some g1) by (by apply list_lookup_insert_eq).
  assert (Hl1 : co_lowered h h1) by (apply co_lowered_insert; [done|lia]).
  assert (Hok1 : scoap_ok h1) by (apply scoap_ok_insert; simpl; (done || lia)).
  assert (Hm1 : scoap_sum h1 = scoap_sum h - (getObservability g - z)).
  { unfold h1. rewrite (scoap_sum_insert h a g g1 Hg).
    unfold scoap_weight, getObservability. simpl. lia. }
  destruct b.
  2: { exists h1. split; [done|]. split; [done|]. split; [done|]. lia. }
  destruct Hb as [[? _]|[_ Hlt]]; [done|].
  destruct (driver_loop_runs
              (λ h3, co_lowered h1 h3 ∧ scoap_ok h3 ∧ scoap_sum h3 ≤ scoap_sum h1)
              (computeObservability fuel) a g1 h1 H1)
    as (h3 & E3 & Hl3 & Hok3 & Hm3).
  - intros h3 (Hl3 & _). destruct (proj2 Hl3 a g1 H1) as (z3 & H3 & _).
    eexists. split; [exact H3|done].
  - intros d h3 Hd (Hl3 & Hok3 & Hm3).
    pose proof (co_lowered_trans _ _ _ Hl1 Hl3) as Hl.
    assert (Hw3 : wired h3) by (by eapply scoap_only_wired; [apply co_lowered_only|]).
    assert (Hvd : valid h3 d).
    { eapply scoap_only_valid; [by apply co_lowered_only|].
      eapply Forall_forall; [exact (proj1 (Hw a g Hg))|]. exact Hd. }
    destruct Hvd as (b & gb & -> & Hgb).
    destruct (IH h3 b gb Hw3 Hok3 Hgb ltac:(lia)) as (h4 & E4 & Hl4 & Hok4 & Hm4).
    exists h4. split; [done|]. split; [by eapply co_lowered_trans|].
    split; [done|lia].
  - split; [apply co_lowered_refl|]. split; [done|lia].
  - exists h3. split; [done|]. split; [by eapply co_lowered_trans|].
    split; [done|lia].
Qed.

Lemma wired_insert h a g g' :
  wired h → h !! a = Some g →
  inputs g' = inputs g → followingGates g' = followingGates g →
  wired (<[a := g']> h).
Proof.
  intros Hw Hg Ei Ef c gc Hc.
  assert (Ha : (a < length h)%nat) by (by eapply lookup_lt_Some).
  assert (Hold : Forall (valid h) (inputs gc) ∧ Forall (valid h) (followingGates gc)).
  { destruct (decide (c = a)) as [->|Hne].
    - rewrite list_lookup_insert_eq in Hc by done. injection Hc as <-.
      rewrite Ei, Ef. by apply (Hw a g).
    - rewrite list_lookup_insert_ne in Hc by done. by apply (Hw c gc). }
  destruct Hold as [Hi Hf].
  split; (eapply Forall_impl; [eassumption|]); intros; by apply valid_insert.
Qed.

Lemma setControlability_runs fuel h a g c0 c1 :
  wired h → scoap_ok h → h !! a = Some g → 0 ≤ c0 → 0 ≤ c1 →
  scoap_sum h + c0 + c1 < Z.of_nat fuel →
  ∃ h', setControlability fuel (Some a) c0 c1 h = Some (tt, h') ∧
        cc_lowered (<[a := set_cc1 c1 (set_cc0 c0 g)]> h) h' ∧
        scoap_ok h' ∧ scoap_sum h' ≤ scoap_sum h + c0 + c1.
Proof.
  intros Hw Hok Hg H0 H1 Hm.
  assert (Ha : (a < length h)%nat) by (by eapply lookup_lt_Some).
  destruct (Hok a g Hg) as (Hc0 & Hc1 & Hco).
  unfold setControlability.
  rewrite (bind_run _ _ _ _ _ (call_run a g _ h Hg)).
  assert (E1 : <[a := set_cc0 c0 g]> h !! a = Some (set_cc0 c0 g))
    by (by apply list_lookup_insert_eq).
  rewrite (bind_run _ _ _ _ _ (call_run a _ _ _ E1)).
  rewrite list_insert_insert_eq.
  set (g1 := set_cc1 c1 (set_cc0 c0 g)). set (h1 := <[a := g1]> h).
  assert (H1' : h1 !! a = Some g1) by (by apply list_lookup_insert_eq).
  assert (Hw1 : wired h1) by (by eapply wired_insert).
  assert (Hok1 : scoap_ok h1) by (by apply scoap_ok_insert).
  assert (Hm1 : scoap_sum h1 ≤ scoap_sum h + c0 + c1).
  { unfold h1. rewrite (scoap_sum_insert h a g g1 Hg).
    unfold scoap_weight. simpl. lia. }
  destruct (follower_loop_runs
              (λ h3, cc_lowered h1 h3 ∧ scoap_ok h3 ∧ scoap_sum h3 ≤ scoap_sum h1)
              (computeControlability fuel) a g1 h1 H1')
    as (h3 & E3 & Hl3 & Hok3 & Hm3).
  - intros h3 (Hl3 & _). destruct (proj2 Hl3 a g1 H1') as (x3 & y3 & H3 & _).
    eexists. split; [exact H3|done].
  - intros f h3 Hf (Hl3 & Hok3 & Hm3).
    assert (Hw3 : wired h3) by (by eapply scoap_only_wired; [apply cc_lowered_only|]).
    assert (Hvf : valid h3 f).
    { eapply scoap_only_valid; [by apply cc_lowered_only|].
      eapply Forall_forall; [exact (proj2 (Hw1 a g1 H1'))|]. exact Hf. }
    destruct Hvf as (b & gb & -> & Hgb).
    destruct (computeControlability_runs_measure fuel h3 b gb Hw3 Hok3 Hgb
                ltac:(lia)) as (h4 & E4 & Hl4 & Hok4 & Hm4).
    exists h4. split; [done|]. split; [by eapply cc_lowered_trans|].
    split; [done|lia].
  - split; [apply cc_lowered_refl|]. split; [done|lia].
  - exists h3. split; [done|]. split; [done|]. split; [done|lia].
Qed.

Lemma setObservability_runs fuel h a g z :
  wired h → scoap_ok h → h !! a = Some g → 0 ≤ z →
  scoap_sum h + z < Z.of_nat fuel →
  ∃ h', setObservability fuel (Some a) z h = Some (tt, h') ∧
        co_lowered (<[a := set_co z g]> h) h' ∧
        scoap_ok h' ∧ scoap_sum h' ≤ scoap_sum h + z.
Proof.
  intros Hw Hok Hg H0 Hm.
  assert (Ha : (a < length h)%nat) by (by eapply lookup_lt_Some).
  destruct (Hok a g Hg) as (Hc0 & Hc1 & Hco).
  unfold setObservability.
  rewrite (bind_run _ _ _ _ _ (call_run a g _ h Hg)).
  set (g1 := set_co z g). set (h1 := <[a := g1]> h).
  assert (H1' : h1 !! a = Some g1) by (by apply list_lookup_insert_eq).
  assert (Hw1 : wired h1) by (by eapply wired_insert).
  assert (Hok1 : scoap_ok h1) by (by apply scoap_ok_insert).
  assert (Hm1 : scoap_sum h1 ≤ scoap_sum h + z).
  { unfold h1. rewrite (scoap_sum_insert h a g g1 Hg).
    unfold scoap_weight. simpl. lia. }
  destruct (driver_loop_runs
              (λ h3, co_lowered h1 h3 ∧ scoap_ok h3 ∧ scoap_sum h3 ≤ scoap_sum h1)
              (computeObservability fuel) a g1 h1 H1')
    as (h3 & E3 & Hl3 & Hok3 & Hm3).
  - intros h3 (Hl3 & _). destruct (proj2 Hl3 a g1 H1') as (z3 & H3 & _).
    eexists. split; [exact H3|done].
  - intros d h3 Hd (Hl3 & Hok3 & Hm3).
    assert (Hw3 : wired h3) by (by eapply scoap_only_wired; [apply co_lowered_only|]).
    assert (Hvd : valid h3 d).
    { eapply scoap_only_valid; [by apply co_lowered_only|].
      eapply Forall_forall; [exact (proj1 (Hw1 a g1 H1'))|]. exact Hd. }
    destruct Hvd as (b & gb & -> & Hgb).
    destruct (computeObservability_runs_measure fuel h3 b gb Hw3 Hok3 Hgb
                ltac:(lia)) as (h4 & E4 & Hl4 & Hok4 & Hm4).
    exists h4. split; [done|]. split; [by eapply co_lowered_trans|].
    split; [done|lia].
  - split; [apply co_lowered_refl|]. split; [done|lia].
  - exists h3. split; [done|]. split; [done|]. split; [done|lia].
Qed.

(** X17.  On a store whose driver and follower pointers are valid, cyclic
    or not, [computeControlability] and [setControlability] return.  The
    former changes controllabilities only and raises none; the latter
    stores its arguments in the gate, after which the same holds. *)
Theorem controlability_lowers (h : heap) (a : nat) (g : Gate) (c0 c1 : Z) :
  wired h → scoap_ok h → h !! a = Some g → 0 ≤ c0 → 0 ≤ c1 →
  ∃ fuel0, ∀ fuel, (fuel0 ≤ fuel)%nat →
    (∃ h', computeControlability fuel (Some a) h = Some (tt, h') ∧
           cc_lowered h h') ∧
    (∃ h', setControlability fuel (Some a) c0 c1 h = Some (tt, h') ∧
           cc_lowered (<[a := set_cc1 c1 (set_cc0 c0 g)]> h) h').
Proof.
  intros Hw Hok Hg H0 H1.
  exists (S (Z.to_nat (scoap_sum h + c0 + c1))). intros fuel Hfuel.
  pose proof (scoap_sum_nonneg h Hok). split.
  - destruct (computeControlability_runs_measure fuel h a g Hw Hok Hg ltac:(lia))
      as (h' & E & Hl & _). by exists h'.
  - destruct (setControlability_runs fuel h a g c0 c1 Hw Hok Hg H0 H1 ltac:(lia))
      as (h' & E & Hl & _). by exists h'.
Qed.

(** X18.  On a store whose driver and follower pointers are valid, cyclic
    or not, [computeObservability] and [setObservability] return.  The
    former changes observabilities only and raises none; the latter stores
    its argument in the gate, after which the same holds. *)
Theorem observability_lowers (h : heap) (a : nat) (g : Gate) (z : Z) :
  wired h → scoap_ok h → h !! a = Some g → 0 ≤ z →
  ∃ fuel0, ∀ fuel, (fuel0 ≤ fuel)%nat →
    (∃ h', computeObservability fuel (Some a) h = Some (tt, h') ∧
           co_lowered h h') ∧
    (∃ h', setObservability fuel (Some a) z h = Some (tt, h') ∧
           co_lowered (<[a := set_co z g]> h) h').
Proof.
  intros Hw Hok Hg H0.
  exists (S (Z.to_nat (scoap_sum h + z))). intros fuel Hfuel.
  pose proof (scoap_sum_nonneg h Hok). split.
  - destruct (computeObservability_runs_measure fuel h a g Hw Hok Hg ltac:(lia))
      as (h' & E & Hl & _). by exists h'.
  - destruct (setObservability_runs fuel h a g z Hw Hok Hg H0 ltac:(lia))
      as (h' & E & Hl & _). by exists h'.
Qed.

Lemma sound_wired L h : sound L h → wired h.
Proof.
  intros Hs a g Hg. destruct (Hs a g Hg) as (Hi & Hf & _). split; [|done].
  eapply Forall_impl; [exact Hi|]. intros p (d & -> & Hd & _).
  destruct (lookup_lt_is_Some_2 h d Hd) as [gd Hgd]. by exists d, gd.
Qed.

Lemma loaded_or2_scoap net h :
  loaded 4 or2_aag = Some (net, h) → wired h ∧ scoap_ok h.
Proof.
  intros E. split.
  - destruct (loaded_or2_circuit net h E) as (_ & Hs & _).
    by eapply sound_wired.
  - vm_compute in E. injection E as <- <-. intros a g Hg.
    destruct a as [|[|[|[|a]]]]; simpl in Hg; try done;
      injection Hg as <-; vm_compute; repeat split; discriminate.
Qed.

Lemma controlability_lowers_witness :
  ∃ net h,
    loaded 4 or2_aag = Some (net, h) ∧
    ∃ fuel0, ∀ fuel, (fuel0 ≤ fuel)%nat →
      ∃ h', setControlability fuel (Some 0%nat) 1 1 h = Some (tt, h').
Proof.
  destruct (loaded 4 or2_aag) as [[net h]|] eqn:E; [|by vm_compute in E].
  exists net, h. split; [done|].
  destruct (loaded_or2_scoap net h E) as [Hw Hok].
  assert (∃ g, h !! 0%nat = Some g) as (g & Hg).
  { vm_compute in E. injection E as <- <-. by eexists. }
  destruct (controlability_lowers h 0 g 1 1 Hw Hok Hg) as (fuel0 & H); [lia..|].
  exists fuel0. intros fuel Hfuel.
  destruct (H fuel Hfuel) as (_ & h' & Hrun & _). by exists h'.
Defined.

Lemma observability_lowers_witness :
  ∃ net h,
    loaded 4 or2_aag = Some (net, h) ∧
    ∃ fuel0, ∀ fuel, (fuel0 ≤ fuel)%nat →
      ∃ h', setObservability fuel (Some 3%nat) 0 h = Some (tt, h').
Proof.
  destruct (loaded 4 or2_aag) as [[net h]|] eqn:E; [|by vm_compute in E].
  exists net, h. split; [done|].
  destruct (loaded_or2_scoap net h E) as [Hw Hok].
  assert (∃ g, h !! 3%nat = Some g) as (g & Hg).
  { vm_compute in E. injection E as <- <-. by eexists. }
  destruct (observability_lowers h 3 g 0 Hw Hok Hg) as (fuel0 & H); [lia|].
  exists fuel0. intros fuel Hfuel.
  destruct (H fuel Hfuel) as (_ & h' & Hrun & _). by exists h'.
Defined.

Lemma scoap_only_trans h1 h2 h3 :
  scoap_only h1 h2 → scoap_only h2 h3 → scoap_only h1 h3.
Proof.
  intros [L1 K1] [L2 K2]. split; [congruence|].
  intros c g Hg. destruct (K1 c g Hg) as (s1 & H1).
  destruct (K2 c _ H1) as (s2 & H2). exists s2. rewrite H2. by destruct g.
Qed.

Lemma controllable_cc_lowered h h' q :
  cc_lowered h h' → controllable h q → controllable h' q.
Proof.
  intros [_ K] (a & g & -> & Hg & H0 & H1).
  destruct (K a g Hg) as (x & y & Hg' & Hx & Hy).
  eexists a, _. split; [done|]. split; [exact Hg'|].
  unfold get0Controlability, get1Controlability in *. simpl. lia.
Qed.

Lemma controllable_co_lowered h h' q :
  co_lowered h h' → controllable h q → controllable h' q.
Proof.
  intros [_ K] (a & g & -> & Hg & H0 & H1).
  destruct (K a g Hg) as (z & Hg' & Hz).
  eexists a, _. split; [done|]. split; [exact Hg'|]. done.
Qed.

Lemma observable_cc_lowered h h' q :
  cc_lowered h h' → observable h q → observable h' q.
Proof.
  intros [_ K] (a & g & -> & Hg & H0).
  destruct (K a g Hg) as (x & y & Hg' & Hx & Hy).
  eexists a, _. split; [done|]. split; [exact Hg'|]. done.
Qed.

Lemma observable_co_lowered h h' q :
  co_lowered h h' → scoap_ok h' → observable h q → observable h' q.
Proof.
  intros [_ K] Hok (a & g & -> & Hg & H0).
  destruct (K a g Hg) as (z & Hg' & Hz).
  eexists a, _. split; [done|]. split; [exact Hg'|].
  destruct (Hok a _ Hg') as (_ & _ & Hco).
  unfold getObservability in *. simpl in *. lia.
Qed.

Lemma insert_keeps (Q : Gate → Prop) (h : heap) (a : nat) (g g' : Gate)
    (c : nat) (gc : Gate) :
  h !! a = Some g → h !! c = Some gc → Q gc → (c = a → Q g') →
  ∃ gc', <[a := g']> h !! c = Some gc' ∧ Q gc'.
Proof.
  intros Hg Hc HQ Hnew.
  assert (Ha : (a < length h)%nat) by (by eapply lookup_lt_Some).
  destruct (decide (c = a)) as [->|Hne].
  - exists g'. rewrite list_lookup_insert_eq by done. auto.
  - exists gc. by rewrite list_lookup_insert_ne.
Qed.

Lemma scoap_state_valid h0 B h p :
  scoap_state h0 B h → valid h0 p → valid h p.
Proof. intros (Ho & _) Hp. by eapply scoap_only_valid. Qed.

Lemma cc_step_runs fuel h0 B h p :
  valid h0 p → scoap_state h0 B h → B + 2 < Z.of_nat fuel →
  ∃ h', setControlability fuel p 1 1 h = Some (tt, h') ∧
        scoap_state h0 (B + 2) h' ∧ controllable h' p ∧
        (∀ q, controllable h q → controllable h' q) ∧
        (∀ q, observable h q → observable h' q).
Proof.
  intros Hp Hst Hfuel.
  destruct (scoap_state_valid _ _ _ _ Hst Hp) as (a & g & -> & Hg).
  destruct Hst as (Ho & Hw & Hok & Hm).
  assert (Ha : (a < length h)%nat) by (by eapply lookup_lt_Some).
  destruct (setControlability_runs fuel h a g 1 1 Hw Hok Hg) as
    (h' & E & Hl & Hok' & Hm'); [lia..|].
  set (g1 := set_cc1 1 (set_cc0 1 g)) in *.
  exists h'. split; [done|]. split.
  { split; [|split; [|split; [done|lia]]].
    - eapply scoap_only_trans; [exact Ho|].
      eapply scoap_only_trans; [|by apply cc_lowered_only].
      split; [by rewrite length_insert|]. intros c gc Hc.
      destruct (insert_keeps (λ x, ∃ s, x = set_scoapParams s gc) h a g g1 c gc Hg Hc)
        as (gc' & Hgc' & s & ->).
      + exists (scoapParams gc). by rewrite set_scoapParams_id.
      + intros ->. assert (gc = g) as -> by congruence. by eexists.
      + by exists s.
    - eapply scoap_only_wired; [by apply cc_lowered_only|].
      by eapply wired_insert. }
  split.
  { eapply controllable_cc_lowered; [exact Hl|].
    exists a, g1. split; [done|]. split; [by apply list_lookup_insert_eq|].
    unfold get0Controlability, get1Controlability. simpl. lia. }
  split.
  - intros q (c & gc & -> & Hc & H0 & H1).
    eapply controllable_cc_lowered; [exact Hl|].
    destruct (insert_keeps (λ x, get0Controlability x ≤ 1 ∧ get1Controlability x ≤ 1)
                h a g g1 c gc Hg Hc) as (gc' & Hgc' & ?); [done| |by exists c, gc'].
    intros _. unfold get0Controlability, get1Controlability. simpl. lia.
  - intros q (c & gc & -> & Hc & H0).
    eapply observable_cc_lowered; [exact Hl|].
    destruct (insert_keeps (λ x, getObservability x = 0)
                h a g g1 c gc Hg Hc) as (gc' & Hgc' & ?); [done| |by exists c, gc'].
    intros ->. assert (gc = g) as -> by congruence. done.
Qed.

Lemma co_step_runs fuel h0 B h p :
  valid h0 p → scoap_state h0 B h → B < Z.of_nat fuel →
  ∃ h', setObservability fuel p 0 h = Some (tt, h') ∧
        scoap_state h0 B h' ∧ observable h' p ∧
        (∀ q, controllable h q → controllable h' q) ∧
        (∀ q, observable h q → observable h' q).
Proof.
  intros Hp Hst Hfuel.
  destruct (scoap_state_valid _ _ _ _ Hst Hp) as (a & g & -> & Hg).
  destruct Hst as (Ho & Hw & Hok & Hm).
  assert (Ha : (a < length h)%nat) by (by eapply lookup_lt_Some).
  destruct (setObservability_runs fuel h a g 0 Hw Hok Hg) as
    (h' & E & Hl & Hok' & Hm'); [lia..|].
  set (g1 := set_co 0 g) in *.
  exists h'. split; [done|]. split.
  { split; [|split; [|split; [done|lia]]].
    - eapply scoap_only_trans; [exact Ho|].
      eapply scoap_only_trans; [|by apply co_lowered_only].
      by apply scoap_only_insert.
    - eapply scoap_only_wired; [by apply co_lowered_only|].
      by eapply wired_insert. }
  split.
  { eapply observable_co_lowered; [exact Hl|done|].
    exists a, g1. split; [done|]. split; [by apply list_lookup_insert_eq|done]. }
  split.
  - intros q (c & gc & -> & Hc & H0 & H1).
    eapply controllable_co_lowered; [exact Hl|].
    destruct (insert_keeps (λ x, get0Controlability x ≤ 1 ∧ get1Controlability x ≤ 1)
                h a g g1 c gc Hg Hc) as (gc' & Hgc' & ?); [done| |by exists c, gc'].
    intros ->. assert (gc = g) as -> by congruence. done.
  - intros q (c & gc & -> & Hc & H0).
    eapply observable_co_lowered; [exact Hl|done|].
    destruct (insert_keeps (λ x, getObservability x = 0)
                h a g g1 c gc Hg Hc) as (gc' & Hgc' & ?); [done| |by exists c, gc'].
    done.
Qed.

Lemma scoap_state_weaken h0 B B' h :
  B ≤ B' → scoap_state h0 B h → scoap_state h0 B' h.
Proof.
  intros HB (? & ? & ? & ?). split; [done|]. split; [done|]. split; [done|lia].
Qed.

(** One pass of [computeSumScoap]: [step] costs at most [inc], establishes
    [Q] for the gate it is given and keeps [Q] and [P] for the others. *)
Lemma scoap_pass_runs (step : ptr → M unit) (Q P : heap → ptr → Prop)
    (inc T : Z) h0 l :
  Forall (valid h0) l → 0 ≤ inc →
  (∀ p B h, valid h0 p → scoap_state h0 B h → B + inc ≤ T →
     ∃ h', step p h = Some (tt, h') ∧ scoap_state h0 (B + inc) h' ∧ Q h' p ∧
           (∀ q, Q h q → Q h' q) ∧ (∀ q, P h q → P h' q)) →
  ∀ base B h, scoap_state h0 B h → B + inc * Z.of_nat (length l) ≤ T →
    ∃ h', for_each (λ _ p, step p) base l h = Some (tt, h') ∧
          scoap_state h0 (B + inc * Z.of_nat (length l)) h' ∧
          (∀ p, p ∈ l → Q h' p) ∧
          (∀ q, Q h q → Q h' q) ∧ (∀ q, P h q → P h' q).
Proof.
  intros Hv Hinc Hstep. induction Hv as [|p l Hp _ IH]; intros base B h Hst HB.
  - exists h. split; [done|]. split.
    { eapply scoap_state_weaken; [|exact Hst]. simpl. lia. }
    split; [|done]. intros p Hp. by apply not_elem_of_nil in Hp.
  - simpl length in HB.
    destruct (Hstep p B h Hp Hst ltac:(lia)) as (h1 & E1 & Hst1 & HQ1 & HQk1 & HPk1).
    destruct (IH (S base) (B + inc) h1 Hst1 ltac:(lia))
      as (h2 & E2 & Hst2 & HQ2 & HQk2 & HPk2).
    exists h2. split.
    { simpl. by rewrite (bind_run _ _ _ _ _ E1). }
    split.
    { eapply scoap_state_weaken; [|exact Hst2]. simpl length. lia. }
    split; [|split; auto].
    intros q Hq. apply elem_of_cons in Hq as [->|Hq]; auto.
Qed.

Lemma sum_scoap_loop_runs h gs :
  Forall (valid h) gs →
  ∀ s, 0 ≤ s < 4294967296 →
       ∃ s', sum_scoap_loop gs s h = Some (s', h) ∧ 0 ≤ s' < 4294967296.
Proof.
  induction 1 as [|p gs (a & g & -> & Hg) _ IH]; intros s Hs; simpl.
  - by exists s.
  - unfold bind, query. rewrite !Hg. apply IH. apply to_unsigned_range.
Qed.

(** X19.  [computeSumScoap] returns on a wired store that holds the gates of
    the network.  It changes SCOAP numbers only; afterwards every input and
    buffer has both controllabilities at most 1 and every output and buffer
    has observability 0.  The value returned is stored in [netSumScoap] and
    is the sum that the last loop reads off the final store. *)
Theorem computeSumScoap_spec (net : Net.BooleanNet) (h : heap) :
  wired h → scoap_ok h →
  Forall (valid h) (Net.gates net ++ Net.inputs net ++ Net.outputs net
                    ++ Net.buffers net) →
  ∃ fuel0, ∀ fuel, (fuel0 ≤ fuel)%nat →
    ∃ net' h', computeSumScoap fuel net h = Some (net', h') ∧
      net' = set_netSumScoap (getSumScoap net') net ∧
      sum_scoap_loop (Net.gates net) 0 h' = Some (getSumScoap net', h') ∧
      0 ≤ getSumScoap net' < 4294967296 ∧
      scoap_only h h' ∧
      (∀ p, p ∈ Net.inputs net ++ Net.buffers net → controllable h' p) ∧
      (∀ p, p ∈ Net.outputs net ++ Net.buffers net → observable h' p).
Proof.
  intros Hw Hok Hv.
  apply Forall_app in Hv as [Hvg Hv]. apply Forall_app in Hv as [Hvi Hv].
  apply Forall_app in Hv as [Hvo Hvb].
  set (ni := Z.of_nat (length (Net.inputs net))).
  set (nb := Z.of_nat (length (Net.buffers net))).
  set (S0 := scoap_sum h). set (T := S0 + 2 * ni + 2 * nb).
  exists (S (Z.to_nat T)). intros fuel Hfuel.
  pose proof (scoap_sum_nonneg h Hok) as Hnn.
  assert (HT : T < Z.of_nat fuel) by lia.
  assert (Hst0 : scoap_state h S0 h).
  { split; [apply scoap_only_refl|]. split; [done|]. split; [done|unfold S0; lia]. }
  assert (Hcc : ∀ p B h1, valid h p → scoap_state h B h1 → B + 2 ≤ T →
            ∃ h', setControlability fuel p 1 1 h1 = Some (tt, h') ∧
                  scoap_state h (B + 2) h' ∧ controllable h' p ∧
                  (∀ q, controllable h1 q → controllable h' q) ∧
                  (∀ q, observable h1 q → observable h' q)).
  { intros p B h1 Hp Hst HB. apply cc_step_runs; [done|done|lia]. }
  assert (Hco : ∀ p B h1, valid h p → scoap_state h B h1 → B + 0 ≤ T →
            ∃ h', setObservability fuel p 0 h1 = Some (tt, h') ∧
                  scoap_state h (B + 0) h' ∧ observable h' p ∧
                  (∀ q, observable h1 q → observable h' q) ∧
                  (∀ q, controllable h1 q → controllable h' q)).
  { intros p B h1 Hp Hst HB.
    destruct (co_step_runs fuel h B h1 p Hp Hst ltac:(lia))
      as (h' & E & Hst' & ? & ? & ?).
    exists h'. rewrite Z.add_0_r. done. }
  destruct (scoap_pass_runs _ controllable observable 2 T h (Net.inputs net)
              Hvi ltac:(lia) Hcc 0%nat S0 h Hst0 ltac:(unfold T, ni; lia))
    as (h1 & E1 & Hst1 & Hi1 & _ & _).
  destruct (scoap_pass_runs _ controllable observable 2 T h (Net.buffers net)
              Hvb ltac:(lia) Hcc 0%nat _ h1 Hst1 ltac:(unfold T, ni, nb; lia))
    as (h2 & E2 & Hst2 & Hb2 & Hk2 & _).
  destruct (scoap_pass_runs _ observable controllable 0 T h (Net.outputs net)
              Hvo ltac:(lia) Hco 0%nat _ h2 Hst2 ltac:(unfold T, ni, nb; lia))
    as (h3 & E3 & Hst3 & Ho3 & _ & Hk3).
  destruct (scoap_pass_runs _ observable controllable 0 T h (Net.buffers net)
              Hvb ltac:(lia) Hco 0%nat _ h3 Hst3 ltac:(unfold T, ni, nb; lia))
    as (h4 & E4 & Hst4 & Hb4 & Hko4 & Hk4).
  destruct Hst4 as (Ho4 & _).
  destruct (sum_scoap_loop_runs h4 (Net.gates net)) with (s := 0)
    as (s & Es & Hs); [|lia|].
  { eapply Forall_impl; [exact Hvg|]. intros; by eapply scoap_only_valid. }
  exists (set_netSumScoap s net), h4. split.
  { unfold computeSumScoap.
    rewrite (bind_run _ _ _ _ _ E1), (bind_run _ _ _ _ _ E2),
      (bind_run _ _ _ _ _ E3), (bind_run _ _ _ _ _ E4),
      (bind_run _ _ _ _ _ Es). done. }
  split; [done|]. split; [done|]. split; [done|]. split; [done|]. split.
  - intros p Hp. apply elem_of_app in Hp as [Hp|Hp]; auto.
  - intros p Hp. apply elem_of_app in Hp as [Hp|Hp]; auto.
Qed.

Lemma computeSumScoap_spec_witness :
  ∃ net h,
    loaded 4 or2_aag = Some (net, h) ∧
    ∃ fuel0, ∀ fuel, (fuel0 ≤ fuel)%nat →
      ∃ net' h', computeSumScoap fuel net h = Some (net', h') ∧
        (∀ p, p ∈ Net.inputs net → controllable h' p) ∧
        (∀ p, p ∈ Net.outputs net → observable h' p).
Proof.
  destruct (loaded 4 or2_aag) as [[net h]|] eqn:E; [|by vm_compute in E].
  exists net, h. split; [done|].
  destruct (loaded_or2_scoap net h E) as [Hw Hok].
  destruct (wf_net_valid h net (proj1 (loaded_or2_wf net h E))) as (Hg & Hi & Ho).
  assert (Hb : Net.buffers net = []).
  { vm_compute in E. by injection E as <- _. }
  destruct (computeSumScoap_spec net h Hw Hok) as (fuel0 & H).
  { rewrite Hb, !Forall_app. done. }
  exists fuel0. intros fuel Hfuel.
  destruct (H fuel Hfuel) as (net' & h' & Hrun & _ & _ & _ & _ & Hc & Hob).
  exists net', h'. split; [done|].
  split; intros p Hp; [apply Hc|apply Hob]; apply elem_of_app; by left.
Defined.

(** *** Colouring a cone *)

Lemma elem_of_rev {A} (x : A) (l : list A) : x ∈ rev l ↔ x ∈ l.
Proof. rewrite !list_elem_of_In. symmetry. apply in_rev. Qed.

Lemma push_drivers_run a g h : ∀ k i gates,
  h !! a = Some g → (getFanIn g ≤ k + i)%nat →
  push_drivers (Some a) k i gates h
  = Some (rev (drop i (inputs g)) ++ gates, h).
Proof.
  induction k as [|k IH]; intros i gates Hg Hk; simpl.
  - unfold bind, query. rewrite Hg.
    destruct (Nat.ltb_spec i (getFanIn g)); [lia|].
    unfold getFanIn in *. by rewrite drop_ge by lia.
  - unfold bind at 1. unfold query at 1. rewrite Hg.
    destruct (Nat.ltb_spec i (getFanIn g)) as [Hlt|Hge].
    + unfold bind at 1. unfold query at 1. rewrite Hg.
      destruct (lookup_lt_is_Some_2 (inputs g) i Hlt) as [d Hd].
      rewrite IH by (done || lia). unfold getDriver. rewrite Hd. simpl.
      rewrite (drop_S _ _ _ Hd). simpl. by rewrite <- app_assoc.
    + unfold ret. unfold getFanIn in *. by rewrite drop_ge by lia.
Qed.

Lemma push_followers_run a g h : ∀ k i gates,
  h !! a = Some g → (getFanOut g ≤ k + i)%nat →
  push_followers (Some a) k i gates h
  = Some (rev (drop i (followingGates g)) ++ gates, h).
Proof.
  induction k as [|k IH]; intros i gates Hg Hk; simpl.
  - unfold bind, query. rewrite Hg.
    destruct (Nat.ltb_spec i (getFanOut g)); [lia|].
    unfold getFanOut in *. by rewrite drop_ge by lia.
  - unfold bind at 1. unfold query at 1. rewrite Hg.
    destruct (Nat.ltb_spec i (getFanOut g)) as [Hlt|Hge].
    + unfold bind at 1. unfold query at 1. rewrite Hg.
      destruct (lookup_lt_is_Some_2 (followingGates g) i Hlt) as [d Hd].
      rewrite IH by (done || lia). unfold getFollow. rewrite Hd. simpl.
      rewrite (drop_S _ _ _ Hd). simpl. by rewrite <- app_assoc.
    + unfold ret. unfold getFanOut in *. by rewrite drop_ge by lia.
Qed.

Lemma colorInTree_loop_walks c S h h' n :
  walks inputs c S h h' n →
  ∀ fuel, (n ≤ fuel)%nat → colorInTree_loop fuel c S h = Some (tt, h').
Proof.
  induction 1 as [h|a g rest h h' n Hg _ IH]; intros fuel Hfuel.
  - by destruct fuel.
  - destruct fuel as [|fuel]; [lia|]. simpl.
    assert (Ha : (a < length h)%nat) by (by eapply lookup_lt_Some).
    rewrite (bind_run _ _ _ _ _ (call_run a g _ h Hg)).
    unfold bind at 1. unfold query at 1.
    rewrite list_lookup_insert_eq by done.
    rewrite (bind_run _ _ _ _ _
               (push_drivers_run a (addColor c g) _ (getFanIn (addColor c g)) 0 rest
                  ltac:(by apply list_lookup_insert_eq) ltac:(lia))).
    rewrite drop_0. apply IH. lia.
Qed.

Lemma colorOutTree_loop_walks c S h h' n :
  walks followingGates c S h h' n →
  ∀ fuel, (n ≤ fuel)%nat → colorOutTree_loop fuel c S h = Some (tt, h').
Proof.
  induction 1 as [h|a g rest h h' n Hg _ IH]; intros fuel Hfuel.
  - by destruct fuel.
  - destruct fuel as [|fuel]; [lia|]. simpl.
    assert (Ha : (a < length h)%nat) by (by eapply lookup_lt_Some).
    rewrite (bind_run _ _ _ _ _ (call_run a g _ h Hg)).
    unfold bind at 1. unfold query at 1.
    rewrite list_lookup_insert_eq by done.
    rewrite (bind_run _ _ _ _ _
               (push_followers_run a (addColor c g) _ (getFanOut (addColor c g)) 0 rest
                  ltac:(by apply list_lookup_insert_eq) ltac:(lia))).
    rewrite drop_0. apply IH. lia.
Qed.

Section walk.
Context (next : Gate → list ptr) (c : Z) (h0 : heap) (rank : nat → nat).
Hypothesis next_valid : ∀ a g, h0 !! a = Some g → Forall (valid h0) (next g).
Hypothesis next_rank :
  ∀ a g d, h0 !! a = Some g → Some d ∈ next g → (rank d < rank a)%nat.
Hypothesis next_addColor : ∀ g, next (addColor c g) = next g.

Lemma walks_app S1 S2 h h1 h2 n1 n2 :
  walks next c S1 h h1 n1 → walks next c S2 h1 h2 n2 →
  walks next c (S1 ++ S2) h h2 (n1 + n2).
Proof.
  induction 1 as [h|a g rest h h' n Hg _ IH]; intros H2; [done|].
  simpl. econstructor; [done|]. rewrite app_assoc. by apply IH.
Qed.

Lemma recolour_next h a g g0 :
  recolour c h0 h → h0 !! a = Some g0 → h !! a = Some g → next g = next g0.
Proof.
  intros [_ K] H0 Hg. destruct (K a g0 H0) as (g' & Hg' & [->| ->]).
  - congruence.
  - assert (g = addColor c g0) as -> by congruence. apply next_addColor.
Qed.

Lemma cone_coloured_nil h : cone_coloured next c h0 [] h h.
Proof.
  split; [done|]. intros b gb Hb. split; [|by left].
  intros (a & Ha & _). by apply not_elem_of_nil in Ha.
Qed.

Lemma cone_coloured_app S1 S2 h h1 h2 :
  cone_coloured next c h0 S1 h h1 → cone_coloured next c h0 S2 h1 h2 →
  cone_coloured next c h0 (S1 ++ S2) h h2.
Proof.
  intros [L1 K1] [L2 K2]. split; [congruence|]. intros b gb Hb. simpl.
  destruct (K1 b gb Hb) as [Hr1 Hd1].
  assert (Hcases : ∀ g1, h1 !! b = Some g1 → g1 = gb ∨ g1 = addColor c gb →
            (h2 !! b = Some g1 ∨
             ((∃ a, Some a ∈ S2 ∧ reach next h0 a b) ∧
              h2 !! b = Some (addColor c g1))) ∧
            ((∃ a, Some a ∈ S2 ∧ reach next h0 a b) →
             h2 !! b = Some (addColor c g1))).
  { intros g1 Hg1 _. destruct (K2 b g1 Hg1) as [Hr2 Hd2]. done. }
  split.
  - intros (a & Ha & Hreach). apply elem_of_app in Ha as [Ha|Ha].
    + pose proof (Hr1 (ex_intro _ a (conj Ha Hreach))) as H1.
      destruct (Hcases _ H1 (or_intror eq_refl)) as [[?|[_ ?]] _];
        [done|by rewrite addColor_idem in *].
    + destruct Hd1 as [H1|[_ H1]].
      * destruct (Hcases _ H1 (or_introl eq_refl)) as [_ Hr2].
        apply Hr2. eauto.
      * destruct (Hcases _ H1 (or_intror eq_refl)) as [_ Hr2].
        rewrite <- (addColor_idem c gb). apply Hr2. eauto.
  - destruct Hd1 as [H1|[(a & Ha & Hreach) H1]].
    + destruct (Hcases _ H1 (or_introl eq_refl)) as [[?|[(a & Ha & Hreach) ?]] _];
        [by left|right].
      split; [|done]. exists a. split; [|done]. apply elem_of_app. by right.
    + right. split.
      { exists a. split; [|done]. apply elem_of_app. by left. }
      destruct (Hcases _ H1 (or_intror eq_refl)) as [[?|[_ ?]] _];
        [done|by rewrite addColor_idem in *].
Qed.

Lemma walk_ranked n :
  (∀ a h, (rank a < n)%nat → valid h0 (Some a) → recolour c h0 h →
     ∃ h' k, walks next c [Some a] h h' k ∧ recolour c h0 h' ∧
             cone_coloured next c h0 [Some a] h h') ∧
  (∀ S h, Forall (λ p, ∃ a, p = Some a ∧ (rank a < n)%nat ∧ valid h0 p) S →
     recolour c h0 h →
     ∃ h' k, walks next c S h h' k ∧ recolour c h0 h' ∧
             cone_coloured next c h0 S h h').
Proof.
  induction n as [|n [IH1 IH2]].
  { split; [intros; lia|]. intros S h HS Hr.
    destruct HS as [|p S (a & _ & ? & _) _]; [|lia].
    exists h, 0%nat. split; [constructor|]. split; [done|].
    apply cone_coloured_nil. }
  assert (Hone : ∀ a h, (rank a < S n)%nat → valid h0 (Some a) → recolour c h0 h →
     ∃ h' k, walks next c [Some a] h h' k ∧ recolour c h0 h' ∧
             cone_coloured next c h0 [Some a] h h').
  { intros a h Hrank (a' & g0 & [= <-] & H0) Hr.
    destruct (proj2 Hr a g0 H0) as (g & Hg & Hgg).
    assert (Ha : (a < length h)%nat) by (by eapply lookup_lt_Some).
    assert (Enext : next g = next g0) by (by eapply recolour_next).
    set (h1 := <[a := addColor c g]> h).
    assert (Hr1 : recolour c h0 h1).
    { eapply recolour_trans; [exact Hr|]. by apply recolour_insert. }
    destruct (IH2 (rev (next g0)) h1) as (h' & k & Hw & Hr' & Hc); [|done|].
    { apply Forall_forall. intros p Hp. rewrite elem_of_rev in Hp.
      pose proof (next_valid a g0 H0) as Hv. rewrite Forall_forall in Hv.
      pose proof (Hv p Hp) as Hvp. destruct Hvp as (d & gd & -> & Hgd).
      exists d. split; [done|]. split; [|by exists d, gd].
      pose proof (next_rank a g0 d H0 Hp). lia. }
    exists h', (S k). split.
    { econstructor; [exact Hg|]. rewrite Enext, app_nil_r. exact Hw. }
    split; [done|]. destruct Hc as [L K]. split.
    { rewrite L. unfold h1. by rewrite length_insert. }
    intros b gb Hb. simpl.
    destruct (decide (b = a)) as [->|Hne].
    - assert (gb = g) as -> by congruence.
      assert (H1a : h1 !! a = Some (addColor c g))
        by (by apply list_lookup_insert_eq).
      destruct (K a _ H1a) as [_ Hd].
      assert (Hfin : h' !! a = Some (addColor c g)).
      { destruct Hd as [?|[_ ?]]; [done|by rewrite addColor_idem in *]. }
      split; [done|]. right. split; [|done].
      exists a. split; [by apply list_elem_of_here|constructor].
    - assert (H1b : h1 !! b = Some gb).
      { unfold h1. by rewrite list_lookup_insert_ne. }
      destruct (K b gb H1b) as [Hreach Hd]. split.
      + intros (a' & Ha' & Hab). apply list_elem_of_singleton in Ha' as [= ->].
        inversion Hab as [|? g0' d ? H0' Hd' Hdb]; subst; [done|].
        assert (g0' = g0) as -> by congruence.
        apply Hreach. exists d. split; [by apply elem_of_rev|done].
      + destruct Hd as [?|[(d & Hd & Hdb) ?]]; [by left|right].
        split; [|done]. exists a. split; [by apply list_elem_of_here|].
        rewrite elem_of_rev in Hd. by econstructor. }
  split; [exact Hone|].
  intros S0 h HS. revert h. induction HS as [|p S0 (a & -> & Hrank & Hv) _ IHS];
    intros h Hr.
  - exists h, 0%nat. split; [constructor|]. split; [done|].
    apply cone_coloured_nil.
  - destruct (Hone a h Hrank Hv Hr) as (h1 & k1 & Hw1 & Hr1 & Hc1).
    destruct (IHS h1 Hr1) as (h2 & k2 & Hw2 & Hr2 & Hc2).
    exists h2, (k1 + k2)%nat. split.
    { by apply (walks_app [Some a] S0 h h1 h2). }
    split; [done|]. by apply (cone_coloured_app [Some a] S0 h h1 h2).
Qed.

Lemma walk_cone a g :
  h0 !! a = Some g →
  ∃ h' k, walks next c [Some a] h0 h' k ∧
    length h' = length h0 ∧
    ∀ b gb, h0 !! b = Some gb →
      (reach next h0 a b → h' !! b = Some (addColor c gb)) ∧
      (¬ reach next h0 a b → h' !! b = Some gb).
Proof.
  intros Hg.
  destruct (proj1 (walk_ranked (S (rank a))) a h0)
    as (h' & k & Hw & _ & [L K]); [lia|by exists a, g|apply recolour_refl|].
  exists h', k. split; [done|]. split; [done|].
  intros b gb Hb. destruct (K b gb Hb) as [Hreach Hd]. split.
  - intros Hab. apply Hreach. exists a. split; [apply list_elem_of_here|done].
  - intros Hnot. destruct Hd as [?|[(a' & Ha' & Hab) _]]; [done|].
    apply list_elem_of_singleton in Ha' as [= ->]. done.
Qed.

End walk.

(** X3.  [colorInTree] returns when the driver pointers are valid and form
    no cycle.  The gates then coloured are exactly the start gate, its
    drivers, their drivers and so on; nothing else in the store changes. *)
Theorem colorInTree_colours_cone (c : Z) (h : heap) (a : nat) (g : Gate) :
  wired h → graded inputs h → h !! a = Some g →
  ∃ fuel0, ∀ fuel, (fuel0 ≤ fuel)%nat →
    ∃ h', colorInTree fuel (Some a) c h = Some (tt, h') ∧
      length h' = length h ∧
      ∀ b gb, h !! b = Some gb →
        (reach inputs h a b → h' !! b = Some (addColor c gb)) ∧
        (¬ reach inputs h a b → h' !! b = Some gb).
Proof.
  intros Hw (rank & Hrank) Hg.
  destruct (walk_cone inputs c h rank) with (a := a) (g := g)
    as (h' & k & Hwalk & Hl & Hspec); [|done|done|done|].
  { intros a0 g0 H0. by apply (Hw a0 g0). }
  exists k. intros fuel Hfuel. exists h'. split; [|done].
  by apply (colorInTree_loop_walks c [Some a] h h' k).
Qed.

(** X4.  [colorOutTree] does the same along the follower pointers: it
    colours exactly the start gate and the gates reached from it through
    followers. *)
Theorem colorOutTree_colours_cone (c : Z) (h : heap) (a : nat) (g : Gate) :
  wired h → graded followingGates h → h !! a = Some g →
  ∃ fuel0, ∀ fuel, (fuel0 ≤ fuel)%nat →
    ∃ h', colorOutTree fuel (Some a) c h = Some (tt, h') ∧
      length h' = length h ∧
      ∀ b gb, h !! b = Some gb →
        (reach followingGates h a b → h' !! b = Some (addColor c gb)) ∧
        (¬ reach followingGates h a b → h' !! b = Some gb).
Proof.
  intros Hw (rank & Hrank) Hg.
  destruct (walk_cone followingGates c h rank) with (a := a) (g := g)
    as (h' & k & Hwalk & Hl & Hspec); [|done|done|done|].
  { intros a0 g0 H0. by apply (Hw a0 g0). }
  exists k. intros fuel Hfuel. exists h'. split; [|done].
  by apply (colorOutTree_loop_walks c [Some a] h h' k).
Qed.

Lemma loaded_or2_graded net h :
  loaded 4 or2_aag = Some (net, h) →
  graded inputs h ∧ graded followingGates h.
Proof.
  intros E. vm_compute in E. injection E as <- <-. split.
  - exists (λ a, a). intros a g d Hg Hd.
    destruct a as [|[|[|[|a]]]]; simpl in Hg; try done;
      injection Hg as <-; simpl in Hd; set_unfold; destruct_or?;
      simplify_eq; lia.
  - exists (λ a, (4 - a)%nat). intros a g d Hg Hd.
    destruct a as [|[|[|[|a]]]]; simpl in Hg; try done;
      injection Hg as <-; simpl in Hd; set_unfold; destruct_or?;
      simplify_eq; lia.
Qed.

Lemma colorInTree_colours_cone_witness :
  ∃ net h,
    loaded 4 or2_aag = Some (net, h) ∧
    ∃ fuel0, ∀ fuel, (fuel0 ≤ fuel)%nat →
      ∃ h', colorInTree fuel (Some 3%nat) 1 h = Some (tt, h') ∧
            length h' = length h.
Proof.
  destruct (loaded 4 or2_aag) as [[net h]|] eqn:E; [|by vm_compute in E].
  exists net, h. split; [done|].
  destruct (loaded_or2_scoap net h E) as [Hw _].
  destruct (loaded_or2_graded net h E) as [Hgr _].
  assert (∃ g, h !! 3%nat = Some g) as (g & Hg).
  { vm_compute in E. injection E as <- <-. by eexists. }
  destruct (colorInTree_colours_cone 1 h 3 g Hw Hgr Hg) as (fuel0 & H).
  exists fuel0. intros fuel Hfuel.
  destruct (H fuel Hfuel) as (h' & Hrun & Hl & _). by exists h'.
Defined.

Lemma colorOutTree_colours_cone_witness :
  ∃ net h,
    loaded 4 or2_aag = Some (net, h) ∧
    ∃ fuel0, ∀ fuel, (fuel0 ≤ fuel)%nat →
      ∃ h', colorOutTree fuel (Some 0%nat) 2 h = Some (tt, h') ∧
            length h' = length h.
Proof.
  destruct (loaded 4 or2_aag) as [[net h]|] eqn:E; [|by vm_compute in E].
  exists net, h. split; [done|].
  destruct (loaded_or2_scoap net h E) as [Hw _].
  destruct (loaded_or2_graded net h E) as [_ Hgr].
  assert (∃ g, h !! 0%nat = Some g) as (g & Hg).
  { vm_compute in E. injection E as <- <-. by eexists. }
  destruct (colorOutTree_colours_cone 2 h 0 g Hw Hgr Hg) as (fuel0 & H).
  exists fuel0. intros fuel Hfuel.
  destruct (H fuel Hfuel) as (h' & Hrun & Hl & _). by exists h'.
Defined.

(** *** The network lists *)

(** X14.  [remOutput] with an index out of range does nothing.  Otherwise
    one output goes: the outputs before it keep their numbers, the ones
    behind it move down by one, and the gates and inputs stay. *)
Theorem remOutput_getOutput (k j : nat) (net : Net.BooleanNet) :
  ((length (Net.outputs net) ≤ k)%nat → remOutput (Z.of_nat k) net = net) ∧
  ((k < length (Net.outputs net))%nat →
   length (Net.outputs (remOutput (Z.of_nat k) net))
   = (length (Net.outputs net) - 1)%nat ∧
   getOutput (remOutput (Z.of_nat k) net) (Z.of_nat j)
   = getOutput net (Z.of_nat (if (j <? k)%nat then j else S j))) ∧
  Net.gates (remOutput (Z.of_nat k) net) = Net.gates net ∧
  Net.inputs (remOutput (Z.of_nat k) net) = Net.inputs net.
Proof.
  unfold remOutput.
  destruct (Z.ltb_spec (Z.of_nat k) (Z.of_nat (length (Net.outputs net))))
    as [Hlt|Hge].
  - split; [lia|]. split; [|done]. intros Hk. simpl.
    rewrite Nat2Z.id. rewrite length_delete by (by apply lookup_lt_is_Some_2).
    split; [lia|]. unfold getOutput. simpl.
    rewrite length_delete by (by apply lookup_lt_is_Some_2).
    rewrite !Nat2Z.id.
    destruct (Nat.ltb_spec j k) as [Hjk|Hjk].
    + rewrite list_lookup_delete_lt by done.
      destruct (Z.ltb_spec (Z.of_nat j) (Z.of_nat (length (Net.outputs net) - 1)));
        destruct (Z.ltb_spec (Z.of_nat j) (Z.of_nat (length (Net.outputs net))));
        (done || lia).
    + rewrite list_lookup_delete_ge by lia.
      destruct (Z.ltb_spec (Z.of_nat j) (Z.of_nat (length (Net.outputs net) - 1)));
        destruct (Z.ltb_spec (Z.of_nat (S j)) (Z.of_nat (length (Net.outputs net))));
        (done || lia).
  - split; [done|]. split; [lia|done].
Qed.

(** *** The loader *)

Lemma load_body_result fuel s line I_ O_ A_ h r h' :
  load_body fuel s line I_ O_ A_ h = Some (r, h') →
  errors r = [] ∧ ∃ net, net_out r = Some net.
Proof.
  unfold load_body. intros E.
  apply bind_Some in E as (net & h1 & _ & E).
  destruct (load_inputs _ _ _) as [[s1 line1]|].
  2: { injection E as <- _. eauto. }
  apply bind_Some in E as (o & h2 & _ & E).
  destruct o as [[[[s2 line2] net2] O2]|].
  2: { injection E as <- _. eauto. }
  apply bind_Some in E as (ok & h3 & _ & E).
  destruct ok; injection E as <- _; eauto.
Qed.

(** X20.  Whatever the constructor of the loader returns is consistent.  If
    [isFileLoaded()] holds, the network has been assigned and no error was
    written, so [main] does not read an unassigned pointer.  If an error
    was written, nothing has been allocated: the network is unassigned and
    the store is as before.  A failure without an error message has
    assigned the network. *)
Theorem loader_result_consistent (fuel : nat) (file : option string)
    (h : heap) (r : AagLoader) (h' : heap) :
  AagLoader_new fuel file h = Some (r, h') →
  (isFileLoaded r = true → ∃ net, net_out r = Some net ∧ errors r = []) ∧
  (errors r ≠ [] → isFileLoaded r = false ∧ net_out r = None ∧ h' = h) ∧
  (isFileLoaded r = false → errors r = [] → ∃ net, net_out r = Some net).
Proof.
  unfold AagLoader_new. intros E.
  assert (Hearly : ∀ msg, ret (not_loaded None [msg]) h = Some (r, h') →
            (isFileLoaded r = true → ∃ net, net_out r = Some net ∧ errors r = []) ∧
            (errors r ≠ [] → isFileLoaded r = false ∧ net_out r = None ∧ h' = h) ∧
            (isFileLoaded r = false → errors r = [] → ∃ net, net_out r = Some net)).
  { intros msg [= <- <-]. split; [done|]. split; done. }
  destruct file as [text|]; [|by eapply Hearly].
  destruct (read_header (open text)) as [msg|M_ I_ L_ O_ A_ s line];
    [by eapply Hearly|].
  destruct (negb (M_ =? int_add (int_add I_ L_) A_)); [by eapply Hearly|].
  destruct (negb (L_ =? 0)); [by eapply Hearly|].
  destruct (load_body_result _ _ _ _ _ _ _ _ _ E) as (Herr & net & Hnet).
  split; [eauto|]. split; [done|eauto].
Qed.

Lemma loader_result_consistent_witness :
  ∃ r h', AagLoader_new 4 (Some and2_aag) [] = Some (r, h') ∧
          ∃ net, net_out r = Some net ∧ errors r = [].
Proof.
  destruct (AagLoader_new 4 (Some and2_aag) []) as [[r h']|] eqn:E;
    [|by vm_compute in E].
  exists r, h'. split; [done|].
  apply (loader_result_consistent 4 (Some and2_aag) [] r h' E).
  vm_compute in E. by injection E as <- _.
Defined.

(** *** The layout of the converted network *)

(** X16.  On a circuit [convDualRail] returns a network whose three lists
    are the old ones followed by as many new gates, allocated in the order
    gates, inputs, outputs; every output is linked with the new gate at its
    position; and no gate that was in the store changes its function. *)
Theorem convDualRail_doubles (net : Net.BooleanNet) (h : heap) :
  circuit h net →
  ∃ fuel0, ∀ fuel, (fuel0 ≤ fuel)%nat →
    ∃ net' h', convDualRail fuel net h = Some (net', h') ∧
      let n1 := (length h + length (Net.gates net))%nat in
      let n2 := (n1 + length (Net.inputs net))%nat in
      Net.gates net'
      = Net.gates net ++ fresh_from (length h) (length (Net.gates net)) ∧
      Net.inputs net'
      = Net.inputs net ++ fresh_from n1 (length (Net.inputs net)) ∧
      Net.outputs net'
      = Net.outputs net ++ fresh_from n2 (length (Net.outputs net)) ∧
      (∀ i a, Net.outputs net !! i = Some (Some a) → linked h' a (n2 + i)) ∧
      (∀ a g, h !! a = Some g →
              ∃ g', h' !! a = Some g' ∧ getFunction g' = getFunction g).
Proof.
  intros Hc. destruct (convDualRail_terminates net h Hc) as (fuel0 & H).
  exists fuel0. intros fuel Hfuel.
  destruct (H fuel Hfuel) as (net' & h' & E).
  exists net', h'. split; [done|].
  destruct (convDualRail_structure fuel net h net' h' (proj1 Hc) E)
    as (Eg & Ei & Eo & _ & _ & Hlink).
  split; [done|]. split; [done|]. split; [done|]. split; [done|].
  pose proof (keeps_run (length h) r_fn h (convDualRail fuel net) h net' h'
                (convDualRail_keeps_function fuel net (length h) h)
                (keeps_refl _ _ _ (le_n _) (λ _ _, eq_refl)) E) as (_ & _ & K).
  intros a g Hg. apply K; [by eapply lookup_lt_Some|done].
Qed.

Lemma convDualRail_doubles_witness :
  ∃ net h,
    loaded 4 or2_aag = Some (net, h) ∧
    ∃ fuel0, ∀ fuel, (fuel0 ≤ fuel)%nat →
      ∃ net' h', convDualRail fuel net h = Some (net', h') ∧
        length (Net.gates net') = 2%nat ∧ length (Net.inputs net') = 4%nat ∧
        length (Net.outputs net') = 2%nat.
Proof.
  destruct (loaded 4 or2_aag) as [[net h]|] eqn:E; [|by vm_compute in E].
  exists net, h. split; [done|].
  destruct (convDualRail_doubles net h (loaded_or2_circuit net h E)) as (fuel0 & H).
  exists fuel0. intros fuel Hfuel.
  destruct (H fuel Hfuel) as (net' & h' & Hrun & Eg & Ei & Eo & _).
  exists net', h'. split; [done|]. rewrite Eg, Ei, Eo.
  vm_compute in E. injection E as <- <-. done.
Defined.
